(** * PyonFX libass renderer: a shallow embedding of [ass_render.c]

    The development follows [src/pyonfx/libass/libass/ass_render.c]:

    - [Images]    : [ASS_Image], [ass_image_compare], [ass_detect_change];
    - [Collision] : [Rect], [overlap], [shift_event], [fit_rect],
                    [fix_collisions];
    - [Double]    : the conversions and [lrint] of the C library on doubles;
    - [Binary64]  : the real value of a double, and the operations that are
                    exact or round to a neighbour;
    - [Combine]   : [render_and_combine_glyphs];
    - [Frame]     : [ass_render_event], [cmp_event_layer], [ass_render_frame];
    - [Wrap]      : [wrap_lines_smart] (greedy wrap and balance loop);
    - [Trim]      : [trim_whitespace];
    - [Layout]    : [preliminary_layout], [compute_string_bbox];
    - [Style]     : [handle_selective_style_overrides], [init_font_scale];
    - [Composite] : [ass_composite_construct];
    - [Transform] : [quantize_transform], [restore_transform];
    - [Blur]      : [quantize_blur], [restore_blur].

    Conventions.  A C [int], [int32_t] or [long long] is a [Z]; signed
    overflow is undefined in C, so the integer code is modelled on the runs
    that stay in range.  A pointer is an address ([Z] or [nat]) or an
    [option] when the code tests it against NULL.  A C [double] is a binary64
    primitive float; functions of the C library that the primitives do not
    provide ([log1p], [expm1]) are parameters.  A read through a null or
    out-of-bounds pointer is the outcome [Fault]. *)

From Stdlib Require Import ZArith Lia Floats Reals Lra String.
From stdpp Require Import base list gmap sorting.

Local Open Scope Z_scope.

(** ** Outcomes of code that can dereference a bad pointer *)

Inductive outcome (A : Type) : Type :=
| Ret (a : A)
| Fault.
Arguments Ret {A} a.
Arguments Fault {A}.

Definition obind {A B} (x : outcome A) (f : A -> outcome B) : outcome B :=
  match x with
  | Ret a => f a
  | Fault => Fault
  end.

(** * Images and the frame diff *)

Module Images.

(** [ASS_Image]: the fields the renderer reads and writes.  [bitmap] is the
    address of the first byte of the alpha bitmap. *)
Record ASS_Image : Type := mkImage {
  w : Z;
  h : Z;
  stride : Z;
  bitmap : Z;
  color : Z;
  dst_x : Z;
  dst_y : Z
}.

#[global] Instance ASS_Image_eq_dec : EqDecision ASS_Image.
Proof. solve_decision. Defined.

(** [ass_image_compare]: 0 identical, 1 different positions, 2 different
    content. *)
Definition ass_image_compare (i1 i2 : ASS_Image) : Z :=
  if negb (w i1 =? w i2) then 2
  else if negb (h i1 =? h i2) then 2
  else if negb (stride i1 =? stride i2) then 2
  else if negb (color i1 =? color i2) then 2
  else if negb (bitmap i1 =? bitmap i2) then 2
  else if negb (dst_x i1 =? dst_x i2) then 1
  else if negb (dst_y i1 =? dst_y i2) then 1
  else 0.

(** The [while (img && diff < 2)] loop of [ass_detect_change] over the two
    linked lists; it returns [diff] and what is left of the current list
    ([img2]).  On the [break] taken when the current list is the shorter one,
    [img2] is null. *)
Fixpoint detect_loop (img img2 : list ASS_Image) (diff : Z)
  : Z * list ASS_Image :=
  match img with
  | [] => (diff, img2)
  | i1 :: next =>
      if diff <? 2 then
        match img2 with
        | i2 :: next2 =>
            let d := ass_image_compare i1 i2 in
            detect_loop next next2 (if d >? diff then d else diff)
        | [] => (2, [])
        end
      else (diff, img2)
  end.

(** [ass_detect_change] with [prev_images_root] and [images_root] as lists. *)
Definition ass_detect_change (prev_images_root images_root : list ASS_Image)
  : Z :=
  let '(diff, img2) := detect_loop prev_images_root images_root 0 in
  match img2 with
  | _ :: _ => 2
  | [] => diff
  end.

(** The two ways a positionally paired couple of images can differ. *)
Definition content_differs (a b : ASS_Image) : Prop :=
  bitmap a <> bitmap b \/ w a <> w b \/ h a <> h b \/
  stride a <> stride b \/ color a <> color b.

Definition position_differs (a b : ASS_Image) : Prop :=
  dst_x a <> dst_x b \/ dst_y a <> dst_y b.

(** Some pair at the same index satisfies [P]. *)
Definition some_pair (P : ASS_Image -> ASS_Image -> Prop)
    (l1 l2 : list ASS_Image) : Prop :=
  exists (i : nat) a b, l1 !! i = Some a /\ l2 !! i = Some b /\ P a b.

Definition content_changed (l1 l2 : list ASS_Image) : Prop :=
  length l1 <> length l2 \/ some_pair content_differs l1 l2.

Lemma compare_range a b :
  ass_image_compare a b = 0 \/ ass_image_compare a b = 1 \/
  ass_image_compare a b = 2.
Proof.
  unfold ass_image_compare.
  repeat (case (negb _); [auto |]). auto.
Qed.

Lemma compare_two a b : ass_image_compare a b = 2 <-> content_differs a b.
Proof.
  unfold ass_image_compare, content_differs.
  repeat match goal with
         | |- context [?x =? ?y] => destruct (Z.eqb_spec x y); simpl
         end; split; intros; try lia; try tauto; try discriminate.
Qed.

Lemma compare_one a b :
  ass_image_compare a b = 1 <->
  ~ content_differs a b /\ position_differs a b.
Proof.
  unfold ass_image_compare, content_differs, position_differs.
  repeat match goal with
         | |- context [?x =? ?y] => destruct (Z.eqb_spec x y); simpl
         end; split; intros; try lia; try tauto; try discriminate.
Qed.

Lemma some_pair_cons P a b l1 l2 :
  some_pair P (a :: l1) (b :: l2) <-> P a b \/ some_pair P l1 l2.
Proof.
  unfold some_pair. split.
  - intros (i & x & y & H1 & H2 & HP). destruct i as [|i]; simpl in *.
    + left. congruence.
    + right. eauto 6.
  - intros [HP | (i & x & y & H1 & H2 & HP)].
    + exists 0%nat, a, b. auto.
    + exists (S i), x, y. auto.
Qed.

Lemma some_pair_nil_r P l : ~ some_pair P l [].
Proof. intros (i & x & y & _ & H & _). destruct i; discriminate. Qed.

Lemma some_pair_nil_l P l : ~ some_pair P [] l.
Proof. intros (i & x & y & H & _ & _). destruct i; discriminate. Qed.

(** What the loop computes from a running [diff] of 0 or 1. *)
Lemma detect_loop_spec l1 : forall l2 diff,
  (diff = 0 \/ diff = 1) ->
  let r := match snd (detect_loop l1 l2 diff) with
           | _ :: _ => 2
           | [] => fst (detect_loop l1 l2 diff)
           end in
  (r = 2 <-> content_changed l1 l2) /\
  (r = 1 <-> ~ content_changed l1 l2 /\
             (diff = 1 \/ some_pair position_differs l1 l2)) /\
  (r = 0 <-> ~ content_changed l1 l2 /\ diff = 0 /\
             ~ some_pair position_differs l1 l2).
Proof.
  induction l1 as [|a l1 IH]; intros l2 diff Hd; cbn zeta.
  - pose proof (some_pair_nil_l content_differs l2).
    pose proof (some_pair_nil_l position_differs l2).
    unfold content_changed.
    destruct l2 as [|b l2]; simpl; intuition (try lia; try discriminate).
  - simpl. replace (diff <? 2) with true by (symmetry; apply Z.ltb_lt; lia).
    destruct l2 as [|b l2].
    + pose proof (some_pair_nil_r content_differs (a :: l1)).
      pose proof (some_pair_nil_r position_differs (a :: l1)).
      unfold content_changed.
      simpl; intuition (try lia; try discriminate).
    + set (d := ass_image_compare a b).
      pose proof (compare_range a b) as Hr. fold d in Hr.
      pose proof (compare_two a b) as H2. fold d in H2.
      pose proof (compare_one a b) as H1. fold d in H1.
      assert (Hcc : content_changed (a :: l1) (b :: l2) <->
                    content_differs a b \/ content_changed l1 l2).
      { unfold content_changed. rewrite some_pair_cons. simpl.
        split; intros [H | H]; try tauto.
        - right. left. lia.
        - destruct H as [H | H]; [ left; lia | tauto ]. }
      rewrite Hcc, (some_pair_cons position_differs).
      destruct (Z.gtb_spec d diff) as [Hgt | Hle].
      * destruct Hr as [Hr | [Hr | Hr]]; [lia | |].
        -- (* d = 1, diff = 0 *)
           specialize (IH l2 d (or_intror Hr)). cbn zeta in IH.
           destruct IH as (I2 & I1 & I0).
           rewrite I2, I1, I0. intuition (try lia).
        -- (* d = 2: the loop stops *)
           rewrite Hr. destruct l1 as [|a' l1]; simpl.
           ++ destruct l2; simpl; intuition (try lia).
           ++ destruct l2; simpl; intuition (try lia).
      * specialize (IH l2 diff Hd). cbn zeta in IH.
        destruct IH as (I2 & I1 & I0).
        rewrite I2, I1, I0. intuition (try lia).
Qed.

(** C6: the frame diff is 2 exactly when the lists differ in length or some
    paired images differ in bitmap pointer, width, height, stride or color;
    it is 1 exactly when none of that holds and some pair differs in
    [dst_x] or [dst_y]; it is 0 exactly when neither holds. *)
Theorem ass_detect_change_classifies (prev cur : list ASS_Image) :
  (ass_detect_change prev cur = 2 <-> content_changed prev cur) /\
  (ass_detect_change prev cur = 1 <->
     ~ content_changed prev cur /\ some_pair position_differs prev cur) /\
  (ass_detect_change prev cur = 0 <->
     ~ content_changed prev cur /\ ~ some_pair position_differs prev cur).
Proof.
  pose proof (detect_loop_spec prev cur 0 (or_introl eq_refl)) as H.
  cbn zeta in H. unfold ass_detect_change.
  destruct (detect_loop prev cur 0) as [diff img2]. simpl in H.
  destruct H as (H2 & H1 & H0).
  split; [exact H2 | split].
  - rewrite H1. intuition lia.
  - rewrite H0. intuition lia.
Qed.

(** ** What the comparison of two images depends on *)

(** [ass_image_compare] does not depend on the order of its arguments, and
    it returns 0 for two images exactly when the seven fields it reads are
    the same in both. *)
Theorem ass_image_compare_symmetric (i1 i2 : ASS_Image) :
  ass_image_compare i1 i2 = ass_image_compare i2 i1 /\
  (ass_image_compare i1 i2 = 0 <-> i1 = i2).
Proof.
  destruct i1 as [w1 h1 s1 b1 c1 x1 y1], i2 as [w2 h2 s2 b2 c2 x2 y2].
  unfold ass_image_compare. cbn [w h stride bitmap color dst_x dst_y].
  split.
  - rewrite (Z.eqb_sym w1), (Z.eqb_sym h1), (Z.eqb_sym s1), (Z.eqb_sym c1),
      (Z.eqb_sym b1), (Z.eqb_sym x1), (Z.eqb_sym y1). reflexivity.
  - destruct (Z.eqb_spec w1 w2), (Z.eqb_spec h1 h2), (Z.eqb_spec s1 s2),
      (Z.eqb_spec c1 c2), (Z.eqb_spec b1 b2), (Z.eqb_spec x1 x2),
      (Z.eqb_spec y1 y2); cbn [negb];
      split; intros E; try discriminate; try (injection E; intros; lia);
      subst; reflexivity.
Qed.

End Images.

(** * Collision resolution *)

Module Collision.
Import Images.

(** [Rect]: a plain axis-aligned box, used only for overlap arithmetic. *)
Record Rect : Type := mkRect {
  x0 : Z;
  y0 : Z;
  x1 : Z;
  y1 : Z
}.

(** [ASS_RenderPriv]: the box an event was fixed at, tagged with the render
    generation that fixed it.  It hangs off [event->render_priv]. *)
Record ASS_RenderPriv : Type := mkPriv {
  priv_top : Z;
  priv_height : Z;
  priv_left : Z;
  priv_width : Z;
  priv_render_id : Z
}.

(** [EventImages]: the images of one rendered event with its collision
    metadata.  [event] is the address of the [ASS_Event]. *)
Record EventImages : Type := mkEventImages {
  imgs : list ASS_Image;
  top : Z;
  height : Z;
  left : Z;
  width : Z;
  detect_collisions : Z;
  shift_direction : Z;
  event : nat
}.

Definition overlap (s1 s2 : Rect) : Z :=
  if (y0 s1 >=? y1 s2) || (y0 s2 >=? y1 s1) ||
     (x0 s1 >=? x1 s2) || (x0 s2 >=? x1 s1)
  then 0 else 1.

Definition cmp_rect_y0 (p1 p2 : Rect) : Z := y0 p1 - y0 p2.

(** One turn of the [while (cur)] loop of [shift_event] on one image;
    [frame_height] is [render_priv->height]. *)
Definition shift_image (frame_height shift : Z) (cur : ASS_Image) : ASS_Image :=
  let cur := mkImage (w cur) (h cur) (stride cur) (bitmap cur) (color cur)
                     (dst_x cur) (dst_y cur + shift) in
  let cur :=
    if dst_y cur <? 0 then
      let clip := - dst_y cur in
      mkImage (w cur) (h cur - clip) (stride cur)
              (bitmap cur + clip * stride cur) (color cur) (dst_x cur) 0
    else cur in
  let cur :=
    if dst_y cur + h cur >=? frame_height then
      let clip := dst_y cur + h cur - frame_height in
      mkImage (w cur) (h cur - clip) (stride cur) (bitmap cur) (color cur)
              (dst_x cur) (dst_y cur)
    else cur in
  if h cur <=? 0 then
    mkImage (w cur) 0 (stride cur) (bitmap cur) (color cur) (dst_x cur) 0
  else cur.

Definition shift_event (frame_height : Z) (ei : EventImages) (shift : Z)
  : EventImages :=
  mkEventImages (shift_image frame_height shift <$> imgs ei)
                (top ei + shift) (height ei) (left ei) (width ei)
                (detect_collisions ei) (shift_direction ei) (event ei).

(** The test both loops of [fit_rect] make on [fixed[i]]: the box [s] moved
    by [shift] meets [f]. *)
Definition hits (s : Rect) (shift : Z) (f : Rect) : bool :=
  negb ((y1 s + shift <=? y0 f) || (y0 s + shift >=? y1 f) ||
        (x1 s <=? x0 f) || (x0 s >=? x1 f)).

(** [dir == 1]: [for (i = 0; i < *cnt; ++i)]. *)
Fixpoint fit_down (s : Rect) (fixed : list Rect) (shift : Z) : Z :=
  match fixed with
  | [] => shift
  | f :: rest =>
      if hits s shift f then fit_down s rest (y1 f - y0 s)
      else fit_down s rest shift
  end.

(** [dir == -1]: [for (i = *cnt - 1; i >= 0; --i)]; the argument is the
    array read from its last entry to its first. *)
Fixpoint fit_up (s : Rect) (fixed_rev : list Rect) (shift : Z) : Z :=
  match fixed_rev with
  | [] => shift
  | f :: rest =>
      if hits s shift f then fit_up s rest (y0 f - y1 s)
      else fit_up s rest shift
  end.

Definition moved (s : Rect) (shift : Z) : Rect :=
  mkRect (x0 s) (y0 s + shift) (x1 s) (y1 s + shift).

Definition rect_of_priv (p : ASS_RenderPriv) : Rect :=
  mkRect (priv_left p) (priv_top p)
         (priv_left p + priv_width p) (priv_top p + priv_height p).

Definition rect_of_images (ei : EventImages) : Rect :=
  mkRect (left ei) (top ei) (left ei + width ei) (top ei + height ei).

(** [priv->top = priv->height = priv->left = priv->width = 0]. *)
Definition unfix (p : ASS_RenderPriv) : ASS_RenderPriv :=
  mkPriv 0 0 0 0 (priv_render_id p).

(** The state [fix_collisions] works on: the [render_priv] of every event
    (keyed by the event's address; no entry is a null pointer), the number of
    [calloc] calls made so far, the first [cnt_used] entries of [used], and
    the calls of [shift_event] made so far as (index in [imgs], shift). *)
Record state : Type := mkState {
  privs : gmap nat ASS_RenderPriv;
  callocs : nat;
  used : list Rect;
  shifts : list (nat * Z)
}.

(** [!imgs[i].detect_collisions || !imgs[i].height || !imgs[i].width]. *)
Definition not_collidable (ei : EventImages) : bool :=
  (detect_collisions ei =? 0) || (height ei =? 0) || (width ei =? 0).

Section WithLibc.

(** [qsort] of the C library: any function that returns a permutation of
    the array in ascending order of a consistent comparison. *)
Variable qsort : forall A : Type, (A -> A -> Z) -> list A -> list A.

(** [calloc_ok n]: whether the [n]-th call of [calloc] returns memory;
    [used_ok]: whether [ass_realloc_array] does for [used]. *)
Variable calloc_ok : nat -> bool.
Variable used_ok : bool.

(** [render_priv->height] and [render_priv->render_id]. *)
Variable frame_height : Z.
Variable render_id : Z.

Definition get_render_priv (st : state) (ev : nat)
  : state * option ASS_RenderPriv :=
  let refresh (p : ASS_RenderPriv) :=
    if negb (render_id =? priv_render_id p) then mkPriv 0 0 0 0 render_id
    else p in
  match privs st !! ev with
  | Some p =>
      let p := refresh p in
      (mkState (<[ev := p]> (privs st)) (callocs st) (used st) (shifts st),
       Some p)
  | None =>
      if calloc_ok (callocs st) then
        let p := refresh (mkPriv 0 0 0 0 0) in
        (mkState (<[ev := p]> (privs st)) (S (callocs st)) (used st)
                 (shifts st), Some p)
      else
        (mkState (privs st) (S (callocs st)) (used st) (shifts st), None)
  end.

Definition fit_rect (s : Rect) (fixed : list Rect) (dir : Z)
  : Z * list Rect :=
  let shift :=
    if dir =? 1 then fit_down s fixed 0 else fit_up s (reverse fixed) 0 in
  (shift, qsort Rect cmp_rect_y0 (fixed ++ [moved s shift])).

(** Body of the first loop of [fix_collisions] for [imgs[i]]. *)
Definition fill_step (i : nat) (ei : EventImages) (st : state)
  : state * EventImages :=
  if not_collidable ei then (st, ei)
  else
    let '(st, priv) := get_render_priv st (event ei) in
    match priv with
    | Some p =>
        if priv_height p >? 0 then
          let s := rect_of_priv p in
          let p := if negb (priv_height p =? height ei) then unfix p else p in
          let p :=
            fold_left
              (fun q u => if negb (overlap s u =? 0) then unfix q else q)
              (used st) p in
          if priv_height p >? 0 then
            let shift := priv_top p - top ei in
            (mkState (<[event ei := p]> (privs st)) (callocs st)
                     (used st ++ [rect_of_priv p])
                     (shifts st ++ [(i, shift)]),
             shift_event frame_height ei shift)
          else
            (mkState (<[event ei := p]> (privs st)) (callocs st) (used st)
                     (shifts st), ei)
        else (st, ei)
    | None => (st, ei)
    end.

(** Body of the second loop of [fix_collisions] for [imgs[i]]. *)
Definition fit_step (i : nat) (ei : EventImages) (st : state)
  : state * EventImages :=
  if not_collidable ei then (st, ei)
  else
    let '(st, priv) := get_render_priv st (event ei) in
    match priv with
    | Some p =>
        if priv_height p =? 0 then
          let s := rect_of_images ei in
          let '(shift, fixed) := fit_rect s (used st) (shift_direction ei) in
          let ei' :=
            if negb (shift =? 0) then shift_event frame_height ei shift
            else ei in
          let log :=
            if negb (shift =? 0) then shifts st ++ [(i, shift)]
            else shifts st in
          let p := mkPriv (top ei') (height ei') (left ei') (width ei')
                          (priv_render_id p) in
          (mkState (<[event ei := p]> (privs st)) (callocs st) fixed log, ei')
        else (st, ei)
    | None => (st, ei)
    end.

(** A [for (i = 0; i < cnt; ++i)] loop over [imgs], from index [i] on. *)
Fixpoint for_each (step : nat -> EventImages -> state -> state * EventImages)
    (i : nat) (l : list EventImages) (st : state)
  : state * list EventImages :=
  match l with
  | [] => (st, [])
  | ei :: rest =>
      let '(st, ei') := step i ei st in
      let '(st, rest') := for_each step (S i) rest st in
      (st, ei' :: rest')
  end.

(** [fix_collisions] on the group [imgs]: the events' [render_priv], the
    images and, as [used] of the final state, the boxes it committed (the
    array the code frees on return).  [privs0] and [callocs0] are the state
    on entry. *)
Definition fix_collisions (privs0 : gmap nat ASS_RenderPriv) (callocs0 : nat)
    (imgs : list EventImages) : state * list EventImages :=
  if negb used_ok then (mkState privs0 callocs0 [] [], imgs)
  else
    let '(st, imgs) := for_each fill_step 0 imgs (mkState privs0 callocs0 [] []) in
    let st := mkState (privs st) (callocs st)
                      (qsort Rect cmp_rect_y0 (used st)) (shifts st) in
    for_each fit_step 0 imgs st.

End WithLibc.

Arguments fit_rect : simpl never.
Arguments get_render_priv : simpl never.

(** ** Overlap arithmetic *)

Lemma overlap_range a b : overlap a b = 0 \/ overlap a b = 1.
Proof. unfold overlap. case (_ || _); auto. Qed.

Lemma overlap_zero a b :
  overlap a b = 0 <->
  y1 b <= y0 a \/ y1 a <= y0 b \/ x1 b <= x0 a \/ x1 a <= x0 b.
Proof.
  unfold overlap.
  destruct (Z.geb_spec (y0 a) (y1 b)), (Z.geb_spec (y0 b) (y1 a)),
    (Z.geb_spec (x0 a) (x1 b)), (Z.geb_spec (x0 b) (x1 a)); simpl;
    split; intros; try lia; try discriminate.
Qed.

Lemma overlap_sym a b : overlap a b = overlap b a.
Proof.
  destruct (overlap_range a b) as [H | H], (overlap_range b a) as [H' | H'];
    try congruence.
  - apply overlap_zero in H. assert (overlap b a = 0) by (apply overlap_zero; lia).
    congruence.
  - apply overlap_zero in H'. assert (overlap a b = 0) by (apply overlap_zero; lia).
    congruence.
Qed.

(** For boxes of positive width and height the test of [overlap] says that
    the intersection has positive area. *)
Lemma overlap_positive_area a b :
  x0 a < x1 a -> y0 a < y1 a -> x0 b < x1 b -> y0 b < y1 b ->
  (overlap a b = 1 <->
   0 < (Z.min (x1 a) (x1 b) - Z.max (x0 a) (x0 b)) /\
   0 < (Z.min (y1 a) (y1 b) - Z.max (y0 a) (y0 b))).
Proof.
  intros. destruct (overlap_range a b) as [E | E]; rewrite E.
  - apply overlap_zero in E. split; intros; lia.
  - assert (~ overlap a b = 0) as N by lia. rewrite overlap_zero in N.
    split; intros; lia.
Qed.

Lemma hits_overlap s shift f :
  hits s shift f = negb (overlap (moved s shift) f =? 0).
Proof.
  unfold hits, overlap, moved. simpl.
  destruct (Z.leb_spec (y1 s + shift) (y0 f)), (Z.geb_spec (y0 s + shift) (y1 f)),
    (Z.leb_spec (x1 s) (x0 f)), (Z.geb_spec (x0 s) (x1 f)),
    (Z.geb_spec (y0 f) (y1 s + shift)), (Z.geb_spec (x0 f) (x1 s));
    simpl; try reflexivity; lia.
Qed.

Lemma hits_false s shift f :
  hits s shift f = false <-> overlap (moved s shift) f = 0.
Proof.
  rewrite hits_overlap. destruct (Z.eqb_spec (overlap (moved s shift) f) 0);
    simpl; split; intros; try lia; try discriminate; auto.
Qed.

Lemma hits_true s shift f :
  hits s shift f = true ->
  y0 f < y1 s + shift /\ y0 s + shift < y1 f.
Proof.
  unfold hits. rewrite negb_true_iff, !orb_false_iff.
  rewrite !Z.leb_gt, Z.geb_leb, Z.leb_gt. lia.
Qed.

(** ** The two scans of [fit_rect] *)

(** Scanning down a list in ascending order of [y0]: the shift only grows,
    the moved box meets nothing in the list, and a box that starts above
    every entry is not moved. *)
Lemma fit_down_spec s : forall fixed shift,
  StronglySorted (fun a b => y0 a <= y0 b) fixed ->
  let r := fit_down s fixed shift in
  shift <= r /\
  Forall (fun f => overlap (moved s r) f = 0) fixed /\
  (Forall (fun f => y1 s + shift <= y0 f) fixed -> r = shift).
Proof.
  induction fixed as [|f rest IH]; intros shift Hs; cbn zeta; simpl.
  - repeat split; auto; lia.
  - apply StronglySorted_inv in Hs as [Hs Hf].
    destruct (hits s shift f) eqn:Hh.
    + apply hits_true in Hh.
      destruct (IH (y1 f - y0 s) Hs) as (Hle & Hall & _).
      repeat split; [lia | |].
      * constructor; [| exact Hall].
        apply overlap_zero. unfold moved; simpl. lia.
      * intros Habove. apply Forall_inv in Habove. lia.
    + destruct (IH shift Hs) as (Hle & Hall & Hsame).
      repeat split; [lia | |].
      * constructor; [| exact Hall].
        apply hits_false in Hh. rewrite overlap_zero in Hh |- *.
        unfold moved in *; simpl in *.
        destruct Hh as [Hh | [Hh | Hh]]; [lia | | lia].
        rewrite Hsame; [lia |].
        eapply Forall_impl; [exact Hf |]. simpl. intros; lia.
      * intros Habove. apply Hsame. eapply Forall_inv_tail, Habove.
Qed.

(** Scanning up a list in descending order of [y0]: either the box is not
    moved, or it ends right above an entry of the list; the moved box meets
    nothing in the list. *)
Lemma fit_up_spec s : forall fixed_rev shift,
  StronglySorted (fun a b => y0 b <= y0 a) fixed_rev ->
  let r := fit_up s fixed_rev shift in
  (r = shift \/ r < shift /\ Exists (fun f => y1 s + r = y0 f) fixed_rev) /\
  Forall (fun f => overlap (moved s r) f = 0) fixed_rev.
Proof.
  induction fixed_rev as [|f rest IH]; intros shift Hs; cbn zeta; simpl.
  - split; auto.
  - apply StronglySorted_inv in Hs as [Hs Hf].
    assert (Hbelow : forall r, Exists (fun g => y1 s + r = y0 g) rest ->
                               y1 s + r <= y0 f).
    { intros r Hex. rewrite Exists_exists in Hex. destruct Hex as (g & Hg & E).
      rewrite Forall_forall in Hf. specialize (Hf g Hg). simpl in Hf. lia. }
    destruct (hits s shift f) eqn:Hh.
    + apply hits_true in Hh.
      destruct (IH (y0 f - y1 s) Hs) as (Hcase & Hall).
      split.
      * right. destruct Hcase as [E | [Hlt Hex]].
        -- split; [lia |]. left. lia.
        -- split; [lia |]. right. exact Hex.
      * constructor; [| exact Hall].
        apply overlap_zero. unfold moved; simpl.
        destruct Hcase as [E | [Hlt Hex]]; [lia |].
        specialize (Hbelow _ Hex). lia.
    + destruct (IH shift Hs) as (Hcase & Hall).
      split.
      * destruct Hcase as [E | [Hlt Hex]]; [left; exact E |].
        right. split; [exact Hlt |]. right. exact Hex.
      * constructor; [| exact Hall].
        destruct Hcase as [E | [Hlt Hex]].
        -- rewrite E. apply hits_false. exact Hh.
        -- specialize (Hbelow _ Hex).
           apply overlap_zero. unfold moved; simpl. lia.
Qed.

(** ** Committed boxes *)

(** No two entries of the list meet. *)
Inductive disjoint : list Rect -> Prop :=
| disjoint_nil : disjoint []
| disjoint_cons b l :
    Forall (fun u => overlap b u = 0) l -> disjoint l -> disjoint (b :: l).

Lemma disjoint_Permutation l l' : l ≡ₚ l' -> disjoint l -> disjoint l'.
Proof.
  induction 1 as [| x l l' HP IH | x y l | l l' l'' _ IH1 _ IH2]; intros Hd.
  - exact Hd.
  - inversion Hd as [| ? ? Hx Hl]; subst. constructor; [| auto].
    rewrite <- HP. exact Hx.
  - inversion Hd as [| ? ? Hy Hl]; subst.
    inversion Hl as [| ? ? Hx Hl']; subst.
    apply Forall_cons in Hy as [Hyx Hy].
    constructor; [| constructor; assumption].
    constructor; [| exact Hx]. rewrite overlap_sym. exact Hyx.
  - auto.
Qed.

Lemma disjoint_lookup l :
  disjoint l ->
  forall (i j : nat) a b,
    i <> j -> l !! i = Some a -> l !! j = Some b -> overlap a b = 0.
Proof.
  induction 1 as [| x l Hx Hl IH]; intros i j a b Hij Hi Hj.
  - destruct i; discriminate.
  - rewrite Forall_forall in Hx.
    destruct i as [|i], j as [|j]; simpl in *; try lia.
    + injection Hi as <-. apply Hx. eapply list_elem_of_lookup_2, Hj.
    + injection Hj as <-. rewrite overlap_sym. apply Hx.
      eapply list_elem_of_lookup_2, Hi.
    + eapply (IH i j); eauto.
Qed.

Definition ascending : list Rect -> Prop :=
  StronglySorted (fun a b => y0 a <= y0 b).

(** The invariant of both loops of [fix_collisions], for the events whose
    addresses are in [D]: the committed boxes are pairwise disjoint, the box
    of every fixed event of [D] is committed, and the boxes of two fixed
    events of [D] do not meet. *)
Record Inv (D : gset nat) (m : gmap nat ASS_RenderPriv) (u : list Rect)
  : Prop := mkInv {
  inv_disjoint : disjoint u;
  inv_committed : forall ev p,
    ev ∈ D -> m !! ev = Some p -> priv_height p > 0 -> rect_of_priv p ∈ u;
  inv_apart : forall ev1 ev2 p1 p2,
    ev1 ∈ D -> ev2 ∈ D -> ev1 <> ev2 ->
    m !! ev1 = Some p1 -> m !! ev2 = Some p2 ->
    priv_height p1 > 0 -> priv_height p2 > 0 ->
    overlap (rect_of_priv p1) (rect_of_priv p2) = 0
}.

Lemma Inv_update D m u ev p' :
  Inv D m u ->
  (priv_height p' > 0 -> ev ∈ D -> m !! ev = Some p') ->
  Inv D (<[ev := p']> m) u.
Proof.
  intros [Hd Hc Ha] Hp. split; [exact Hd | |].
  - intros ev0 p H0 Hl Hh.
    destruct (decide (ev = ev0)) as [E | Hne]; [subst ev0 |].
    + rewrite lookup_insert_eq in Hl. injection Hl as <-. eauto.
    + rewrite lookup_insert_ne in Hl by exact Hne. eauto.
  - intros ev1 ev2 p1 p2 H1 H2 Hne Hl1 Hl2 Hh1 Hh2.
    destruct (decide (ev = ev1)) as [E1 | Hne1]; [subst ev1 |];
      (destruct (decide (ev = ev2)) as [E2 | Hne2]; [subst ev2 |]);
      try congruence.
    + rewrite lookup_insert_eq in Hl1. injection Hl1 as <-.
      rewrite lookup_insert_ne in Hl2 by exact Hne2. eauto.
    + rewrite lookup_insert_eq in Hl2. injection Hl2 as <-.
      rewrite lookup_insert_ne in Hl1 by exact Hne1. eauto.
    + rewrite lookup_insert_ne in Hl1 by exact Hne1.
      rewrite lookup_insert_ne in Hl2 by exact Hne2. eauto.
Qed.

Lemma Inv_add D m u ev :
  Inv D m u ->
  (forall p, m !! ev = Some p -> priv_height p <= 0) ->
  Inv (D ∪ {[ev]}) m u.
Proof.
  intros [Hd Hc Ha] Hp. split; [exact Hd | |].
  - intros ev0 p H0 Hl Hh.
    destruct (decide (ev0 = ev)) as [E | Hne].
    + subst ev0. specialize (Hp _ Hl). lia.
    + apply (Hc ev0); auto. set_solver.
  - intros ev1 ev2 p1 p2 H1 H2 Hne Hl1 Hl2 Hh1 Hh2.
    destruct (decide (ev1 = ev)) as [E1 | Hne1].
    { subst ev1. specialize (Hp _ Hl1). lia. }
    destruct (decide (ev2 = ev)) as [E2 | Hne2].
    { subst ev2. specialize (Hp _ Hl2). lia. }
    apply (Ha ev1 ev2); auto; set_solver.
Qed.

Lemma Inv_commit D m u u' ev p :
  Inv D m u ->
  Forall (fun x => overlap (rect_of_priv p) x = 0) u ->
  u' ≡ₚ rect_of_priv p :: u ->
  Inv (D ∪ {[ev]}) (<[ev := p]> m) u'.
Proof.
  intros [Hd Hc Ha] Hall HP. rewrite Forall_forall in Hall. split.
  - eapply disjoint_Permutation; [symmetry; exact HP |].
    constructor; [apply Forall_forall; exact Hall | exact Hd].
  - intros ev0 q H0 Hl Hh. rewrite HP.
    destruct (decide (ev = ev0)) as [E | Hne]; [subst ev0 |].
    + rewrite lookup_insert_eq in Hl. injection Hl as <-. left.
    + rewrite lookup_insert_ne in Hl by exact Hne. right.
      apply (Hc ev0); auto. set_solver.
  - intros ev1 ev2 p1 p2 H1 H2 Hne Hl1 Hl2 Hh1 Hh2.
    destruct (decide (ev = ev1)) as [E1 | Hne1]; [subst ev1 |];
      (destruct (decide (ev = ev2)) as [E2 | Hne2]; [subst ev2 |]);
      try congruence.
    + rewrite lookup_insert_eq in Hl1. injection Hl1 as <-.
      rewrite lookup_insert_ne in Hl2 by exact Hne2.
      apply Hall, (Hc ev2); auto. set_solver.
    + rewrite lookup_insert_eq in Hl2. injection Hl2 as <-.
      rewrite lookup_insert_ne in Hl1 by exact Hne1.
      rewrite overlap_sym. apply Hall, (Hc ev1); auto. set_solver.
    + rewrite lookup_insert_ne in Hl1 by exact Hne1.
      rewrite lookup_insert_ne in Hl2 by exact Hne2.
      apply (Ha ev1 ev2); auto; set_solver.
Qed.

Lemma Inv_Permutation D m u u' : u ≡ₚ u' -> Inv D m u -> Inv D m u'.
Proof.
  intros HP [Hd Hc Ha]. split.
  - eapply disjoint_Permutation; eauto.
  - intros. rewrite <- HP. eauto.
  - exact Ha.
Qed.

Lemma Inv_same D D' m u : D = D' -> Inv D m u -> Inv D' m u.
Proof. intros ->. auto. Qed.

(** The addresses of the events of a group that take part in collision
    detection. *)
Definition collidable (l : list EventImages) : gset nat :=
  list_to_set (event <$> filter (fun ei => not_collidable ei = false) l).

Lemma collidable_cons ei l :
  collidable (ei :: l) =
  (if not_collidable ei then ∅ else {[event ei]}) ∪ collidable l.
Proof.
  unfold collidable. rewrite filter_cons.
  destruct (decide (not_collidable ei = false)) as [E | E].
  - rewrite E. reflexivity.
  - destruct (not_collidable ei); [| congruence]. set_solver.
Qed.

Lemma elem_of_collidable ei l :
  ei ∈ l -> not_collidable ei = false -> event ei ∈ collidable l.
Proof.
  intros Hin Hc. unfold collidable. rewrite elem_of_list_to_set.
  apply list_elem_of_fmap. exists ei. split; [reflexivity |].
  apply list_elem_of_filter. auto.
Qed.

Lemma ascending_rev l :
  ascending l -> StronglySorted (fun a b => y0 b <= y0 a) (reverse l).
Proof.
  induction 1 as [| a l Hl IH Ha]; [constructor |].
  rewrite reverse_cons. apply StronglySorted_app. split; [| split].
  - intros x1 x2 H1 H2. apply list_elem_of_singleton in H2 as ->.
    rewrite Forall_forall in Ha. apply Ha. apply elem_of_reverse. exact H1.
  - exact IH.
  - repeat constructor.
Qed.

Lemma unfix_fold s us : forall p,
  let q := fold_left
             (fun q u => if negb (overlap s u =? 0) then unfix q else q)
             us p in
  (q = p /\ Forall (fun u => overlap s u = 0) us) \/ priv_height q = 0.
Proof.
  induction us as [|u us IH]; intros p; cbn zeta; simpl.
  - left. auto.
  - destruct (Z.eqb_spec (overlap s u) 0) as [E | E]; simpl.
    + destruct (IH p) as [[Hq Hall] | Hz]; [left | right; exact Hz].
      split; [exact Hq | constructor; assumption].
    + destruct (IH (unfix p)) as [[Hq _] | Hz]; right; [| exact Hz].
      rewrite Hq. reflexivity.
Qed.

(** ** What the loops leave alone *)

(** What one turn of either loop leaves alone. *)
Definition step_frame
    (step : nat -> EventImages -> state -> state * EventImages) : Prop :=
  forall i ei st,
    event (step i ei st).2 = event ei /\
    not_collidable (step i ei st).2 = not_collidable ei /\
    (not_collidable ei = true -> step i ei st = (st, ei)) /\
    (forall ev, ev <> event ei ->
                privs (step i ei st).1 !! ev = privs st !! ev) /\
    (exists extra, shifts (step i ei st).1 = shifts st ++ extra /\
                   Forall (fun x => x.1 = i) extra).

(** What a whole loop leaves alone: events that do not take part come out
    as they went in, the [render_priv] of an event that is not one of the
    group's collidable events is not written, and every logged call of
    [shift_event] is on a collidable event of the group. *)
Lemma for_each_frame step :
  step_frame step ->
  forall l i st,
    Forall2 (fun a b => event b = event a /\
                        not_collidable b = not_collidable a /\
                        (not_collidable a = true -> b = a))
            l (for_each step i l st).2 /\
    (forall ev, ev ∉ collidable l ->
                privs (for_each step i l st).1 !! ev = privs st !! ev) /\
    (exists extra,
        shifts (for_each step i l st).1 = shifts st ++ extra /\
        Forall (fun x => exists ej, (i <= x.1)%nat /\
                                    l !! (x.1 - i)%nat = Some ej /\
                                    not_collidable ej = false) extra).
Proof.
  intros Hstep. induction l as [|ei l IH]; intros i st; simpl.
  - repeat split; auto. exists []. rewrite app_nil_r. auto.
  - destruct (Hstep i ei st) as (He & Hn & Hskip & Hfr & (ex1 & Hlog1 & Hex1)).
    destruct (step i ei st) as [st1 ei1] eqn:E1; cbn [fst snd] in *.
    destruct (IH (S i) st1) as (Hall & Hfr2 & (ex2 & Hlog2 & Hex2)).
    destruct (for_each step (S i) l st1) as [st2 l2]; cbn [fst snd] in *.
    split; [| split].
    + constructor; [| exact Hall]. repeat split; auto.
      intros Hc. specialize (Hskip Hc). congruence.
    + intros ev Hev. rewrite collidable_cons in Hev.
      rewrite Hfr2 by set_solver.
      destruct (not_collidable ei) eqn:Hc.
      * specialize (Hskip eq_refl). congruence.
      * apply Hfr. set_solver.
    + exists (ex1 ++ ex2). rewrite Hlog2, Hlog1, app_assoc. split; auto.
      apply Forall_app. split.
      * destruct (not_collidable ei) eqn:Hc.
        -- specialize (Hskip eq_refl). injection Hskip as -> ->.
           assert (ex1 = []) as ->; [| constructor].
           apply (f_equal length) in Hlog1. rewrite length_app in Hlog1.
           destruct ex1; [reflexivity | simpl in Hlog1; lia].
        -- eapply Forall_impl; [exact Hex1 |]. intros x Hx. simpl in Hx.
           exists ei. rewrite Hx, Nat.sub_diag. auto.
      * eapply Forall_impl; [exact Hex2 |].
        intros x (ej & Hle & Hl & Hc). exists ej. split; [lia |].
        split; [| exact Hc].
        replace (x.1 - i)%nat with (S (x.1 - S i)) by lia. exact Hl.
Qed.

Lemma Forall2_collidable l l' :
  Forall2 (fun a b => event b = event a /\
                      not_collidable b = not_collidable a /\
                      (not_collidable a = true -> b = a)) l l' ->
  collidable l' = collidable l.
Proof.
  induction 1 as [| a b l l' (He & Hn & _) _ IH]; [reflexivity |].
  rewrite !collidable_cons, IH, He, Hn. reflexivity.
Qed.

Section Frame.

Variable qsort : forall A : Type, (A -> A -> Z) -> list A -> list A.
Variable calloc_ok : nat -> bool.
Variable used_ok : bool.
Variable frame_height : Z.
Variable render_id : Z.

Abbreviation get_render_priv := (get_render_priv calloc_ok render_id).
Abbreviation fit_rect := (fit_rect qsort).
Abbreviation fill_step := (fill_step calloc_ok frame_height render_id).
Abbreviation fit_step := (fit_step qsort calloc_ok frame_height render_id).
Abbreviation fix_collisions :=
  (fix_collisions qsort calloc_ok used_ok frame_height render_id).

Lemma get_render_priv_spec st ev :
  used (get_render_priv st ev).1 = used st /\
  shifts (get_render_priv st ev).1 = shifts st /\
  match (get_render_priv st ev).2 with
  | Some p =>
      privs (get_render_priv st ev).1 = <[ev := p]> (privs st) /\
      (priv_height p > 0 -> privs st !! ev = Some p)
  | None =>
      privs (get_render_priv st ev).1 = privs st /\ privs st !! ev = None
  end.
Proof.
  unfold Collision.get_render_priv.
  destruct (privs st !! ev) as [p |] eqn:E.
  - simpl. repeat split.
    destruct (render_id =? priv_render_id p); simpl; intros; [auto | lia].
  - destruct (calloc_ok (callocs st)); simpl; repeat split; auto.
    destruct (render_id =? 0); simpl; intros; lia.
Qed.

Lemma get_render_priv_frame st ev ev' :
  ev' <> ev -> privs (get_render_priv st ev).1 !! ev' = privs st !! ev'.
Proof.
  intros Hne. pose proof (get_render_priv_spec st ev) as (_ & _ & H).
  destruct (get_render_priv st ev).2 as [p |].
  - destruct H as [-> _]. apply lookup_insert_ne. auto.
  - destruct H as [-> _]. reflexivity.
Qed.

Lemma fill_step_frame : step_frame fill_step.
Proof.
  intros i ei st. unfold Collision.fill_step.
  destruct (not_collidable ei) eqn:Hc.
  { cbn [fst snd]. repeat split; auto. exists []. rewrite app_nil_r. auto. }
  pose proof (get_render_priv_spec st (event ei)) as (_ & Hs & _).
  pose proof (get_render_priv_frame st (event ei)) as Hfr.
  destruct (get_render_priv st (event ei)) as [st1 [p |]]; cbn [fst snd] in *.
  - destruct (priv_height p >? 0).
    + match goal with |- context [fold_left ?f ?l ?a] =>
        set (p2 := fold_left f l a) end.
      destruct (priv_height p2 >? 0); cbn [fst snd privs shifts].
      * repeat split; auto; try discriminate.
        -- intros ev Hne. rewrite lookup_insert_ne by auto. auto.
        -- exists [(i, priv_top p2 - top ei)]. rewrite Hs. split; auto.
      * repeat split; auto; try discriminate.
        -- intros ev Hne. rewrite lookup_insert_ne by auto. auto.
        -- exists []. rewrite app_nil_r. auto.
    + cbn [fst snd]. repeat split; auto; try discriminate.
      exists []. rewrite app_nil_r. auto.
  - repeat split; auto; try discriminate.
    exists []. rewrite app_nil_r. auto.
Qed.

Lemma fit_step_frame : step_frame fit_step.
Proof.
  intros i ei st. unfold Collision.fit_step.
  destruct (not_collidable ei) eqn:Hc.
  { cbn [fst snd]. repeat split; auto. exists []. rewrite app_nil_r. auto. }
  pose proof (get_render_priv_spec st (event ei)) as (_ & Hs & _).
  pose proof (get_render_priv_frame st (event ei)) as Hfr.
  destruct (get_render_priv st (event ei)) as [st1 [p |]]; cbn [fst snd] in *.
  - destruct (priv_height p =? 0).
    + destruct (fit_rect (rect_of_images ei) (used st1) (shift_direction ei))
        as [shift fixed].
      cbn [fst snd privs shifts].
      destruct (shift =? 0); cbn [negb]; repeat split; auto; try discriminate.
      * intros ev Hne. rewrite lookup_insert_ne by auto. auto.
      * exists []. rewrite app_nil_r. auto.
      * intros ev Hne. rewrite lookup_insert_ne by auto. auto.
      * exists [(i, shift)]. rewrite Hs. split; auto.
    + cbn [fst snd]. repeat split; auto; try discriminate.
      exists []. rewrite app_nil_r. auto.
  - repeat split; auto; try discriminate.
    exists []. rewrite app_nil_r. auto.
Qed.

(** C8: an event of the group whose collision-detection flag is off is never
    shifted: it comes out of [fix_collisions] as it went in (images, [top]
    and box), no call of [shift_event] is made on it, and its
    [render_priv] is not written, as long as no collision-detected event of
    the group has the same address. *)
Theorem fix_collisions_skips_undetected privs0 callocs0 imgs (i : nat) ei :
  imgs !! i = Some ei ->
  detect_collisions ei = 0 ->
  let r := fix_collisions privs0 callocs0 imgs in
  r.2 !! i = Some ei /\
  (forall shift, (i, shift) ∉ shifts r.1) /\
  (event ei ∉ collidable imgs ->
   privs r.1 !! event ei = privs0 !! event ei).
Proof.
  intros Hi Hd. cbn zeta.
  assert (Hc : not_collidable ei = true).
  { unfold not_collidable. rewrite Hd. reflexivity. }
  unfold Collision.fix_collisions. destruct used_ok; cbn [negb].
  2: { cbn [fst snd privs shifts]. repeat split; auto. intros s Hs. inversion Hs. }
  set (st0 := mkState privs0 callocs0 [] []).
  destruct (for_each_frame _ fill_step_frame imgs 0%nat st0)
    as (Hsame1 & Hfr1 & (ex1 & Hlog1 & Hex1)).
  pose proof (Forall2_collidable _ _ Hsame1) as Hcol.
  destruct (for_each fill_step 0 imgs st0) as [st1 imgs1]; cbn [fst snd] in *.
  set (st1' := mkState (privs st1) (callocs st1)
                       (qsort Rect cmp_rect_y0 (used st1)) (shifts st1)).
  destruct (for_each_frame _ fit_step_frame imgs1 0%nat st1')
    as (Hsame2 & Hfr2 & (ex2 & Hlog2 & Hex2)).
  destruct (for_each fit_step 0 imgs1 st1') as [st2 imgs2]; cbn [fst snd] in *.
  destruct (Forall2_lookup_l _ _ _ _ _ Hsame1 Hi) as (e1 & Hi1 & _ & _ & Heq1).
  specialize (Heq1 Hc). subst e1.
  destruct (Forall2_lookup_l _ _ _ _ _ Hsame2 Hi1) as (e2 & Hi2 & _ & _ & Heq2).
  specialize (Heq2 Hc). subst e2.
  split; [exact Hi2 | split].
  - intros shift Hin. rewrite Hlog2 in Hin. unfold st1' in Hin.
    cbn [shifts] in Hin. rewrite Hlog1 in Hin. cbn [shifts] in Hin.
    rewrite !elem_of_app in Hin. rewrite Forall_forall in Hex1, Hex2.
    destruct Hin as [[Hin | Hin] | Hin].
    + inversion Hin.
    + destruct (Hex1 _ Hin) as (ej & _ & Hl & Hcj). simpl in Hl.
      rewrite Nat.sub_0_r in Hl. congruence.
    + destruct (Hex2 _ Hin) as (ej & _ & Hl & Hcj). simpl in Hl.
      rewrite Nat.sub_0_r in Hl. congruence.
  - intros Hev. rewrite Hfr2 by (rewrite Hcol; exact Hev).
    unfold st1'. cbn [privs]. rewrite Hfr1 by exact Hev. reflexivity.
Qed.

End Frame.

(** ** The loops keep the invariant *)

Section Resolution.

Variable qsort : forall A : Type, (A -> A -> Z) -> list A -> list A.
Variable calloc_ok : nat -> bool.
Variable used_ok : bool.
Variable frame_height : Z.
Variable render_id : Z.

(** The contract of [qsort]. *)
Hypothesis qsort_Permutation :
  forall A (cmp : A -> A -> Z) l, qsort A cmp l ≡ₚ l.
Hypothesis qsort_Sorted :
  forall A (cmp : A -> A -> Z) l,
    (forall a b, cmp a b <= 0 \/ cmp b a <= 0) ->
    (forall a b c, cmp a b <= 0 -> cmp b c <= 0 -> cmp a c <= 0) ->
    StronglySorted (fun a b => cmp a b <= 0) (qsort A cmp l).

Abbreviation get_render_priv := (get_render_priv calloc_ok render_id).
Abbreviation fit_rect := (fit_rect qsort).
Abbreviation fill_step := (fill_step calloc_ok frame_height render_id).
Abbreviation fit_step := (fit_step qsort calloc_ok frame_height render_id).
Abbreviation fix_collisions :=
  (fix_collisions qsort calloc_ok used_ok frame_height render_id).

Lemma qsort_ascending l : ascending (qsort Rect cmp_rect_y0 l).
Proof.
  assert (H : StronglySorted (fun a b => cmp_rect_y0 a b <= 0)
                             (qsort Rect cmp_rect_y0 l)).
  { apply qsort_Sorted; unfold cmp_rect_y0; intros; lia. }
  unfold ascending. induction H as [| a l' Hl IH Ha]; constructor; auto.
  eapply Forall_impl; [exact Ha |]. unfold cmp_rect_y0. simpl. intros; lia.
Qed.

Lemma fit_rect_spec s fixed dir :
  ascending fixed ->
  (fit_rect s fixed dir).2 ≡ₚ moved s (fit_rect s fixed dir).1 :: fixed /\
  ascending (fit_rect s fixed dir).2 /\
  Forall (fun u => overlap (moved s (fit_rect s fixed dir).1) u = 0) fixed.
Proof.
  intros Ha. unfold Collision.fit_rect. simpl. split; [| split].
  - rewrite qsort_Permutation. symmetry. apply Permutation_cons_append.
  - apply qsort_ascending.
  - destruct (dir =? 1).
    + apply (fit_down_spec s fixed 0 Ha).
    + pose proof (fit_up_spec s (reverse fixed) 0 (ascending_rev _ Ha)) as [_ H].
      cbn zeta in H. rewrite Forall_forall in H |- *.
      intros u Hu. apply H. apply elem_of_reverse. exact Hu.
Qed.

Lemma fill_step_Inv D i ei st :
  Inv D (privs st) (used st) ->
  Inv (D ∪ (if not_collidable ei then ∅ else {[event ei]}))
      (privs (fill_step i ei st).1) (used (fill_step i ei st).1).
Proof.
  intros HI. unfold Collision.fill_step.
  destruct (not_collidable ei) eqn:Hc.
  { simpl. eapply Inv_same; [| exact HI]. set_solver. }
  pose proof (get_render_priv_spec calloc_ok render_id st (event ei))
    as (Hu & _ & Hp).
  destruct (get_render_priv st (event ei)) as [st1 [p |]]; simpl in *.
  - destruct Hp as [Hm Hp].
    assert (HI1 : Inv D (privs st1) (used st1)).
    { rewrite Hm, Hu. apply Inv_update; auto. }
    assert (Hev : privs st1 !! event ei = Some p).
    { rewrite Hm. apply lookup_insert_eq. }
    destruct (Z.gtb_spec (priv_height p) 0) as [Hpos | Hneg].
    + set (p1 := if negb (priv_height p =? height ei) then unfix p else p).
      pose proof (unfix_fold (rect_of_priv p) (used st1) p1) as Hf.
      cbn zeta in Hf.
      set (p2 := fold_left _ (used st1) p1) in *.
      destruct (Z.gtb_spec (priv_height p2) 0) as [Hpos2 | Hneg2]; simpl.
      * destruct Hf as [[Hq Hall] | Hz]; [| lia].
        assert (p2 = p) as ->.
        { rewrite Hq. unfold p1.
          destruct (priv_height p =? height ei); simpl; [reflexivity |].
          exfalso. rewrite Hq in Hpos2. unfold p1 in Hpos2.
          destruct (priv_height p =? height ei); simpl in *; lia. }
        eapply Inv_commit; [exact HI1 | exact Hall |].
        symmetry. apply Permutation_cons_append.
      * apply Inv_add.
        -- apply Inv_update; [exact HI1 |]. intros; lia.
        -- intros q. rewrite lookup_insert_eq. intros [= <-]. lia.
    + simpl. apply Inv_add; [exact HI1 |].
      intros q. rewrite Hev. intros [= <-]. lia.
  - destruct Hp as [Hm Hp]. rewrite Hm, Hu.
    apply Inv_add; [exact HI |]. intros q. rewrite Hp. discriminate.
Qed.

Lemma fit_step_Inv D i ei st :
  Inv D (privs st) (used st) ->
  ascending (used st) ->
  (not_collidable ei = false -> event ei ∈ D) ->
  Inv D (privs (fit_step i ei st).1) (used (fit_step i ei st).1) /\
  ascending (used (fit_step i ei st).1).
Proof.
  intros HI Ha HD. unfold Collision.fit_step.
  destruct (not_collidable ei) eqn:Hc; [simpl; auto |].
  specialize (HD eq_refl).
  pose proof (get_render_priv_spec calloc_ok render_id st (event ei))
    as (Hu & _ & Hp).
  destruct (get_render_priv st (event ei)) as [st1 [p |]]; cbn [fst snd] in *.
  - destruct Hp as [Hm Hp].
    assert (HI1 : Inv D (privs st1) (used st1)).
    { rewrite Hm, Hu. apply Inv_update; auto. }
    rewrite <- Hu in Ha.
    destruct (Z.eqb_spec (priv_height p) 0) as [Hz | Hnz]; [| cbn [fst snd]; auto].
    pose proof (fit_rect_spec (rect_of_images ei) (used st1)
                  (shift_direction ei) Ha) as (HP & Hasc & Hall).
    destruct (fit_rect (rect_of_images ei) (used st1) (shift_direction ei))
      as [shift fixed]; cbn [fst snd privs used] in *.
    split; [| exact Hasc].
    set (ei' := if negb (shift =? 0) then shift_event frame_height ei shift
                else ei).
    set (p' := mkPriv (top ei') (height ei') (left ei') (width ei')
                      (priv_render_id p)).
    assert (Hr : rect_of_priv p' = moved (rect_of_images ei) shift).
    { unfold p', ei', rect_of_priv, rect_of_images, moved. simpl.
      destruct (Z.eqb_spec shift 0) as [-> | _]; simpl; f_equal; lia. }
    eapply Inv_same; [| eapply (Inv_commit D _ _ fixed (event ei) p')].
    + set_solver.
    + exact HI1.
    + rewrite Hr. exact Hall.
    + rewrite Hr. exact HP.
  - destruct Hp as [Hm Hp]. rewrite Hm, Hu. auto.
Qed.

Lemma for_each_fill_Inv l : forall i st D,
  Inv D (privs st) (used st) ->
  Inv (D ∪ collidable l)
      (privs (for_each fill_step i l st).1)
      (used (for_each fill_step i l st).1).
Proof.
  induction l as [|ei l IH]; intros i st D HI; simpl.
  - eapply Inv_same; [| exact HI]. unfold collidable. set_solver.
  - pose proof (fill_step_Inv D i ei st HI) as H1.
    destruct (fill_step i ei st) as [st1 ei1]; simpl in *.
    specialize (IH (S i) st1 _ H1).
    destruct (for_each fill_step (S i) l st1) as [st2 l2]; simpl in *.
    eapply Inv_same; [| exact IH]. rewrite collidable_cons. set_solver.
Qed.

Lemma for_each_fit_Inv l : forall i st D,
  Inv D (privs st) (used st) ->
  ascending (used st) ->
  collidable l ⊆ D ->
  Inv D (privs (for_each fit_step i l st).1)
        (used (for_each fit_step i l st).1).
Proof.
  induction l as [|ei l IH]; intros i st D HI Ha HD; simpl; [exact HI |].
  rewrite collidable_cons in HD.
  assert (HD1 : not_collidable ei = false -> event ei ∈ D).
  { intros E. rewrite E in HD. set_solver. }
  pose proof (fit_step_Inv D i ei st HI Ha HD1) as [H1 Ha1].
  destruct (fit_step i ei st) as [st1 ei1]; simpl in *.
  assert (HD2 : collidable l ⊆ D) by set_solver.
  specialize (IH (S i) st1 D H1 Ha1 HD2).
  destruct (for_each fit_step (S i) l st1) as [st2 l2]; simpl in *.
  exact IH.
Qed.

Lemma fix_collisions_Inv privs0 callocs0 imgs :
  used_ok = true ->
  Inv (collidable imgs)
      (privs (fix_collisions privs0 callocs0 imgs).1)
      (used (fix_collisions privs0 callocs0 imgs).1).
Proof.
  intros Hok. unfold Collision.fix_collisions. rewrite Hok. cbn [negb].
  set (st0 := mkState privs0 callocs0 [] []).
  assert (H0 : Inv ∅ (privs st0) (used st0)).
  { split; simpl; [constructor | |]; intros; set_solver. }
  pose proof (for_each_fill_Inv imgs 0%nat st0 ∅ H0) as H1.
  destruct (for_each_frame _ (fill_step_frame calloc_ok frame_height render_id)
              imgs 0%nat st0) as (Hsame & _).
  apply Forall2_collidable in Hsame.
  destruct (for_each fill_step 0 imgs st0) as [st1 imgs1]; cbn [fst snd] in *.
  apply for_each_fit_Inv; cbn [privs used].
  - eapply Inv_Permutation; [symmetry; apply qsort_Permutation |].
    eapply Inv_same; [| exact H1]. set_solver.
  - apply qsort_ascending.
  - rewrite Hsame. reflexivity.
Qed.

(** The boxes a call of [fix_collisions] committed (the final [used]
    array) are pairwise non-overlapping, and so are the boxes stored with
    any two collision-detected events of the group: [overlap], which for
    boxes of positive width and height is the test for an intersection of
    positive area ([overlap_positive_area]), is 0 on every pair.  This is
    about the boxes the code commits and stores, not about the boxes the
    events come out with. *)
Theorem fix_collisions_committed_apart privs0 callocs0 imgs :
  let r := fix_collisions privs0 callocs0 imgs in
  (forall (i j : nat) a b,
     i <> j -> used r.1 !! i = Some a -> used r.1 !! j = Some b ->
     overlap a b = 0) /\
  (used_ok = true ->
   forall ei ej pi pj,
     ei ∈ imgs -> ej ∈ imgs ->
     not_collidable ei = false -> not_collidable ej = false ->
     event ei <> event ej ->
     privs r.1 !! event ei = Some pi -> privs r.1 !! event ej = Some pj ->
     priv_height pi > 0 -> priv_height pj > 0 ->
     overlap (rect_of_priv pi) (rect_of_priv pj) = 0).
Proof.
  cbn zeta. split.
  - destruct (decide (used_ok = true)) as [Hok | Hok].
    + apply disjoint_lookup.
      exact (inv_disjoint _ _ _ (fix_collisions_Inv privs0 callocs0 imgs Hok)).
    + unfold Collision.fix_collisions.
      destruct used_ok; [congruence |]. simpl.
      intros i j a b _ Hi. destruct i; discriminate.
  - intros Hok ei ej pi pj Hi Hj Hci Hcj Hne Hpi Hpj Hhi Hhj.
    pose proof (fix_collisions_Inv privs0 callocs0 imgs Hok) as HI.
    eapply (inv_apart _ _ _ HI (event ei) (event ej)); eauto;
      apply elem_of_collidable; auto.
Qed.

End Resolution.

(** ** A sorting function that meets the contract of [qsort] *)

Definition sample_qsort (A : Type) (cmp : A -> A -> Z) (l : list A) : list A :=
  @merge_sort A (fun a b => cmp a b <= 0) (fun a b => Z_le_dec (cmp a b) 0) l.

Lemma sample_qsort_Permutation A (cmp : A -> A -> Z) l :
  sample_qsort A cmp l ≡ₚ l.
Proof. apply merge_sort_Permutation. Qed.

Lemma sample_qsort_Sorted A (cmp : A -> A -> Z) l :
  (forall a b, cmp a b <= 0 \/ cmp b a <= 0) ->
  (forall a b c, cmp a b <= 0 -> cmp b c <= 0 -> cmp a c <= 0) ->
  StronglySorted (fun a b => cmp a b <= 0) (sample_qsort A cmp l).
Proof.
  intros Htot Htrans. unfold sample_qsort.
  apply (@StronglySorted_merge_sort A (fun a b => cmp a b <= 0)).
  - intros a b c. apply Htrans.
  - intros a b. apply Htot.
Qed.

(** ** Two events that collide, and one that opts out *)

Definition sample_image (y : Z) : ASS_Image := mkImage 200 50 200 4096 255 0 y.

Definition event_a : EventImages :=
  mkEventImages [sample_image 100] 100 50 0 200 1 1 1%nat.
Definition event_b : EventImages :=
  mkEventImages [sample_image 120] 120 50 100 200 1 1 2%nat.
Definition event_c : EventImages :=
  mkEventImages [sample_image 110] 110 50 50 200 0 1 3%nat.

Definition sample_group : list EventImages := [event_a; event_b; event_c].

Definition sample_run : state * list EventImages :=
  fix_collisions sample_qsort (fun _ => true) true 720 1 ∅ 0 sample_group.

(** Scenario C of the specification: the second event is moved down by the
    overlap, 30, and the third, which opts out, stays. *)
Example sample_run_boxes :
  used sample_run.1 = [mkRect 0 100 200 150; mkRect 100 150 300 200] /\
  shifts sample_run.1 = [(1%nat, 30)] /\
  top <$> sample_run.2 = [100; 150; 110].
Proof. vm_compute. auto. Qed.

Lemma fix_collisions_committed_apart_witness :
  overlap (rect_of_priv (mkPriv 100 50 0 200 1))
          (rect_of_priv (mkPriv 150 50 100 200 1)) = 0.
Proof.
  refine (proj2 (fix_collisions_committed_apart sample_qsort (fun _ => true) true
                   720 1 sample_qsort_Permutation sample_qsort_Sorted
                   ∅ 0%nat sample_group)
                eq_refl event_a event_b _ _ _ _ _ _ _ _ _ _ _).
  - unfold sample_group. set_solver.
  - unfold sample_group. set_solver.
  - reflexivity.
  - reflexivity.
  - vm_compute. lia.
  - vm_compute. reflexivity.
  - vm_compute. reflexivity.
  - vm_compute. reflexivity.
  - vm_compute. reflexivity.
Defined.

Lemma fix_collisions_skips_undetected_witness :
  sample_run.2 !! 2%nat = Some event_c /\
  (forall shift, (2%nat, shift) ∉ shifts sample_run.1) /\
  (event event_c ∉ collidable sample_group ->
   privs sample_run.1 !! event event_c = (∅ : gmap nat ASS_RenderPriv) !! event event_c).
Proof.
  apply (fix_collisions_skips_undetected sample_qsort (fun _ => true) true
           720 1 ∅ 0%nat sample_group 2%nat event_c); reflexivity.
Defined.

(** ** An event that grows wider between two frames *)

(** Two events on the same rows, 50 pixels apart, and the first of them
    again, twice as wide, as a later frame has it (the height is the
    same). *)
Definition narrow_event : EventImages :=
  mkEventImages [mkImage 100 50 100 4096 255 0 100] 100 50 0 100 1 1 1%nat.
Definition widened_event : EventImages :=
  mkEventImages [mkImage 200 50 200 4096 255 0 100] 100 50 0 200 1 1 1%nat.
Definition beside_event : EventImages :=
  mkEventImages [mkImage 100 50 100 8192 255 150 100] 100 50 150 100 1 1 2%nat.

Definition first_frame : state * list EventImages :=
  fix_collisions sample_qsort (fun _ => true) true 720 1 ∅ 0
                 [narrow_event; beside_event].

Definition second_frame : state * list EventImages :=
  fix_collisions sample_qsort (fun _ => true) true 720 1
                 (privs first_frame.1) (callocs first_frame.1)
                 [widened_event; beside_event].


(** ** Shifting an event *)

(** The three tests [shift_event] makes on an image. *)
Ltac shift_image_cases frame_height :=
  unfold shift_image; cbn [w h stride bitmap color dst_x dst_y];
  match goal with
  | |- context [?a <? 0] => destruct (Z.ltb_spec a 0)
  end;
  cbn [w h stride bitmap color dst_x dst_y];
  match goal with
  | |- context [?a >=? frame_height] => destruct (Z.geb_spec a frame_height)
  end;
  cbn [w h stride bitmap color dst_x dst_y];
  match goal with
  | |- context [?a <=? 0] => destruct (Z.leb_spec a 0)
  end;
  cbn [w h stride bitmap color dst_x dst_y].

(** [shift_event] clips every image of the event to the frame: with a
    frame height that is not negative, each image ends with
    [0 <= dst_y], [0 <= h] and [dst_y + h <= render_priv->height]; the
    event's [top] moves by [shift] whether or not an image was clipped. *)
Theorem shift_event_inside_frame frame_height ei shift :
  0 <= frame_height ->
  top (shift_event frame_height ei shift) = top ei + shift /\
  Forall (fun img => 0 <= dst_y img /\ 0 <= h img /\
                     dst_y img + h img <= frame_height)
         (imgs (shift_event frame_height ei shift)).
Proof.
  intros Hh. split; [reflexivity |]. unfold shift_event. cbn [imgs].
  apply Forall_fmap, Forall_forall. intros img _. unfold compose.
  shift_image_cases frame_height; lia.
Qed.

Lemma shift_event_inside_frame_witness :
  Forall (fun img => 0 <= dst_y img /\ 0 <= h img /\ dst_y img + h img <= 720)
         (imgs (shift_event 720 event_c (-700))).
Proof.
  apply (shift_event_inside_frame 720 event_c (-700)). lia.
Defined.

(** Clipping in [shift_event] keeps the picture in place: a row of an
    image that is still shown after the shift, at screen line [y], is the
    row of the bitmap that the image moved by [shift] has at that line.
    The width, the stride, the color and [dst_x] are not written. *)
Theorem shift_image_rows frame_height shift img (y : Z) :
  let img' := shift_image frame_height shift img in
  dst_y img' <= y < dst_y img' + h img' ->
  dst_y img + shift <= y < dst_y img + shift + h img /\
  bitmap img' + (y - dst_y img') * stride img'
  = bitmap img + (y - (dst_y img + shift)) * stride img /\
  (w img', stride img', color img', dst_x img')
  = (w img, stride img, color img, dst_x img).
Proof.
  cbn zeta. shift_image_cases frame_height; intros Hy;
    first [ exfalso; lia
          | split; [lia |]; split; [ring | reflexivity] ].
Qed.

Lemma shift_image_rows_witness :
  bitmap (shift_image 720 (-20) (sample_image 10))
  + (3 - dst_y (shift_image 720 (-20) (sample_image 10)))
    * stride (shift_image 720 (-20) (sample_image 10))
  = bitmap (sample_image 10) + (3 - (dst_y (sample_image 10) + -20))
                               * stride (sample_image 10).
Proof.
  apply (shift_image_rows 720 (-20) (sample_image 10) 3).
  vm_compute. split; [discriminate | reflexivity].
Defined.

(** ** The direction of a fit *)

Lemma fit_down_grows s : forall fixed shift,
  shift <= fit_down s fixed shift /\
  (Forall (fun f => hits s shift f = false) fixed ->
   fit_down s fixed shift = shift).
Proof.
  induction fixed as [|f rest IH]; intros shift; simpl.
  - split; [lia | reflexivity].
  - destruct (hits s shift f) eqn:Hh.
    + pose proof (hits_true _ _ _ Hh) as Hb.
      destruct (IH (y1 f - y0 s)) as [Hle _].
      split; [lia |]. intros Hall. apply Forall_inv in Hall. congruence.
    + destruct (IH shift) as [Hle Hsame]. split; [exact Hle |].
      intros Hall. apply Hsame. eapply Forall_inv_tail, Hall.
Qed.

Lemma fit_up_shrinks s : forall fixed_rev shift,
  fit_up s fixed_rev shift <= shift /\
  (Forall (fun f => hits s shift f = false) fixed_rev ->
   fit_up s fixed_rev shift = shift).
Proof.
  induction fixed_rev as [|f rest IH]; intros shift; simpl.
  - split; [lia | reflexivity].
  - destruct (hits s shift f) eqn:Hh.
    + pose proof (hits_true _ _ _ Hh) as Hb.
      destruct (IH (y0 f - y1 s)) as [Hle _].
      split; [lia |]. intros Hall. apply Forall_inv in Hall. congruence.
    + destruct (IH shift) as [Hle Hsame]. split; [exact Hle |].
      intros Hall. apply Hsame. eapply Forall_inv_tail, Hall.
Qed.

Lemma hits_unmoved s f : hits s 0 f = negb (overlap s f =? 0).
Proof.
  rewrite hits_overlap. unfold moved. rewrite !Z.add_0_r.
  destruct s; reflexivity.
Qed.

(** [fit_rect] moves a box only in the direction it is given: with
    [dir == 1] the shift is never negative, with any other [dir] it is
    never positive; and a box that meets none of the fixed boxes is not
    moved at all.  None of this depends on the order of [fixed]. *)
Theorem fit_rect_direction
    (qsort : forall A : Type, (A -> A -> Z) -> list A -> list A)
    (s : Rect) (fixed : list Rect) (dir : Z) :
  (dir = 1 -> 0 <= (fit_rect qsort s fixed dir).1) /\
  (dir <> 1 -> (fit_rect qsort s fixed dir).1 <= 0) /\
  (Forall (fun f => overlap s f = 0) fixed ->
   (fit_rect qsort s fixed dir).1 = 0).
Proof.
  unfold fit_rect. cbn [fst].
  assert (Hfree : forall l, Forall (fun f => overlap s f = 0) l ->
                            Forall (fun f => hits s 0 f = false) l).
  { intros l Hl. eapply Forall_impl; [exact Hl |].
    intros f Hf. cbn beta in Hf. rewrite hits_unmoved, Hf. reflexivity. }
  destruct (Z.eqb_spec dir 1) as [E | Hne].
  - split; [intros _; apply fit_down_grows |].
    split; [congruence |]. intros Hall. apply fit_down_grows, Hfree, Hall.
  - split; [congruence |]. split; [intros _; apply fit_up_shrinks |].
    intros Hall. apply fit_up_shrinks, Hfree.
    apply Forall_forall. intros f Hf. rewrite Forall_forall in Hall.
    apply Hall. apply elem_of_reverse. exact Hf.
Qed.

(** ** What [fix_collisions] leaves of an event *)

(** Two images that differ at most in [h], [bitmap] and [dst_y]. *)
Definition same_column (a b : ASS_Image) : Prop :=
  w b = w a /\ stride b = stride a /\ color b = color a /\ dst_x b = dst_x a.

(** Two events that differ at most in [top] and in the vertical placement
    of their images. *)
Definition same_box (a b : EventImages) : Prop :=
  height b = height a /\ left b = left a /\ width b = width a /\
  detect_collisions b = detect_collisions a /\
  shift_direction b = shift_direction a /\ event b = event a /\
  Forall2 same_column (imgs a) (imgs b).

Lemma same_box_refl a : same_box a a.
Proof.
  repeat split. apply Forall_Forall2_diag, Forall_forall.
  intros; repeat split.
Qed.

Lemma same_box_trans a b c : same_box a b -> same_box b c -> same_box a c.
Proof.
  intros (H1 & H2 & H3 & H4 & H5 & H6 & H7) (G1 & G2 & G3 & G4 & G5 & G6 & G7).
  repeat split; try congruence.
  revert G7. generalize (imgs c). induction H7 as [| x y l l' Hxy _ IH];
    intros l3 G; inversion G as [| y' z ? ? Hyz Hrest]; subst; constructor.
  - destruct Hxy as (? & ? & ? & ?), Hyz as (? & ? & ? & ?).
    repeat split; congruence.
  - apply IH. exact Hrest.
Qed.

Lemma same_box_shift_event frame_height ei shift :
  same_box ei (shift_event frame_height ei shift).
Proof.
  repeat split. unfold shift_event. cbn [imgs].
  apply Forall2_fmap_r, Forall_Forall2_diag, Forall_forall.
  intros img _. unfold same_column, compose. cbn beta.
  shift_image_cases frame_height; repeat split.
Qed.

Lemma for_each_same_box step :
  (forall i ei st, same_box ei (step i ei st).2) ->
  forall l i st, Forall2 same_box l (for_each step i l st).2.
Proof.
  intros Hstep. induction l as [|ei l IH]; intros i st; simpl.
  - constructor.
  - pose proof (Hstep i ei st) as H1.
    destruct (step i ei st) as [st1 ei1]. cbn [snd] in H1.
    pose proof (IH (S i) st1) as H2.
    destruct (for_each step (S i) l st1) as [st2 l2]. cbn [snd] in *.
    constructor; assumption.
Qed.

Lemma fill_step_same_box calloc_ok frame_height render_id i ei st :
  same_box ei (fill_step calloc_ok frame_height render_id i ei st).2.
Proof.
  unfold fill_step.
  destruct (not_collidable ei); [apply same_box_refl |].
  destruct (get_render_priv calloc_ok render_id st (event ei))
    as [st1 [p |]]; [| apply same_box_refl].
  destruct (priv_height p >? 0); [| apply same_box_refl].
  match goal with
  | |- context [if priv_height ?q >? 0 then _ else _] =>
      destruct (priv_height q >? 0)
  end; [apply same_box_shift_event | apply same_box_refl].
Qed.

Lemma fit_step_same_box qsort calloc_ok frame_height render_id i ei st :
  same_box ei (fit_step qsort calloc_ok frame_height render_id i ei st).2.
Proof.
  unfold fit_step.
  destruct (not_collidable ei); [apply same_box_refl |].
  destruct (get_render_priv calloc_ok render_id st (event ei))
    as [st1 [p |]]; [| apply same_box_refl].
  destruct (priv_height p =? 0); [| apply same_box_refl].
  destruct (fit_rect qsort (rect_of_images ei) (used st1)
              (shift_direction ei)) as [shift fixed].
  cbn [snd]. destruct (shift =? 0); cbn [negb];
    [apply same_box_refl | apply same_box_shift_event].
Qed.

Lemma Forall2_same_box_trans l1 l2 l3 :
  Forall2 same_box l1 l2 -> Forall2 same_box l2 l3 -> Forall2 same_box l1 l3.
Proof.
  intros H. revert l3. induction H as [| a b l l' Hab _ IH]; intros l3 G;
    inversion G as [| b' c' ? ? Hbc Hrest]; subst; constructor.
  - eapply same_box_trans; eassumption.
  - apply IH. exact Hrest.
Qed.

(** [fix_collisions] moves events only up and down: every event of the
    group comes out with the [height], [left], [width], flags and event
    pointer it went in with, and with the same number of images, each with
    its width, stride, color and [dst_x]. *)
Theorem fix_collisions_only_vertical
    (qsort : forall A : Type, (A -> A -> Z) -> list A -> list A)
    (calloc_ok : nat -> bool) (used_ok : bool) (frame_height render_id : Z)
    privs0 callocs0 imgs :
  Forall2 same_box imgs
    (fix_collisions qsort calloc_ok used_ok frame_height render_id
                    privs0 callocs0 imgs).2.
Proof.
  unfold fix_collisions. destruct used_ok; cbn [negb].
  2: { cbn [snd]. apply Forall_Forall2_diag, Forall_forall.
       intros; apply same_box_refl. }
  set (st0 := mkState privs0 callocs0 [] []).
  pose proof (for_each_same_box _
                (fill_step_same_box calloc_ok frame_height render_id)
                imgs 0%nat st0) as H1.
  destruct (for_each (fill_step calloc_ok frame_height render_id) 0 imgs st0)
    as [st1 imgs1].
  cbn [snd] in H1.
  eapply Forall2_same_box_trans; [exact H1 |].
  apply for_each_same_box. apply fit_step_same_box.
Qed.

(** ** A group no event of which has been placed yet *)

Section FirstFrame.

Variable qsort : forall A : Type, (A -> A -> Z) -> list A -> list A.
Variable calloc_ok : nat -> bool.
Variable used_ok : bool.
Variable frame_height : Z.
Variable render_id : Z.

Hypothesis qsort_Permutation :
  forall A (cmp : A -> A -> Z) l, qsort A cmp l ≡ₚ l.
Hypothesis qsort_Sorted :
  forall A (cmp : A -> A -> Z) l,
    (forall a b, cmp a b <= 0 \/ cmp b a <= 0) ->
    (forall a b c, cmp a b <= 0 -> cmp b c <= 0 -> cmp a c <= 0) ->
    StronglySorted (fun a b => cmp a b <= 0) (qsort A cmp l).
Hypothesis calloc_succeeds : forall n, calloc_ok n = true.

Abbreviation get_render_priv := (get_render_priv calloc_ok render_id).
Abbreviation fill_step := (fill_step calloc_ok frame_height render_id).
Abbreviation fit_step := (fit_step qsort calloc_ok frame_height render_id).
Abbreviation fix_collisions :=
  (fix_collisions qsort calloc_ok used_ok frame_height render_id).

(** The event at [ev] has no position of this render generation. *)
Definition unplaced (m : gmap nat ASS_RenderPriv) (ev : nat) : Prop :=
  forall p, m !! ev = Some p ->
            priv_render_id p <> render_id \/ priv_height p = 0.

(** The event at [ev] has a [render_priv] that holds no box. *)
Definition vacant (m : gmap nat ASS_RenderPriv) (ev : nat) : Prop :=
  exists p, m !! ev = Some p /\ priv_height p = 0.

(** The [render_priv] of the event holds the box the event is at. *)
Definition placed (m : gmap nat ASS_RenderPriv) (e : EventImages) : Prop :=
  exists p, m !! event e = Some p /\ rect_of_priv p = rect_of_images e /\
            priv_height p = height e.

Lemma get_render_priv_unplaced st ev :
  unplaced (privs st) ev ->
  exists p, (get_render_priv st ev).2 = Some p /\ priv_height p = 0 /\
            privs (get_render_priv st ev).1 = <[ev := p]> (privs st) /\
            used (get_render_priv st ev).1 = used st.
Proof.
  intros Hu. unfold Collision.get_render_priv.
  destruct (privs st !! ev) as [p |] eqn:E.
  - cbn [fst snd privs used]. eexists. split; [reflexivity |].
    split; [| split; reflexivity].
    destruct (Z.eqb_spec render_id (priv_render_id p)) as [Hid | Hid];
      cbn [negb priv_height]; [| reflexivity].
    destruct (Hu p E) as [H | H]; [congruence | exact H].
  - rewrite calloc_succeeds. cbn [fst snd privs used].
    eexists. split; [reflexivity |]. split; [| split; reflexivity].
    cbn [priv_render_id]. destruct (render_id =? 0); reflexivity.
Qed.

Lemma fill_step_unplaced i ei st :
  (not_collidable ei = false -> unplaced (privs st) (event ei)) ->
  (fill_step i ei st).2 = ei /\
  used (fill_step i ei st).1 = used st /\
  (not_collidable ei = false -> vacant (privs (fill_step i ei st).1) (event ei)) /\
  (forall ev, vacant (privs st) ev -> vacant (privs (fill_step i ei st).1) ev) /\
  (forall ev, unplaced (privs st) ev ->
              unplaced (privs (fill_step i ei st).1) ev).
Proof.
  intros Hu. unfold Collision.fill_step.
  destruct (not_collidable ei) eqn:Hc.
  { cbn [fst snd]. repeat split; auto. discriminate. }
  destruct (get_render_priv_unplaced st (event ei) (Hu eq_refl))
    as (p & Hp & Hz & Hm & Hused).
  destruct (get_render_priv st (event ei)) as [st1 o]. cbn [fst snd] in *.
  subst o. rewrite Hz. change (0 >? 0) with false. cbn [fst snd].
  rewrite Hm.
  split; [reflexivity |]. split; [exact Hused |].
  split; [| split].
  - intros _. exists p. rewrite lookup_insert_eq. auto.
  - intros ev (q & Hq & Hqz).
    destruct (decide (event ei = ev)) as [<- | Hne].
    + exists p. rewrite lookup_insert_eq. auto.
    + exists q. rewrite lookup_insert_ne by exact Hne. auto.
  - intros ev Hev q.
    destruct (decide (event ei = ev)) as [<- | Hne].
    + rewrite lookup_insert_eq. intros [= <-]. right. exact Hz.
    + rewrite lookup_insert_ne by exact Hne. apply Hev.
Qed.

Lemma for_each_fill_unplaced l : forall i st,
  (forall ei, ei ∈ l -> not_collidable ei = false ->
              unplaced (privs st) (event ei)) ->
  (for_each fill_step i l st).2 = l /\
  used (for_each fill_step i l st).1 = used st /\
  (forall ev, vacant (privs st) ev ->
              vacant (privs (for_each fill_step i l st).1) ev) /\
  (forall ei, ei ∈ l -> not_collidable ei = false ->
              vacant (privs (for_each fill_step i l st).1) (event ei)).
Proof.
  induction l as [|ei l IH]; intros i st Hu; simpl.
  - repeat split; auto. intros ei Hin. inversion Hin.
  - destruct (fill_step_unplaced i ei st) as (Hsame & Hused & Hv & Hkeep & Hun).
    { apply Hu. left. }
    destruct (fill_step i ei st) as [st1 ei1]. cbn [fst snd] in *. subst ei1.
    destruct (IH (S i) st1) as (Hl & Hused2 & Hkeep2 & Hv2).
    { intros ej Hj Hc. apply Hun, Hu; [right; exact Hj | exact Hc]. }
    destruct (for_each fill_step (S i) l st1) as [st2 l2].
    cbn [fst snd] in *. subst l2.
    split; [reflexivity |]. split; [congruence |]. split.
    + intros ev Hev. apply Hkeep2, Hkeep, Hev.
    + intros ej Hj Hc. apply elem_of_cons in Hj as [-> | Hj].
      * apply Hkeep2, Hv, Hc.
      * apply Hv2; assumption.
Qed.

Lemma fit_step_vacant i ei st :
  not_collidable ei = false -> vacant (privs st) (event ei) ->
  placed (privs (fit_step i ei st).1) (fit_step i ei st).2.
Proof.
  intros Hc (q & Hq & Hqz). unfold Collision.fit_step. rewrite Hc.
  destruct (get_render_priv_unplaced st (event ei))
    as (p & Hp & Hz & Hm & Hused).
  { intros q' Hq'. right. congruence. }
  destruct (get_render_priv st (event ei)) as [st1 o]. cbn [fst snd] in *.
  subst o. rewrite Hz. change (0 =? 0) with true. cbn iota.
  destruct (fit_rect qsort (rect_of_images ei) (used st1) (shift_direction ei))
    as [shift fixed].
  cbn [fst snd privs].
  set (ei' := if negb (shift =? 0) then shift_event frame_height ei shift
              else ei).
  assert (He : event ei' = event ei).
  { unfold ei'. destruct (negb (shift =? 0)); reflexivity. }
  eexists. rewrite He, lookup_insert_eq. split; [reflexivity |].
  split; reflexivity.
Qed.

Lemma collidable_events ev l : ev ∈ collidable l -> ev ∈ event <$> l.
Proof.
  unfold collidable. rewrite elem_of_list_to_set, !list_elem_of_fmap.
  intros (e & -> & He). apply list_elem_of_filter in He as [_ He]. eauto.
Qed.

Lemma for_each_fit_vacant l : forall i st,
  NoDup (event <$> l) ->
  (forall ei, ei ∈ l -> not_collidable ei = false ->
              vacant (privs st) (event ei)) ->
  Forall (fun e => not_collidable e = false ->
                   placed (privs (for_each fit_step i l st).1) e)
         (for_each fit_step i l st).2.
Proof.
  induction l as [|ei l IH]; intros i st Hnd Hv; simpl; [constructor |].
  rewrite fmap_cons in Hnd. apply NoDup_cons in Hnd as [Hfresh Hnd].
  destruct (fit_step_frame qsort calloc_ok frame_height render_id i ei st)
    as (Hev & Hnc & Hskip & Hfr & _).
  pose proof (fit_step_vacant i ei st) as Hplaced.
  destruct (fit_step i ei st) as [st1 ei1]. cbn [fst snd] in *.
  assert (Hv1 : forall ej, ej ∈ l -> not_collidable ej = false ->
                           vacant (privs st1) (event ej)).
  { intros ej Hj Hc. destruct (Hv ej) as (q & Hq & Hqz);
      [right; exact Hj | exact Hc |].
    exists q. split; [| exact Hqz]. rewrite Hfr; [exact Hq |].
    intros E. apply Hfresh. rewrite <- E. apply list_elem_of_fmap. eauto. }
  specialize (IH (S i) st1 Hnd Hv1).
  destruct (for_each_frame _
              (fit_step_frame qsort calloc_ok frame_height render_id)
              l (S i) st1) as (_ & Hkeep & _).
  destruct (for_each fit_step (S i) l st1) as [st2 l2]. cbn [fst snd] in *.
  constructor; [| exact IH].
  intros Hc1. rewrite Hnc in Hc1.
  destruct (Hplaced Hc1) as (p & Hp & Hbox).
  { apply Hv; [left | exact Hc1]. }
  exists p. split; [| exact Hbox]. rewrite Hkeep; [exact Hp |].
  intros Hin. apply collidable_events in Hin. rewrite Hev in Hin.
  contradiction.
Qed.

(** When no event of the group carries a position of the current render
    generation (a first frame, or the first frame after the renderer was
    reconfigured), every allocation succeeds and the events are distinct,
    [fix_collisions] leaves no two collision-detected events of positive
    height overlapping: [overlap] is 0 on the boxes
    ([top], [height], [left], [width]) any two of them come out with. *)
Theorem fix_collisions_first_frame privs0 callocs0 imgs (i j : nat) a b :
  used_ok = true ->
  NoDup (event <$> imgs) ->
  (forall ei, ei ∈ imgs -> unplaced privs0 (event ei)) ->
  i <> j ->
  (fix_collisions privs0 callocs0 imgs).2 !! i = Some a ->
  (fix_collisions privs0 callocs0 imgs).2 !! j = Some b ->
  not_collidable a = false -> not_collidable b = false ->
  0 < height a -> 0 < height b ->
  overlap (rect_of_images a) (rect_of_images b) = 0.
Proof.
  intros Hok Hnd Hun Hij Ha Hb Hca Hcb Hha Hhb.
  pose proof (fix_collisions_Inv qsort calloc_ok used_ok frame_height
                render_id qsort_Permutation qsort_Sorted
                privs0 callocs0 imgs Hok) as HI.
  unfold Collision.fix_collisions in *. rewrite Hok in *. cbn [negb] in *.
  set (st0 := mkState privs0 callocs0 [] []) in *.
  destruct (for_each_fill_unplaced imgs 0%nat st0)
    as (Hsame & _ & _ & Hvac).
  { intros ei Hin _. apply Hun, Hin. }
  destruct (for_each fill_step 0 imgs st0) as [st1 imgs1].
  cbn [fst snd] in *. subst imgs1.
  set (st1' := mkState (privs st1) (callocs st1)
                       (qsort Rect cmp_rect_y0 (used st1)) (shifts st1)) in *.
  pose proof (for_each_fit_vacant imgs 0%nat st1' Hnd Hvac) as Hpl.
  destruct (for_each_frame _
              (fit_step_frame qsort calloc_ok frame_height render_id)
              imgs 0%nat st1') as (Hev & _ & _).
  destruct (for_each fit_step 0 imgs st1') as [st2 imgs2].
  cbn [fst snd] in *.
  rewrite Forall_forall in Hpl.
  destruct (Hpl a) as (pa & Hpa & Hra & Hza);
    [eapply list_elem_of_lookup_2, Ha | exact Hca |].
  destruct (Hpl b) as (pb & Hpb & Hrb & Hzb);
    [eapply list_elem_of_lookup_2, Hb | exact Hcb |].
  destruct (Forall2_lookup_r _ _ _ _ _ Hev Ha) as (a0 & Ha0 & Hea & Hna & _).
  destruct (Forall2_lookup_r _ _ _ _ _ Hev Hb) as (b0 & Hb0 & Heb & Hnb & _).
  rewrite <- Hra, <- Hrb.
  apply (inv_apart _ _ _ HI (event a) (event b)); auto; try lia.
  - rewrite Hea. apply elem_of_collidable; [| congruence].
    eapply list_elem_of_lookup_2, Ha0.
  - rewrite Heb. apply elem_of_collidable; [| congruence].
    eapply list_elem_of_lookup_2, Hb0.
  - rewrite Hea, Heb. intros E. apply Hij.
    eapply NoDup_lookup; [exact Hnd | |];
      rewrite list_lookup_fmap; [rewrite Ha0 | rewrite Hb0]; simpl;
      [reflexivity | congruence].
Qed.

End FirstFrame.

Lemma fix_collisions_first_frame_witness :
  overlap (rect_of_images event_a)
          (rect_of_images (shift_event 720 event_b 30)) = 0.
Proof.
  apply (fix_collisions_first_frame sample_qsort (fun _ => true) true 720 1
           sample_qsort_Permutation sample_qsort_Sorted (fun _ => eq_refl)
           ∅ 0%nat sample_group 0%nat 1%nat).
  - reflexivity.
  - vm_compute. repeat constructor; set_solver.
  - intros ei _ p Hp. rewrite lookup_empty in Hp. discriminate.
  - discriminate.
  - vm_compute. reflexivity.
  - vm_compute. reflexivity.
  - reflexivity.
  - reflexivity.
  - vm_compute. reflexivity.
  - vm_compute. reflexivity.
Defined.

(** ** Positions kept from earlier frames *)

Section Kept.

Variable qsort : forall A : Type, (A -> A -> Z) -> list A -> list A.
Variable calloc_ok : nat -> bool.
Variable used_ok : bool.
Variable frame_height : Z.
Variable render_id : Z.

Hypothesis qsort_Permutation :
  forall A (cmp : A -> A -> Z) l, qsort A cmp l ≡ₚ l.
Hypothesis qsort_Sorted :
  forall A (cmp : A -> A -> Z) l,
    (forall a b, cmp a b <= 0 \/ cmp b a <= 0) ->
    (forall a b c, cmp a b <= 0 -> cmp b c <= 0 -> cmp a c <= 0) ->
    StronglySorted (fun a b => cmp a b <= 0) (qsort A cmp l).
Hypothesis calloc_succeeds : forall n, calloc_ok n = true.

Abbreviation get_render_priv := (get_render_priv calloc_ok render_id).
Abbreviation fill_step := (fill_step calloc_ok frame_height render_id).
Abbreviation fit_step := (fit_step qsort calloc_ok frame_height render_id).
Abbreviation fix_collisions :=
  (fix_collisions qsort calloc_ok used_ok frame_height render_id).

(** The position stored for the event [e], if there is one of this render
    generation, is not out of date: its height is not negative, and when
    it is the height [e] has now, the left edge and the width stored are
    those of [e] as well. *)
Definition kept (m : gmap nat ASS_RenderPriv) (e : EventImages) : Prop :=
  forall p, m !! event e = Some p -> priv_render_id p = render_id ->
    0 <= priv_height p /\
    (priv_height p = height e ->
     priv_left p = left e /\ priv_width p = width e).

(** The [render_priv] of the event is of this render generation and holds
    no box. *)
Definition open (m : gmap nat ASS_RenderPriv) (ev : nat) : Prop :=
  exists p, m !! ev = Some p /\ priv_render_id p = render_id /\
            priv_height p = 0.

(** The [render_priv] of the event is of this render generation and holds
    the box the event is at. *)
Definition settled (m : gmap nat ASS_RenderPriv) (e : EventImages) : Prop :=
  exists p, m !! event e = Some p /\ priv_render_id p = render_id /\
            rect_of_priv p = rect_of_images e /\ priv_height p = height e.

Lemma get_render_priv_cases st ev :
  exists p,
    (get_render_priv st ev).2 = Some p /\
    privs (get_render_priv st ev).1 = <[ev := p]> (privs st) /\
    used (get_render_priv st ev).1 = used st /\
    priv_render_id p = render_id /\
    (priv_height p = 0 \/ privs st !! ev = Some p).
Proof.
  unfold Collision.get_render_priv.
  destruct (privs st !! ev) as [p |] eqn:E.
  - cbn [fst snd privs used].
    destruct (Z.eqb_spec render_id (priv_render_id p)) as [Hid | Hid];
      cbn [negb]; eexists; repeat split; auto.
  - rewrite calloc_succeeds. cbn [fst snd privs used priv_render_id].
    destruct (Z.eqb_spec render_id 0) as [Hid | Hid]; cbn [negb];
      eexists; repeat split; auto.
Qed.

Lemma unfix_fold_id s us : forall p,
  priv_render_id
    (fold_left (fun q u => if negb (overlap s u =? 0) then unfix q else q)
               us p)
  = priv_render_id p.
Proof.
  induction us as [|u us IH]; intros p; simpl; [reflexivity |].
  rewrite IH. destruct (negb _); reflexivity.
Qed.

(** The first loop leaves an event without a box, or with the box stored
    for it, moved there. *)
Lemma fill_step_kept i ei st :
  not_collidable ei = false ->
  kept (privs st) ei ->
  open (privs (fill_step i ei st).1) (event ei) \/
  settled (privs (fill_step i ei st).1) (fill_step i ei st).2.
Proof.
  intros Hc Hk. unfold Collision.fill_step. rewrite Hc.
  destruct (get_render_priv_cases st (event ei))
    as (p & Hp & Hm & _ & Hid & Hcase).
  destruct (get_render_priv st (event ei)) as [st1 o]. cbn [fst snd] in *.
  subst o.
  destruct (Z.gtb_spec (priv_height p) 0) as [Hpos | Hneg].
  - destruct Hcase as [Hz | Hold]; [lia |].
    destruct (Hk p Hold Hid) as [_ Hsame].
    set (p1 := if negb (priv_height p =? height ei) then unfix p else p).
    pose proof (unfix_fold (rect_of_priv p) (used st1) p1) as Hf.
    cbn zeta in Hf. set (p2 := fold_left _ (used st1) p1) in *.
    assert (Hid1 : priv_render_id p1 = render_id).
    { unfold p1. destruct (negb _); exact Hid. }
    assert (Hid2 : priv_render_id p2 = render_id /\
                   (priv_height p2 = 0 \/
                    p2 = p /\ priv_height p = height ei)).
    { split; [unfold p2; rewrite unfix_fold_id; exact Hid1 |].
      destruct Hf as [[-> _] | Hz]; [| left; exact Hz].
      unfold p1. destruct (Z.eqb_spec (priv_height p) (height ei));
        cbn [negb]; [auto | left; reflexivity]. }
    destruct Hid2 as [Hid2 Hcase2].
    destruct (Z.gtb_spec (priv_height p2) 0) as [Hpos2 | Hneg2];
      cbn [fst snd privs].
    + right. destruct Hcase2 as [Hz | [-> Hh]]; [lia |].
      destruct (Hsame Hh) as [Hl Hw].
      exists p. cbn [shift_event event]. rewrite lookup_insert_eq.
      split; [reflexivity |]. split; [exact Hid |]. split; [| exact Hh].
      unfold rect_of_priv, rect_of_images. cbn [shift_event top height left width].
      f_equal; lia.
    + left. exists p2. rewrite lookup_insert_eq.
      destruct Hcase2 as [Hz | [-> _]]; [auto | lia].
  - cbn [fst snd]. left. exists p. rewrite Hm, lookup_insert_eq.
    destruct Hcase as [Hz | Hold]; [auto |].
    destruct (Hk p Hold Hid) as [H0 _].
    split; [reflexivity |]. split; [exact Hid | lia].
Qed.

(** The second loop gives an event without a box one, and leaves an event
    that has its box alone. *)
Lemma fit_step_settles i ei st :
  not_collidable ei = false ->
  open (privs st) (event ei) \/ settled (privs st) ei ->
  settled (privs (fit_step i ei st).1) (fit_step i ei st).2.
Proof.
  intros Hc Hcase. unfold Collision.fit_step. rewrite Hc.
  destruct (get_render_priv_cases st (event ei))
    as (p & Hp & Hm & _ & Hid & Hold).
  destruct (get_render_priv st (event ei)) as [st1 o]. cbn [fst snd] in *.
  subst o.
  assert (Hnz : height ei <> 0).
  { unfold not_collidable in Hc. rewrite !orb_false_iff in Hc.
    destruct Hc as [[_ Hh] _]. apply Z.eqb_neq in Hh. exact Hh. }
  destruct (Z.eqb_spec (priv_height p) 0) as [Hz | Hnz'].
  - destruct (fit_rect qsort (rect_of_images ei) (used st1)
                (shift_direction ei)) as [shift fixed].
    cbn [fst snd privs].
    set (ei' := if negb (shift =? 0) then shift_event frame_height ei shift
                else ei).
    assert (He : event ei' = event ei).
    { unfold ei'. destruct (negb (shift =? 0)); reflexivity. }
    eexists. rewrite He, lookup_insert_eq. split; [reflexivity |].
    cbn [priv_render_id]. split; [exact Hid |]. split; reflexivity.
  - cbn [fst snd]. destruct Hold as [Hz | Hold]; [lia |].
    destruct Hcase as [(q & Hq & _ & Hqz) | (q & Hq & Hqid & Hqr & Hqh)].
    + rewrite Hq in Hold. injection Hold as ->. lia.
    + rewrite Hq in Hold. injection Hold as ->.
      exists p. rewrite Hm, lookup_insert_eq. auto.
Qed.

Lemma for_each_fill_kept l : forall i st,
  NoDup (event <$> l) ->
  (forall ei, ei ∈ l -> not_collidable ei = false -> kept (privs st) ei) ->
  Forall (fun e => not_collidable e = false ->
                   open (privs (for_each fill_step i l st).1) (event e) \/
                   settled (privs (for_each fill_step i l st).1) e)
         (for_each fill_step i l st).2.
Proof.
  induction l as [|ei l IH]; intros i st Hnd Hk; simpl; [constructor |].
  rewrite fmap_cons in Hnd. apply NoDup_cons in Hnd as [Hfresh Hnd].
  destruct (fill_step_frame calloc_ok frame_height render_id i ei st)
    as (Hev & Hnc & Hskip & Hfr & _).
  pose proof (fill_step_kept i ei st) as Hstep.
  destruct (fill_step i ei st) as [st1 ei1]. cbn [fst snd] in *.
  assert (Hk1 : forall ej, ej ∈ l -> not_collidable ej = false ->
                           kept (privs st1) ej).
  { intros ej Hj Hc p Hp. apply (Hk ej); [right; exact Hj | exact Hc |].
    rewrite <- Hfr; [exact Hp |].
    intros E. apply Hfresh. rewrite <- E. apply list_elem_of_fmap. eauto. }
  specialize (IH (S i) st1 Hnd Hk1).
  destruct (for_each_frame _
              (fill_step_frame calloc_ok frame_height render_id)
              l (S i) st1) as (_ & Hkeep & _).
  destruct (for_each fill_step (S i) l st1) as [st2 l2]. cbn [fst snd] in *.
  constructor; [| exact IH].
  intros Hc1. rewrite Hnc in Hc1.
  assert (Hout : event ei ∉ collidable l).
  { intros Hin. apply collidable_events in Hin. contradiction. }
  destruct (Hstep Hc1) as [(p & Hp & Hrest) | (p & Hp & Hrest)].
  - apply Hk; [left | exact Hc1].
  - left. exists p. rewrite Hev, Hkeep by exact Hout. auto.
  - right. exists p. rewrite Hkeep by (rewrite Hev; exact Hout). auto.
Qed.

Lemma for_each_fit_settles l : forall i st,
  NoDup (event <$> l) ->
  (forall ei, ei ∈ l -> not_collidable ei = false ->
              open (privs st) (event ei) \/ settled (privs st) ei) ->
  Forall (fun e => not_collidable e = false ->
                   settled (privs (for_each fit_step i l st).1) e)
         (for_each fit_step i l st).2.
Proof.
  induction l as [|ei l IH]; intros i st Hnd Hv; simpl; [constructor |].
  rewrite fmap_cons in Hnd. apply NoDup_cons in Hnd as [Hfresh Hnd].
  destruct (fit_step_frame qsort calloc_ok frame_height render_id i ei st)
    as (Hev & Hnc & Hskip & Hfr & _).
  pose proof (fit_step_settles i ei st) as Hstep.
  destruct (fit_step i ei st) as [st1 ei1]. cbn [fst snd] in *.
  assert (Hv1 : forall ej, ej ∈ l -> not_collidable ej = false ->
                  open (privs st1) (event ej) \/ settled (privs st1) ej).
  { intros ej Hj Hc.
    assert (Hne : event ej <> event ei).
    { intros E. apply Hfresh. rewrite <- E. apply list_elem_of_fmap. eauto. }
    destruct (Hv ej (list_elem_of_further _ _ _ Hj) Hc)
      as [(q & Hq & Hrest) | (q & Hq & Hrest)]; [left | right];
      exists q; (split; [rewrite Hfr; [exact Hq | exact Hne] | exact Hrest]). }
  specialize (IH (S i) st1 Hnd Hv1).
  destruct (for_each_frame _
              (fit_step_frame qsort calloc_ok frame_height render_id)
              l (S i) st1) as (_ & Hkeep & _).
  destruct (for_each fit_step (S i) l st1) as [st2 l2]. cbn [fst snd] in *.
  constructor; [| exact IH].
  intros Hc1. rewrite Hnc in Hc1.
  destruct (Hstep Hc1) as (p & Hp & Hrest).
  { apply Hv; [left | exact Hc1]. }
  exists p. split; [| exact Hrest]. rewrite Hkeep; [exact Hp |].
  intros Hin. apply collidable_events in Hin. rewrite Hev in Hin.
  contradiction.
Qed.

(** [fix_collisions] leaves no two collision-detected events of positive
    height overlapping when every allocation succeeds, the events are
    distinct, and no event carries a position that is out of date: an
    event whose stored position is of this render generation and has the
    height the event has now also has the left edge and the width stored
    with it.  [overlap] is 0 on the boxes any two of them come out
    with. *)
Theorem fix_collisions_kept_positions privs0 callocs0 imgs (i j : nat) a b :
  used_ok = true ->
  NoDup (event <$> imgs) ->
  (forall ei, ei ∈ imgs -> kept privs0 ei) ->
  i <> j ->
  (fix_collisions privs0 callocs0 imgs).2 !! i = Some a ->
  (fix_collisions privs0 callocs0 imgs).2 !! j = Some b ->
  not_collidable a = false -> not_collidable b = false ->
  0 < height a -> 0 < height b ->
  overlap (rect_of_images a) (rect_of_images b) = 0.
Proof.
  intros Hok Hnd Hkept Hij Ha Hb Hca Hcb Hha Hhb.
  pose proof (fix_collisions_Inv qsort calloc_ok used_ok frame_height
                render_id qsort_Permutation qsort_Sorted
                privs0 callocs0 imgs Hok) as HI.
  unfold Collision.fix_collisions in *. rewrite Hok in *. cbn [negb] in *.
  set (st0 := mkState privs0 callocs0 [] []) in *.
  pose proof (for_each_fill_kept imgs 0%nat st0 Hnd
                (fun ei Hin _ => Hkept ei Hin)) as Hfill.
  destruct (for_each_frame _
              (fill_step_frame calloc_ok frame_height render_id)
              imgs 0%nat st0) as (Hev1 & _ & _).
  destruct (for_each fill_step 0 imgs st0) as [st1 imgs1].
  cbn [fst snd] in *.
  set (st1' := mkState (privs st1) (callocs st1)
                       (qsort Rect cmp_rect_y0 (used st1)) (shifts st1)) in *.
  assert (Hnd1 : NoDup (event <$> imgs1)).
  { replace (event <$> imgs1) with (event <$> imgs); [exact Hnd |].
    clear -Hev1. induction Hev1 as [| x y l l' (He & _) _ IH];
      [reflexivity |]. rewrite !fmap_cons, IH, He. reflexivity. }
  assert (Hfill' : forall ei, ei ∈ imgs1 -> not_collidable ei = false ->
             open (privs st1') (event ei) \/ settled (privs st1') ei).
  { intros ei Hin. rewrite Forall_forall in Hfill. apply Hfill, Hin. }
  pose proof (for_each_fit_settles imgs1 0%nat st1' Hnd1 Hfill') as Hpl.
  destruct (for_each_frame _
              (fit_step_frame qsort calloc_ok frame_height render_id)
              imgs1 0%nat st1') as (Hev2 & _ & _).
  destruct (for_each fit_step 0 imgs1 st1') as [st2 imgs2].
  cbn [fst snd] in *.
  rewrite Forall_forall in Hpl.
  destruct (Hpl a) as (pa & Hpa & _ & Hra & Hza);
    [eapply list_elem_of_lookup_2, Ha | exact Hca |].
  destruct (Hpl b) as (pb & Hpb & _ & Hrb & Hzb);
    [eapply list_elem_of_lookup_2, Hb | exact Hcb |].
  destruct (Forall2_lookup_r _ _ _ _ _ Hev2 Ha) as (a1 & Ha1 & Hea & Hna & _).
  destruct (Forall2_lookup_r _ _ _ _ _ Hev2 Hb) as (b1 & Hb1 & Heb & Hnb & _).
  destruct (Forall2_lookup_r _ _ _ _ _ Hev1 Ha1) as (a0 & Ha0 & Hea0 & Hna0 & _).
  destruct (Forall2_lookup_r _ _ _ _ _ Hev1 Hb1) as (b0 & Hb0 & Heb0 & Hnb0 & _).
  rewrite <- Hra, <- Hrb.
  apply (inv_apart _ _ _ HI (event a) (event b)); auto; try lia.
  - rewrite Hea, Hea0. apply elem_of_collidable; [| congruence].
    eapply list_elem_of_lookup_2, Ha0.
  - rewrite Heb, Heb0. apply elem_of_collidable; [| congruence].
    eapply list_elem_of_lookup_2, Hb0.
  - rewrite Hea, Heb, Hea0, Heb0. intros E. apply Hij.
    eapply NoDup_lookup; [exact Hnd | |];
      rewrite list_lookup_fmap; [rewrite Ha0 | rewrite Hb0]; simpl;
      [reflexivity | congruence].
Qed.

End Kept.

(** A third event that crosses the first, in a frame that follows
    [first_frame]: the two events placed there are kept, the third is moved
    below the first. *)
Definition crossing_event : EventImages :=
  mkEventImages [mkImage 100 50 100 12288 255 50 120] 120 50 50 100 1 1 3%nat.

Lemma fix_collisions_kept_positions_witness :
  overlap (rect_of_images narrow_event)
          (rect_of_images (shift_event 720 crossing_event 30)) = 0.
Proof.
  apply (fix_collisions_kept_positions sample_qsort (fun _ => true) true
           720 1 sample_qsort_Permutation sample_qsort_Sorted
           (fun _ => eq_refl)
           (privs first_frame.1) (callocs first_frame.1)
           [narrow_event; crossing_event; beside_event] 0%nat 1%nat).
  - reflexivity.
  - vm_compute. repeat constructor; set_solver.
  - intros ei Hin p Hp _.
    rewrite !elem_of_cons, elem_of_nil in Hin.
    destruct Hin as [-> | [-> | [-> | []]]]; vm_compute in Hp;
      try discriminate; injection Hp as <-; vm_compute;
      (split; [discriminate | auto]).
  - discriminate.
  - vm_compute. reflexivity.
  - vm_compute. reflexivity.
  - reflexivity.
  - reflexivity.
  - vm_compute. reflexivity.
  - vm_compute. reflexivity.
Defined.

End Collision.

(** * Binary64 helpers of the C library *)

Module Double.

(** Conversion of an integer to [double] (round to nearest, exact below
    2^53 in absolute value). *)
Definition of_int (z : Z) : float :=
  if z <? 0 then PrimFloat.opp (PrimFloat.of_uint63 (Uint63.of_Z (- z)))
  else PrimFloat.of_uint63 (Uint63.of_Z z).

(** The integer nearest to [m * 2^e], ties to even. *)
Definition round_half_even (m e : Z) : Z :=
  if 0 <=? e then Z.shiftl m e
  else
    let q := Z.shiftr m (- e) in
    let r := m - Z.shiftl q (- e) in
    let half := Z.shiftl 1 (- e - 1) in
    if r <? half then q
    else if half <? r then q + 1
    else if Z.even q then q else q + 1.

(** [lrint] in the default rounding mode.  C leaves the result open for a
    NaN or an infinity; the callers modelled here test the range first. *)
Definition lrint (x : float) : Z :=
  match Prim2SF x with
  | S754_finite s m e =>
      let n := round_half_even (Zpos m) e in
      if s then - n else n
  | _ => 0
  end.

Definition fabs (x : float) : float := PrimFloat.abs x.

(** [x < x] is false for every double, NaN included. *)
Lemma ltb_irrefl (x : float) : PrimFloat.ltb x x = false.
Proof.
  rewrite FloatAxioms.ltb_spec. unfold SFltb, SFcompare.
  destruct (Prim2SF x) as [s | s | | s m e]; try reflexivity.
  - destruct s; reflexivity.
  - rewrite Z.compare_refl.
    replace (PosDef.Pos.compare_cont Eq m m) with Eq
      by (symmetry; apply Pos.compare_cont_refl).
    destruct s; reflexivity.
Qed.

Example lrint_ties :
  (lrint 2.5%float, lrint 3.5%float, lrint (-0.5)%float, lrint (-1.5)%float)
  = (2, 4, 0, -2).
Proof. vm_compute. reflexivity. Qed.

End Double.

(** * The values of binary64 numbers *)

(** What the blur quantizer needs of binary64 arithmetic, from the
    specification of the primitive operations in [SpecFloat]: the real
    number a double stands for, the operations that are exact (scaling a
    normal number by a power of two, converting an integer below [2^53]),
    those that round to a neighbour (a product, one plus a number), [lrint]
    and [frexp]. *)

Module Binary64.

(** The number of binary digits. *)
Lemma digits2_pos_size (p : positive) : digits2_pos p = Pos.size p.
Proof. induction p as [p IH | p IH |]; simpl; congruence. Qed.

Lemma Zdigits2_log2 (p : positive) :
  Zdigits2 (Zpos p) = Z.log2 (Zpos p) + 1.
Proof.
  simpl. rewrite digits2_pos_size.
  destruct p as [p | p |]; simpl; try reflexivity; lia.
Qed.

Lemma Zdigits2_bounds (p : positive) :
  2 ^ (Zdigits2 (Zpos p) - 1) <= Zpos p < 2 ^ Zdigits2 (Zpos p).
Proof.
  rewrite Zdigits2_log2.
  pose proof (Z.log2_spec (Zpos p) ltac:(lia)) as H.
  replace (Z.log2 (Zpos p) + 1 - 1) with (Z.log2 (Zpos p)) by lia.
  replace (Z.log2 (Zpos p) + 1) with (Z.succ (Z.log2 (Zpos p))) by lia.
  exact H.
Qed.

Lemma Zdigits2_mul_pow2 (p : positive) (n : Z) :
  0 <= n -> Zdigits2 (Zpos p * 2 ^ n) = Zdigits2 (Zpos p) + n.
Proof.
  intros Hn.
  assert (H : exists q, Zpos p * 2 ^ n = Zpos q).
  { assert (0 < Zpos p * 2 ^ n) by (apply Z.mul_pos_pos; [lia | apply Z.pow_pos_nonneg; lia]).
    destruct (Zpos p * 2 ^ n) as [|q|q] eqn:E; try lia. eauto. }
  destruct H as [q Hq]. rewrite Hq, !Zdigits2_log2, <- Hq.
  rewrite Z.log2_mul_pow2 by lia. lia.
Qed.

(** ** Shifting a mantissa right *)

Lemma iter_pos_nat {A} (f : A -> A) (p : positive) : forall x,
  SpecFloat.iter_pos f p x = Nat.iter (Pos.to_nat p) f x.
Proof.
  induction p as [p IH | p IH |]; intros x; cbn [SpecFloat.iter_pos].
  - rewrite !IH, Pos2Nat.inj_xI, <- Nat.iter_add, <- Nat.iter_succ_r.
    f_equal. lia.
  - rewrite !IH, Pos2Nat.inj_xO, <- Nat.iter_add. f_equal. lia.
  - reflexivity.
Qed.

Lemma shr_1_m (mrs : shr_record) :
  0 <= shr_m mrs -> shr_m (shr_1 mrs) = shr_m mrs / 2.
Proof.
  destruct mrs as [m r s]. simpl. intros Hm.
  destruct m as [|p|p]; [reflexivity | | lia].
  destruct p as [p | p |]; simpl.
  - rewrite Pos2Z.inj_xI. apply Z.div_unique with 1; lia.
  - rewrite Pos2Z.inj_xO. apply Z.div_unique with 0; lia.
  - reflexivity.
Qed.

Lemma shr_iter_m (n : nat) (mrs : shr_record) :
  0 <= shr_m mrs ->
  shr_m (Nat.iter n shr_1 mrs) = shr_m mrs / 2 ^ Z.of_nat n.
Proof.
  intros Hm. induction n as [|n IH].
  - simpl. rewrite Z.div_1_r. reflexivity.
  - rewrite Nat.iter_succ, shr_1_m, IH.
    + rewrite Nat2Z.inj_succ, Z.pow_succ_r by lia.
      rewrite Z.div_div by lia. f_equal. lia.
    + rewrite IH. apply Z.div_pos; lia.
Qed.

Lemma shr_iter_exact (n : nat) : forall k : Z,
  0 <= k ->
  Nat.iter n shr_1 (Build_shr_record (k * 2 ^ Z.of_nat n) false false)
  = Build_shr_record k false false.
Proof.
  induction n as [|n IH]; intros k Hk.
  - simpl. rewrite Z.mul_1_r. reflexivity.
  - rewrite Nat.iter_succ.
    replace (k * 2 ^ Z.of_nat (S n)) with ((2 * k) * 2 ^ Z.of_nat n).
    2: { rewrite Nat2Z.inj_succ, Z.pow_succ_r by lia. ring. }
    rewrite IH by lia. destruct k as [|p|p]; [reflexivity | reflexivity | lia].
Qed.

(** Rounding a number that fits: [m = p * 2^n] with [p] of the width the
    format gives a number of this size. *)
Lemma binary_round_aux_exact (s : bool) (p : positive) (n e : Z) :
  0 <= n ->
  fexp prec emax (Zdigits2 (Zpos p) + n + e) = e + n ->
  e + n <= emax - prec ->
  binary_round_aux prec emax s (Zpos p * 2 ^ n) e loc_Exact
  = S754_finite s p (e + n).
Proof.
  intros Hn Hfexp Hmax. unfold binary_round_aux.
  assert (H1 : shr_fexp prec emax (Zpos p * 2 ^ n) e loc_Exact
               = (Build_shr_record (Zpos p) false false, e + n)).
  { unfold shr_fexp. rewrite Zdigits2_mul_pow2 by exact Hn. rewrite Hfexp.
    replace (e + n - e) with n by lia. unfold shr. cbn [shr_record_of_loc].
    destruct n as [|q|q]; [| | lia].
    - rewrite Z.mul_1_r, Z.add_0_r. reflexivity.
    - rewrite iter_pos_nat. rewrite <- (positive_nat_Z q) at 1.
      rewrite shr_iter_exact by lia. reflexivity. }
  rewrite H1. cbn [shr_m loc_of_shr_record round_nearest_even].
  assert (H2 : shr_fexp prec emax (Zpos p) (e + n) loc_Exact
               = (Build_shr_record (Zpos p) false false, e + n)).
  { unfold shr_fexp.
    replace (Zdigits2 (Zpos p) + (e + n)) with (Zdigits2 (Zpos p) + n + e) by lia.
    rewrite Hfexp, Z.sub_diag. reflexivity. }
  rewrite H2. cbn [shr_m].
  destruct (Z.leb_spec (e + n) (emax - prec)); [reflexivity | lia].
Qed.

(** ** The value of a double *)

Definition SF2R (x : spec_float) : R :=
  match x with
  | S754_finite s m e =>
      ((if s then - IZR (Zpos m) else IZR (Zpos m)) * powerRZ 2 e)%R
  | _ => 0%R
  end.

(** The real number a double stands for (0 for an infinity or a NaN). *)
Definition F2R (x : float) : R := SF2R (Prim2SF x).

(** The double is a zero or a finite number. *)
Definition finite (x : float) : bool :=
  match Prim2SF x with
  | S754_zero _ | S754_finite _ _ _ => true
  | _ => false
  end.

Lemma powerRZ_pow2 (n : Z) : 0 <= n -> powerRZ 2 n = IZR (2 ^ n).
Proof.
  intros Hn. rewrite <- (Z2Nat.id n Hn), <- pow_powerRZ, pow_IZR.
  reflexivity.
Qed.

Lemma powerRZ_2_pos (n : Z) : (0 < powerRZ 2 n)%R.
Proof. apply powerRZ_lt. lra. Qed.

Lemma powerRZ_2_add (n m : Z) :
  powerRZ 2 (n + m) = (powerRZ 2 n * powerRZ 2 m)%R.
Proof. apply powerRZ_add. lra. Qed.

Lemma powerRZ_2_le (a b : Z) : a <= b -> (powerRZ 2 a <= powerRZ 2 b)%R.
Proof.
  intros Hab. replace b with (a + (b - a)) by lia. rewrite powerRZ_2_add.
  rewrite (powerRZ_pow2 (b - a)) by lia.
  assert (H : (1 <= IZR (2 ^ (b - a)))%R).
  { apply (IZR_le 1). assert (0 < 2 ^ (b - a)) by (apply Z.pow_pos_nonneg; lia).
    lia. }
  pose proof (powerRZ_2_pos a). nra.
Qed.

Lemma powerRZ_2_lt_inv (a b : Z) :
  (powerRZ 2 a < powerRZ 2 b)%R -> a < b.
Proof.
  intros H. destruct (Z_lt_le_dec a b) as [Hlt | Hge]; [exact Hlt |].
  apply powerRZ_2_le in Hge. lra.
Qed.

(** What [Prim2SF_valid] says of a finite double. *)
Lemma finite_canonical (x : float) s m e :
  Prim2SF x = S754_finite s m e ->
  fexp prec emax (Zdigits2 (Zpos m) + e) = e /\ e <= emax - prec.
Proof.
  intros Hx. pose proof (Prim2SF_valid x) as Hv. rewrite Hx in Hv.
  unfold SpecFloat.valid_binary, bounded, canonical_mantissa in Hv.
  apply andb_true_iff in Hv as [H1 H2].
  apply Z.eqb_eq in H1. apply Z.leb_le in H2. auto.
Qed.

(** A mantissa of 53 bits with its exponent: between [2^(e+52)] and
    [2^(e+53)]. *)
Lemma normal_value (m : positive) (e : Z) :
  Zdigits2 (Zpos m) = 53 ->
  (powerRZ 2 (e + 52) <= IZR (Zpos m) * powerRZ 2 e < powerRZ 2 (e + 53))%R.
Proof.
  intros Hd. pose proof (Zdigits2_bounds m) as [Hlo Hhi]. rewrite Hd in Hlo, Hhi.
  apply IZR_le in Hlo. apply IZR_lt in Hhi.
  rewrite <- powerRZ_pow2 in Hlo, Hhi by lia.
  rewrite !(Z.add_comm e), !powerRZ_2_add.
  pose proof (powerRZ_2_pos e). change (53 - 1) with 52 in Hlo. nra.
Qed.

(** A double that is at least [2^-1022] is normal. *)
Lemma large_normal (x : float) s m e :
  Prim2SF x = S754_finite s m e ->
  (powerRZ 2 (-1022) <= IZR (Zpos m) * powerRZ 2 e)%R ->
  Zdigits2 (Zpos m) = 53.
Proof.
  intros Hx Hv. destruct (finite_canonical x s m e Hx) as [Hc _].
  unfold fexp, SpecFloat.emin, emax, prec in Hc.
  destruct (Z.eq_dec (Zdigits2 (Zpos m)) 53) as [E | Hne]; [exact E |].
  exfalso.
  assert (He : e = -1074 /\ Zdigits2 (Zpos m) <= 52) by lia.
  destruct He as [-> Hd].
  pose proof (Zdigits2_bounds m) as [_ Hhi].
  assert (Hm : Zpos m < 2 ^ 52).
  { eapply Z.lt_le_trans; [exact Hhi |]. apply Z.pow_le_mono_r; lia. }
  apply IZR_lt in Hm. rewrite <- powerRZ_pow2 in Hm by lia.
  assert (H : (IZR (Zpos m) * powerRZ 2 (-1074) < powerRZ 2 (-1022))%R).
  { replace (-1022) with (52 + -1074) by lia. rewrite powerRZ_2_add.
    pose proof (powerRZ_2_pos (-1074)). nra. }
  lra.
Qed.

(** ** Scaling by a power of two is exact *)

Definition two_52 : positive := 4503599627370496.

Lemma mul_pow2_r (x c : float) s m e k :
  Prim2SF x = S754_finite s m e ->
  Zdigits2 (Zpos m) = 53 ->
  Prim2SF c = S754_finite false two_52 (k - 52) ->
  -1074 <= e + k <= 971 ->
  Prim2SF (x * c) = S754_finite s m (e + k).
Proof.
  intros Hx Hd Hc Hr. rewrite mul_spec, Hx, Hc. unfold SF64mul, SFmul.
  rewrite xorb_false_r, Pos2Z.inj_mul. change (Zpos two_52) with (2 ^ 52).
  rewrite binary_round_aux_exact.
  - f_equal. lia.
  - lia.
  - rewrite Hd. unfold fexp, SpecFloat.emin, emax, prec. lia.
  - unfold emax, prec. lia.
Qed.

Lemma mul_pow2_l (x c : float) s m e k :
  Prim2SF x = S754_finite s m e ->
  Zdigits2 (Zpos m) = 53 ->
  Prim2SF c = S754_finite false two_52 (k - 52) ->
  -1074 <= e + k <= 971 ->
  Prim2SF (c * x) = S754_finite s m (e + k).
Proof.
  intros Hx Hd Hc Hr. rewrite mul_spec, Hx, Hc. unfold SF64mul, SFmul.
  rewrite xorb_false_l, Pos2Z.inj_mul, Z.mul_comm.
  change (Zpos two_52) with (2 ^ 52).
  rewrite binary_round_aux_exact.
  - f_equal. lia.
  - lia.
  - rewrite Hd. unfold fexp, SpecFloat.emin, emax, prec. lia.
  - unfold emax, prec. lia.
Qed.

Lemma div_pow2 (x c : float) s m e k :
  Prim2SF x = S754_finite s m e ->
  Zdigits2 (Zpos m) = 53 ->
  Prim2SF c = S754_finite false two_52 (- k - 52) ->
  -1073 <= e + k <= 971 ->
  Prim2SF (x / c) = S754_finite s m (e + k).
Proof.
  intros Hx Hd Hc Hr. rewrite div_spec, Hx, Hc. unfold SF64div, SFdiv.
  rewrite xorb_false_r. unfold SFdiv_core_binary.
  rewrite Hd. change (Zdigits2 (Zpos two_52)) with 53.
  assert (He : Z.min (fexp prec emax (53 + e - (53 + (- k - 52))))
                     (e - (- k - 52)) = e + k - 1).
  { unfold fexp, SpecFloat.emin, emax, prec. lia. }
  rewrite He.
  replace (e - (- k - 52) - (e + k - 1)) with 53 by lia.
  rewrite Z.shiftl_mul_pow2 by lia.
  change (Zpos two_52) with (2 ^ 52).
  assert (Hq : Z.div_eucl (Zpos m * 2 ^ 53) (2 ^ 52) = (Zpos m * 2 ^ 1, 0)).
  { pose proof (Z.div_eucl_eq (Zpos m * 2 ^ 53) (2 ^ 52) ltac:(lia)) as Heq.
    pose proof (Z.mod_pos_bound (Zpos m * 2 ^ 53) (2 ^ 52) ltac:(lia)) as Hb.
    unfold Z.modulo in Hb.
    destruct (Z.div_eucl (Zpos m * 2 ^ 53) (2 ^ 52)) as [q r].
    assert (q = Zpos m * 2 ^ 1 /\ r = 0) as [-> ->]; [| reflexivity].
    change (2 ^ 53) with (2 * 2 ^ 52) in Heq. change (2 ^ 1) with 2.
    nia. }
  rewrite Hq. change (new_location (2 ^ 52) 0) with loc_Exact.
  rewrite binary_round_aux_exact.
  - f_equal. lia.
  - lia.
  - rewrite Hd. unfold fexp, SpecFloat.emin, emax, prec. lia.
  - unfold emax, prec. lia.
Qed.

(** ** Conversion of an integer *)

Lemma Pos_iter_xO (p n : positive) :
  Zpos (Pos.iter xO p n) = Zpos p * 2 ^ Zpos n.
Proof.
  induction n as [|n IH] using Pos.peano_ind.
  - simpl. lia.
  - rewrite Pos.iter_succ, Pos2Z.inj_xO, IH, Pos2Z.inj_succ.
    rewrite Z.pow_succ_r by lia. ring.
Qed.

(** An integer below [2^53] is converted exactly, to a normal number. *)
Lemma of_int_exact (q : Z) :
  0 < q < 2 ^ 53 ->
  exists m e,
    Prim2SF (Double.of_int q) = S754_finite false m e /\
    Zdigits2 (Zpos m) = 53 /\ -52 <= e <= 0 /\ Zpos m = q * 2 ^ (- e).
Proof.
  intros Hq. unfold Double.of_int.
  destruct (Z.ltb_spec q 0) as [Hneg | _]; [lia |].
  rewrite of_uint63_spec, Uint63.of_Z_spec.
  rewrite Z.mod_small by (change Uint63Axioms.wB with (2 ^ 63); lia).
  destruct q as [|p|p]; try lia.
  unfold binary_normalize, binary_round.
  pose proof (Zdigits2_bounds p) as [Hlo Hhi].
  set (d := Zdigits2 (Zpos p)) in *.
  assert (Hd0 : 1 <= d) by (unfold d; simpl; lia).
  assert (Hd : d <= 53).
  { destruct (Z_lt_le_dec 53 d) as [Hlt | Hle]; [exfalso | exact Hle].
    assert (2 ^ 53 <= 2 ^ (d - 1)) by (apply Z.pow_le_mono_r; lia). lia. }
  change (Zpos (digits2_pos p)) with d.
  assert (Hf : fexp prec emax (d + 0) = d - 53).
  { unfold fexp, SpecFloat.emin, emax, prec. lia. }
  rewrite Hf. unfold shl_align.
  destruct (d - 53 - 0) as [|dd|dd] eqn:Hs; [| lia |].
  - exists p, 0. assert (d = 53) by lia.
    rewrite <- (Z.mul_1_r (Zpos p)) at 1. change 1 with (2 ^ 0) at 1.
    rewrite binary_round_aux_exact.
    + split; [f_equal; lia |]. split; [fold d; lia |]. split; lia.
    + lia.
    + fold d. unfold fexp, SpecFloat.emin, emax, prec. lia.
    + unfold emax, prec. lia.
  - exists (Pos.iter xO p dd), (d - 53).
    assert (Hm : Zpos (Pos.iter xO p dd) = Zpos p * 2 ^ (53 - d)).
    { rewrite Pos_iter_xO. f_equal. f_equal. lia. }
    assert (Hdm : Zdigits2 (Zpos (Pos.iter xO p dd)) = 53).
    { rewrite Hm, Zdigits2_mul_pow2 by lia. fold d. lia. }
    rewrite <- (Z.mul_1_r (Zpos (Pos.iter xO p dd))) at 1.
    change 1 with (2 ^ 0) at 1.
    rewrite binary_round_aux_exact.
    + split; [f_equal; lia |]. split; [exact Hdm |]. split; [lia |].
      rewrite Hm. f_equal. f_equal. lia.
    + lia.
    + rewrite Hdm. unfold fexp, SpecFloat.emin, emax, prec. lia.
    + unfold emax, prec. lia.
Qed.

Lemma of_int_zero : Prim2SF (Double.of_int 0) = S754_zero false.
Proof. reflexivity. Qed.

(** ** [lrint] is within a half *)

Lemma round_half_even_near (m : positive) (e : Z) :
  e < 0 ->
  2 * Z.abs (Double.round_half_even (Zpos m) e * 2 ^ (- e) - Zpos m)
  <= 2 ^ (- e).
Proof.
  intros He. unfold Double.round_half_even.
  destruct (Z.leb_spec 0 e) as [H | _]; [lia |].
  set (k := - e). assert (Hk : 0 < k) by lia.
  rewrite Z.shiftr_div_pow2 by lia.
  rewrite !Z.shiftl_mul_pow2 by lia. rewrite Z.mul_1_l.
  assert (Hpow : 2 ^ k = 2 * 2 ^ (k - 1)).
  { rewrite <- Z.pow_succ_r by lia. f_equal. lia. }
  assert (Hpos : 0 < 2 ^ (k - 1)) by (apply Z.pow_pos_nonneg; lia).
  pose proof (Z.div_mod (Zpos m) (2 ^ k) ltac:(lia)) as Hdm.
  pose proof (Z.mod_pos_bound (Zpos m) (2 ^ k) ltac:(lia)) as Hb.
  set (q := Zpos m / 2 ^ k) in *.
  set (r := Zpos m mod 2 ^ k) in *.
  replace (Zpos m - q * 2 ^ k) with r by lia.
  destruct (Z.ltb_spec r (2 ^ (k - 1))); [lia |].
  destruct (Z.ltb_spec (2 ^ (k - 1)) r); [lia |].
  destruct (Z.even q); lia.
Qed.

Lemma lrint_near (x : float) :
  finite x = true -> (Rabs (IZR (Double.lrint x) - F2R x) <= 1 / 2)%R.
Proof.
  unfold finite, Double.lrint, F2R. intros Hf.
  destruct (Prim2SF x) as [s | s | | s m e]; try discriminate; simpl.
  - rewrite Rminus_0_r, Rabs_R0. lra.
  - set (n := Double.round_half_even (Zpos m) e).
    assert (H : (Rabs (IZR n - IZR (Zpos m) * powerRZ 2 e) <= 1 / 2)%R).
    { destruct (Z_lt_le_dec e 0) as [Hneg | Hpos].
      - pose proof (round_half_even_near m e Hneg) as Hn. fold n in Hn.
        set (k := - e) in *.
        assert (HP : (0 < IZR (2 ^ k))%R).
        { apply (IZR_lt 0). apply Z.pow_pos_nonneg; lia. }
        replace e with (- k) by (unfold k; lia).
        rewrite powerRZ_neg', powerRZ_pow2 by (unfold k; lia).
        replace (IZR n - IZR (Zpos m) * / IZR (2 ^ k))%R
          with (IZR (n * 2 ^ k - Zpos m) * / IZR (2 ^ k))%R.
        2: { rewrite minus_IZR, mult_IZR. field. lra. }
        rewrite Rabs_mult, (Rabs_pos_eq (/ _)).
        2: { left. apply Rinv_0_lt_compat. exact HP. }
        rewrite <- abs_IZR.
        apply IZR_le in Hn. rewrite mult_IZR in Hn.
        apply Rmult_le_reg_r with (IZR (2 ^ k)); [exact HP |].
        rewrite Rmult_assoc, Rinv_l by lra. lra.
      - unfold n, Double.round_half_even.
        destruct (Z.leb_spec 0 e) as [_ | H]; [| lia].
        rewrite Z.shiftl_mul_pow2, mult_IZR, powerRZ_pow2 by lia.
        rewrite Rminus_diag, Rabs_R0. lra. }
    destruct s; [| exact H].
    rewrite opp_IZR.
    replace (- IZR n - - IZR (Zpos m) * powerRZ 2 e)%R
      with (- (IZR n - IZR (Zpos m) * powerRZ 2 e))%R by ring.
    rewrite Rabs_Ropp. exact H.
Qed.

(** ** Zeros *)

Lemma finite_zero (x : float) :
  finite x = true -> F2R x = 0%R -> exists s, Prim2SF x = S754_zero s.
Proof.
  unfold finite, F2R. destruct (Prim2SF x) as [s | s | | s m e];
    try discriminate; [eauto |].
  intros _ H. simpl in H. exfalso.
  pose proof (powerRZ_2_pos e) as Hp.
  assert (Hm : (0 < IZR (Zpos m))%R) by (apply (IZR_lt 0); lia).
  destruct s; nra.
Qed.

Lemma F2R_zero (x : float) s : Prim2SF x = S754_zero s -> F2R x = 0%R.
Proof. unfold F2R. intros ->. reflexivity. Qed.

(** A finite double of positive value. *)
Lemma finite_positive (x : float) :
  finite x = true -> (0 < F2R x)%R ->
  exists m e, Prim2SF x = S754_finite false m e /\
              F2R x = (IZR (Zpos m) * powerRZ 2 e)%R.
Proof.
  unfold finite, F2R. destruct (Prim2SF x) as [s | s | | s m e];
    try discriminate; simpl; intros _ H; try lra.
  pose proof (powerRZ_2_pos e) as Hp.
  assert (Hm : (0 < IZR (Zpos m))%R) by (apply (IZR_lt 0); lia).
  destruct s; [nra |]. eauto.
Qed.

(** ** A product is rounded to a neighbour *)

Lemma Zdigits2_unique (p : positive) (k : Z) :
  2 ^ (k - 1) <= Zpos p < 2 ^ k -> Zdigits2 (Zpos p) = k.
Proof.
  intros [Hlo Hhi]. rewrite Zdigits2_log2.
  assert (Hk : 0 <= k - 1).
  { destruct (Z_lt_le_dec (k - 1) 0) as [Hneg | Hpos]; [| exact Hpos].
    exfalso. destruct (Z_lt_le_dec k 0) as [Hk | Hk].
    - rewrite (Z.pow_neg_r 2 k Hk) in Hhi. lia.
    - assert (k = 0) as -> by lia. simpl in Hhi. lia. }
  rewrite (Z.log2_unique (Zpos p) (k - 1)); [lia | exact Hk |].
  replace (Z.succ (k - 1)) with k by lia. lia.
Qed.

Lemma round_nearest_even_cases (m : Z) (l : location) :
  round_nearest_even m l = m \/ round_nearest_even m l = m + 1.
Proof.
  destruct l as [|[ | | ]]; simpl; auto. destruct (Z.even m); auto.
Qed.

(** Rounding a mantissa of more than 53 bits, away from the ends of the
    exponent range: the result is the mantissa cut to 53 bits, or that plus
    one. *)
Lemma binary_round_aux_near (s : bool) (P : positive) (e : Z) :
  let n := Zdigits2 (Zpos P) - 53 in
  0 < n ->
  -1074 <= e + n < 971 ->
  exists (M : positive) (E : Z) (c : Z),
    binary_round_aux prec emax s (Zpos P) e loc_Exact = S754_finite s M E /\
    (c = Zpos P / 2 ^ n \/ c = Zpos P / 2 ^ n + 1) /\
    e + n <= E /\ Zpos M * 2 ^ (E - (e + n)) = c /\
    Zdigits2 (Zpos M) = 53.
Proof.
  intros n Hn Hr. unfold binary_round_aux.
  pose proof (Zdigits2_bounds P) as [Hlo Hhi].
  replace (Zdigits2 (Zpos P)) with (n + 53) in Hlo, Hhi by (unfold n; lia).
  assert (Hf : fexp prec emax (Zdigits2 (Zpos P) + e) - e = n).
  { unfold fexp, SpecFloat.emin, emax, prec, n. lia. }
  unfold shr_fexp at 1. rewrite Hf. unfold shr at 1.
  destruct n as [|q|q] eqn:Hq; try lia. rewrite <- Hq in *.
  rewrite iter_pos_nat. cbn [shr_record_of_loc].
  set (mrs := Nat.iter (Pos.to_nat q) shr_1
                (Build_shr_record (Zpos P) false false)).
  assert (Hm : shr_m mrs = Zpos P / 2 ^ n).
  { unfold mrs. rewrite shr_iter_m by (simpl; lia). simpl shr_m.
    rewrite positive_nat_Z, Hq. reflexivity. }
  assert (Hpow : 0 < 2 ^ n) by (apply Z.pow_pos_nonneg; lia).
  assert (Hb : 2 ^ 52 <= Zpos P / 2 ^ n < 2 ^ 53).
  { replace (n + 53 - 1) with (52 + n) in Hlo by lia.
    replace (n + 53) with (53 + n) in Hhi by lia.
    rewrite Z.pow_add_r in Hlo, Hhi by lia. split.
    - apply Z.div_le_lower_bound; lia.
    - apply Z.div_lt_upper_bound; lia. }
  set (c := round_nearest_even (shr_m mrs) (loc_of_shr_record mrs)).
  assert (Hc : c = Zpos P / 2 ^ n \/ c = Zpos P / 2 ^ n + 1).
  { unfold c. rewrite <- Hm. apply round_nearest_even_cases. }
  assert (Hcb : 2 ^ 52 <= c <= 2 ^ 53) by lia.
  destruct c as [|C|C] eqn:HC; try lia.
  destruct (Z.eq_dec (Zpos C) (2 ^ 53)) as [Htop | Hnot].
  - exists two_52, (e + n + 1), (Zpos C). rewrite Htop.
    split; [| split; [rewrite <- Htop; exact Hc | split; [lia |]]].
    + unfold shr_fexp. change (Zdigits2 (2 ^ 53)) with 54.
      assert (H1 : fexp prec emax (54 + (e + n)) - (e + n) = 1).
      { unfold fexp, SpecFloat.emin, emax, prec. lia. }
      rewrite H1. cbn [shr shr_record_of_loc SpecFloat.iter_pos].
      change (shr_1 (Build_shr_record (2 ^ 53) false false))
        with (Build_shr_record (Zpos two_52) false false).
      cbn [shr_m].
      destruct (Z.leb_spec (e + n + 1) (emax - prec)) as [_ | H];
        [reflexivity | unfold emax, prec in H; lia].
    + replace (e + n + 1 - (e + n)) with 1 by lia. split; reflexivity.
  - assert (Hd : Zdigits2 (Zpos C) = 53).
    { apply Zdigits2_unique. change (53 - 1) with 52. lia. }
    exists C, (e + n), (Zpos C).
    split; [| split; [exact Hc | split; [lia |]]].
    + unfold shr_fexp. rewrite Hd.
      assert (H0 : fexp prec emax (53 + (e + n)) - (e + n) = 0).
      { unfold fexp, SpecFloat.emin, emax, prec. lia. }
      rewrite H0. cbn [shr shr_record_of_loc shr_m].
      destruct (Z.leb_spec (e + n) (emax - prec)) as [_ | H];
        [reflexivity | unfold emax, prec in H; lia].
    + rewrite Z.sub_diag. split; [lia | exact Hd].
Qed.

(** The same in real numbers: the relative error is at most [2^-52], and
    the result is not below the power of two under the exact value. *)
Lemma binary_round_aux_value (s : bool) (P : positive) (e : Z) :
  let d := Zdigits2 (Zpos P) in
  53 < d ->
  -1074 <= e + d - 53 < 971 ->
  exists (M : positive) (E : Z),
    binary_round_aux prec emax s (Zpos P) e loc_Exact = S754_finite s M E /\
    Zdigits2 (Zpos M) = 53 /\
    (Rabs (IZR (Zpos M) * powerRZ 2 E - IZR (Zpos P) * powerRZ 2 e)
     <= IZR (Zpos P) * powerRZ 2 e * powerRZ 2 (-52))%R /\
    (powerRZ 2 (d + e - 1) <= IZR (Zpos M) * powerRZ 2 E)%R.
Proof.
  intros d Hd Hr.
  destruct (binary_round_aux_near s P e)
    as (M & E & c & Hres & Hc & HE & HM & HdM).
  { fold d. lia. }
  { fold d. lia. }
  fold d in Hres, Hc, HE, HM. set (n := d - 53) in *.
  exists M, E. split; [exact Hres |]. split; [exact HdM |].
  pose proof (Zdigits2_bounds P) as [HPl HPh]. fold d in HPl, HPh.
  assert (Hpow : 0 < 2 ^ n) by (apply Z.pow_pos_nonneg; lia).
  assert (Hdiv : Zpos P / 2 ^ n * 2 ^ n <= Zpos P
                 < (Zpos P / 2 ^ n + 1) * 2 ^ n).
  { pose proof (Z.div_mod (Zpos P) (2 ^ n) ltac:(lia)).
    pose proof (Z.mod_pos_bound (Zpos P) (2 ^ n) ltac:(lia)). lia. }
  assert (Herr : Z.abs (c * 2 ^ n - Zpos P) <= 2 ^ n) by lia.
  assert (Hbig : 2 ^ 52 * 2 ^ n <= Zpos P).
  { rewrite <- Z.pow_add_r by lia.
    replace (52 + n) with (d - 1) by (unfold n; lia). exact HPl. }
  assert (Hcl : 2 ^ 52 <= c).
  { assert (2 ^ 52 <= Zpos P / 2 ^ n) by (apply Z.div_le_lower_bound; lia).
    lia. }
  assert (Hval : (IZR (Zpos M) * powerRZ 2 E
                  = IZR c * IZR (2 ^ n) * powerRZ 2 e)%R).
  { rewrite <- HM, mult_IZR.
    replace E with ((E - (e + n)) + (n + e)) at 1 by lia.
    rewrite !powerRZ_2_add, !powerRZ_pow2 by lia. ring. }
  pose proof (powerRZ_2_pos e) as Hpe.
  assert (H52 : (0 < IZR (2 ^ 52))%R) by (apply (IZR_lt 0); lia).
  assert (Hn' : (0 < IZR (2 ^ n))%R) by (apply (IZR_lt 0); lia).
  rewrite Hval. split.
  - replace (IZR c * IZR (2 ^ n) * powerRZ 2 e
             - IZR (Zpos P) * powerRZ 2 e)%R
      with (IZR (c * 2 ^ n - Zpos P) * powerRZ 2 e)%R
      by (rewrite minus_IZR, mult_IZR; ring).
    rewrite Rabs_mult, (Rabs_pos_eq (powerRZ 2 e)) by lra.
    rewrite <- abs_IZR.
    apply IZR_le in Herr, Hbig. rewrite mult_IZR in Hbig.
    change (powerRZ 2 (-52)) with (/ powerRZ 2 52)%R.
    rewrite (powerRZ_pow2 52) by lia.
    assert (Hkey : (IZR (Z.abs (c * 2 ^ n - Zpos P))
                    <= IZR (Zpos P) * / IZR (2 ^ 52))%R).
    { apply Rle_trans with (IZR (2 ^ n)); [exact Herr |].
      apply Rmult_le_reg_r with (IZR (2 ^ 52)); [exact H52 |].
      rewrite Rmult_assoc, Rinv_l by lra. lra. }
    nra.
  - replace (d + e - 1) with (52 + (n + e)) by (unfold n; lia).
    rewrite !powerRZ_2_add, !powerRZ_pow2 by lia.
    apply IZR_le in Hcl.
    assert (Hq : (0 < IZR (2 ^ n) * powerRZ 2 e)%R)
      by (apply Rmult_lt_0_compat; assumption).
    rewrite (Rmult_assoc (IZR c)).
    apply Rmult_le_compat_r; [lra | exact Hcl].
Qed.

(** The product of two normal doubles, away from the ends of the exponent
    range, has a relative error of at most [2^-52]. *)
Lemma mul_near (x y : float) mx ex my ey :
  Prim2SF x = S754_finite false mx ex -> Zdigits2 (Zpos mx) = 53 ->
  Prim2SF y = S754_finite false my ey -> Zdigits2 (Zpos my) = 53 ->
  -1126 <= ex + ey < 918 ->
  finite (x * y) = true /\
  (Rabs (F2R (x * y) - F2R x * F2R y)
   <= F2R x * F2R y * powerRZ 2 (-52))%R.
Proof.
  intros Hx Hdx Hy Hdy Hr. unfold finite, F2R.
  rewrite mul_spec, Hx, Hy. unfold SF64mul, SFmul. cbn [xorb SF2R].
  pose proof (Zdigits2_bounds mx) as [Hxl Hxh].
  pose proof (Zdigits2_bounds my) as [Hyl Hyh].
  rewrite Hdx in Hxl, Hxh. rewrite Hdy in Hyl, Hyh.
  change (53 - 1) with 52 in *.
  set (P := (mx * my)%positive).
  assert (HP : Zpos P = Zpos mx * Zpos my) by (unfold P; lia).
  assert (HPb : 2 ^ 104 <= Zpos P < 2 ^ 106).
  { rewrite HP. change (2 ^ 104) with (2 ^ 52 * 2 ^ 52).
    change (2 ^ 106) with (2 ^ 53 * 2 ^ 53). split; nia. }
  pose proof (Zdigits2_bounds P) as [HPl HPh].
  set (d := Zdigits2 (Zpos P)) in *.
  assert (Hd : 105 <= d <= 106).
  { split.
    - destruct (Z_lt_le_dec d 105) as [Hlt | Hle]; [exfalso | exact Hle].
      assert (2 ^ d <= 2 ^ 104) by (apply Z.pow_le_mono_r; lia). lia.
    - destruct (Z_lt_le_dec 106 d) as [Hlt | Hle]; [exfalso | exact Hle].
      assert (2 ^ 106 <= 2 ^ (d - 1)) by (apply Z.pow_le_mono_r; lia). lia. }
  destruct (binary_round_aux_value false P (ex + ey))
    as (M & E & Hres & _ & Herr & _).
  { fold d. lia. }
  { fold d. lia. }
  rewrite Hres. split; [reflexivity |]. cbn [SF2R].
  assert (Hxy : (IZR (Zpos mx) * powerRZ 2 ex * (IZR (Zpos my) * powerRZ 2 ey)
                 = IZR (Zpos P) * powerRZ 2 (ex + ey))%R).
  { rewrite HP, mult_IZR, powerRZ_2_add. ring. }
  rewrite Hxy. exact Herr.
Qed.

(** ** One plus a double *)

Lemma one_SF : Prim2SF 1%float = S754_finite false two_52 (-52).
Proof. reflexivity. Qed.

(** [1 + x] for a normal [x] between 0 and [2^16]: a normal double that is
    at least 1, with a relative error of at most [2^-52]. *)
Lemma add_one_near (x : float) (m : positive) (e : Z) :
  Prim2SF x = S754_finite false m e ->
  Zdigits2 (Zpos m) = 53 ->
  -1074 <= e <= -37 ->
  exists (M : positive) (E : Z),
    Prim2SF (1 + x) = S754_finite false M E /\
    Zdigits2 (Zpos M) = 53 /\
    (Rabs (F2R (1 + x) - (1 + F2R x)) <= (1 + F2R x) * powerRZ 2 (-52))%R /\
    (1 <= F2R (1 + x))%R.
Proof.
  intros Hx Hd He. unfold F2R. rewrite add_spec, one_SF, Hx.
  unfold SF64add, SFadd. cbn [cond_Zopp SF2R].
  pose proof (Zdigits2_bounds m) as [Hml Hmh]. rewrite Hd in Hml, Hmh.
  change (53 - 1) with 52 in Hml.
  set (ez := Z.min (-52) e).
  assert (H1 : Zpos (shl_align two_52 (-52) ez).1 = 2 ^ (- ez)).
  { unfold shl_align. destruct (ez - -52) as [|q|q] eqn:Hq.
    - cbn [fst]. replace (- ez) with 52 by lia. reflexivity.
    - lia.
    - cbn [fst]. rewrite Pos_iter_xO. change (Zpos two_52) with (2 ^ 52).
      rewrite <- Z.pow_add_r by lia. f_equal. lia. }
  assert (H2 : Zpos (shl_align m e ez).1 = Zpos m * 2 ^ (e - ez)).
  { unfold shl_align. destruct (ez - e) as [|q|q] eqn:Hq.
    - cbn [fst]. replace (e - ez) with 0 by lia. lia.
    - lia.
    - cbn [fst]. rewrite Pos_iter_xO. f_equal. f_equal. lia. }
  rewrite H1, H2.
  assert (Hp1 : 0 < 2 ^ (- ez)) by (apply Z.pow_pos_nonneg; lia).
  assert (Hp2 : 0 < 2 ^ (e - ez)) by (apply Z.pow_pos_nonneg; lia).
  destruct (2 ^ (- ez) + Zpos m * 2 ^ (e - ez)) as [|P|P] eqn:HP; try lia.
  unfold binary_normalize, binary_round.
  pose proof (Zdigits2_bounds P) as [HPl HPh].
  set (d := Zdigits2 (Zpos P)) in *.
  change (Zpos (digits2_pos P)) with d.
  assert (Hbig : 2 ^ 53 <= Zpos P).
  { rewrite <- HP. destruct (Z_le_gt_dec e (-52)) as [Hle | Hgt].
    - replace ez with e by lia. rewrite Z.sub_diag, Z.mul_1_r.
      assert (2 ^ 52 <= 2 ^ (- e)) by (apply Z.pow_le_mono_r; lia).
      change (2 ^ 53) with (2 ^ 52 + 2 ^ 52). lia.
    - replace ez with (-52) by lia. change (- -52) with 52.
      assert (2 ^ 1 <= 2 ^ (e - -52)) by (apply Z.pow_le_mono_r; lia).
      change (2 ^ 53) with (2 ^ 52 + 2 ^ 52 * 1). change (2 ^ 1) with 2 in *.
      nia. }
  assert (Hd54 : 54 <= d).
  { destruct (Z_lt_le_dec d 54) as [Hlt | Hle]; [exfalso | exact Hle].
    assert (2 ^ d <= 2 ^ 53) by (apply Z.pow_le_mono_r; lia). lia. }
  assert (Hsmall : Zpos P < 2 ^ (17 - ez)).
  { rewrite <- HP.
    assert (Hm17 : Zpos m * 2 ^ (e - ez) < 2 ^ (16 - ez)).
    { replace (16 - ez) with (53 + (e - ez) + (-37 - e)) by lia.
      rewrite !Z.pow_add_r by lia.
      assert (1 <= 2 ^ (-37 - e)) by (apply (Z.pow_le_mono_r 2 0); lia).
      nia. }
    assert (2 ^ (- ez) <= 2 ^ (16 - ez)) by (apply Z.pow_le_mono_r; lia).
    replace (17 - ez) with (Z.succ (16 - ez)) by lia.
    rewrite Z.pow_succ_r by lia. lia. }
  assert (Hdez : 1 <= d + ez <= 17).
  { split.
    - destruct (Z_lt_le_dec (d + ez) 1) as [Hlt | Hle]; [exfalso | exact Hle].
      assert (2 ^ d <= 2 ^ (- ez)) by (apply Z.pow_le_mono_r; lia). lia.
    - destruct (Z_lt_le_dec 17 (d + ez)) as [Hlt | Hle]; [exfalso | exact Hle].
      assert (2 ^ (17 - ez) <= 2 ^ (d - 1)) by (apply Z.pow_le_mono_r; lia).
      lia. }
  assert (Hf : fexp prec emax (d + ez) = d + ez - 53).
  { unfold fexp, SpecFloat.emin, emax, prec. lia. }
  rewrite Hf. unfold shl_align.
  destruct (d + ez - 53 - ez) as [|q|q] eqn:Hq; try lia.
  destruct (binary_round_aux_value false P ez)
    as (M & E & Hres & HdM & Herr & Hlow).
  { fold d. lia. }
  { fold d. lia. }
  fold d in Hlow. rewrite Hres. exists M, E. cbn [SF2R].
  split; [reflexivity |]. split; [exact HdM |].
  assert (Hsum : (IZR (Zpos P) * powerRZ 2 ez
                  = 1 + IZR (Zpos m) * powerRZ 2 e)%R).
  { rewrite <- HP, plus_IZR, mult_IZR, <- !powerRZ_pow2 by lia.
    rewrite Rmult_plus_distr_r, <- powerRZ_2_add.
    replace (- ez + ez) with 0 by lia.
    rewrite Rmult_assoc, <- powerRZ_2_add.
    replace (e - ez + ez) with e by lia. reflexivity. }
  rewrite <- Hsum. split; [exact Herr |].
  eapply Rle_trans; [| exact Hlow].
  pose proof (powerRZ_2_le 0 (d + ez - 1) ltac:(lia)) as H0. exact H0.
Qed.

(** ** [frexp] *)

Lemma frexp_normal (x : float) s (m : positive) (e : Z) :
  Prim2SF x = S754_finite s m e -> Zdigits2 (Zpos m) = 53 ->
  (Z.frexp x).2 = e + 53.
Proof.
  intros Hx Hd. pose proof (frshiftexp_spec x) as H. unfold Z.frexp.
  destruct (frshiftexp x) as [mant se]. cbn [snd].
  rewrite Hx in H. unfold SFfrexp in H.
  change (Zpos (digits2_pos m)) with (Zdigits2 (Zpos m)) in H.
  rewrite Hd in H. change (prec <=? 53) with true in H. cbn iota in H.
  injection H as _ H. rewrite H. unfold prec. reflexivity.
Qed.

End Binary64.

(** * Combining glyphs into runs *)

Module Combine.
Import Double.

Definition INT_MAX : Z := 2147483647.

(** [Effect], the karaoke effect of a glyph. *)
Inductive Effect : Type :=
| EF_NONE
| EF_KARAOKE
| EF_KARAOKE_KF
| EF_KARAOKE_KO.

(** [GlyphInfo]: the fields [render_and_combine_glyphs] reads and writes.
    [a_pre_fade] and [c] are the arrays of four; the references to outlines
    and bitmaps that the function only releases are left out. *)
Record GlyphInfo : Type := mkGlyphInfo {
  skip : bool;
  starts_new_run : bool;
  border_style : Z;
  border_x : float;
  border_y : float;
  shadow_x : float;
  shadow_y : float;
  effect_type : Effect;
  effect_timing : Z;
  a_pre_fade : Z * Z * Z * Z;
  c : Z * Z * Z * Z;
  be : Z;
  blur : float;
  pos_x : Z;
  pos_y : Z;
  real_pos_x : float;
  real_pos_y : float
}.

(** An entry of [text_info->glyphs] with the glyphs chained to it through
    [next]. *)
Record Glyph : Type := mkGlyph {
  info : GlyphInfo;
  next : list GlyphInfo
}.

(** The bits of [FilterDesc.flags]; their values are in [ass_render.h],
    which is not among the sources. *)
Record FilterFlags : Type := mkFlags {
  FILTER_BORDER_STYLE_3 : bool;
  FILTER_NONZERO_BORDER : bool;
  FILTER_NONZERO_SHADOW : bool;
  FILTER_FILL_IN_SHADOW : bool;
  FILTER_FILL_IN_BORDER : bool
}.

Record FilterDesc : Type := mkFilter {
  flags : FilterFlags;
  filter_be : Z;
  filter_blur : Z;
  shadow : Z * Z
}.

(** [CombinedBitmapInfo]: one style run.  [bitmaps] is whether the pointer
    is non-null; the three composite bitmaps and the image, set to NULL
    here, are left out. *)
Record CombinedBitmapInfo : Type := mkCombined {
  run_c : Z * Z * Z * Z;
  run_effect_type : Effect;
  run_effect_timing : Z;
  leftmost_x : Z;
  filter : FilterDesc;
  x : Z;
  y : Z;
  bitmap_count : Z;
  max_bitmap_count : Z;
  bitmaps : bool
}.

(** The locals of the combining loop and the array they point into.
    [current_info] is the index of the entry it points to, if any. *)
Record state : Type := mkState {
  new_run : bool;
  nb_bitmaps : nat;
  max_bitmaps : nat;
  combined_bitmaps : list CombinedBitmapInfo;
  current_info : option nat
}.

(** A double used as a condition: true unless it compares equal to 0. *)
Definition nonzero (v : float) : bool := negb (PrimFloat.eqb v 0%float).

Definition set_leftmost (e : CombinedBitmapInfo) (l : Z) : CombinedBitmapInfo :=
  mkCombined (run_c e) (run_effect_type e) (run_effect_timing e) l (filter e)
             (x e) (y e) (bitmap_count e) (max_bitmap_count e) (bitmaps e).

Definition set_room (e : CombinedBitmapInfo) (n : Z) : CombinedBitmapInfo :=
  mkCombined (run_c e) (run_effect_type e) (run_effect_timing e)
             (leftmost_x e) (filter e) (x e) (y e) (bitmap_count e) n
             (bitmaps e).

Definition set_corner (e : CombinedBitmapInfo) (px py : Z)
  : CombinedBitmapInfo :=
  mkCombined (run_c e) (run_effect_type e) (run_effect_timing e)
             (leftmost_x e) (filter e) px py (bitmap_count e)
             (max_bitmap_count e) (bitmaps e).

Definition set_real_pos_y (g : Glyph) (v : float) : Glyph :=
  let i := info g in
  mkGlyph (mkGlyphInfo (skip i) (starts_new_run i) (border_style i)
             (border_x i) (border_y i) (shadow_x i) (shadow_y i)
             (effect_type i) (effect_timing i) (a_pre_fade i) (c i) (be i)
             (blur i) (pos_x i) (pos_y i) (real_pos_x i) v)
          (next g).

Definition skipped (g : Glyph) : Prop := skip (info g) = true.

Section Loop.

(** From [ass_utils.h] and [ass_outline.h], which are not among the
    sources: the two conversions, the alpha of a color ([_a]) and
    [OUTLINE_MAX]. *)
Variable d6_to_double : Z -> float.
Variable double_to_d6 : float -> Z.
Variable alpha : Z -> Z.
Variable OUTLINE_MAX : Z.

(** [quantize_blur] on doubles: the index and the shadow mask. *)
Variable quantize_blur : float -> Z * Z.

(** [get_bitmap_glyph] on the glyph at entry [i], place [k] of its chain,
    given [current_info->leftmost_x], [first] and [flags]: whether
    [info->bm] and [info->bm_o] come out non-null, [pos], and the new
    [leftmost_x]. *)
Variable get_bitmap_glyph :
  nat -> nat -> GlyphInfo -> Z -> bool -> FilterFlags ->
  bool * bool * (Z * Z) * Z.

(** Whether the allocation made while handling that glyph succeeds. *)
Variable realloc_combined_ok : nat -> nat -> bool.
Variable malloc_bitmaps_ok : nat -> nat -> bool.
Variable realloc_bitmaps_ok : nat -> nat -> bool.

(** What [realloc] leaves in the entries it adds. *)
Variable indeterminate : CombinedBitmapInfo.

(** [render_priv->settings.left_margin], [render_priv->font_scale_x],
    [render_priv->border_scale],
    [render_priv->blur_scale * (2 / sqrt(log(256)))], and the arguments of
    the function. *)
Variable left_margin : Z.
Variable font_scale_x : float.
Variable border_scale : float.
Variable blur_scale : float.
Variable device_x0 device_y : float.

(** [device_x = (device_x - left) * render_priv->font_scale_x + left]. *)
Definition device_x : float :=
  PrimFloat.add
    (PrimFloat.mul (PrimFloat.sub device_x0 (of_int left_margin)) font_scale_x)
    (of_int left_margin).

(** The flags computed at the top of the inner loop. *)
Definition filter_flags (g : GlyphInfo) : FilterFlags :=
  let '(a0, a1, _, _) := a_pre_fade g in
  let '(_, _, c2, _) := c g in
  let style_3 := border_style g =? 3 in
  let nonzero_border := nonzero (border_x g) || nonzero (border_y g) in
  let nonzero_shadow := nonzero (shadow_x g) || nonzero (shadow_y g) in
  let fill_in_shadow :=
    nonzero_shadow &&
    (match effect_type g with
     | EF_KARAOKE_KF | EF_KARAOKE_KO => true
     | _ => false
     end || negb (a0 =? 255) || style_3) in
  let nonzero_shadow :=
    if negb nonzero_border && negb fill_in_shadow then false
    else nonzero_shadow in
  let fill_in_border :=
    (nonzero_border && (a0 =? 0) && (a1 =? 0) && (alpha c2 =? 0))
    || style_3 in
  mkFlags style_3 nonzero_border nonzero_shadow fill_in_shadow fill_in_border.

(** The entry as the [if (new_run)] block leaves it; [allocated] is
    whether [malloc] returned memory for [bitmaps]. *)
Definition fresh_run (g : GlyphInfo) (fl : FilterFlags) (allocated : bool)
  : CombinedBitmapInfo :=
  let '(index, shadow_mask) :=
    quantize_blur (PrimFloat.mul (blur g) blur_scale) in
  let round v :=
    Z.land (double_to_d6 (PrimFloat.mul v border_scale)
            + Z.shiftr shadow_mask 1) (Z.lnot shadow_mask) in
  let shadow :=
    if FILTER_NONZERO_SHADOW fl then (round (shadow_x g), round (shadow_y g))
    else (0, 0) in
  mkCombined (c g) (effect_type g) (effect_timing g) OUTLINE_MAX
             (mkFilter fl (be g) index shadow) INT_MAX INT_MAX 0
             (if allocated then 64 else 0) allocated.

(** A read or write through [current_info]. *)
Definition deref (st : state) : outcome (nat * CombinedBitmapInfo) :=
  match current_info st with
  | None => Fault
  | Some k =>
      match combined_bitmaps st !! k with
      | Some e => Ret (k, e)
      | None => Fault
      end
  end.

Definition store (st : state) (k : nat) (e : CombinedBitmapInfo) : state :=
  mkState (new_run st) (nb_bitmaps st) (max_bitmaps st)
          (<[k := e]> (combined_bitmaps st)) (current_info st).

(** The [if (new_run)] block from
    [current_info = &combined_info[nb_bitmaps]] on.  [inl] is a
    [continue]. *)
Definition begin_run (i k : nat) (g : GlyphInfo) (fl : FilterFlags)
    (st : state) : outcome (state + state) :=
  let st := mkState (new_run st) (nb_bitmaps st) (max_bitmaps st)
                    (combined_bitmaps st) (Some (nb_bitmaps st)) in
  obind (deref st) (fun '(cur, _) =>
    let st := store st cur (fresh_run g fl (malloc_bitmaps_ok i k)) in
    if malloc_bitmaps_ok i k then
      Ret (inr (mkState false (S (nb_bitmaps st)) (max_bitmaps st)
                        (combined_bitmaps st) (current_info st)))
    else Ret (inl st)).

(** The [if (new_run)] block. *)
Definition start_run (i k : nat) (g : GlyphInfo) (fl : FilterFlags)
    (st : state) : outcome (state + state) :=
  if new_run st then
    if (max_bitmaps st <=? nb_bitmaps st)%nat then
      if realloc_combined_ok i k then
        begin_run i k g fl
          (mkState (new_run st) (nb_bitmaps st) (2 * max_bitmaps st)
                   (combined_bitmaps st ++
                    replicate (max_bitmaps st) indeterminate)
                   (current_info st))
      else Ret (inl st)
    else begin_run i k g fl st
  else Ret (inr st).

(** The three assignments to the glyph before [get_bitmap_glyph]. *)
Definition place (g : GlyphInfo) : GlyphInfo :=
  let placed :=
    PrimFloat.add device_x
      (PrimFloat.mul (d6_to_double (pos_x g)) font_scale_x) in
  mkGlyphInfo (skip g) (starts_new_run g) (border_style g) (border_x g)
              (border_y g) (shadow_x g) (shadow_y g) (effect_type g)
              (effect_timing g) (a_pre_fade g) (c g) (be g) (blur g)
              (double_to_d6 placed) (double_to_d6 device_y + pos_y g)
              placed (real_pos_y g).

(** One turn of [for (; info; info = info->next)]. *)
Definition combine_glyph (i k : nat) (g : GlyphInfo) (st : state)
  : outcome (state * GlyphInfo) :=
  let fl := filter_flags g in
  obind (start_run i k g fl st) (fun r =>
    match r with
    | inl st => Ret (st, g)
    | inr st =>
        let g := place g in
        obind (deref st) (fun '(cur, e) =>
          let '(bm, bm_o, pos, leftmost) :=
            get_bitmap_glyph i k g (leftmost_x e) (bitmap_count e =? 0) fl in
          let e := set_leftmost e leftmost in
          let st := store st cur e in
          if negb bm && negb bm_o then Ret (st, g)
          else if bitmap_count e >=? max_bitmap_count e then
            if realloc_bitmaps_ok i k then
              let e := set_room e (2 * max_bitmap_count e) in
              Ret (store st cur
                     (set_corner e (Z.min (x e) pos.1) (Z.min (y e) pos.2)),
                   g)
            else Ret (st, g)
          else
            Ret (store st cur
                   (set_corner e (Z.min (x e) pos.1) (Z.min (y e) pos.2)),
                 g))
    end).

(** The chain of one entry, from place [k] on. *)
Fixpoint combine_chain (i k : nat) (chain : list GlyphInfo) (st : state)
  : outcome (state * list GlyphInfo) :=
  match chain with
  | [] => Ret (st, [])
  | g :: rest =>
      obind (combine_glyph i k g st) (fun '(st, g') =>
      obind (combine_chain i (S k) rest st) (fun '(st, rest') =>
      Ret (st, g' :: rest')))
  end.

(** Body of [for (int i = 0; i < text_info->length; i++)]. *)
Definition combine_entry (i : nat) (g : Glyph) (st : state)
  : outcome (state * Glyph) :=
  let st :=
    if starts_new_run (info g)
    then mkState true (nb_bitmaps st) (max_bitmaps st) (combined_bitmaps st)
                 (current_info st)
    else st in
  if skip (info g) then Ret (st, g)
  else
    obind (combine_chain i 0 (info g :: next g) st) (fun '(st, chain) =>
      match chain with
      | g0 :: rest => Ret (st, mkGlyph g0 rest)
      | [] => Ret (st, g)
      end).

Fixpoint combine_loop (i : nat) (glyphs : list Glyph) (st : state)
  : outcome (state * list Glyph) :=
  match glyphs with
  | [] => Ret (st, [])
  | g :: rest =>
      obind (combine_entry i g st) (fun '(st, g') =>
      obind (combine_loop (S i) rest st) (fun '(st, rest') =>
      Ret (st, g' :: rest')))
  end.

(** The loop the fork adds at the end: [info->real_pos.y = current_info->y]
    for every entry. *)
Fixpoint assign_real_pos_y (st : state) (glyphs : list Glyph)
  : outcome (list Glyph) :=
  match glyphs with
  | [] => Ret []
  | g :: rest =>
      obind (deref st) (fun '(_, e) =>
      obind (assign_real_pos_y st rest) (fun rest' =>
      Ret (set_real_pos_y g (of_int (y e)) :: rest')))
  end.

(** [render_and_combine_glyphs] on [text_info->glyphs], with
    [text_info->combined_bitmaps] and [text_info->max_bitmaps] as they are
    on entry. *)
Definition render_and_combine_glyphs (glyphs : list Glyph)
    (combined : list CombinedBitmapInfo) (max : nat)
  : outcome (state * list Glyph) :=
  obind (combine_loop 0 glyphs (mkState true 0 max combined None))
    (fun '(st, glyphs) =>
       obind (assign_real_pos_y st glyphs) (fun glyphs => Ret (st, glyphs))).

(** ** When the final loop is defined *)

(** Skipped entries leave [current_info] as it is. *)
Lemma combine_loop_skipped glyphs : forall i st,
  Forall skipped glyphs ->
  exists st', combine_loop i glyphs st = Ret (st', glyphs) /\
              current_info st' = current_info st.
Proof.
  induction glyphs as [|g rest IH]; intros i st Hall; simpl.
  - eauto.
  - apply Forall_cons in Hall as [Hg Hrest]. unfold skipped in Hg.
    unfold combine_entry. rewrite Hg. simpl.
    set (st1 := if starts_new_run (info g) then _ else st).
    destruct (IH (S i) st1 Hrest) as (st' & -> & Hc). simpl.
    exists st'. split; [reflexivity |]. rewrite Hc. unfold st1.
    destruct (starts_new_run (info g)); reflexivity.
Qed.

Lemma assign_real_pos_y_null st g rest :
  current_info st = None -> assign_real_pos_y st (g :: rest) = Fault.
Proof. intros H. simpl. unfold deref. rewrite H. reflexivity. Qed.

Lemma assign_real_pos_y_spec st glyphs : forall glyphs',
  assign_real_pos_y st glyphs = Ret glyphs' ->
  glyphs <> [] ->
  exists k e, current_info st = Some k /\
              combined_bitmaps st !! k = Some e /\
              Forall (fun g => real_pos_y (info g) = of_int (y e)) glyphs'.
Proof.
  induction glyphs as [|g rest IH]; intros glyphs' Hr Hne; [congruence |].
  simpl in Hr. unfold deref in Hr.
  destruct (current_info st) as [k |] eqn:Hc; [| discriminate].
  destruct (combined_bitmaps st !! k) as [e |] eqn:He; [| discriminate].
  simpl in Hr.
  destruct (assign_real_pos_y st rest) as [rest' |] eqn:Hrest; [| discriminate].
  simpl in Hr. injection Hr as <-.
  exists k, e. split; [reflexivity |]. split; [exact He |].
  constructor; [reflexivity |].
  destruct rest as [|g2 rest2].
  - simpl in Hrest. injection Hrest as <-. constructor.
  - destruct (IH rest' eq_refl) as (k' & e' & Hc' & He' & Hall);
      [discriminate |].
    injection Hc' as <-. rewrite He in He'. injection He' as <-. exact Hall.
Qed.

(** The shape of the loop state when [text_info] is as the renderer keeps
    it: the array has [max_bitmaps] entries, and [current_info] is null
    only before the first run. *)
Record well_formed (st : state) : Prop := mkWf {
  wf_length : length (combined_bitmaps st) = max_bitmaps st;
  wf_positive : (0 < max_bitmaps st)%nat;
  wf_count : (nb_bitmaps st <= max_bitmaps st)%nat;
  wf_current : forall k, current_info st = Some k -> (k < max_bitmaps st)%nat;
  wf_null : current_info st = None ->
            new_run st = true /\ nb_bitmaps st = 0%nat
}.

Lemma well_formed_store st k e :
  well_formed st -> well_formed (store st k e).
Proof.
  intros [Hl Hp Hc Hcur Hn]. split; simpl; auto.
  rewrite length_insert. exact Hl.
Qed.

Lemma deref_well_formed st k :
  well_formed st -> current_info st = Some k ->
  exists e, deref st = Ret (k, e).
Proof.
  intros [Hl Hp Hc Hcur Hn] H. unfold deref. rewrite H.
  destruct (lookup_lt_is_Some_2 (combined_bitmaps st) k) as [e He].
  { rewrite Hl. auto. }
  rewrite He. eauto.
Qed.

Lemma begin_run_well_formed i k g fl st :
  well_formed st -> (nb_bitmaps st < max_bitmaps st)%nat ->
  exists r, begin_run i k g fl st = Ret r /\
    match r with
    | inl st' | inr st' => well_formed st' /\ current_info st' <> None
    end.
Proof.
  intros [Hl Hp Hc Hcur Hn] Hlt. unfold begin_run, deref. simpl.
  destruct (lookup_lt_is_Some_2 (combined_bitmaps st) (nb_bitmaps st))
    as [e He]; [lia |].
  rewrite He. simpl.
  destruct (malloc_bitmaps_ok i k); eexists; (split; [reflexivity |]);
    simpl; (split; [| discriminate]); split; simpl;
    rewrite ?length_insert; auto; try lia;
    try (intros k' [= <-]; lia); discriminate.
Qed.

Lemma start_run_well_formed i k g fl st :
  well_formed st ->
  exists r, start_run i k g fl st = Ret r /\
    match r with
    | inl st' | inr st' => well_formed st' /\ current_info st' <> None
    end.
Proof.
  intros Hwf. pose proof Hwf as [Hl Hp Hc Hcur Hn].
  unfold start_run.
  destruct (new_run st) eqn:Hnew.
  2: { eexists. split; [reflexivity |]. split; [exact Hwf |].
       intros E. destruct (Hn E). congruence. }
  destruct (Nat.leb_spec (max_bitmaps st) (nb_bitmaps st)) as [Hfull | Hroom].
  - destruct (realloc_combined_ok i k).
    + apply begin_run_well_formed; simpl; [| lia].
      split; simpl; auto; try lia.
      * rewrite length_app, length_replicate. lia.
      * intros k' Hk. specialize (Hcur k' Hk). lia.
    + eexists. split; [reflexivity |]. split; [exact Hwf |].
      intros E. destruct (Hn E). lia.
  - apply begin_run_well_formed; auto.
Qed.

Lemma combine_glyph_well_formed i k g st :
  well_formed st ->
  exists st' g', combine_glyph i k g st = Ret (st', g') /\
                 well_formed st' /\ current_info st' <> None.
Proof.
  intros Hwf. unfold combine_glyph. cbv zeta.
  destruct (start_run_well_formed i k g (filter_flags g) st Hwf)
    as (r & -> & Hr). simpl.
  destruct r as [st1 | st1]; destruct Hr as [Hwf1 Hc1].
  - eauto.
  - destruct (current_info st1) as [cur |] eqn:Hc; [| congruence].
    destruct (deref_well_formed st1 cur Hwf1 Hc) as (e & ->). simpl.
    destruct (get_bitmap_glyph _ _ _ _ _ _) as [[[bm bm_o] pos] leftmost].
    destruct (negb bm && negb bm_o).
    { do 2 eexists. split; [reflexivity |].
      split; [apply well_formed_store; auto | simpl; congruence]. }
    destruct (bitmap_count _ >=? max_bitmap_count _);
      [destruct (realloc_bitmaps_ok i k) |];
      do 2 eexists; (split; [reflexivity |]);
      (split; [repeat apply well_formed_store; auto | simpl; congruence]).
Qed.

Lemma combine_chain_well_formed chain : forall i k st,
  well_formed st ->
  exists st' chain', combine_chain i k chain st = Ret (st', chain') /\
                     length chain' = length chain /\
                     well_formed st' /\
                     (chain <> [] \/ current_info st <> None ->
                      current_info st' <> None).
Proof.
  induction chain as [|g rest IH]; intros i k st Hwf; simpl.
  - do 2 eexists. split; [reflexivity |]. split; [reflexivity |].
    split; [exact Hwf |]. intros [H | H]; congruence.
  - destruct (combine_glyph_well_formed i k g st Hwf)
      as (st1 & g' & -> & Hwf1 & Hc1). simpl.
    destruct (IH i (S k) st1 Hwf1) as (st2 & rest' & -> & Hlen & Hwf2 & Hc2).
    simpl. do 2 eexists. split; [reflexivity |]. simpl.
    split; [lia |]. split; [exact Hwf2 |]. intros _. apply Hc2. right. exact Hc1.
Qed.

Lemma combine_loop_well_formed glyphs : forall i st,
  well_formed st ->
  exists st' glyphs', combine_loop i glyphs st = Ret (st', glyphs') /\
                      length glyphs' = length glyphs /\
                      well_formed st' /\
                      (Exists (fun g => ~ skipped g) glyphs \/
                       current_info st <> None ->
                       current_info st' <> None).
Proof.
  induction glyphs as [|g rest IH]; intros i st Hwf; simpl.
  - do 2 eexists. split; [reflexivity |]. split; [reflexivity |].
    split; [exact Hwf |]. intros [H | H]; [inversion H | exact H].
  - unfold combine_entry.
    set (st0 := if starts_new_run (info g) then _ else st).
    assert (Hwf0 : well_formed st0).
    { unfold st0. destruct (starts_new_run (info g)); [| exact Hwf].
      destruct Hwf as [Hl Hp Hc Hcur Hn]. split; simpl; auto.
      intros E. destruct (Hn E). auto. }
    assert (Hcur0 : current_info st0 = current_info st).
    { unfold st0. destruct (starts_new_run (info g)); reflexivity. }
    destruct (skip (info g)) eqn:Hskip; simpl.
    + destruct (IH (S i) st0 Hwf0) as (st2 & rest' & -> & Hlen & Hwf2 & Hc2).
      simpl. do 2 eexists. split; [reflexivity |]. simpl.
      split; [lia |]. split; [exact Hwf2 |]. intros [H | H]; apply Hc2.
      * apply Exists_cons in H as [H | H]; [| left; exact H].
        unfold skipped in H. congruence.
      * right. congruence.
    + destruct (combine_chain_well_formed (info g :: next g) i 0%nat st0 Hwf0)
        as (st1 & chain' & Hch & Hlen1 & Hwf1 & Hc1).
      simpl in Hch. rewrite Hch. simpl.
      assert (Hc1' : current_info st1 <> None).
      { apply Hc1. left. discriminate. }
      destruct chain' as [|g0 rest0]; simpl in Hlen1; [lia |]. simpl.
      destruct (IH (S i) st1 Hwf1) as (st2 & rest' & -> & Hlen & Hwf2 & Hc2).
      simpl. do 2 eexists. split; [reflexivity |]. simpl.
      split; [lia |]. split; [exact Hwf2 |]. intros _. apply Hc2. right.
      exact Hc1'.
Qed.

Lemma assign_real_pos_y_defined st glyphs :
  well_formed st -> current_info st <> None ->
  exists glyphs', assign_real_pos_y st glyphs = Ret glyphs'.
Proof.
  intros Hwf Hc. destruct (current_info st) as [k |] eqn:E; [| congruence].
  destruct (deref_well_formed st k Hwf E) as (e & He).
  induction glyphs as [|g rest [rest' IH]]; simpl; [eauto |].
  rewrite He, IH. simpl. eauto.
Qed.

Lemma combine_loop_length glyphs : forall i st st' glyphs',
  combine_loop i glyphs st = Ret (st', glyphs') ->
  length glyphs' = length glyphs.
Proof.
  induction glyphs as [|g rest IH]; intros i st st' glyphs' H; simpl in H.
  - injection H as <- <-. reflexivity.
  - destruct (combine_entry i g st) as [[st1 g1] |]; [| discriminate].
    simpl in H.
    destruct (combine_loop (S i) rest st1) as [[st2 rest'] |] eqn:E;
      [| discriminate].
    simpl in H. injection H as <- <-. simpl. f_equal. eapply IH, E.
Qed.

Lemma skipped_or_not glyphs :
  Forall skipped glyphs \/ Exists (fun g => skip (info g) = false) glyphs.
Proof.
  induction glyphs as [|g rest [IH | IH]].
  - left. constructor.
  - destruct (skip (info g)) eqn:E.
    + left. constructor; assumption.
    + right. left. exact E.
  - right. right. exact IH.
Qed.

(** C10: in [render_and_combine_glyphs] the loop the fork adds assigns to
    every glyph's [real_pos.y] the [y] of the run [current_info] points to
    at the end of the combining loop.  For an event with glyphs that are
    all skipped [current_info] is still null there and the read faults; so
    a run that returns had a glyph that is not skipped.  With
    [text_info] as the renderer keeps it, one such glyph is enough for the
    function to return. *)
Theorem render_and_combine_glyphs_final_loop glyphs combined max :
  glyphs <> [] ->
  (Forall skipped glyphs ->
   render_and_combine_glyphs glyphs combined max = Fault) /\
  (forall st glyphs',
     render_and_combine_glyphs glyphs combined max = Ret (st, glyphs') ->
     Exists (fun g => skip (info g) = false) glyphs /\
     exists k e,
       current_info st = Some k /\ combined_bitmaps st !! k = Some e /\
       Forall (fun g => real_pos_y (info g) = of_int (y e)) glyphs') /\
  (length combined = max -> (0 < max)%nat ->
   Exists (fun g => skip (info g) = false) glyphs ->
   exists st glyphs',
     render_and_combine_glyphs glyphs combined max = Ret (st, glyphs')).
Proof.
  intros Hne.
  assert (Hnull : Forall skipped glyphs ->
                  render_and_combine_glyphs glyphs combined max = Fault).
  { intros Hall. unfold render_and_combine_glyphs.
    destruct (combine_loop_skipped glyphs 0%nat
                (mkState true 0 max combined None) Hall) as (st' & -> & Hc).
    simpl in *. destruct glyphs as [|g rest]; [congruence |].
    rewrite (assign_real_pos_y_null st' g rest Hc). reflexivity. }
  split; [exact Hnull | split].
  - intros st glyphs' Hr. split.
    + destruct (skipped_or_not glyphs) as [Hall | Hex]; [| exact Hex].
      rewrite (Hnull Hall) in Hr. discriminate.
    + unfold render_and_combine_glyphs in Hr.
      destruct (combine_loop 0 glyphs (mkState true 0 max combined None))
        as [[st0 glyphs0] |] eqn:Hloop; [| discriminate].
      simpl in Hr.
      destruct (assign_real_pos_y st0 glyphs0) as [glyphs1 |] eqn:Has;
        [| discriminate].
      simpl in Hr. injection Hr as <- <-.
      apply (assign_real_pos_y_spec st0 glyphs0 glyphs1 Has).
      apply combine_loop_length in Hloop.
      destruct glyphs0; [| discriminate].
      destruct glyphs; [congruence | discriminate].
  - intros Hlen Hpos Hex. unfold render_and_combine_glyphs.
    assert (Hwf : well_formed (mkState true 0 max combined None)).
    { split; simpl; auto; try lia. discriminate. }
    destruct (combine_loop_well_formed glyphs 0%nat _ Hwf)
      as (st' & glyphs' & -> & _ & Hwf' & Hc).
    simpl.
    destruct (assign_real_pos_y_defined st' glyphs' Hwf') as (glyphs1 & ->).
    + apply Hc. left. eapply Exists_impl; [exact Hex |].
      unfold skipped. simpl. intros g Hg. congruence.
    + simpl. eauto.
Qed.

End Loop.

(** ** An event of one space, trimmed by [trim_whitespace] *)

Definition plain_glyph (skip : bool) : Glyph :=
  mkGlyph (mkGlyphInfo skip true 1 0%float 0%float 0%float 0%float EF_NONE 0
                       (0, 0, 0, 0) (0, 0, 0, 0) 0 0%float 0 0
                       0%float 0%float) [].

Definition space_glyph : Glyph := plain_glyph true.

Definition no_bitmap (i k : nat) (g : GlyphInfo) (leftmost : Z) (first : bool)
    (fl : FilterFlags) : bool * bool * (Z * Z) * Z :=
  (false, false, (0, 0), leftmost).

Definition blank_run : CombinedBitmapInfo :=
  mkCombined (0, 0, 0, 0) EF_NONE 0 0
             (mkFilter (mkFlags false false false false false) 0 0 (0, 0))
             0 0 0 0 false.

(** [render_and_combine_glyphs] in a renderer where nothing is scaled, no
    glyph has a bitmap and every allocation succeeds. *)
Definition sample_combine :=
  render_and_combine_glyphs (fun z => of_int z) lrint (fun v => Z.land v 255)
    268435455 (fun _ => (0, 7)) no_bitmap (fun _ _ => true) (fun _ _ => true)
    (fun _ _ => true) blank_run 0 1%float 1%float 1%float 0%float 0%float.

Lemma render_and_combine_glyphs_final_loop_witness :
  sample_combine [space_glyph] (replicate 16 blank_run) 16 = Fault.
Proof.
  apply (render_and_combine_glyphs_final_loop (fun z => of_int z) lrint
           (fun v => Z.land v 255) 268435455 (fun _ => (0, 7)) no_bitmap
           (fun _ _ => true) (fun _ _ => true) (fun _ _ => true) blank_run
           0 1%float 1%float 1%float 0%float 0%float [space_glyph]).
  - discriminate.
  - repeat constructor.
Defined.

(** ** The filter flags and the shadow offset of a run *)

(** The flags [render_and_combine_glyphs] computes for a glyph are never
    in one of these states: border style 3 without [FILL_IN_BORDER];
    [FILL_IN_BORDER] with neither a border nor border style 3;
    [FILL_IN_SHADOW] without [NONZERO_SHADOW]; [NONZERO_SHADOW] with
    neither a border nor [FILL_IN_SHADOW]; [NONZERO_SHADOW] for a glyph
    whose two shadow offsets are zero. *)
Theorem filter_flags_consistent (alpha : Z -> Z) (g : GlyphInfo) :
  let fl := filter_flags alpha g in
  (FILTER_BORDER_STYLE_3 fl = true -> FILTER_FILL_IN_BORDER fl = true) /\
  (FILTER_FILL_IN_BORDER fl = true ->
   FILTER_NONZERO_BORDER fl = true \/ FILTER_BORDER_STYLE_3 fl = true) /\
  (FILTER_FILL_IN_SHADOW fl = true -> FILTER_NONZERO_SHADOW fl = true) /\
  (FILTER_NONZERO_SHADOW fl = true ->
   FILTER_NONZERO_BORDER fl = true \/ FILTER_FILL_IN_SHADOW fl = true) /\
  (FILTER_NONZERO_SHADOW fl = true ->
   nonzero (shadow_x g) || nonzero (shadow_y g) = true).
Proof.
  unfold filter_flags.
  destruct (a_pre_fade g) as [[[a0 a1] a2] a3], (c g) as [[[c0 c1] c2] c3].
  cbv zeta.
  destruct (border_style g =? 3), (nonzero (border_x g) || nonzero (border_y g)),
    (nonzero (shadow_x g) || nonzero (shadow_y g)), (effect_type g),
    (a0 =? 255), (a0 =? 0), (a1 =? 0), (alpha c2 =? 0);
    cbn; intuition congruence.
Qed.

Section Shadow.

Variable double_to_d6 : float -> Z.
Variable OUTLINE_MAX : Z.
Variable quantize_blur : float -> Z * Z.
Variable border_scale : float.
Variable blur_scale : float.

Abbreviation fresh_run :=
  (fresh_run double_to_d6 OUTLINE_MAX quantize_blur border_scale blur_scale).

(** [(v + (mask >> 1)) & ~mask] for a mask of [k] low bits: the multiple
    of [2^k] nearest to [v]. *)
Lemma round_to_mask (v : Z) (k : Z) :
  0 <= k ->
  let r := Z.land (v + Z.shiftr (Z.ones k) 1) (Z.lnot (Z.ones k)) in
  r mod 2 ^ k = 0 /\ 2 * Z.abs (r - v) <= 2 ^ k.
Proof.
  intros Hk. cbn zeta.
  assert (Hp : 0 < 2 ^ k) by (apply Z.pow_pos_nonneg; lia).
  rewrite <- Z.ldiff_land.
  rewrite Z.ldiff_ones_r by lia.
  rewrite Z.shiftl_mul_pow2, !Z.shiftr_div_pow2 by lia.
  rewrite Z.ones_equiv. change (2 ^ 1) with 2.
  set (h := Z.pred (2 ^ k) / 2).
  split; [apply Z.mod_mul; lia |].
  assert (Hh : 2 * h <= 2 ^ k - 1 <= 2 * h + 1).
  { unfold h. pose proof (Z.div_mod (Z.pred (2 ^ k)) 2 ltac:(lia)).
    pose proof (Z.mod_pos_bound (Z.pred (2 ^ k)) 2 ltac:(lia)). lia. }
  pose proof (Z.div_mod (v + h) (2 ^ k) ltac:(lia)) as Hd.
  pose proof (Z.mod_pos_bound (v + h) (2 ^ k) ltac:(lia)) as Hm.
  assert (Heven : k = 0 \/ 2 * h = 2 ^ k - 2).
  { destruct (Z.eq_dec k 0) as [-> | Hk0]; [left; reflexivity | right].
    unfold h. replace k with (Z.succ (k - 1)) by lia.
    rewrite Z.pow_succ_r by lia.
    replace (Z.pred (2 * 2 ^ (k - 1))) with (1 + (2 ^ (k - 1) - 1) * 2) by lia.
    rewrite Z.div_add by lia. change (1 / 2) with 0. lia. }
  destruct Heven as [-> | He].
  - change (2 ^ 0) with 1 in *. lia.
  - lia.
Qed.

(** The shadow offset stored in the filter of a run is the offset of the
    glyph that starts the run, in 1/64 pixel, rounded to the nearest
    multiple of the step [quantize_blur] asks for (its mask plus one, a
    power of two): it is a multiple of the step and at most half a step
    away. *)
Theorem fresh_run_shadow_rounded (g : GlyphInfo) (fl : FilterFlags)
    (allocated : bool) (index k : Z) :
  0 <= k ->
  quantize_blur (PrimFloat.mul (blur g) blur_scale) = (index, Z.ones k) ->
  FILTER_NONZERO_SHADOW fl = true ->
  let s := shadow (filter (fresh_run g fl allocated)) in
  let sx := double_to_d6 (PrimFloat.mul (shadow_x g) border_scale) in
  let sy := double_to_d6 (PrimFloat.mul (shadow_y g) border_scale) in
  s.1 mod 2 ^ k = 0 /\ 2 * Z.abs (s.1 - sx) <= 2 ^ k /\
  s.2 mod 2 ^ k = 0 /\ 2 * Z.abs (s.2 - sy) <= 2 ^ k.
Proof.
  intros Hk Hq Hfl. unfold Combine.fresh_run. rewrite Hq, Hfl.
  cbn [filter shadow fst snd].
  destruct (round_to_mask
              (double_to_d6 (PrimFloat.mul (shadow_x g) border_scale)) k Hk).
  destruct (round_to_mask
              (double_to_d6 (PrimFloat.mul (shadow_y g) border_scale)) k Hk).
  auto.
Qed.

End Shadow.

Lemma fresh_run_shadow_rounded_witness :
  let g := mkGlyphInfo false true 1 0%float 0%float 3%float 2%float EF_NONE 0
                       (0, 0, 0, 0) (0, 0, 0, 0) 0 0%float 0 0
                       0%float 0%float in
  let s := shadow (filter (Combine.fresh_run
                             (fun v => lrint (PrimFloat.mul v 64%float)) 268435455
                             (fun _ => (0, 7)) 1%float 1%float g
                             (mkFlags false true true false false) true)) in
  s.1 mod 2 ^ 3 = 0.
Proof.
  cbv zeta.
  apply (fresh_run_shadow_rounded
           (fun v => lrint (PrimFloat.mul v 64%float)) 268435455
           (fun _ => (0, 7)) 1%float 1%float _
           (mkFlags false true true false false) true 0 3).
  - lia.
  - reflexivity.
  - reflexivity.
Defined.

(** ** Where the combining loop puts the glyphs *)

Section Placement.

Variable d6_to_double : Z -> float.
Variable double_to_d6 : float -> Z.
Variable alpha : Z -> Z.
Variable OUTLINE_MAX : Z.
Variable quantize_blur : float -> Z * Z.
Variable get_bitmap_glyph :
  nat -> nat -> GlyphInfo -> Z -> bool -> FilterFlags ->
  bool * bool * (Z * Z) * Z.
Variable realloc_combined_ok : nat -> nat -> bool.
Variable malloc_bitmaps_ok : nat -> nat -> bool.
Variable realloc_bitmaps_ok : nat -> nat -> bool.
Variable indeterminate : CombinedBitmapInfo.
Variable left_margin : Z.
Variable font_scale_x : float.
Variable border_scale : float.
Variable blur_scale : float.
Variable device_x0 device_y : float.

(** The array of runs can always be grown and the bitmap array of a new
    run can always be allocated. *)
Hypothesis realloc_combined_succeeds : forall i k, realloc_combined_ok i k = true.
Hypothesis malloc_bitmaps_succeeds : forall i k, malloc_bitmaps_ok i k = true.

Abbreviation place :=
  (place d6_to_double double_to_d6 left_margin font_scale_x device_x0 device_y).
Abbreviation begin_run :=
  (begin_run double_to_d6 OUTLINE_MAX quantize_blur malloc_bitmaps_ok
             border_scale blur_scale).
Abbreviation start_run :=
  (start_run double_to_d6 OUTLINE_MAX quantize_blur realloc_combined_ok
             malloc_bitmaps_ok indeterminate border_scale blur_scale).
Abbreviation combine_glyph :=
  (combine_glyph d6_to_double double_to_d6 alpha OUTLINE_MAX quantize_blur
                 get_bitmap_glyph realloc_combined_ok malloc_bitmaps_ok
                 realloc_bitmaps_ok indeterminate left_margin font_scale_x
                 border_scale blur_scale device_x0 device_y).
Abbreviation combine_chain :=
  (combine_chain d6_to_double double_to_d6 alpha OUTLINE_MAX quantize_blur
                 get_bitmap_glyph realloc_combined_ok malloc_bitmaps_ok
                 realloc_bitmaps_ok indeterminate left_margin font_scale_x
                 border_scale blur_scale device_x0 device_y).
Abbreviation combine_entry :=
  (combine_entry d6_to_double double_to_d6 alpha OUTLINE_MAX quantize_blur
                 get_bitmap_glyph realloc_combined_ok malloc_bitmaps_ok
                 realloc_bitmaps_ok indeterminate left_margin font_scale_x
                 border_scale blur_scale device_x0 device_y).
Abbreviation combine_loop :=
  (combine_loop d6_to_double double_to_d6 alpha OUTLINE_MAX quantize_blur
                get_bitmap_glyph realloc_combined_ok malloc_bitmaps_ok
                realloc_bitmaps_ok indeterminate left_margin font_scale_x
                border_scale blur_scale device_x0 device_y).
Abbreviation render_and_combine_glyphs :=
  (render_and_combine_glyphs d6_to_double double_to_d6 alpha OUTLINE_MAX
     quantize_blur get_bitmap_glyph realloc_combined_ok malloc_bitmaps_ok
     realloc_bitmaps_ok indeterminate left_margin font_scale_x border_scale
     blur_scale device_x0 device_y).

(** An entry of [text_info->glyphs] after the combining loop: a skipped
    entry is as it was, any other has every glyph of its chain moved to
    device coordinates. *)
Definition placed_entry (g : Glyph) : Glyph :=
  if skip (info g) then g else mkGlyph (place (info g)) (place <$> next g).

Lemma start_run_started i k g fl st :
  well_formed st ->
  exists st', start_run i k g fl st = Ret (inr st') /\ well_formed st' /\
              current_info st' <> None.
Proof.
  intros Hwf.
  destruct (start_run_well_formed double_to_d6 OUTLINE_MAX quantize_blur
              realloc_combined_ok malloc_bitmaps_ok indeterminate border_scale
              blur_scale i k g fl st Hwf) as (r & Hr & Hpost).
  destruct r as [st' | st']; [exfalso | eauto].
  revert Hr. unfold Combine.start_run, Combine.begin_run.
  rewrite realloc_combined_succeeds, malloc_bitmaps_succeeds.
  destruct (new_run st); [| discriminate].
  destruct (_ <=? _)%nat;
    match goal with
    | |- context [obind ?d _] => destruct d as [[cur e] |]
    end; discriminate.
Qed.

Lemma combine_glyph_places i k g st :
  well_formed st ->
  exists st', combine_glyph i k g st = Ret (st', place g) /\
              well_formed st'.
Proof.
  intros Hwf. unfold Combine.combine_glyph. cbv zeta.
  destruct (start_run_started i k g (filter_flags alpha g) st Hwf)
    as (st1 & -> & Hwf1 & Hc1).
  cbn [obind].
  destruct (current_info st1) as [cur |] eqn:Hc; [| congruence].
  destruct (deref_well_formed st1 cur Hwf1 Hc) as (e & ->). cbn [obind].
  destruct (get_bitmap_glyph _ _ _ _ _ _) as [[[bm bm_o] pos] leftmost].
  destruct (negb bm && negb bm_o);
    [| destruct (bitmap_count _ >=? max_bitmap_count _);
       [destruct (realloc_bitmaps_ok i k) |]];
    eexists; (split; [reflexivity |]); repeat apply well_formed_store;
    exact Hwf1.
Qed.

Lemma combine_chain_places chain : forall i k st,
  well_formed st ->
  exists st', combine_chain i k chain st = Ret (st', place <$> chain) /\
              well_formed st'.
Proof.
  induction chain as [|g rest IH]; intros i k st Hwf; simpl.
  - eauto.
  - destruct (combine_glyph_places i k g st Hwf) as (st1 & -> & Hwf1).
    cbn [obind].
    destruct (IH i (S k) st1 Hwf1) as (st2 & -> & Hwf2). cbn [obind].
    eauto.
Qed.

Lemma combine_loop_places glyphs : forall i st,
  well_formed st ->
  exists st', combine_loop i glyphs st = Ret (st', placed_entry <$> glyphs) /\
              well_formed st'.
Proof.
  induction glyphs as [|g rest IH]; intros i st Hwf; simpl.
  - eauto.
  - unfold Combine.combine_entry, placed_entry.
    set (st0 := if starts_new_run (info g) then _ else st).
    assert (Hwf0 : well_formed st0).
    { unfold st0. destruct (starts_new_run (info g)); [| exact Hwf].
      destruct Hwf as [Hl Hp Hc Hcur Hn]. split; simpl; auto.
      intros E. destruct (Hn E). auto. }
    destruct (skip (info g)); cbn [obind].
    + destruct (IH (S i) st0 Hwf0) as (st2 & -> & Hwf2). cbn [obind]. eauto.
    + destruct (combine_chain_places (info g :: next g) i 0%nat st0 Hwf0)
        as (st1 & Hch & Hwf1).
      rewrite Hch. cbn [obind fmap list_fmap].
      destruct (IH (S i) st1 Hwf1) as (st2 & -> & Hwf2). cbn [obind]. eauto.
Qed.

Lemma assign_real_pos_y_map st k e glyphs :
  deref st = Ret (k, e) ->
  assign_real_pos_y st glyphs
  = Ret ((fun g => set_real_pos_y g (of_int (y e))) <$> glyphs).
Proof.
  intros Hd. induction glyphs as [|g rest IH]; simpl; [reflexivity |].
  rewrite Hd, IH. reflexivity.
Qed.

(** With [text_info] as the renderer keeps it, a glyph that is not skipped
    and allocations that succeed, [render_and_combine_glyphs] returns and
    leaves the glyphs as follows.  A skipped entry is untouched but for
    [real_pos.y]: its position stays in layout coordinates and its
    [real_pos.x] is not computed.  Every glyph of any other entry has
    [real_pos.x = device_x + d6_to_double(pos.x) * font_scale_x], [pos.x]
    the 26.6 value of that, and [pos.y] moved by [double_to_d6(device_y)].
    All entries get the same [real_pos.y], the [y] of the run
    [current_info] points to at the end. *)
Theorem render_and_combine_glyphs_places glyphs combined max :
  length combined = max -> (0 < max)%nat ->
  Exists (fun g => skip (info g) = false) glyphs ->
  exists st k e,
    render_and_combine_glyphs glyphs combined max
    = Ret (st, (fun g => set_real_pos_y (placed_entry g) (of_int (y e)))
                 <$> glyphs) /\
    current_info st = Some k /\ combined_bitmaps st !! k = Some e.
Proof.
  intros Hlen Hpos Hex. unfold Combine.render_and_combine_glyphs.
  assert (Hwf : well_formed (mkState true 0 max combined None)).
  { split; simpl; auto; try lia. discriminate. }
  destruct (combine_loop_places glyphs 0%nat _ Hwf) as (st & Hloop & Hwf').
  destruct (combine_loop_well_formed d6_to_double double_to_d6 alpha
              OUTLINE_MAX quantize_blur get_bitmap_glyph realloc_combined_ok
              malloc_bitmaps_ok realloc_bitmaps_ok indeterminate left_margin
              font_scale_x border_scale blur_scale device_x0 device_y
              glyphs 0%nat _ Hwf)
    as (st2 & glyphs2 & Hloop2 & _ & _ & Hcur).
  rewrite Hloop in Hloop2. injection Hloop2 as <- <-.
  rewrite Hloop. cbn [obind].
  destruct (current_info st) as [k |] eqn:Hc.
  2: { exfalso. apply Hcur; [| reflexivity]. left.
       eapply Exists_impl; [exact Hex |]. unfold skipped. intros g Hg.
       cbn beta in Hg. congruence. }
  destruct (deref_well_formed st k Hwf' Hc) as (e & Hd).
  rewrite (assign_real_pos_y_map st k e _ Hd). cbn [obind].
  exists st, k, e. rewrite <- list_fmap_compose. split; [reflexivity |].
  split; [exact Hc |].
  unfold deref in Hd. rewrite Hc in Hd.
  destruct (combined_bitmaps st !! k); [| discriminate].
  injection Hd as ->. reflexivity.
Qed.

End Placement.

Lemma render_and_combine_glyphs_places_witness :
  exists st k e,
    sample_combine [plain_glyph false] (replicate 16 blank_run) 16
    = Ret (st, (fun g => set_real_pos_y
                           (placed_entry (fun z => of_int z) lrint 0 1%float
                                         0%float 0%float g)
                           (of_int (y e)))
                 <$> [plain_glyph false]) /\
    current_info st = Some k /\ combined_bitmaps st !! k = Some e.
Proof.
  apply (render_and_combine_glyphs_places (fun z => of_int z) lrint
           (fun v => Z.land v 255) 268435455 (fun _ => (0, 7)) no_bitmap
           (fun _ _ => true) (fun _ _ => true) (fun _ _ => true) blank_run
           0 1%float 1%float 1%float 0%float 0%float
           (fun _ _ => eq_refl) (fun _ _ => eq_refl)
           [plain_glyph false] (replicate 16 blank_run) 16).
  - reflexivity.
  - lia.
  - left. reflexivity.
Defined.

End Combine.

(** * Rendering one event, and a frame *)

Module Frame.
Import Images Collision.

(** [ASS_Event]: the fields the renderer reads.  [Text] is a null pointer
    or a string. *)
Record ASS_Event : Type := mkEvent {
  Start : Z;
  Duration : Z;
  ReadOrder : Z;
  Layer : Z;
  Style : Z;
  Text : option string
}.

(** [cmp_event_layer] on the events two [EventImages] point to. *)
Definition cmp_event_layer (e1 e2 : ASS_Event) : Z :=
  if Layer e1 <? Layer e2 then -1
  else if Layer e1 >? Layer e2 then 1
  else if ReadOrder e1 <? ReadOrder e2 then -1
  else if ReadOrder e1 >? ReadOrder e2 then 1
  else 0.

(** [(event->Start <= now) && (now < (event->Start + event->Duration))]. *)
Definition in_frame (now : Z) (event : ASS_Event) : bool :=
  (Start event <=? now) && (now <? Start event + Duration event).

(** [track->styles + i]: no style for an index outside the array. *)
Definition style_at {S : Type} (styles : list S) (i : Z) : option S :=
  if i <? 0 then None else styles !! Z.to_nat i.

Section Render.

(** [ASS_Style], the glyphs of [text_info], and the parts of the pipeline
    that are not in this file or do not decide whether an event is
    rendered: [parse_events] ([None] when it returns false),
    [ass_shaper_shape] (likewise), the layout steps from [retrieve_glyphs]
    to [calculate_rotation_params], and [render_and_combine_glyphs] with
    the allocator and the glyph cache it runs against. *)
Variable ASS_Style : Type.
Variable parse_events : ASS_Style -> string -> option (list Combine.Glyph).
Variable ass_shaper_shape : list Combine.Glyph -> option (list Combine.Glyph).
Variable layout :
  ASS_Style -> ASS_Event -> list Combine.Glyph -> list Combine.Glyph.
Variable render_and_combine_glyphs :
  list Combine.Glyph -> list Combine.CombinedBitmapInfo -> nat ->
  outcome (Combine.state * list Combine.Glyph).

(** [text_info->combined_bitmaps] and [text_info->max_bitmaps]. *)
Definition text_info : Type := (list Combine.CombinedBitmapInfo * nat)%type.

(** [ass_render_event].  Its third argument, [event_images], is written
    nowhere in the function, so it is not among the results. *)
Definition ass_render_event (styles : list ASS_Style) (ti : text_info)
    (event : ASS_Event) : outcome (bool * text_info) :=
  if Style event >=? Z.of_nat (length styles) then Ret (false, ti)
  else
    match Text event with
    | None => Ret (false, ti)
    | Some text =>
        match style_at styles (Style event) with
        | None => Fault
        | Some style =>
            match parse_events style text with
            | None => Ret (false, ti)
            | Some glyphs =>
                if (length glyphs =? 0)%nat then Ret (false, ti)
                else
                  match ass_shaper_shape glyphs with
                  | None => Ret (false, ti)
                  | Some shaped =>
                      obind (render_and_combine_glyphs
                               (layout style event shaped) ti.1 ti.2)
                        (fun '(st, _) =>
                           Ret (true, (Combine.combined_bitmaps st,
                                       Combine.max_bitmaps st)))
                  end
            end
        end
    end.

(** The memory [ass_render_frame] keeps between frames: [priv->eimg] (a
    null pointer is the empty array) with [priv->eimg_size], and
    [text_info]. *)
Record renderer : Type := mkRenderer {
  eimg : list EventImages;
  eimg_size : nat;
  info : text_info
}.

(** What [realloc] leaves in the entries it adds to [eimg], and whether the
    [n]-th call succeeds. *)
Variable indeterminate : EventImages.
Variable realloc_ok : nat -> bool.

(** The first loop of [ass_render_frame]: [cnt] and the events handed to
    [ass_render_event], in order. *)
Fixpoint render_events (styles : list ASS_Style) (now : Z)
    (events : list ASS_Event) (r : renderer) (cnt : nat)
    (attempted : list ASS_Event)
  : outcome (renderer * nat * list ASS_Event) :=
  match events with
  | [] => Ret (r, cnt, attempted)
  | event :: rest =>
      if in_frame now event then
        let r :=
          if (eimg_size r <=? cnt)%nat then
            mkRenderer
              (if realloc_ok (eimg_size r)
               then eimg r ++ replicate 100 indeterminate else [])
              (eimg_size r + 100) (info r)
          else r in
        obind (ass_render_event styles (info r) event) (fun '(ok, ti) =>
          render_events styles now rest
            (mkRenderer (eimg r) (eimg_size r) ti)
            (if ok then S cnt else cnt) (attempted ++ [event]))
      else render_events styles now rest r cnt attempted
  end.

(** [qsort], and what [fix_collisions] runs against. *)
Variable qsort : forall A : Type, (A -> A -> Z) -> list A -> list A.
Variable calloc_ok : nat -> bool.
Variable used_ok : bool.
Variable frame_height : Z.
Variable render_id : Z.

(** The events the entries of [eimg] point to.  The address of an event is
    its index in [track->events]; any other address is a bad pointer. *)
Fixpoint resolve (events : list ASS_Event) (l : list EventImages)
  : outcome (list (ASS_Event * EventImages)) :=
  match l with
  | [] => Ret []
  | ei :: rest =>
      match events !! event ei with
      | None => Fault
      | Some e =>
          obind (resolve events rest) (fun rest' => Ret ((e, ei) :: rest'))
      end
  end.

(** The groups the second loop hands to [fix_collisions]: [cur] is the
    group that starts at [last], [layer] is [last->event->Layer]. *)
Fixpoint layer_groups (layer : Z) (cur : list EventImages)
    (rest : list (ASS_Event * EventImages)) : list (list EventImages) :=
  match rest with
  | [] => [cur]
  | (e, ei) :: rest' =>
      if negb (layer =? Layer e) then cur :: layer_groups (Layer e) [ei] rest'
      else layer_groups layer (cur ++ [ei]) rest'
  end.

(** [fix_collisions] on each group in turn. *)
Fixpoint fix_groups (privs : gmap nat ASS_RenderPriv) (callocs : nat)
    (groups : list (list EventImages))
  : gmap nat ASS_RenderPriv * nat * list EventImages :=
  match groups with
  | [] => (privs, callocs, [])
  | g :: rest =>
      let '(st, g') :=
        fix_collisions qsort calloc_ok used_ok frame_height render_id
                       privs callocs g in
      let '(privs, callocs, rest') :=
        fix_groups (Collision.privs st) (Collision.callocs st) rest in
      (privs, callocs, g' ++ rest')
  end.

(** [ass_render_frame] after [ass_start_frame] has returned true: the
    renderer, the events' [render_priv], the image list and the value
    written to [*detect_change]. *)
Definition ass_render_frame (styles : list ASS_Style)
    (events : list ASS_Event) (now : Z) (r : renderer)
    (privs : gmap nat ASS_RenderPriv) (callocs : nat)
    (prev_images_root : list ASS_Image)
  : outcome (renderer * gmap nat ASS_RenderPriv * list ASS_Image * Z) :=
  obind (render_events styles now events r 0 []) (fun '(r, cnt, _) =>
    if (length (eimg r) <? cnt)%nat then Fault
    else
      let rendered := take cnt (eimg r) in
      obind
        (match rendered with
         | [] => Ret []
         | [ei] => Ret [[ei]]
         | _ =>
             obind (resolve events rendered) (fun pairs =>
               match qsort _ (fun a b => cmp_event_layer a.1 b.1) pairs with
               | [] => Ret []
               | (e, ei) :: rest => Ret (layer_groups (Layer e) [ei] rest)
               end)
         end)
        (fun groups =>
           let '(privs, _, fixed) := fix_groups privs callocs groups in
           let images_root := concat (imgs <$> fixed) in
           Ret (mkRenderer (fixed ++ drop cnt (eimg r)) (eimg_size r) (info r),
                privs, images_root,
                ass_detect_change prev_images_root images_root))).

End Render.

(** ** Which events are dropped *)

Section Dropped.

Variable ASS_Style : Type.
Variable parse_events : ASS_Style -> string -> option (list Combine.Glyph).
Variable ass_shaper_shape : list Combine.Glyph -> option (list Combine.Glyph).
Variable layout :
  ASS_Style -> ASS_Event -> list Combine.Glyph -> list Combine.Glyph.
Variable render_and_combine_glyphs :
  list Combine.Glyph -> list Combine.CombinedBitmapInfo -> nat ->
  outcome (Combine.state * list Combine.Glyph).
Variable indeterminate : EventImages.
Variable realloc_ok : nat -> bool.

Abbreviation ass_render_event :=
  (ass_render_event ASS_Style parse_events ass_shaper_shape layout
     render_and_combine_glyphs).
Abbreviation render_events :=
  (render_events ASS_Style parse_events ass_shaper_shape layout
     render_and_combine_glyphs indeterminate realloc_ok).

(** The event has no style at or beyond [n_styles], no text, or a text
    whose parsing aborts, yields no glyph, or cannot be shaped. *)
Definition dropped (styles : list ASS_Style) (event : ASS_Event) : Prop :=
  Z.of_nat (length styles) <= Style event \/
  Text event = None \/
  exists style text,
    style_at styles (Style event) = Some style /\
    Text event = Some text /\
    (parse_events style text = None \/
     parse_events style text = Some [] \/
     exists glyphs, parse_events style text = Some glyphs /\
                    ass_shaper_shape glyphs = None).

Lemma ass_render_event_false styles ti event :
  (exists ti', ass_render_event styles ti event = Ret (false, ti')) <->
  dropped styles event.
Proof.
  unfold Frame.ass_render_event, dropped.
  destruct (Z.geb_spec (Style event) (Z.of_nat (length styles))) as [Hge | Hlt].
  { split; [intros _; left; lia | intros _; eauto]. }
  destruct (Text event) as [text |] eqn:Ht.
  2: { split; [intros _; right; left; reflexivity | intros _; eauto]. }
  destruct (style_at styles (Style event)) as [style |] eqn:Hs.
  2: { split.
       - intros [ti' H]. discriminate.
       - intros [H | [H | (style & text' & H & _)]];
           [lia | discriminate | discriminate]. }
  destruct (parse_events style text) as [glyphs |] eqn:Hp.
  2: { split; [| intros _; eauto].
       intros _. right. right. exists style, text. auto. }
  destruct glyphs as [|g glyphs].
  { simpl. split; [| intros _; eauto].
    intros _. right. right. exists style, text. auto. }
  simpl.
  destruct (ass_shaper_shape (g :: glyphs)) as [shaped |] eqn:Hsh.
  2: { split; [| intros _; eauto].
       intros _. right. right. exists style, text.
       split; [reflexivity |]. split; [reflexivity |]. right. right. eauto. }
  split.
  - intros [ti' H].
    destruct (render_and_combine_glyphs _ _ _) as [[st gl] |]; discriminate.
  - intros [H | [H | (style' & text' & Hs' & Ht' & H)]];
      [lia | discriminate |].
    injection Hs' as <-. injection Ht' as <-. rewrite Hp in H.
    destruct H as [H | [H | (glyphs' & H & Hsh')]]; try discriminate.
    injection H as <-. congruence.
Qed.

Lemma render_events_attempted styles now events :
  forall r cnt attempted r' cnt' attempted',
    render_events styles now events r cnt attempted
      = Ret (r', cnt', attempted') ->
    attempted' = attempted ++ filter (fun e => in_frame now e = true) events.
Proof.
  induction events as [|event rest IH]; intros r cnt att r' cnt' att' H;
    simpl in H.
  - injection H as <- <- <-. rewrite app_nil_r. reflexivity.
  - rewrite filter_cons. destruct (in_frame now event) eqn:Hin.
    + rewrite decide_True by reflexivity.
      destruct (ass_render_event _ _ _) as [[ok ti] |]; [| discriminate].
      simpl in H. apply IH in H. rewrite H, <- app_assoc. reflexivity.
    + rewrite decide_False by discriminate. eapply IH, H.
Qed.

Lemma render_events_returns styles now events :
  (forall event ti, event ∈ events -> in_frame now event = true ->
                    ass_render_event styles ti event <> Fault) ->
  forall r cnt attempted,
    exists res, render_events styles now events r cnt attempted = Ret res.
Proof.
  induction events as [|event rest IH]; intros Hok r cnt att; simpl.
  - eauto.
  - assert (Hrest : forall e ti, e ∈ rest -> in_frame now e = true ->
                                 ass_render_event styles ti e <> Fault).
    { intros e ti He. apply Hok. right. exact He. }
    destruct (in_frame now event) eqn:Hin; [| apply IH; exact Hrest].
    match goal with |- context [ass_render_event styles ?ti event] =>
      pose proof (Hok event ti (list_elem_of_here _ _) Hin) as Hne;
      destruct (ass_render_event styles ti event) as [[ok ti'] |];
        [| congruence]
    end.
    simpl. apply IH. exact Hrest.
Qed.

(** The events [ass_render_event] returns false for are those whose style
    index is at or beyond [n_styles], whose text pointer is null, whose
    parsing aborts or yields no glyph, or whose shaping fails; and the loop
    of [ass_render_frame] hands every event of the frame to
    [ass_render_event], whether or not earlier ones were dropped. *)
Theorem ass_render_event_dropped styles now events :
  (forall ti event,
     (exists ti', ass_render_event styles ti event = Ret (false, ti')) <->
     dropped styles event) /\
  (forall r cnt attempted r' cnt' attempted',
     render_events styles now events r cnt attempted
       = Ret (r', cnt', attempted') ->
     attempted' = attempted ++ filter (fun e => in_frame now e = true) events) /\
  ((forall event ti, event ∈ events -> in_frame now event = true ->
                     ass_render_event styles ti event <> Fault) ->
   forall r cnt attempted,
     exists res, render_events styles now events r cnt attempted = Ret res).
Proof.
  split; [| split].
  - intros ti event. apply ass_render_event_false.
  - apply render_events_attempted.
  - apply render_events_returns.
Qed.

(** C7: the guard [event->Style >= n_styles] of [ass_render_event] lets a
    negative style index through.  An event with a negative style index and
    a text is out of range for every style array, yet it is not dropped:
    the function does not return false, it goes on to read
    [track->styles + event->Style], before the start of the array. *)
Theorem ass_render_event_negative_style
    (styles : list ASS_Style) (ti : text_info) (event : ASS_Event)
    (text : string) :
  Style event < 0 ->
  Text event = Some text ->
  ~ (0 <= Style event < Z.of_nat (length styles)) /\
  ass_render_event styles ti event = Fault /\
  ~ (exists ti', ass_render_event styles ti event = Ret (false, ti')) /\
  ~ dropped styles event.
Proof.
  intros Hneg Htext.
  assert (Hf : ass_render_event styles ti event = Fault).
  { unfold Frame.ass_render_event.
    destruct (Z.geb_spec (Style event) (Z.of_nat (length styles))); [lia |].
    rewrite Htext. unfold style_at.
    destruct (Z.ltb_spec (Style event) 0); [reflexivity | lia]. }
  assert (Hn : ~ (exists ti', ass_render_event styles ti event
                              = Ret (false, ti'))).
  { intros [ti' H]. rewrite Hf in H. discriminate. }
  split; [lia |]. split; [exact Hf |]. split; [exact Hn |].
  intros Hd. apply Hn. apply ass_render_event_false. exact Hd.
Qed.

End Dropped.

(** ** A track of two events *)

Definition sample_glyph : Combine.Glyph := Combine.plain_glyph false.

Definition sample_parse (style : unit) (text : string)
  : option (list Combine.Glyph) :=
  Some ((fun _ => sample_glyph) <$> list_ascii_of_string text).

Definition sample_combine := Combine.sample_combine.

Definition sample_render_event :=
  ass_render_event unit sample_parse Some (fun _ _ glyphs => glyphs)
    sample_combine.

Definition sample_info : text_info :=
  (replicate 16 Combine.blank_run, 16%nat).

Definition upper_event : ASS_Event := mkEvent 0 1000 0 1 0 (Some "a"%string).
Definition lower_event : ASS_Event := mkEvent 0 1000 1 0 0 (Some "b"%string).
Definition comment_event : ASS_Event := mkEvent 0 1000 2 0 0 (Some ""%string).
Definition late_event : ASS_Event := mkEvent 1000 500 3 0 0 (Some "c"%string).
Definition stray_event : ASS_Event := mkEvent 0 1000 4 0 (-1) (Some "d"%string).

Example sample_render_event_values :
  (exists ti, sample_render_event [tt] sample_info upper_event = Ret (true, ti)) /\
  (exists ti, sample_render_event [tt] sample_info comment_event
              = Ret (false, ti)).
Proof. split; eexists; vm_compute; reflexivity. Qed.

(** An event whose style index is negative is out of range, and
    [ass_render_event] does not return false for it: it goes on to read
    [track->styles + event->Style]. *)
Lemma negative_style_not_dropped :
  ~ (0 <= Style stray_event < Z.of_nat (length [tt])) /\
  sample_render_event [tt] sample_info stray_event = Fault /\
  ~ (exists ti, sample_render_event [tt] sample_info stray_event
                = Ret (false, ti)).
Proof.
  split; [simpl; lia |]. split; [reflexivity |].
  intros [ti H]. discriminate.
Qed.

Lemma ass_render_event_negative_style_witness :
  ~ (0 <= Style stray_event < Z.of_nat (length [tt])) /\
  sample_render_event [tt] sample_info stray_event = Fault /\
  ~ (exists ti', sample_render_event [tt] sample_info stray_event
                 = Ret (false, ti')) /\
  ~ dropped unit sample_parse Some [tt] stray_event.
Proof.
  apply (ass_render_event_negative_style unit sample_parse Some
           (fun _ _ glyphs => glyphs) sample_combine [tt] sample_info
           stray_event "d"%string).
  - simpl. lia.
  - reflexivity.
Defined.

Definition sample_render_events (indeterminate : EventImages) :=
  render_events unit sample_parse Some (fun _ _ glyphs => glyphs)
    sample_combine indeterminate (fun _ => true).

Lemma ass_render_event_dropped_witness :
  [comment_event; upper_event; lower_event] =
  [] ++ filter (fun e => in_frame 500 e = true)
               [comment_event; upper_event; late_event; lower_event].
Proof.
  eapply (proj1 (proj2 (ass_render_event_dropped unit sample_parse Some
                          (fun _ _ glyphs => glyphs) sample_combine
                          (mkEventImages [] 0 0 0 0 0 0 0) (fun _ => true)
                          [tt] 500
                          [comment_event; upper_event; late_event; lower_event]))
            (mkRenderer [] 0 sample_info) 0%nat []).
  vm_compute. reflexivity.
Defined.

(** ** The frame is assembled from entries nothing has written *)

Definition images_of {A B C} (o : outcome (A * B * list ASS_Image * C))
  : outcome (list ASS_Image) :=
  obind o (fun '(_, _, images, _) => Ret images).

Definition sample_frame (indeterminate : EventImages) :=
  ass_render_frame unit sample_parse Some (fun _ _ glyphs => glyphs)
    sample_combine indeterminate (fun _ => true)
    Collision.sample_qsort (fun _ => true) true 720 1
    [tt] [upper_event; lower_event] 500 (mkRenderer [] 0 sample_info) ∅ 0 [].

(** Two events are in the frame and both are rendered, and the image list
    of the frame is made of what [realloc] left in [eimg]: the images of the
    indeterminate entry, twice, when its [event] field happens to be the
    address of an event, and a fault when it is not.  The images do not
    come from the rendered events and their order does not depend on the
    events' (Layer, ReadOrder). *)
Theorem ass_render_frame_unwritten_entries (junk : list ASS_Image) :
  (exists r cnt,
     sample_render_events (mkEventImages junk 0 0 0 0 0 0 0) [tt] 500
       [upper_event; lower_event] (mkRenderer [] 0 sample_info) 0 []
     = Ret (r, cnt, [upper_event; lower_event]) /\ cnt = 2%nat) /\
  images_of (sample_frame (mkEventImages junk 0 0 0 0 0 0 0))
    = Ret (junk ++ junk) /\
  images_of (sample_frame (mkEventImages junk 0 0 0 0 0 0 7)) = Fault.
Proof.
  split; [| split].
  - do 2 eexists. split; vm_compute; reflexivity.
  - vm_compute. f_equal. change (junk ++ junk ++ [] = junk ++ junk).
    rewrite app_nil_r. reflexivity.
  - vm_compute. reflexivity.
Qed.

(** ** The order of the events of a frame *)

(** [cmp_event_layer] is a comparison [qsort] can sort with: swapping the
    arguments negates the result, "not greater" is transitive, and the
    result orders events by [Layer] first and [ReadOrder] second; it is 0
    only for two events with the same [Layer] and the same [ReadOrder]. *)
Theorem cmp_event_layer_consistent :
  (forall a b, cmp_event_layer a b = - cmp_event_layer b a) /\
  (forall a b c, cmp_event_layer a b <= 0 -> cmp_event_layer b c <= 0 ->
                 cmp_event_layer a c <= 0) /\
  (forall a b, cmp_event_layer a b < 0 <->
               Layer a < Layer b \/
               (Layer a = Layer b /\ ReadOrder a < ReadOrder b)) /\
  (forall a b, cmp_event_layer a b = 0 <->
               Layer a = Layer b /\ ReadOrder a = ReadOrder b).
Proof.
  assert (Hcases : forall a b,
    (cmp_event_layer a b = -1 /\
     (Layer a < Layer b \/ (Layer a = Layer b /\ ReadOrder a < ReadOrder b)))
    \/ (cmp_event_layer a b = 1 /\
        (Layer b < Layer a \/ (Layer a = Layer b /\ ReadOrder b < ReadOrder a)))
    \/ (cmp_event_layer a b = 0 /\
        Layer a = Layer b /\ ReadOrder a = ReadOrder b)).
  { intros a b. unfold cmp_event_layer.
    destruct (Z.ltb_spec (Layer a) (Layer b)); [left; split; [reflexivity | lia] |].
    destruct (Z.gtb_spec (Layer a) (Layer b));
      [right; left; split; [reflexivity | lia] |].
    destruct (Z.ltb_spec (ReadOrder a) (ReadOrder b));
      [left; split; [reflexivity | lia] |].
    destruct (Z.gtb_spec (ReadOrder a) (ReadOrder b));
      [right; left; split; [reflexivity | lia] |].
    right; right. split; [reflexivity | lia]. }
  split; [| split; [| split]].
  - intros a b. destruct (Hcases a b) as [[-> ?] | [[-> ?] | [-> ?]]],
      (Hcases b a) as [[-> ?] | [[-> ?] | [-> ?]]]; lia.
  - intros a b c.
    destruct (Hcases a b) as [[-> ?] | [[-> ?] | [-> ?]]],
      (Hcases b c) as [[-> ?] | [[-> ?] | [-> ?]]],
      (Hcases a c) as [[-> ?] | [[-> ?] | [-> ?]]]; lia.
  - intros a b. destruct (Hcases a b) as [[-> ?] | [[-> ?] | [-> ?]]]; lia.
  - intros a b. destruct (Hcases a b) as [[-> ?] | [[-> ?] | [-> ?]]]; lia.
Qed.

(** ** The groups handed to [fix_collisions] *)

(** The entries of [eimg] in an array of entries paired with the events
    they point to. *)
Definition entries (run : list (ASS_Event * EventImages)) : list EventImages :=
  snd <$> run.

Lemma layer_groups_runs rest : forall layer (cur : list (ASS_Event * EventImages)),
  Forall (fun p => Layer p.1 = layer) cur -> cur <> [] ->
  exists runs : list (list (ASS_Event * EventImages)),
    layer_groups layer (entries cur) rest = entries <$> runs /\
    concat runs = cur ++ rest /\
    Forall (fun run => run <> [] /\
                       exists l, Forall (fun p => Layer p.1 = l) run) runs.
Proof.
  induction rest as [|[e ei] rest IH]; intros layer cur Hcur Hne; simpl.
  - exists [cur]. simpl. rewrite !app_nil_r. split; [reflexivity |].
    split; [reflexivity |]. repeat constructor; eauto.
  - destruct (Z.eqb_spec layer (Layer e)) as [E | Hdiff]; cbn [negb].
    + destruct (IH layer (cur ++ [(e, ei)])) as (runs & Hg & Hc & Hall).
      { apply Forall_app. split; [exact Hcur |]. repeat constructor. auto. }
      { destruct cur; discriminate. }
      exists runs. unfold entries in Hg at 1. rewrite fmap_app in Hg.
      simpl in Hg.
      split; [exact Hg |]. split; [| exact Hall].
      rewrite Hc, <- app_assoc. reflexivity.
    + destruct (IH (Layer e) [(e, ei)]) as (runs & Hg & Hc & Hall).
      { repeat constructor. }
      { discriminate. }
      exists (cur :: runs). simpl in Hg. simpl. rewrite Hg, Hc.
      split; [reflexivity |]. split; [reflexivity |].
      constructor; [| exact Hall]. eauto.
Qed.

(** The loop of [ass_render_frame] that calls [fix_collisions] cuts the
    sorted array into consecutive runs: put back one after the other the
    runs are the array, no run is empty, and all events of a run have the
    same [Layer]. *)
Theorem layer_groups_partition (e : ASS_Event) (ei : EventImages)
    (rest : list (ASS_Event * EventImages)) :
  exists runs : list (list (ASS_Event * EventImages)),
    layer_groups (Layer e) [ei] rest = entries <$> runs /\
    concat runs = (e, ei) :: rest /\
    Forall (fun run => run <> [] /\
                       exists l, Forall (fun p => Layer p.1 = l) run) runs.
Proof.
  apply (layer_groups_runs rest (Layer e) [(e, ei)]).
  - repeat constructor.
  - discriminate.
Qed.

(** ** A frame with no event to show *)

Section Idle.

Variable ASS_Style : Type.
Variable parse_events : ASS_Style -> string -> option (list Combine.Glyph).
Variable ass_shaper_shape : list Combine.Glyph -> option (list Combine.Glyph).
Variable layout :
  ASS_Style -> ASS_Event -> list Combine.Glyph -> list Combine.Glyph.
Variable render_and_combine_glyphs :
  list Combine.Glyph -> list Combine.CombinedBitmapInfo -> nat ->
  outcome (Combine.state * list Combine.Glyph).
Variable indeterminate : EventImages.
Variable realloc_ok : nat -> bool.
Variable qsort : forall A : Type, (A -> A -> Z) -> list A -> list A.
Variable calloc_ok : nat -> bool.
Variable used_ok : bool.
Variable frame_height : Z.
Variable render_id : Z.

Abbreviation render_events :=
  (render_events ASS_Style parse_events ass_shaper_shape layout
                 render_and_combine_glyphs indeterminate realloc_ok).
Abbreviation ass_render_frame :=
  (ass_render_frame ASS_Style parse_events ass_shaper_shape layout
                    render_and_combine_glyphs indeterminate realloc_ok
                    qsort calloc_ok used_ok frame_height render_id).

Lemma render_events_idle styles now events : forall r cnt attempted,
  Forall (fun e => in_frame now e = false) events ->
  render_events styles now events r cnt attempted = Ret (r, cnt, attempted).
Proof.
  induction events as [|e rest IH]; intros r cnt attempted Hall; simpl.
  - reflexivity.
  - apply Forall_cons in Hall as [-> Hrest]. apply IH. exact Hrest.
Qed.

(** When no event of the track is active at [now], [ass_render_frame]
    renders nothing and touches neither the event array nor any
    [render_priv]: the image list is empty, and [*detect_change] is 0 when
    the previous frame was empty too and 2 otherwise. *)
Theorem ass_render_frame_idle styles events now r privs callocs prev :
  Forall (fun e => in_frame now e = false) events ->
  ass_render_frame styles events now r privs callocs prev
  = Ret (r, privs, [], match prev with [] => 0 | _ :: _ => 2 end).
Proof.
  intros Hall. unfold Frame.ass_render_frame.
  rewrite (render_events_idle styles now events r 0%nat [] Hall).
  cbn [obind]. cbn [Nat.ltb Nat.leb take fix_groups fmap list_fmap concat
                   drop app].
  destruct r as [eimg eimg_size info]. cbn [Frame.eimg Frame.eimg_size
                                             Frame.info].
  destruct prev as [|i1 prev]; reflexivity.
Qed.

End Idle.

Lemma ass_render_frame_idle_witness :
  ass_render_frame unit sample_parse Some (fun _ _ glyphs => glyphs)
    sample_combine Collision.event_c (fun _ => true) Collision.sample_qsort
    (fun _ => true) true 720 1 [tt] [late_event] 500
    (mkRenderer [] 0 sample_info) ∅ 0%nat []
  = Ret (mkRenderer [] 0 sample_info, ∅, [], 0).
Proof.
  apply (ass_render_frame_idle unit sample_parse Some
           (fun _ _ glyphs => glyphs) sample_combine Collision.event_c
           (fun _ => true) Collision.sample_qsort (fun _ => true) true 720 1
           [tt] [late_event] 500 (mkRenderer [] 0 sample_info) ∅ 0%nat []).
  repeat constructor.
Defined.

End Frame.

(** * Line wrapping *)

Module Wrap.
Import Double.

(** [GlyphInfo]: the fields the two loops of [wrap_lines_smart] read and
    write: [symbol], [pos.x], [bbox.x_min], [bbox.x_max], [linebreak]. *)
Record GlyphInfo : Type := mkGlyphInfo {
  symbol : Z;
  pos_x : Z;
  bbox_x_min : Z;
  bbox_x_max : Z;
  linebreak : Z
}.

Definition space : Z := 32.
Definition newline : Z := 10.

(** [glyphs + p], read. *)
Definition glyph_at (glyphs : list GlyphInfo) (p : nat) : GlyphInfo :=
  nth p glyphs (mkGlyphInfo 0 0 0 0 0).

(** [(glyphs + p)->linebreak = v]. *)
Definition set_linebreak (glyphs : list GlyphInfo) (p : nat) (v : Z)
  : list GlyphInfo :=
  let g := glyph_at glyphs p in
  <[p := mkGlyphInfo (symbol g) (pos_x g) (bbox_x_min g) (bbox_x_max g) v]>
    glyphs.

(** [while ((w > s1) && test (w)) --w;] *)
Fixpoint scan_back (test : GlyphInfo -> bool) (glyphs : list GlyphInfo)
    (s1 w : nat) : nat :=
  match w with
  | O => O
  | S w' =>
      if (s1 <? w)%nat && test (glyph_at glyphs w)
      then scan_back test glyphs s1 w'
      else w
  end.

Definition is_space (g : GlyphInfo) : bool := symbol g =? space.

(** A move the balance loop applied: the pointers when it was made. *)
Record move : Type := mkMove {
  move_s1 : nat;
  move_s2 : nat;
  move_s3 : nat;
  move_e1 : nat;
  move_w : nat
}.

(** The locals of one pass of the balance loop. *)
Record pass_state : Type := mkPass {
  glyphs : list GlyphInfo;
  n_lines : Z;
  exit : bool;
  s1 : option nat;
  s2 : option nat;
  s3 : nat;
  moves : list move
}.

Section Lines.

(** [d6_to_double] of [ass_utils.h], which is not among the sources. *)
Variable d6_to_double : Z -> float.

(** [render_priv->state.wrap_style] and the argument of the function. *)
Variable wrap_style : Z.
Variable max_text_width : float.

(** [DIFF(x,y) (((x) < (y)) ? (y - x) : (x - y))]. *)
Definition DIFF (x y : float) : float :=
  if PrimFloat.ltb x y then PrimFloat.sub y x else PrimFloat.sub x y.

(** [d6_to_double((to->bbox.x_max + to->pos.x) -
                  (from->bbox.x_min + from->pos.x))]. *)
Definition span (glyphs : list GlyphInfo) (from to : nat) : float :=
  d6_to_double
    ((bbox_x_max (glyph_at glyphs to) + pos_x (glyph_at glyphs to)) -
     (bbox_x_min (glyph_at glyphs from) + pos_x (glyph_at glyphs from))).

(** The locals of the first loop. *)
Record wrap_state : Type := mkWrap {
  wrapped : list GlyphInfo;
  lines : Z;
  last_space : Z;
  break_type : Z;
  line_start : nat
}.

(** Body of the first loop, [for (i = 0; i < text_info->length; ++i)]. *)
Definition wrap_step (st : wrap_state) (i : nat) : wrap_state :=
  let cur := glyph_at (wrapped st) i in
  let first := glyph_at (wrapped st) (line_start st) in
  let s_offset := d6_to_double (bbox_x_min first + pos_x first) in
  let len :=
    PrimFloat.sub (d6_to_double (bbox_x_max cur + pos_x cur)) s_offset in
  let '(break_type, last_space, break_at) :=
    if symbol cur =? newline then (2, last_space st, Z.of_nat i)
    else if symbol cur =? space then (break_type st, Z.of_nat i, -1)
    else if PrimFloat.leb max_text_width len && negb (wrap_style =? 2)
    then (1, last_space st, last_space st)
    else (break_type st, last_space st, -1) in
  if negb (break_at =? -1) then
    let lead := break_at + 1 in
    if lead <? Z.of_nat (length (wrapped st)) then
      mkWrap (set_linebreak (wrapped st) (Z.to_nat lead) break_type)
             (lines st + 1) (-1) break_type (Z.to_nat lead)
    else mkWrap (wrapped st) (lines st) last_space break_type (line_start st)
  else mkWrap (wrapped st) (lines st) last_space break_type (line_start st).

Definition wrap (glyphs : list GlyphInfo) : wrap_state :=
  fold_left wrap_step (seq 0 (length glyphs)) (mkWrap glyphs 1 (-1) 0 0).

(** Body of the loop of a balance pass,
    [for (i = 0; i <= text_info->length; ++i)]. *)
Definition pass_step (st : pass_state) (i : nat) : pass_state :=
  if (i =? length (glyphs st))%nat ||
     negb (linebreak (glyph_at (glyphs st) i) =? 0)
  then
    let st := mkPass (glyphs st) (n_lines st) (exit st)
                     (s2 st) (Some (s3 st)) i (moves st) in
    match s1 st, s2 st with
    | Some a, Some b =>
        if linebreak (glyph_at (glyphs st) b) =? 1 then
          let w := scan_back is_space (glyphs st) a (pred b) in
          let w := scan_back (fun g => negb (is_space g)) (glyphs st) a w in
          let e1 := scan_back is_space (glyphs st) a w in
          let w := if is_space (glyph_at (glyphs st) w) then S w else w in
          let l1 := span (glyphs st) a (pred b) in
          let l2 := span (glyphs st) b (pred (s3 st)) in
          let l1_new := span (glyphs st) a e1 in
          let l2_new := span (glyphs st) w (pred (s3 st)) in
          if PrimFloat.ltb (DIFF l1_new l2_new) (DIFF l1 l2) then
            let n :=
              if negb (linebreak (glyph_at (glyphs st) w) =? 0) || (w =? 0)%nat
              then n_lines st - 1 else n_lines st in
            let gl := if negb (w =? 0)%nat then set_linebreak (glyphs st) w 1
                      else glyphs st in
            let gl := set_linebreak gl b 0 in
            mkPass gl n false (s1 st) (s2 st) (s3 st)
                   (moves st ++ [mkMove a b (s3 st) e1 w])
          else st
        else st
    | _, _ => st
    end
  else st.

(** One pass: the body of [while (!exit && wrap_style != 1)]. *)
Definition pass (glyphs : list GlyphInfo) (n_lines : Z) : pass_state :=
  fold_left pass_step (seq 0 (S (length glyphs)))
            (mkPass glyphs n_lines true None None 0 []).

(** The balance loop with a bound on the number of passes: the glyphs,
    [n_lines], the number of passes made and the moves applied, or [None]
    when the bound is reached. *)
Fixpoint balance (fuel : nat) (glyphs : list GlyphInfo) (n_lines : Z)
    (passes : nat) (applied : list move)
  : option (list GlyphInfo * Z * nat * list move) :=
  if wrap_style =? 1 then Some (glyphs, n_lines, passes, applied)
  else
    match fuel with
    | O => None
    | S fuel =>
        let st := pass glyphs n_lines in
        if exit st
        then Some (Wrap.glyphs st, Wrap.n_lines st, S passes,
                   applied ++ moves st)
        else balance fuel (Wrap.glyphs st) (Wrap.n_lines st) (S passes)
                     (applied ++ moves st)
    end.

(** [wrap_lines_smart] up to its [assert (text_info->n_lines >= 1)]. *)
Definition wrap_lines_smart (fuel : nat) (glyphs : list GlyphInfo)
  : option (list GlyphInfo * Z * nat * list move) :=
  let st := wrap glyphs in
  balance fuel (wrapped st) (lines st) 0 [].

End Lines.

(** ** Reads and writes of the glyph array *)

Lemma length_set_linebreak gl p v : length (set_linebreak gl p v) = length gl.
Proof. unfold set_linebreak. apply length_insert. Qed.

Lemma glyph_at_lookup gl p g : gl !! p = Some g -> glyph_at gl p = g.
Proof.
  unfold glyph_at. revert p. induction gl as [|x gl IH]; intros [|p] H;
    simpl in *; try discriminate; [congruence | auto].
Qed.

Lemma glyph_at_set_linebreak_ne gl p q v :
  p <> q -> glyph_at (set_linebreak gl p v) q = glyph_at gl q.
Proof.
  intros Hne. unfold set_linebreak.
  generalize (mkGlyphInfo (symbol (glyph_at gl p)) (pos_x (glyph_at gl p))
                (bbox_x_min (glyph_at gl p)) (bbox_x_max (glyph_at gl p)) v).
  intros g. unfold glyph_at. revert p q Hne.
  induction gl as [|x gl IH]; intros [|p] [|q] Hne; simpl; auto; try lia.
Qed.

Lemma glyph_at_set_linebreak_eq gl p v :
  (p < length gl)%nat ->
  glyph_at (set_linebreak gl p v) p =
  mkGlyphInfo (symbol (glyph_at gl p)) (pos_x (glyph_at gl p))
              (bbox_x_min (glyph_at gl p)) (bbox_x_max (glyph_at gl p)) v.
Proof.
  intros Hlt. apply glyph_at_lookup. unfold set_linebreak.
  apply list_lookup_insert_eq. exact Hlt.
Qed.

(** The fields the balance loop never writes. *)
Definition geometry (g : GlyphInfo) : Z * Z * Z * Z :=
  (symbol g, pos_x g, bbox_x_min g, bbox_x_max g).

Definition same_geometry (gl gl' : list GlyphInfo) : Prop :=
  forall p, geometry (glyph_at gl' p) = geometry (glyph_at gl p).

Lemma same_geometry_set_linebreak gl p v :
  same_geometry gl (set_linebreak gl p v).
Proof.
  intros q. destruct (decide (p = q)) as [<- | Hne].
  - destruct (Nat.lt_ge_cases p (length gl)) as [Hlt | Hge].
    + rewrite glyph_at_set_linebreak_eq by exact Hlt. reflexivity.
    + unfold set_linebreak. rewrite list_insert_ge by exact Hge. reflexivity.
  - rewrite glyph_at_set_linebreak_ne by exact Hne. reflexivity.
Qed.

Lemma same_geometry_trans gl1 gl2 gl3 :
  same_geometry gl1 gl2 -> same_geometry gl2 gl3 -> same_geometry gl1 gl3.
Proof. intros H12 H23 p. rewrite H23, H12. reflexivity. Qed.

Lemma same_geometry_refl gl : same_geometry gl gl.
Proof. intros p. reflexivity. Qed.

(** ** The backward scans *)

Lemma scan_back_le test gl a w : (scan_back test gl a w <= w)%nat.
Proof.
  induction w as [|w IH]; simpl; [lia |].
  destruct ((a <? S w)%nat && test (glyph_at gl (S w))); lia.
Qed.

Lemma scan_back_ge test gl a w : (a <= w -> a <= scan_back test gl a w)%nat.
Proof.
  induction w as [|w IH]; simpl; [lia |]. intros Hle.
  destruct (Nat.ltb_spec a (S w)); simpl; [| lia].
  destruct (test (glyph_at gl (S w))); [apply IH |]; lia.
Qed.

Lemma scan_back_stay test gl a w :
  ((a <? w)%nat && test (glyph_at gl w) = false) ->
  scan_back test gl a w = w.
Proof. destruct w as [|w]; simpl; [reflexivity |]. intros ->. reflexivity. Qed.

Lemma scan_back_lt test gl a w :
  ((a <? w)%nat && test (glyph_at gl w) = true) ->
  (scan_back test gl a w < w)%nat.
Proof.
  destruct w as [|w]; simpl.
  - discriminate.
  - intros ->. pose proof (scan_back_le test gl a w). lia.
Qed.

(** ** The sum of the positions of the line breaks *)

Definition weight (i : nat) (g : GlyphInfo) : nat :=
  if linebreak g =? 0 then 0%nat else i.

Fixpoint weight_from (i : nat) (gl : list GlyphInfo) : nat :=
  match gl with
  | [] => 0%nat
  | g :: rest => (weight i g + weight_from (S i) rest)%nat
  end.

Definition break_weight (gl : list GlyphInfo) : nat := weight_from 0 gl.

Lemma weight_from_set_linebreak gl : forall i p v,
  (p < length gl)%nat ->
  (weight_from i (set_linebreak gl p v) + weight (i + p) (glyph_at gl p))%nat =
  (weight_from i gl + (if (v =? 0)%Z then 0 else i + p))%nat.
Proof.
  unfold set_linebreak, glyph_at.
  induction gl as [|g gl IH]; intros i p v Hlt; simpl in Hlt; [lia |].
  destruct p as [|p]; simpl.
  - rewrite Nat.add_0_r. unfold weight at 1. simpl. lia.
  - specialize (IH (S i) p v ltac:(lia)).
    replace (i + S p)%nat with (S i + p)%nat by lia. lia.
Qed.

Definition breaks (gl : list GlyphInfo) : nat :=
  length (filter (fun g => linebreak g <> 0) gl).

Lemma weight_from_le gl : forall i,
  (weight_from i gl <= breaks gl * (i + length gl))%nat.
Proof.
  unfold breaks. induction gl as [|g gl IH]; intros i; simpl; [lia |].
  specialize (IH (S i)). rewrite filter_cons. unfold weight.
  destruct (Z.eqb_spec (linebreak g) 0) as [E | E].
  - rewrite decide_False by tauto.
    replace (i + S (length gl))%nat with (S i + length gl)%nat by lia. lia.
  - rewrite decide_True by exact E. simpl.
    replace (i + S (length gl))%nat with (S i + length gl)%nat by lia. nia.
Qed.

(** ** One pass of the balance loop *)

Section Passes.

Variable d6_to_double : Z -> float.
Variable wrap_style : Z.
Variable max_text_width : float.

Abbreviation span := (span d6_to_double).
Abbreviation pass_step := (pass_step d6_to_double).
Abbreviation pass := (pass d6_to_double).
Abbreviation balance := (balance d6_to_double wrap_style).
Abbreviation wrap_step := (wrap_step d6_to_double wrap_style max_text_width).
Abbreviation wrap := (wrap d6_to_double wrap_style max_text_width).
Abbreviation wrap_lines_smart :=
  (wrap_lines_smart d6_to_double wrap_style max_text_width).

(** The move made the widths of the two lines it touched, as the loop
    measures them, strictly closer. *)
Definition improves (gl : list GlyphInfo) (m : move) : Prop :=
  PrimFloat.ltb
    (DIFF (span gl (move_s1 m) (move_e1 m))
          (span gl (move_w m) (pred (move_s3 m))))
    (DIFF (span gl (move_s1 m) (pred (move_s2 m)))
          (span gl (move_s2 m) (pred (move_s3 m)))) = true.

Lemma span_same_geometry gl gl' a b :
  same_geometry gl gl' -> span gl' a b = span gl a b.
Proof.
  intros H. unfold Wrap.span.
  pose proof (H a) as Ha. pose proof (H b) as Hb. unfold geometry in *.
  injection Ha as _ Ha1 Ha2 Ha3. injection Hb as _ Hb1 Hb2 Hb3.
  congruence.
Qed.

(** Where the word to move starts: between [s1] and [s2], and at [s2] only
    when the first line is a single space, in which case nothing changes. *)
Lemma move_target gl (a b : nat) :
  (a < b)%nat ->
  let w1 := scan_back is_space gl a (pred b) in
  let w2 := scan_back (fun g => negb (is_space g)) gl a w1 in
  let e1 := scan_back is_space gl a w2 in
  let w := if is_space (glyph_at gl w2) then S w2 else w2 in
  (a <= w <= b)%nat /\ (w = b -> e1 = pred b).
Proof.
  intros Hab w1 w2 e1 w.
  assert (H1 : (a <= w1 <= pred b)%nat).
  { split; [apply scan_back_ge; lia | apply scan_back_le]. }
  assert (H2 : (a <= w2 <= w1)%nat).
  { split; [apply scan_back_ge; lia | apply scan_back_le]. }
  unfold w. destruct (is_space (glyph_at gl w2)) eqn:Hsp; [| split; lia].
  split; [lia |]. intros Hw.
  assert (Ew1 : w1 = pred b) by lia. assert (Ew2 : w2 = pred b) by lia.
  assert (Ha : w2 = a).
  { destruct (Nat.eq_dec w2 a) as [E | Hne]; [exact E | exfalso].
    assert (Hmov : (scan_back is_space gl a (pred b) < pred b)%nat).
    { apply scan_back_lt. rewrite <- Ew2 at 2. rewrite Hsp.
      replace (a <? pred b)%nat with true; [reflexivity |].
      symmetry. apply Nat.ltb_lt. lia. }
    fold w1 in Hmov. lia. }
  unfold e1. rewrite Ha. rewrite scan_back_stay; [lia |].
  rewrite Nat.ltb_irrefl. reflexivity.
Qed.

(** The position of the pointers before turn [i] of a pass over [n]
    glyphs. *)
Record pass_inv (n i : nat) (st : pass_state) : Prop := mkPassInv {
  pi_s3 : s3 st = 0%nat \/ (s3 st < i)%nat;
  pi_s2 : forall b, s2 st = Some b -> (b < s3 st)%nat;
  pi_s1 : forall a, s1 st = Some a -> exists b, s2 st = Some b /\ (a < b)%nat
}.

(** What a pass, or a part of one, has done to the glyphs it started from. *)
Record pass_post (gl0 : list GlyphInfo) (nl0 : Z) (st : pass_state)
  : Prop := mkPassPost {
  pp_length : length (glyphs st) = length gl0;
  pp_first : linebreak (glyph_at (glyphs st) 0) = 0;
  pp_geometry : same_geometry gl0 (glyphs st);
  pp_weight :
    (break_weight (glyphs st) + length (moves st) <= break_weight gl0)%nat;
  pp_exit : exit st = true <-> moves st = [];
  pp_idle : moves st = [] -> glyphs st = gl0 /\ n_lines st = nl0;
  pp_improves : Forall (improves gl0) (moves st)
}.

Lemma pass_step_post gl0 nl0 st i :
  (0 < length gl0)%nat -> (i <= length gl0)%nat ->
  pass_inv (length gl0) i st -> pass_post gl0 nl0 st ->
  pass_post gl0 nl0 (pass_step st i) /\
  ((i < length gl0)%nat -> pass_inv (length gl0) (S i) (pass_step st i)).
Proof.
  intros Hn Hi [Hs3 Hs2 Hs1] Hpost.
  pose proof Hpost as [Hlen Hfirst Hgeom Hweight Hexit Hidle Himp].
  unfold Wrap.pass_step.
  destruct ((i =? length (glyphs st))%nat ||
            negb (linebreak (glyph_at (glyphs st) i) =? 0)) eqn:Hev.
  2: { split; [exact Hpost |]. intros _. split; auto. lia. }
  assert (Hi1 : (1 <= i)%nat).
  { destruct i as [|i]; [| lia]. exfalso.
    rewrite Hlen, Hfirst in Hev. simpl in Hev.
    destruct (length gl0); [lia | discriminate]. }
  assert (Hb : (s3 st < i)%nat) by lia.
  cbn [s1 s2 s3 glyphs n_lines exit moves].
  (* the state after [s1 = s2; s2 = s3; s3 = cur] *)
  assert (Hkeep :
    pass_post gl0 nl0
      (mkPass (glyphs st) (n_lines st) (exit st) (s2 st) (Some (s3 st)) i
              (moves st)) /\
    ((i < length gl0)%nat ->
     pass_inv (length gl0) (S i)
       (mkPass (glyphs st) (n_lines st) (exit st) (s2 st) (Some (s3 st)) i
               (moves st)))).
  { split; [split; assumption |]. intros _. split; simpl.
    - right. lia.
    - intros b [= <-]. exact Hb.
    - intros a Ha. exists (s3 st). split; [reflexivity |]. auto. }
  destruct (s2 st) as [a |] eqn:Es2; [| exact Hkeep].
  specialize (Hs2 a eq_refl).
  set (b := s3 st) in *.
  destruct (linebreak (glyph_at (glyphs st) b) =? 1) eqn:Hsoft;
    [| exact Hkeep].
  apply Z.eqb_eq in Hsoft.
  pose proof (move_target (glyphs st) a b Hs2) as Htarget. cbn zeta in Htarget.
  set (w1 := scan_back is_space (glyphs st) a (pred b)) in *.
  set (w2 := scan_back (fun g => negb (is_space g)) (glyphs st) a w1) in *.
  set (e1 := scan_back is_space (glyphs st) a w2) in *.
  set (w := if is_space (glyph_at (glyphs st) w2) then S w2 else w2) in *.
  destruct Htarget as [Hw Hwb].
  destruct (PrimFloat.ltb _ _) eqn:Hguard; [| exact Hkeep].
  assert (Hwlt : (w < b)%nat).
  { destruct (Nat.eq_dec w b) as [E | Hne]; [exfalso | lia].
    rewrite (Hwb E), E in Hguard. rewrite ltb_irrefl in Hguard.
    discriminate. }
  assert (Hbn : (b < length (glyphs st))%nat) by lia.
  set (gl1 := if negb (w =? 0)%nat then set_linebreak (glyphs st) w 1
              else glyphs st).
  assert (Hlen1 : length gl1 = length (glyphs st)).
  { unfold gl1. destruct (negb (w =? 0)%nat);
      [apply length_set_linebreak | reflexivity]. }
  assert (Hgeom1 : same_geometry (glyphs st) gl1).
  { unfold gl1. destruct (negb (w =? 0)%nat);
      [apply same_geometry_set_linebreak | apply same_geometry_refl]. }
  assert (Hat1 : forall q, q <> w -> glyph_at gl1 q = glyph_at (glyphs st) q).
  { intros q Hq. unfold gl1. destruct (negb (w =? 0)%nat); [| reflexivity].
    apply glyph_at_set_linebreak_ne. auto. }
  assert (Hw1 : (break_weight gl1 <= break_weight (glyphs st) + w)%nat).
  { unfold gl1. destruct (Nat.eqb_spec w 0) as [E | Hne]; simpl; [lia |].
    pose proof (weight_from_set_linebreak (glyphs st) 0 w 1 ltac:(lia)) as H.
    simpl in H. unfold break_weight. lia. }
  assert (Hw2 : (break_weight (set_linebreak gl1 b 0) + b
                 = break_weight gl1)%nat).
  { pose proof (weight_from_set_linebreak gl1 0 b 0 ltac:(lia)) as H.
    simpl in H. rewrite (Hat1 b ltac:(lia)) in H. unfold weight in H.
    rewrite Hsoft in H. simpl in H. unfold break_weight. lia. }
  split.
  - split; cbn [glyphs n_lines exit moves].
    + rewrite length_set_linebreak, Hlen1. exact Hlen.
    + rewrite glyph_at_set_linebreak_ne by lia.
      destruct (Nat.eq_dec w 0%nat) as [E | Hne].
      * unfold gl1. rewrite E. simpl. exact Hfirst.
      * rewrite Hat1 by lia. exact Hfirst.
    + eapply same_geometry_trans; [exact Hgeom |].
      eapply same_geometry_trans; [exact Hgeom1 |].
      apply same_geometry_set_linebreak.
    + rewrite length_app. simpl. lia.
    + split; [discriminate |]. intros E. destruct (moves st); discriminate.
    + intros E. destruct (moves st); discriminate.
    + apply Forall_app. split; [exact Himp |]. constructor; [| constructor].
      unfold improves. cbn [move_s1 move_s2 move_s3 move_e1 move_w].
      rewrite !(span_same_geometry gl0 (glyphs st)) in Hguard by exact Hgeom.
      exact Hguard.
  - intros _. split; cbn [s1 s2 s3].
    + right. lia.
    + intros b' [= <-]. exact Hb.
    + intros a' [= <-]. exists b. split; [reflexivity | exact Hs2].
Qed.

Lemma pass_fold gl0 nl0 :
  (0 < length gl0)%nat ->
  forall k i st,
    (i + k = S (length gl0))%nat ->
    pass_inv (length gl0) i st -> pass_post gl0 nl0 st ->
    pass_post gl0 nl0 (fold_left pass_step (seq i k) st).
Proof.
  intros Hn. induction k as [|k IH]; intros i st Hik Hinv Hpost; simpl.
  - exact Hpost.
  - destruct (pass_step_post gl0 nl0 st i Hn ltac:(lia) Hinv Hpost)
      as [Hpost' Hinv'].
    destruct k as [|k]; [exact Hpost' |].
    apply IH; [lia | apply Hinv'; lia | exact Hpost'].
Qed.

Lemma pass_spec gl nl :
  linebreak (glyph_at gl 0) = 0 -> pass_post gl nl (pass gl nl).
Proof.
  intros Hfirst. unfold Wrap.pass.
  assert (Hinit : forall a b c, pass_post gl nl (mkPass gl nl true a b c [])).
  { intros a b c.
    split; simpl; auto; try lia; try tauto. apply same_geometry_refl. }
  destruct gl as [|g gl].
  - apply Hinit.
  - apply pass_fold; simpl; try lia; [| apply Hinit].
    split; simpl; auto; discriminate.
Qed.

Lemma improves_same_geometry gl gl' m :
  same_geometry gl gl' -> improves gl' m -> improves gl m.
Proof.
  intros H. unfold improves.
  rewrite !(span_same_geometry gl gl') by exact H. auto.
Qed.

(** ** The balance loop ends *)

Lemma balance_spec : forall fuel gl nl passes applied,
  linebreak (glyph_at gl 0) = 0 ->
  (break_weight gl < fuel)%nat ->
  exists gl' nl' passes' new,
    balance fuel gl nl passes applied
      = Some (gl', nl', passes', applied ++ new) /\
    (passes' <= passes + break_weight gl + 1)%nat /\
    Forall (improves gl) new /\
    same_geometry gl gl' /\
    (wrap_style <> 1 -> moves (pass gl' nl') = []).
Proof.
  induction fuel as [|fuel IH]; intros gl nl passes applied Hfirst Hfuel;
    [lia |].
  simpl. destruct (Z.eqb_spec wrap_style 1) as [E | Hne].
  { exists gl, nl, passes, []. rewrite app_nil_r.
    split; [reflexivity |]. split; [lia |]. split; [constructor |].
    split; [apply same_geometry_refl | congruence]. }
  pose proof (pass_spec gl nl Hfirst)
    as [Hlen Hfirst' Hgeom Hweight Hexit Hidle Himp].
  destruct (exit (pass gl nl)) eqn:Hex.
  - pose proof (proj1 Hexit eq_refl) as Hnone.
    destruct (Hidle Hnone) as [Hgl Hnl].
    exists (glyphs (pass gl nl)), (n_lines (pass gl nl)), (S passes),
      (moves (pass gl nl)).
    split; [reflexivity |]. split; [lia |]. split; [exact Himp |].
    split; [exact Hgeom |]. intros _. rewrite Hgl, Hnl. exact Hnone.
  - assert (Hsome : (1 <= length (moves (pass gl nl)))%nat).
    { destruct (moves (pass gl nl)); simpl; [| lia].
      destruct Hexit as [_ H]. specialize (H eq_refl). congruence. }
    destruct (IH (glyphs (pass gl nl)) (n_lines (pass gl nl)) (S passes)
                 (applied ++ moves (pass gl nl)) Hfirst' ltac:(lia))
      as (gl' & nl' & passes' & new & Hrun & Hpasses & Hnew & Hgeom' & Hstop).
    exists gl', nl', passes', (moves (pass gl nl) ++ new).
    rewrite app_assoc. split; [exact Hrun |]. split; [lia |].
    split; [| split; [eapply same_geometry_trans; eassumption | exact Hstop]].
    apply Forall_app. split; [exact Himp |].
    eapply Forall_impl; [exact Hnew |].
    intros m. apply improves_same_geometry. exact Hgeom.
Qed.

(** ** The greedy wrap puts no break on the first glyph *)

Record wrap_inv (gl0 : list GlyphInfo) (st : wrap_state) : Prop := mkWrapInv {
  wi_length : length (wrapped st) = length gl0;
  wi_first : linebreak (glyph_at (wrapped st) 0) = 0;
  wi_geometry : same_geometry gl0 (wrapped st);
  wi_space : -1 <= last_space st
}.

Lemma wrap_step_inv gl0 st i : wrap_inv gl0 st -> wrap_inv gl0 (wrap_step st i).
Proof.
  intros [Hlen Hfirst Hgeom Hsp]. unfold Wrap.wrap_step.
  set (cur := glyph_at (wrapped st) i).
  set (len := PrimFloat.sub _ _).
  destruct (symbol cur =? newline);
    [| destruct (symbol cur =? space);
       [| destruct (PrimFloat.leb max_text_width len &&
                    negb (wrap_style =? 2))]];
    match goal with
    | |- context [negb (?x =? -1)] =>
        destruct (Z.eqb_spec x (-1)) as [E | Hne]; cbn [negb]
    end;
    try (split; cbn [wrapped last_space]; auto; lia);
    match goal with
    | |- context [?lead <? Z.of_nat (length (wrapped st))] =>
        destruct (Z.ltb_spec lead (Z.of_nat (length (wrapped st))))
    end;
    try (split; cbn [wrapped last_space]; auto; lia);
    (split; cbn [wrapped last_space];
     [ rewrite length_set_linebreak; exact Hlen
     | rewrite glyph_at_set_linebreak_ne by lia; exact Hfirst
     | eapply same_geometry_trans;
         [exact Hgeom | apply same_geometry_set_linebreak]
     | lia ]).
Qed.

Lemma wrap_spec gl :
  linebreak (glyph_at gl 0) = 0 -> wrap_inv gl (wrap gl).
Proof.
  intros Hfirst. unfold Wrap.wrap.
  assert (H : forall l st, wrap_inv gl st ->
                           wrap_inv gl (fold_left wrap_step l st)).
  { induction l as [|i l IH]; intros st Hst; simpl; [exact Hst |].
    apply IH, wrap_step_inv, Hst. }
  apply H. split; simpl; auto; try lia. apply same_geometry_refl.
Qed.

(** C5, as the code has it: when the glyphs come out of parsing (no break
    on the first glyph) the balance loop of [wrap_lines_smart] ends; the
    number of its passes is at most one more than the sum of the positions
    of the breaks the greedy wrap placed, hence at most one more than the
    number of breaks times the number of glyphs; every move it applies
    brings the two widths it compares strictly closer; and when it ends, a
    further pass would apply no move. *)
Theorem wrap_lines_smart_terminates gl (fuel : nat) :
  linebreak (glyph_at gl 0) = 0 ->
  (break_weight (wrapped (wrap gl)) < fuel)%nat ->
  exists gl' nl passes applied,
    wrap_lines_smart fuel gl = Some (gl', nl, passes, applied) /\
    (passes <= break_weight (wrapped (wrap gl)) + 1)%nat /\
    (break_weight (wrapped (wrap gl))
     <= breaks (wrapped (wrap gl)) * length gl)%nat /\
    Forall (improves gl) applied /\
    (wrap_style <> 1 -> moves (pass gl' nl) = []).
Proof.
  intros Hfirst Hfuel.
  pose proof (wrap_spec gl Hfirst) as [Hlen Hfirst' Hgeom _].
  destruct (balance_spec fuel (wrapped (wrap gl)) (lines (wrap gl)) 0 []
              Hfirst' Hfuel)
    as (gl' & nl' & passes & new & Hrun & Hpasses & Hnew & _ & Hstop).
  exists gl', nl', passes, new. split; [exact Hrun |].
  split; [lia |]. split; [| split; [| exact Hstop]].
  - pose proof (weight_from_le (wrapped (wrap gl)) 0) as H.
    rewrite Hlen in H. exact H.
  - eapply Forall_impl; [exact Hnew |].
    intros m. apply improves_same_geometry. exact Hgeom.
Qed.

End Passes.

(** ** One soft break, six passes *)

Definition sample_d6_to_double (z : Z) : float :=
  PrimFloat.div (of_int z) 64%float.

(** Twenty-one glyphs one pixel wide, a letter and a space in turn. *)
Definition sample_line : list GlyphInfo :=
  (fun i => mkGlyphInfo (if Nat.even i then 97 else space)
                        (64 * Z.of_nat i) 0 64 0) <$> seq 0 21.

Definition soft_breaks (gl : list GlyphInfo) : nat :=
  length (filter (fun g => linebreak g = 1) gl).

Definition passes_of (r : option (list GlyphInfo * Z * nat * list move))
  : option nat :=
  match r with
  | Some (_, _, passes, _) => Some passes
  | None => None
  end.

(** The greedy wrap of the sample line at 20.5 pixels places one soft break
    and no other, and the balance loop makes six passes. *)
Lemma balance_passes_exceed_soft_breaks :
  soft_breaks (wrapped (wrap sample_d6_to_double 0 20.5%float sample_line))
    = 1%nat /\
  breaks (wrapped (wrap sample_d6_to_double 0 20.5%float sample_line))
    = 1%nat /\
  passes_of (wrap_lines_smart sample_d6_to_double 0 20.5%float 100 sample_line)
    = Some 6%nat /\
  ~ (6 <= 1)%nat.
Proof. repeat split; try (vm_compute; reflexivity). lia. Qed.

Lemma wrap_lines_smart_terminates_witness :
  exists gl' nl passes applied,
    wrap_lines_smart sample_d6_to_double 0 20.5%float 21 sample_line
      = Some (gl', nl, passes, applied) /\
    (passes <= break_weight
                 (wrapped (wrap sample_d6_to_double 0 20.5%float sample_line))
               + 1)%nat /\
    (break_weight (wrapped (wrap sample_d6_to_double 0 20.5%float sample_line))
     <= breaks (wrapped (wrap sample_d6_to_double 0 20.5%float sample_line))
        * length sample_line)%nat /\
    Forall (improves sample_d6_to_double sample_line) applied /\
    (0 <> 1 -> moves (pass sample_d6_to_double gl' nl) = []).
Proof.
  apply (wrap_lines_smart_terminates sample_d6_to_double 0 20.5%float
           sample_line 21).
  - reflexivity.
  - vm_compute. lia.
Defined.

(** ** [n_lines] counts the lines *)

Lemma breaks_set_linebreak gl : forall p v,
  (p < length gl)%nat ->
  (breaks (set_linebreak gl p v)
   + (if (linebreak (glyph_at gl p) =? 0)%Z then 0 else 1)
   = breaks gl + (if (v =? 0)%Z then 0 else 1))%nat.
Proof.
  unfold breaks, set_linebreak, glyph_at.
  induction gl as [|g gl IH]; intros p v Hlt; simpl in Hlt; [lia |].
  destruct p as [|p]; simpl.
  - rewrite !filter_cons. cbn [linebreak].
    destruct (Z.eqb_spec (linebreak g) 0), (Z.eqb_spec v 0),
      (decide (v <> 0)), (decide (linebreak g <> 0));
      simpl; try lia; congruence.
  - specialize (IH p v ltac:(lia)). rewrite !filter_cons.
    destruct (decide (linebreak g <> 0)); simpl; lia.
Qed.

Lemma breaks_none gl :
  Forall (fun g => linebreak g = 0) gl -> breaks gl = 0%nat.
Proof.
  unfold breaks. induction 1 as [| g gl Hg _ IH]; [reflexivity |].
  rewrite filter_cons. destruct (decide (linebreak g <> 0)); [tauto | exact IH].
Qed.

(** [n] is one more than the number of glyphs with a line break. *)
Definition counted (gl : list GlyphInfo) (n : Z) : Prop :=
  n = Z.of_nat (S (breaks gl)).

Section LineCount.

Variable d6_to_double : Z -> float.
Variable wrap_style : Z.
Variable max_text_width : float.

Abbreviation pass_step := (pass_step d6_to_double).
Abbreviation pass := (pass d6_to_double).
Abbreviation balance := (balance d6_to_double wrap_style).
Abbreviation wrap_step := (wrap_step d6_to_double wrap_style max_text_width).
Abbreviation wrap := (wrap d6_to_double wrap_style max_text_width).
Abbreviation wrap_lines_smart :=
  (wrap_lines_smart d6_to_double wrap_style max_text_width).
Abbreviation pass_post := (pass_post d6_to_double).

Lemma pass_step_counted gl0 nl0 st i :
  (0 < length gl0)%nat -> (i <= length gl0)%nat ->
  pass_inv (length gl0) i st -> pass_post gl0 nl0 st ->
  counted (glyphs st) (n_lines st) ->
  counted (glyphs (pass_step st i)) (n_lines (pass_step st i)).
Proof.
  intros Hn Hi [Hs3 Hs2 Hs1] [Hlen Hfirst _ _ _ _ _] Hcount.
  unfold Wrap.pass_step.
  destruct ((i =? length (glyphs st))%nat ||
            negb (linebreak (glyph_at (glyphs st) i) =? 0)) eqn:Hev;
    [| exact Hcount].
  assert (Hi1 : (1 <= i)%nat).
  { destruct i as [|i]; [| lia]. exfalso.
    rewrite Hlen, Hfirst in Hev. simpl in Hev.
    destruct (length gl0); [lia | discriminate]. }
  assert (Hb : (s3 st < i)%nat) by lia.
  cbn [s1 s2 s3 glyphs n_lines exit moves].
  destruct (s2 st) as [a |] eqn:Es2; [| exact Hcount].
  specialize (Hs2 a eq_refl).
  set (b := s3 st) in *.
  destruct (linebreak (glyph_at (glyphs st) b) =? 1) eqn:Hsoft;
    [| exact Hcount].
  apply Z.eqb_eq in Hsoft.
  pose proof (move_target (glyphs st) a b Hs2) as Htarget. cbn zeta in Htarget.
  set (w1 := scan_back is_space (glyphs st) a (pred b)) in *.
  set (w2 := scan_back (fun g => negb (is_space g)) (glyphs st) a w1) in *.
  set (e1 := scan_back is_space (glyphs st) a w2) in *.
  set (w := if is_space (glyph_at (glyphs st) w2) then S w2 else w2) in *.
  destruct Htarget as [Hw Hwb].
  destruct (PrimFloat.ltb _ _) eqn:Hguard; [| exact Hcount].
  assert (Hwlt : (w < b)%nat).
  { destruct (Nat.eq_dec w b) as [E | Hne]; [exfalso | lia].
    rewrite (Hwb E), E in Hguard. rewrite ltb_irrefl in Hguard.
    discriminate. }
  assert (Hbn : (b < length (glyphs st))%nat) by lia.
  cbn [glyphs n_lines]. unfold counted in *.
  destruct (Nat.eqb_spec w 0) as [E | Hne]; cbn [negb].
  - rewrite orb_true_r.
    pose proof (breaks_set_linebreak (glyphs st) b 0 Hbn) as H.
    rewrite Hsoft in H. simpl in H. lia.
  - rewrite orb_false_r.
    pose proof (breaks_set_linebreak (glyphs st) w 1 ltac:(lia)) as H1.
    pose proof (breaks_set_linebreak (set_linebreak (glyphs st) w 1) b 0) as H2.
    rewrite length_set_linebreak in H2. specialize (H2 Hbn).
    rewrite glyph_at_set_linebreak_ne in H2 by lia.
    rewrite Hsoft in H2. simpl in H1, H2.
    destruct (linebreak (glyph_at (glyphs st) w) =? 0); cbn [negb]; lia.
Qed.

Lemma pass_fold_counted gl0 nl0 :
  (0 < length gl0)%nat ->
  forall k i st,
    (i + k = S (length gl0))%nat ->
    pass_inv (length gl0) i st -> pass_post gl0 nl0 st ->
    counted (glyphs st) (n_lines st) ->
    counted (glyphs (fold_left pass_step (seq i k) st))
            (n_lines (fold_left pass_step (seq i k) st)).
Proof.
  intros Hn. induction k as [|k IH]; intros i st Hik Hinv Hpost Hcount; simpl.
  - exact Hcount.
  - pose proof (pass_step_counted gl0 nl0 st i Hn ltac:(lia) Hinv Hpost Hcount)
      as Hcount'.
    destruct (pass_step_post d6_to_double gl0 nl0 st i Hn ltac:(lia) Hinv Hpost)
      as [Hpost' Hinv'].
    destruct k as [|k]; [exact Hcount' |].
    apply IH; [lia | apply Hinv'; lia | exact Hpost' | exact Hcount'].
Qed.

Lemma pass_counted gl nl :
  linebreak (glyph_at gl 0) = 0 -> counted gl nl ->
  counted (glyphs (pass gl nl)) (n_lines (pass gl nl)).
Proof.
  intros Hfirst Hcount. unfold Wrap.pass.
  destruct gl as [|g gl]; [exact Hcount |].
  apply (pass_fold_counted (g :: gl) nl); simpl; try lia; try exact Hcount.
  - split; simpl; auto; discriminate.
  - split; simpl; auto; try lia; try tauto. apply same_geometry_refl.
Qed.

Lemma balance_counted : forall fuel gl nl passes applied gl' nl' passes' applied',
  linebreak (glyph_at gl 0) = 0 -> counted gl nl ->
  balance fuel gl nl passes applied = Some (gl', nl', passes', applied') ->
  counted gl' nl'.
Proof.
  induction fuel as [|fuel IH];
    intros gl nl passes applied gl' nl' passes' applied' Hfirst Hcount; simpl;
    destruct (wrap_style =? 1); try discriminate;
    try (intros [= <- <- _ _]; exact Hcount).
  pose proof (pass_counted gl nl Hfirst Hcount) as Hc.
  pose proof (pass_spec d6_to_double wrap_style gl nl Hfirst)
    as [_ Hfirst' _ _ _ _ _].
  destruct (exit (pass gl nl)).
  - intros [= <- <- _ _]. exact Hc.
  - apply IH; assumption.
Qed.

(** Before turn [i] of the greedy wrap: the line that is being filled
    starts at or before [i], the last space seen is on it, no glyph after
    its start carries a break yet, and [n_lines] counts the breaks. *)
Record wrap_count (n i : nat) (st : wrap_state) : Prop := mkWrapCount {
  wc_length : length (wrapped st) = n;
  wc_start : (line_start st <= i)%nat;
  wc_space : last_space st = -1 \/
             Z.of_nat (line_start st) <= last_space st < Z.of_nat i;
  wc_ahead : forall p, (line_start st < p)%nat ->
                       linebreak (glyph_at (wrapped st) p) = 0;
  wc_counted : counted (wrapped st) (lines st)
}.

Lemma wrap_step_count n st i :
  wrap_count n i st -> wrap_count n (S i) (wrap_step st i).
Proof.
  intros [Hlen Hstart Hsp Hahead Hcount]. unfold Wrap.wrap_step.
  set (cur := glyph_at (wrapped st) i).
  set (len := PrimFloat.sub _ _).
  assert (Hbreak : forall bt lead,
            bt <> 0 -> Z.of_nat (line_start st) < lead <= Z.of_nat (S i) ->
            lead < Z.of_nat (length (wrapped st)) ->
            wrap_count n (S i)
              (mkWrap (set_linebreak (wrapped st) (Z.to_nat lead) bt)
                      (lines st + 1) (-1) bt (Z.to_nat lead))).
  { intros bt lead Hbt Hlead Hin. split; cbn [wrapped lines last_space line_start].
    - rewrite length_set_linebreak. exact Hlen.
    - lia.
    - left. reflexivity.
    - intros p Hp. rewrite glyph_at_set_linebreak_ne by lia.
      apply Hahead. lia.
    - unfold counted in *.
      pose proof (breaks_set_linebreak (wrapped st) (Z.to_nat lead) bt
                    ltac:(lia)) as H.
      rewrite (Hahead (Z.to_nat lead)) in H by lia.
      destruct (Z.eqb_spec bt 0); [lia |]. simpl in H. lia. }
  assert (Hkeep : forall ls bt,
            ls = -1 \/ Z.of_nat (line_start st) <= ls < Z.of_nat (S i) ->
            wrap_count n (S i) (mkWrap (wrapped st) (lines st) ls bt
                                       (line_start st))).
  { intros ls bt Hls. split; cbn [wrapped lines last_space line_start]; auto. }
  destruct (symbol cur =? newline).
  - destruct (Z.eqb_spec (Z.of_nat i) (-1)) as [E | _]; [lia |]. cbn [negb].
    destruct (Z.ltb_spec (Z.of_nat i + 1) (Z.of_nat (length (wrapped st)))).
    + apply Hbreak; lia.
    + apply Hkeep. lia.
  - destruct (symbol cur =? space).
    + cbn [Z.eqb negb]. change (-1 =? -1) with true. cbn [negb].
      apply Hkeep. lia.
    + destruct (PrimFloat.leb max_text_width len && negb (wrap_style =? 2)).
      * destruct (Z.eqb_spec (last_space st) (-1)) as [E | Hne]; cbn [negb].
        -- apply Hkeep. lia.
        -- destruct (Z.ltb_spec (last_space st + 1)
                                (Z.of_nat (length (wrapped st)))).
           ++ apply Hbreak; lia.
           ++ apply Hkeep. lia.
      * change (-1 =? -1) with true. cbn [negb]. apply Hkeep. lia.
Qed.

Lemma wrap_counted gl :
  Forall (fun g => linebreak g = 0) gl ->
  counted (wrapped (wrap gl)) (lines (wrap gl)).
Proof.
  intros Hzero. unfold Wrap.wrap.
  assert (Hfold : forall k i st,
            wrap_count (length gl) i st ->
            wrap_count (length gl) (i + k)
                       (fold_left wrap_step (seq i k) st)).
  { induction k as [|k IH]; intros i st Hst; simpl.
    - rewrite Nat.add_0_r. exact Hst.
    - replace (i + S k)%nat with (S i + k)%nat by lia.
      apply IH, wrap_step_count, Hst. }
  apply (Hfold (length gl) 0%nat). split; cbn [wrapped lines last_space line_start].
  - reflexivity.
  - lia.
  - left. reflexivity.
  - intros p _. unfold glyph_at.
    destruct (nth_in_or_default p gl (mkGlyphInfo 0 0 0 0 0)) as [Hin | ->];
      [| reflexivity].
    rewrite Forall_forall in Hzero. apply Hzero.
    apply list_elem_of_In. exact Hin.
  - unfold counted. rewrite (breaks_none gl Hzero). reflexivity.
Qed.

(** The [assert (text_info->n_lines >= 1)] of [wrap_lines_smart] holds.
    On glyphs that come out of parsing (no [linebreak] set), once the
    balance loop has ended [n_lines] is one more than the number of
    glyphs that carry a line break, moves that merged two lines
    included. *)
Theorem wrap_lines_smart_counts_lines gl (fuel : nat) :
  Forall (fun g => linebreak g = 0) gl ->
  (break_weight (wrapped (wrap gl)) < fuel)%nat ->
  exists gl' nl passes applied,
    wrap_lines_smart fuel gl = Some (gl', nl, passes, applied) /\
    nl = Z.of_nat (S (breaks gl')) /\ 1 <= nl.
Proof.
  intros Hzero Hfuel.
  assert (Hfirst : linebreak (glyph_at gl 0) = 0).
  { unfold glyph_at.
    destruct (nth_in_or_default 0 gl (mkGlyphInfo 0 0 0 0 0)) as [Hin | ->];
      [| reflexivity].
    rewrite Forall_forall in Hzero. apply Hzero, list_elem_of_In, Hin. }
  pose proof (wrap_spec d6_to_double wrap_style max_text_width gl Hfirst)
    as [_ Hfirst' _ _].
  destruct (balance_spec d6_to_double wrap_style fuel (wrapped (wrap gl))
              (lines (wrap gl)) 0 [] Hfirst' Hfuel)
    as (gl' & nl' & passes & new & Hrun & _).
  exists gl', nl', passes, new. split; [exact Hrun |].
  pose proof (balance_counted fuel _ _ _ _ _ _ _ _ Hfirst'
                (wrap_counted gl Hzero) Hrun) as Hc.
  unfold counted in Hc. split; [exact Hc | lia].
Qed.

End LineCount.

Lemma wrap_lines_smart_counts_lines_witness :
  exists gl' nl passes applied,
    wrap_lines_smart sample_d6_to_double 0 20.5%float 21 sample_line
    = Some (gl', nl, passes, applied) /\
    nl = Z.of_nat (S (breaks gl')) /\ 1 <= nl.
Proof.
  apply (wrap_lines_smart_counts_lines sample_d6_to_double 0 20.5%float
           sample_line 21).
  - vm_compute. repeat constructor.
  - vm_compute. lia.
Defined.

(** ** Wrap style 2: forced breaks only *)

Section Forced.

Variable d6_to_double : Z -> float.
Variable max_text_width : float.

Abbreviation pass_step := (pass_step d6_to_double).
Abbreviation pass := (pass d6_to_double).
Abbreviation balance := (balance d6_to_double 2).
Abbreviation wrap_step := (wrap_step d6_to_double 2 max_text_width).
Abbreviation wrap := (wrap d6_to_double 2 max_text_width).
Abbreviation wrap_lines_smart := (wrap_lines_smart d6_to_double 2 max_text_width).

(** The break a glyph carries when only the line feeds before position
    [i] have been seen. *)
Definition forced_break (gl : list GlyphInfo) (i p : nat) : Z :=
  if (0 <? p)%nat && (p <=? i)%nat && (p <? length gl)%nat &&
     (symbol (glyph_at gl (pred p)) =? newline)
  then 2 else 0.

Record forced (gl0 : list GlyphInfo) (i : nat) (st : wrap_state) : Prop :=
  mkForced {
  fo_length : length (wrapped st) = length gl0;
  fo_geometry : same_geometry gl0 (wrapped st);
  fo_breaks : forall p, linebreak (glyph_at (wrapped st) p)
                        = forced_break gl0 i p
}.

Lemma wrap_step_forced gl0 st i :
  (i < length gl0)%nat -> forced gl0 i st -> forced gl0 (S i) (wrap_step st i).
Proof.
  intros Hi [Hlen Hgeom Hbr]. unfold Wrap.wrap_step.
  assert (Hsym : symbol (glyph_at (wrapped st) i) = symbol (glyph_at gl0 i)).
  { pose proof (Hgeom i) as H. unfold geometry in H. congruence. }
  rewrite Hsym. change (negb (2 =? 2)) with false. rewrite andb_false_r.
  assert (Hkeep : forall ls bt,
            (symbol (glyph_at gl0 i) =? newline) = false \/
            ~ (S i < length gl0)%nat ->
            forced gl0 (S i)
                   (mkWrap (wrapped st) (lines st) ls bt (line_start st))).
  { intros ls bt Hno. split; cbn [wrapped]; auto.
    intros p. rewrite Hbr. unfold forced_break.
    destruct (Nat.eq_dec p (S i)) as [-> | Hp].
    - cbn [pred]. destruct Hno as [-> | Hout].
      + rewrite !andb_false_r. reflexivity.
      + replace (S i <? length gl0)%nat with false
          by (symmetry; apply Nat.ltb_ge; lia).
        rewrite !andb_false_r. reflexivity.
    - replace (p <=? S i)%nat with (p <=? i)%nat; [reflexivity |].
      destruct (Nat.leb_spec p i), (Nat.leb_spec p (S i)); try reflexivity; lia. }
  destruct (symbol (glyph_at gl0 i) =? newline) eqn:Hnl.
  - destruct (Z.eqb_spec (Z.of_nat i) (-1)) as [E | _]; [lia |]. cbn [negb].
    destruct (Z.ltb_spec (Z.of_nat i + 1) (Z.of_nat (length (wrapped st))))
      as [Hin | Hout].
    + replace (Z.to_nat (Z.of_nat i + 1)) with (S i) by lia.
      split; cbn [wrapped].
      * rewrite length_set_linebreak. exact Hlen.
      * eapply same_geometry_trans;
          [exact Hgeom | apply same_geometry_set_linebreak].
      * intros p. unfold forced_break.
        destruct (Nat.eq_dec p (S i)) as [-> | Hp].
        -- rewrite glyph_at_set_linebreak_eq by lia. cbn [linebreak pred].
           rewrite Hnl, Nat.leb_refl.
           replace (S i <? length gl0)%nat with true
             by (symmetry; apply Nat.ltb_lt; lia).
           reflexivity.
        -- rewrite glyph_at_set_linebreak_ne by lia. rewrite Hbr.
           unfold forced_break.
           replace (p <=? S i)%nat with (p <=? i)%nat; [reflexivity |].
           destruct (Nat.leb_spec p i), (Nat.leb_spec p (S i));
             try reflexivity; lia.
    + apply Hkeep. right. lia.
  - destruct (symbol (glyph_at gl0 i) =? space);
      change (-1 =? -1) with true; cbn [negb]; apply Hkeep; left; reflexivity.
Qed.

Lemma wrap_forced gl :
  Forall (fun g => linebreak g = 0) gl -> forced gl (length gl) (wrap gl).
Proof.
  intros Hzero. unfold Wrap.wrap.
  assert (Hfold : forall k i st,
            (i + k = length gl)%nat -> forced gl i st ->
            forced gl (length gl) (fold_left wrap_step (seq i k) st)).
  { induction k as [|k IH]; intros i st Hik Hst; simpl.
    - replace (length gl) with i by lia. exact Hst.
    - apply IH; [lia |]. apply wrap_step_forced; [lia | exact Hst]. }
  apply (Hfold (length gl) 0%nat); [lia |]. split; cbn [wrapped].
  - reflexivity.
  - apply same_geometry_refl.
  - intros p. unfold forced_break.
    replace ((0 <? p)%nat && (p <=? 0)%nat) with false
      by (destruct p; reflexivity).
    cbn [andb]. unfold glyph_at.
    destruct (nth_in_or_default p gl (mkGlyphInfo 0 0 0 0 0)) as [Hin | ->];
      [| reflexivity].
    rewrite Forall_forall in Hzero. apply Hzero, list_elem_of_In, Hin.
Qed.

(** A pass over glyphs that carry no soft break moves nothing. *)
Lemma pass_no_soft gl nl :
  (forall p, linebreak (glyph_at gl p) <> 1) ->
  glyphs (pass gl nl) = gl /\ n_lines (pass gl nl) = nl /\
  exit (pass gl nl) = true /\ moves (pass gl nl) = [].
Proof.
  intros Hhard. unfold Wrap.pass.
  generalize (seq 0 (S (length gl))). intros l.
  assert (H : forall st, glyphs st = gl /\ n_lines st = nl /\
                         exit st = true /\ moves st = [] ->
                         glyphs (fold_left pass_step l st) = gl /\
                         n_lines (fold_left pass_step l st) = nl /\
                         exit (fold_left pass_step l st) = true /\
                         moves (fold_left pass_step l st) = []).
  { induction l as [|i l IH]; intros st Hst; simpl; [exact Hst |].
    apply IH. destruct Hst as (Hg & Hn & He & Hm). unfold Wrap.pass_step.
    destruct (_ || _); [| auto].
    cbn [s1 s2 s3 glyphs n_lines exit moves].
    destruct (s2 st) as [a |]; [| auto].
    destruct (Z.eqb_spec (linebreak (glyph_at (glyphs st) (s3 st))) 1)
      as [E | _]; [| auto].
    rewrite Hg in E. destruct (Hhard _ E). }
  apply H. auto.
Qed.

(** With wrap style 2 (no word wrapping) [wrap_lines_smart] breaks lines
    at line feeds only.  On glyphs that come out of parsing, a glyph ends
    with [linebreak == 2] when the glyph before it is a line feed and with
    no break otherwise, whatever the width of the text; no symbol is
    changed; and the balance loop makes a single pass that moves
    nothing. *)
Theorem wrap_lines_smart_forced_only gl (fuel : nat) :
  Forall (fun g => linebreak g = 0) gl ->
  exists gl' nl,
    wrap_lines_smart (S fuel) gl = Some (gl', nl, 1%nat, []) /\
    length gl' = length gl /\
    forall p, (p < length gl)%nat ->
      symbol (glyph_at gl' p) = symbol (glyph_at gl p) /\
      linebreak (glyph_at gl' p)
      = if (0 <? p)%nat && (symbol (glyph_at gl (pred p)) =? newline)
        then 2 else 0.
Proof.
  intros Hzero. destruct (wrap_forced gl Hzero) as [Hlen Hgeom Hbr].
  exists (wrapped (wrap gl)), (lines (wrap gl)).
  split; [| split; [exact Hlen |]].
  - unfold Wrap.wrap_lines_smart. cbn [Wrap.balance].
    change (2 =? 1) with false. cbv iota.
    destruct (pass_no_soft (wrapped (wrap gl)) (lines (wrap gl)))
      as (Hg & Hn & He & Hm).
    { intros p. rewrite Hbr. unfold forced_break.
      destruct (_ && _); discriminate. }
    rewrite He, Hg, Hn, Hm. reflexivity.
  - intros p Hp. split.
    + pose proof (Hgeom p) as H. unfold geometry in H. congruence.
    + rewrite Hbr. unfold forced_break.
      replace (p <=? length gl)%nat with true
        by (symmetry; apply Nat.leb_le; lia).
      replace (p <? length gl)%nat with true
        by (symmetry; apply Nat.ltb_lt; lia).
      rewrite !andb_true_r. reflexivity.
Qed.

End Forced.

Lemma wrap_lines_smart_forced_only_witness :
  exists gl' nl,
    wrap_lines_smart sample_d6_to_double 2 20.5%float 1 sample_line
    = Some (gl', nl, 1%nat, []) /\
    length gl' = length sample_line /\
    forall p, (p < length sample_line)%nat ->
      symbol (glyph_at gl' p) = symbol (glyph_at sample_line p) /\
      linebreak (glyph_at gl' p)
      = if (0 <? p)%nat && (symbol (glyph_at sample_line (pred p)) =? newline)
        then 2 else 0.
Proof.
  apply (wrap_lines_smart_forced_only sample_d6_to_double 20.5%float
           sample_line 0).
  vm_compute. repeat constructor.
Defined.

(** ** Lines are broken between words *)

Lemma scan_back_stops test gl a : forall w,
  (a <= w)%nat ->
  scan_back test gl a w = a \/
  test (glyph_at gl (scan_back test gl a w)) = false.
Proof.
  induction w as [|w IH]; intros Ha; simpl.
  - left. lia.
  - destruct (Nat.ltb_spec a (S w)) as [Hlt | Hge]; cbn [andb].
    + destruct (test (glyph_at gl (S w))) eqn:Ht.
      * apply IH. lia.
      * right. exact Ht.
    + left. lia.
Qed.

(** The glyph before position [q] is a space or a line feed. *)
Definition after_blank (gl : list GlyphInfo) (q : nat) : Prop :=
  symbol (glyph_at gl (pred q)) = space \/
  symbol (glyph_at gl (pred q)) = newline.

(** Every line break of [gl'] is on a glyph that follows a space or a line
    feed of [gl]. *)
Definition between_words (gl gl' : list GlyphInfo) : Prop :=
  forall p, linebreak (glyph_at gl' p) <> 0 ->
            (1 <= p)%nat /\ after_blank gl p.

Section Words.

Variable d6_to_double : Z -> float.
Variable wrap_style : Z.
Variable max_text_width : float.

Abbreviation pass_step := (pass_step d6_to_double).
Abbreviation pass := (pass d6_to_double).
Abbreviation balance := (balance d6_to_double wrap_style).
Abbreviation wrap_step := (wrap_step d6_to_double wrap_style max_text_width).
Abbreviation wrap := (wrap d6_to_double wrap_style max_text_width).
Abbreviation wrap_lines_smart :=
  (wrap_lines_smart d6_to_double wrap_style max_text_width).
Abbreviation pass_post := (pass_post d6_to_double).

(** The greedy wrap: [last_space] is the index of a space, and the breaks
    placed so far are between words. *)
Record wrap_words (gl0 : list GlyphInfo) (st : wrap_state) : Prop :=
  mkWrapWords {
  ww_space : last_space st = -1 \/
             (0 <= last_space st /\
              symbol (glyph_at gl0 (Z.to_nat (last_space st))) = space);
  ww_breaks : between_words gl0 (wrapped st)
}.

Lemma wrap_step_words gl0 st i :
  wrap_inv gl0 st -> wrap_words gl0 st -> wrap_words gl0 (wrap_step st i).
Proof.
  intros [Hlen _ Hgeom _] [Hsp Hbr]. unfold Wrap.wrap_step.
  assert (Hsym : symbol (glyph_at (wrapped st) i) = symbol (glyph_at gl0 i)).
  { pose proof (Hgeom i) as H. unfold geometry in H. congruence. }
  rewrite Hsym.
  set (len := PrimFloat.sub _ _).
  assert (Hbreak : forall bt lead,
            0 <= lead ->
            (symbol (glyph_at gl0 (Z.to_nat lead)) = space \/
             symbol (glyph_at gl0 (Z.to_nat lead)) = newline) ->
            wrap_words gl0
              (mkWrap (set_linebreak (wrapped st) (Z.to_nat (lead + 1)) bt)
                      (lines st + 1) (-1) bt (Z.to_nat (lead + 1)))).
  { intros bt lead Hlead Hblank. split; cbn [wrapped last_space].
    - left. reflexivity.
    - intros p Hp.
      destruct (Nat.eq_dec p (Z.to_nat (lead + 1))) as [-> | Hne].
      + split; [lia |]. unfold after_blank.
        replace (pred (Z.to_nat (lead + 1))) with (Z.to_nat lead) by lia.
        exact Hblank.
      + rewrite glyph_at_set_linebreak_ne in Hp by lia. apply Hbr, Hp. }
  assert (Hkeep : forall ls bt,
            ls = -1 \/ (0 <= ls /\ symbol (glyph_at gl0 (Z.to_nat ls)) = space) ->
            wrap_words gl0 (mkWrap (wrapped st) (lines st) ls bt
                                   (line_start st))).
  { intros ls bt Hls. split; cbn [wrapped last_space]; auto. }
  destruct (Z.eqb_spec (symbol (glyph_at gl0 i)) newline) as [Hnl | Hnnl].
  - destruct (Z.eqb_spec (Z.of_nat i) (-1)) as [E | _]; [lia |]. cbn [negb].
    destruct (_ <? _).
    + apply Hbreak; [lia |]. rewrite Nat2Z.id. auto.
    + apply Hkeep, Hsp.
  - destruct (Z.eqb_spec (symbol (glyph_at gl0 i)) space) as [Hs | Hns].
    + change (-1 =? -1) with true. cbn [negb]. apply Hkeep. right.
      rewrite Nat2Z.id. split; [lia | exact Hs].
    + destruct (PrimFloat.leb max_text_width len && negb (wrap_style =? 2)).
      * destruct (Z.eqb_spec (last_space st) (-1)) as [E | Hne]; cbn [negb].
        -- apply Hkeep, Hsp.
        -- destruct Hsp as [E | [Hpos Hspace]]; [contradiction |].
           destruct (_ <? _).
           ++ apply Hbreak; auto.
           ++ apply Hkeep. auto.
      * change (-1 =? -1) with true. cbn [negb]. apply Hkeep, Hsp.
Qed.

Lemma wrap_words_spec gl :
  Forall (fun g => linebreak g = 0) gl ->
  between_words gl (wrapped (wrap gl)).
Proof.
  intros Hzero.
  assert (Hnone : forall p, linebreak (glyph_at gl p) = 0).
  { intros p. unfold glyph_at.
    destruct (nth_in_or_default p gl (mkGlyphInfo 0 0 0 0 0)) as [Hin | ->];
      [| reflexivity].
    rewrite Forall_forall in Hzero. apply Hzero, list_elem_of_In, Hin. }
  unfold Wrap.wrap.
  assert (Hfold : forall l st,
            wrap_inv gl st -> wrap_words gl st ->
            wrap_words gl (fold_left wrap_step l st)).
  { induction l as [|i l IH]; intros st Hinv Hw; simpl; [exact Hw |].
    apply IH; [apply wrap_step_inv, Hinv | apply wrap_step_words; assumption]. }
  apply Hfold.
  - split; cbn [wrapped last_space]; auto; try lia. apply same_geometry_refl.
  - split; cbn [wrapped last_space]; [left; reflexivity |].
    intros p Hp. rewrite Hnone in Hp. contradiction.
Qed.

(** A pass of the balance loop: the glyphs [s1], [s2] and [s3] point to
    are at the start of the text or follow a blank ([s3] may also be the
    end of the text), and so does every break. *)
Record pass_words (gl0 : list GlyphInfo) (st : pass_state) : Prop :=
  mkPassWords {
  pw_s3 : s3 st = 0%nat \/ after_blank gl0 (s3 st) \/ s3 st = length gl0;
  pw_s2 : forall b, s2 st = Some b -> b = 0%nat \/ after_blank gl0 b;
  pw_s1 : forall a, s1 st = Some a -> a = 0%nat \/ after_blank gl0 a;
  pw_breaks : between_words gl0 (glyphs st)
}.

Lemma pass_step_words gl0 gl1 nl1 st i :
  (0 < length gl1)%nat -> (i <= length gl1)%nat ->
  length gl1 = length gl0 -> same_geometry gl0 gl1 ->
  pass_inv (length gl1) i st -> pass_post gl1 nl1 st ->
  pass_words gl0 st -> pass_words gl0 (pass_step st i).
Proof.
  intros Hn Hi Hlen0 Hgeom0 [Hs3 Hs2 Hs1] [Hlen Hfirst Hgeom _ _ _ _]
         [Hw3 Hw2 Hw1 Hbr].
  unfold Wrap.pass_step.
  destruct ((i =? length (glyphs st))%nat ||
            negb (linebreak (glyph_at (glyphs st) i) =? 0)) eqn:Hev;
    [| split; assumption].
  assert (Hi1 : (1 <= i)%nat).
  { destruct i as [|i]; [| lia]. exfalso.
    rewrite Hlen, Hfirst in Hev. simpl in Hev.
    destruct (length gl1); [lia | discriminate]. }
  assert (Hb : (s3 st < i)%nat) by lia.
  assert (Hi3 : i = 0%nat \/ after_blank gl0 i \/ i = length gl0).
  { apply orb_true_iff in Hev as [Hev | Hev].
    - apply Nat.eqb_eq in Hev. right; right. lia.
    - right; left. apply Hbr.
      destruct (Z.eqb_spec (linebreak (glyph_at (glyphs st) i)) 0);
        [discriminate | assumption]. }
  assert (Hold3 : s3 st = 0%nat \/ after_blank gl0 (s3 st)).
  { destruct Hw3 as [H | [H | H]]; auto. lia. }
  cbn [s1 s2 s3 glyphs n_lines exit moves].
  assert (Hkeep :
    pass_words gl0
      (mkPass (glyphs st) (n_lines st) (exit st) (s2 st) (Some (s3 st)) i
              (moves st))).
  { split; cbn [s1 s2 s3 glyphs]; auto. intros b [= <-]. exact Hold3. }
  destruct (s2 st) as [a |] eqn:Es2; [| exact Hkeep].
  specialize (Hs2 a eq_refl). specialize (Hw2 a eq_refl).
  set (b := s3 st) in *.
  destruct (linebreak (glyph_at (glyphs st) b) =? 1) eqn:Hsoft;
    [| exact Hkeep].
  apply Z.eqb_eq in Hsoft.
  pose proof (move_target (glyphs st) a b Hs2) as Htarget. cbn zeta in Htarget.
  pose proof (scan_back_stops (fun g => negb (is_space g)) (glyphs st) a
                (scan_back is_space (glyphs st) a (pred b))
                ltac:(apply scan_back_ge; lia)) as Hstop.
  set (w1 := scan_back is_space (glyphs st) a (pred b)) in *.
  set (w2 := scan_back (fun g => negb (is_space g)) (glyphs st) a w1) in *.
  set (e1 := scan_back is_space (glyphs st) a w2) in *.
  set (w := if is_space (glyph_at (glyphs st) w2) then S w2 else w2) in *.
  destruct Htarget as [Hw Hwb].
  destruct (PrimFloat.ltb _ _) eqn:Hguard; [| exact Hkeep].
  assert (Hwlt : (w < b)%nat).
  { destruct (Nat.eq_dec w b) as [E | Hne]; [exfalso | lia].
    rewrite (Hwb E), E in Hguard. rewrite ltb_irrefl in Hguard.
    discriminate. }
  assert (Hbn : (b < length (glyphs st))%nat) by lia.
  assert (Hwgood : w = 0%nat \/ after_blank gl0 w).
  { unfold w in *. destruct (is_space (glyph_at (glyphs st) w2)) eqn:Hsp.
    - right. unfold after_blank. cbn [pred]. left.
      unfold is_space in Hsp. apply Z.eqb_eq in Hsp.
      pose proof (Hgeom w2) as H1. pose proof (Hgeom0 w2) as H2.
      unfold geometry in H1, H2. congruence.
    - destruct Hstop as [E | E]; [rewrite E; exact Hw2 |].
      discriminate E. }
  split; cbn [s1 s2 s3 glyphs]; auto.
  - intros b' [= <-]. exact Hold3.
  - intros a' [= <-]. exact Hw2.
  - intros p Hp.
    destruct (Nat.eq_dec p b) as [-> | Hpb].
    { exfalso. apply Hp. rewrite glyph_at_set_linebreak_eq; [reflexivity |].
      destruct (negb (w =? 0)%nat); [rewrite length_set_linebreak |]; exact Hbn. }
    rewrite glyph_at_set_linebreak_ne in Hp by lia.
    destruct (Nat.eqb_spec w 0) as [E | Hw0]; cbn [negb] in Hp;
      [apply Hbr, Hp |].
    destruct (Nat.eq_dec p w) as [-> | Hpw].
    + split; [lia |]. destruct Hwgood; [lia | assumption].
    + rewrite glyph_at_set_linebreak_ne in Hp by lia. apply Hbr, Hp.
Qed.

Lemma pass_fold_words gl0 gl1 nl1 :
  (0 < length gl1)%nat -> length gl1 = length gl0 -> same_geometry gl0 gl1 ->
  forall k i st,
    (i + k = S (length gl1))%nat ->
    pass_inv (length gl1) i st -> pass_post gl1 nl1 st ->
    pass_words gl0 st ->
    pass_words gl0 (fold_left pass_step (seq i k) st).
Proof.
  intros Hn Hlen0 Hgeom0. induction k as [|k IH];
    intros i st Hik Hinv Hpost Hw; simpl; [exact Hw |].
  pose proof (pass_step_words gl0 gl1 nl1 st i Hn ltac:(lia) Hlen0 Hgeom0
                Hinv Hpost Hw) as Hw'.
  destruct (pass_step_post d6_to_double gl1 nl1 st i Hn ltac:(lia) Hinv Hpost)
    as [Hpost' Hinv'].
  destruct k as [|k]; [exact Hw' |].
  apply IH; [lia | apply Hinv'; lia | exact Hpost' | exact Hw'].
Qed.

Lemma pass_words_spec gl0 gl nl :
  length gl = length gl0 -> same_geometry gl0 gl ->
  linebreak (glyph_at gl 0) = 0 -> between_words gl0 gl ->
  between_words gl0 (glyphs (pass gl nl)).
Proof.
  intros Hlen0 Hgeom0 Hfirst Hbr. unfold Wrap.pass.
  destruct gl as [|g gl]; [exact Hbr |].
  apply (pass_fold_words gl0 (g :: gl) nl); simpl; try lia; auto.
  - split; simpl; auto; discriminate.
  - split; simpl; auto; try lia; try tauto. apply same_geometry_refl.
  - split; simpl; auto; discriminate.
Qed.

Lemma balance_words gl0 : forall fuel gl nl passes applied gl' nl' passes' applied',
  length gl = length gl0 -> same_geometry gl0 gl ->
  linebreak (glyph_at gl 0) = 0 -> between_words gl0 gl ->
  balance fuel gl nl passes applied = Some (gl', nl', passes', applied') ->
  between_words gl0 gl'.
Proof.
  induction fuel as [|fuel IH];
    intros gl nl passes applied gl' nl' passes' applied' Hlen0 Hgeom0 Hfirst Hbr;
    simpl; destruct (wrap_style =? 1); try discriminate;
    try (intros [= <- _ _ _]; exact Hbr).
  pose proof (pass_words_spec gl0 gl nl Hlen0 Hgeom0 Hfirst Hbr) as Hw.
  pose proof (pass_spec d6_to_double wrap_style gl nl Hfirst)
    as [Hlen' Hfirst' Hgeom' _ _ _ _].
  destruct (exit (pass gl nl)).
  - intros [= <- _ _ _]. exact Hw.
  - apply IH; auto; [congruence |].
    eapply same_geometry_trans; eassumption.
Qed.

(** [wrap_lines_smart] never breaks a line inside a word.  On glyphs that
    come out of parsing, when the balance loop has ended every glyph that
    carries a line break, hard or soft, placed by the greedy wrap or moved
    by the balance loop, comes right after a space or a line feed; the
    first glyph carries none. *)
Theorem wrap_lines_smart_between_words gl (fuel : nat) :
  Forall (fun g => linebreak g = 0) gl ->
  (break_weight (wrapped (wrap gl)) < fuel)%nat ->
  exists gl' nl passes applied,
    wrap_lines_smart fuel gl = Some (gl', nl, passes, applied) /\
    forall p, linebreak (glyph_at gl' p) <> 0 ->
              (1 <= p)%nat /\
              (symbol (glyph_at gl (pred p)) = space \/
               symbol (glyph_at gl (pred p)) = newline).
Proof.
  intros Hzero Hfuel.
  assert (Hfirst : linebreak (glyph_at gl 0) = 0).
  { unfold glyph_at.
    destruct (nth_in_or_default 0 gl (mkGlyphInfo 0 0 0 0 0)) as [Hin | ->];
      [| reflexivity].
    rewrite Forall_forall in Hzero. apply Hzero, list_elem_of_In, Hin. }
  pose proof (wrap_spec d6_to_double wrap_style max_text_width gl Hfirst)
    as [Hlen Hfirst' Hgeom _].
  destruct (balance_spec d6_to_double wrap_style fuel (wrapped (wrap gl))
              (lines (wrap gl)) 0 [] Hfirst' Hfuel)
    as (gl' & nl' & passes & new & Hrun & _).
  exists gl', nl', passes, new. split; [exact Hrun |].
  apply (balance_words gl fuel _ _ _ _ _ _ _ _ Hlen Hgeom Hfirst'
           (wrap_words_spec gl Hzero) Hrun).
Qed.

End Words.

Lemma wrap_lines_smart_between_words_witness :
  exists gl' nl passes applied,
    wrap_lines_smart sample_d6_to_double 0 20.5%float 21 sample_line
    = Some (gl', nl, passes, applied) /\
    forall p, linebreak (glyph_at gl' p) <> 0 ->
              (1 <= p)%nat /\
              (symbol (glyph_at sample_line (pred p)) = space \/
               symbol (glyph_at sample_line (pred p)) = newline).
Proof.
  apply (wrap_lines_smart_between_words sample_d6_to_double 0 20.5%float
           sample_line 21).
  - vm_compute. repeat constructor.
  - vm_compute. lia.
Defined.

End Wrap.

(** * Trimming whitespace *)

Module Trim.

(** [GlyphInfo]: the fields [trim_whitespace] reads and writes. *)
Record GlyphInfo : Type := mkGlyphInfo {
  symbol : Z;
  linebreak : Z;
  skip : bool;
  is_trimmed_whitespace : bool;
  starts_new_run : bool
}.

Definition space : Z := 32.
Definition newline : Z := 10.

(** [IS_WHITESPACE(x)]:
    [((x->symbol == ' ' || x->symbol == '\n') && !x->linebreak)]. *)
Definition IS_WHITESPACE (x : GlyphInfo) : bool :=
  ((symbol x =? space) || (symbol x =? newline)) && (linebreak x =? 0).

(** [cur->skip = true; cur->is_trimmed_whitespace = true;] *)
Definition mark (cur : GlyphInfo) : GlyphInfo :=
  mkGlyphInfo (symbol cur) (linebreak cur) true true (starts_new_run cur).

(** [cur->starts_new_run = true;] *)
Definition open_run (cur : GlyphInfo) : GlyphInfo :=
  mkGlyphInfo (symbol cur) (linebreak cur) (skip cur)
              (is_trimmed_whitespace cur) true.

(** [if (cur < ti->glyphs + ti->length) cur->starts_new_run = true;] with
    [cur = ti->glyphs + j]. *)
Definition set_start (glyphs : list GlyphInfo) (j : nat) : list GlyphInfo :=
  match glyphs !! j with
  | Some cur => <[j := open_run cur]> glyphs
  | None => glyphs
  end.

(** [while (j && IS_WHITESPACE(cur)) { mark; cur = ti->glyphs + --j; }]
    with [cur = ti->glyphs + j] and [j >= 0]. *)
Fixpoint trim_back (glyphs : list GlyphInfo) (j : nat)
  : outcome (list GlyphInfo) :=
  match j with
  | O => Ret glyphs
  | S j' =>
      match glyphs !! j with
      | None => Fault
      | Some cur =>
          if IS_WHITESPACE cur then trim_back (<[j := mark cur]> glyphs) j'
          else Ret glyphs
      end
  end.

(** The same loop entered with any [j]: a negative [j] is not zero, so
    [cur], which points before the array, is read. *)
Definition trim_before (glyphs : list GlyphInfo) (j : Z)
  : outcome (list GlyphInfo) :=
  if j <? 0 then Fault else trim_back glyphs (Z.to_nat j).

(** The glyphs from [cur] on in
    [while (j < ti->length && IS_WHITESPACE(cur)) { mark; cur = ti->glyphs + ++j; }],
    and the number of turns. *)
Fixpoint mark_run (rest : list GlyphInfo) : list GlyphInfo * nat :=
  match rest with
  | [] => ([], 0%nat)
  | cur :: rest' =>
      if IS_WHITESPACE cur then
        let '(marked, n) := mark_run rest' in (mark cur :: marked, S n)
      else (rest, 0%nat)
  end.

(** That loop with [cur = ti->glyphs + j]: the array and [j] after it. *)
Definition trim_ahead (glyphs : list GlyphInfo) (j : nat)
  : list GlyphInfo * nat :=
  let '(marked, n) := mark_run (drop j glyphs) in
  (take j glyphs ++ marked, (j + n)%nat).

(** Body of [for (i = 0; i < ti->length; ++i)].  The state is the array
    and the value [i] has when the next turn starts: the body sets
    [i = j - 1], so the turns before [j] are not made. *)
Definition trim_step (acc : outcome (list GlyphInfo * nat)) (i : nat)
  : outcome (list GlyphInfo * nat) :=
  obind acc (fun '(glyphs, resume) =>
    if (i <? resume)%nat then Ret (glyphs, resume)
    else
      match glyphs !! i with
      | None => Fault
      | Some cur =>
          if negb (linebreak cur =? 0) then
            obind (trim_before glyphs (Z.of_nat i - 1)) (fun glyphs =>
              match glyphs !! i with
              | None => Fault
              | Some cur =>
                  if (symbol cur =? space) || (symbol cur =? newline) then
                    let glyphs := <[i := mark cur]> glyphs in
                    let '(glyphs, j) := trim_ahead glyphs (S i) in
                    Ret (set_start glyphs j, j)
                  else Ret (set_start glyphs i, S i)
              end)
          else Ret (glyphs, S i)
      end).

(** [trim_whitespace] from [// Mark leading whitespace] on. *)
Definition trim_leading_and_breaks (glyphs : list GlyphInfo)
  : outcome (list GlyphInfo) :=
  let '(glyphs, i) := trim_ahead glyphs 0 in
  let glyphs := set_start glyphs i in
  obind (fold_left trim_step (seq 0 (length glyphs)) (Ret (glyphs, 0%nat)))
        (fun '(glyphs, _) => Ret glyphs).

(** [trim_whitespace] on [ti->glyphs[0 .. ti->length - 1]]: the trailing
    spaces first, with [i = ti->length - 1]. *)
Definition trim_whitespace (glyphs : list GlyphInfo)
  : outcome (list GlyphInfo) :=
  obind (trim_before glyphs (Z.of_nat (length glyphs) - 1))
        trim_leading_and_breaks.

(** ** What trimming can change *)

(** [b] is [a] with flags raised: no flag is cleared, and [skip] and
    [is_trimmed_whitespace] are raised only on a space or a line feed. *)
Record grown (a b : GlyphInfo) : Prop := mkGrown {
  gr_symbol : symbol b = symbol a;
  gr_linebreak : linebreak b = linebreak a;
  gr_skip : skip a = true -> skip b = true;
  gr_trimmed : is_trimmed_whitespace a = true ->
               is_trimmed_whitespace b = true;
  gr_run : starts_new_run a = true -> starts_new_run b = true;
  gr_white : skip b = true ->
             skip a = true \/ symbol a = space \/ symbol a = newline;
  gr_white' : is_trimmed_whitespace b = true ->
              is_trimmed_whitespace a = true \/
              symbol a = space \/ symbol a = newline
}.

Lemma grown_refl a : grown a a.
Proof. split; auto. Qed.

Lemma grown_trans a b c : grown a b -> grown b c -> grown a c.
Proof.
  intros [H1 H2 H3 H4 H5 H6 H7] [G1 G2 G3 G4 G5 G6 G7].
  split; try congruence; auto.
  - intros Hc. destruct (G6 Hc) as [Hb | Hw]; [auto |].
    right. rewrite <- H1. exact Hw.
  - intros Hc. destruct (G7 Hc) as [Hb | Hw]; [auto |].
    right. rewrite <- H1. exact Hw.
Qed.

Lemma grown_mark cur : IS_WHITESPACE cur = true \/
                       symbol cur = space \/ symbol cur = newline ->
                       grown cur (mark cur).
Proof.
  intros Hw.
  assert (H : symbol cur = space \/ symbol cur = newline).
  { destruct Hw as [Hw | Hw]; [| exact Hw]. unfold IS_WHITESPACE in Hw.
    apply andb_true_iff in Hw as [Hw _]. apply orb_true_iff in Hw.
    destruct Hw as [Hw | Hw]; apply Z.eqb_eq in Hw; auto. }
  split; simpl; auto.
Qed.

Lemma grown_open_run cur : grown cur (open_run cur).
Proof. split; simpl; auto. Qed.

Lemma Forall2_grown_refl l : Forall2 grown l l.
Proof. apply Forall_Forall2_diag, Forall_forall. intros; apply grown_refl. Qed.

Lemma Forall2_grown_trans l1 l2 l3 :
  Forall2 grown l1 l2 -> Forall2 grown l2 l3 -> Forall2 grown l1 l3.
Proof.
  intros H. revert l3. induction H as [| a b l l' Hab _ IH]; intros l3 G;
    inversion G as [| b' c ? ? Hbc Hrest]; subst; constructor.
  - eapply grown_trans; eassumption.
  - apply IH. exact Hrest.
Qed.

Lemma Forall2_grown_insert l j cur x :
  l !! j = Some cur -> grown cur x -> Forall2 grown l (<[j := x]> l).
Proof.
  intros Hj Hx. rewrite <- (list_insert_id l j cur Hj) at 1.
  apply Forall2_insert; [apply Forall2_grown_refl | exact Hx].
Qed.

Lemma set_start_grown l j : Forall2 grown l (set_start l j).
Proof.
  unfold set_start. destruct (l !! j) as [cur |] eqn:E.
  - eapply Forall2_grown_insert; [exact E | apply grown_open_run].
  - apply Forall2_grown_refl.
Qed.

Lemma trim_back_grown j : forall l,
  (j < length l)%nat ->
  exists l', trim_back l j = Ret l' /\ Forall2 grown l l'.
Proof.
  induction j as [|j IH]; intros l Hj; simpl.
  - eexists. split; [reflexivity | apply Forall2_grown_refl].
  - destruct (lookup_lt_is_Some_2 l (S j) Hj) as [cur Hcur]. rewrite Hcur.
    destruct (IS_WHITESPACE cur) eqn:Hw.
    + destruct (IH (<[S j := mark cur]> l)) as (l' & Hl' & Hg).
      { rewrite length_insert. lia. }
      exists l'. split; [exact Hl' |].
      eapply Forall2_grown_trans; [| exact Hg].
      eapply Forall2_grown_insert; [exact Hcur |]. apply grown_mark. auto.
    + eexists. split; [reflexivity | apply Forall2_grown_refl].
Qed.

Lemma mark_run_grown rest :
  Forall2 grown rest (mark_run rest).1 /\
  ((mark_run rest).2 <= length rest)%nat.
Proof.
  induction rest as [|cur rest [IH1 IH2]]; simpl.
  - split; [constructor | lia].
  - destruct (IS_WHITESPACE cur) eqn:Hw.
    + destruct (mark_run rest) as [marked n]. simpl in *.
      split; [| lia]. constructor; [apply grown_mark; auto | exact IH1].
    + simpl. split; [apply Forall2_grown_refl | lia].
Qed.

Lemma trim_ahead_grown l j :
  Forall2 grown l (trim_ahead l j).1 /\ ((trim_ahead l j).2 <= Nat.max j (length l))%nat.
Proof.
  unfold trim_ahead.
  destruct (mark_run_grown (drop j l)) as [Hg Hn].
  destruct (mark_run (drop j l)) as [marked n]. simpl in *.
  split.
  - rewrite <- (take_drop j l) at 1. apply Forall2_app; [| exact Hg].
    apply Forall2_grown_refl.
  - rewrite length_drop in Hn. lia.
Qed.

(** What the main loop keeps from turn to turn. *)
Definition step_ok (l0 : list GlyphInfo) (i : nat)
    (acc : outcome (list GlyphInfo * nat)) : Prop :=
  exists l resume, acc = Ret (l, resume) /\ Forall2 grown l0 l /\
                   (1 <= i -> 1 <= resume)%nat.

Lemma trim_step_ok l0 acc i :
  (i < length l0)%nat ->
  (i = 0%nat -> exists g, l0 !! 0%nat = Some g /\ linebreak g = 0) ->
  step_ok l0 i acc -> step_ok l0 (S i) (trim_step acc i).
Proof.
  intros Hi Hfirst (l & resume & -> & Hg & Hres). unfold trim_step.
  cbn [obind]. pose proof (Forall2_length _ _ _ Hg) as Hlen.
  destruct (Nat.ltb_spec i resume).
  { exists l, resume. split; [reflexivity |]. split; [exact Hg | lia]. }
  destruct (lookup_lt_is_Some_2 l i ltac:(lia)) as [cur Hcur]. rewrite Hcur.
  destruct (Z.eqb_spec (linebreak cur) 0) as [Hz | Hnz]; cbn [negb].
  { exists l, (S i). split; [reflexivity |]. split; [exact Hg | lia]. }
  assert (Hi1 : (1 <= i)%nat).
  { destruct i as [|i]; [exfalso | lia].
    destruct (Hfirst eq_refl) as (g & Hg0 & Hgz).
    destruct (Forall2_lookup_l _ _ _ _ _ Hg Hg0) as (g' & Hg' & Hgr).
    rewrite Hcur in Hg'. injection Hg' as <-.
    rewrite (gr_linebreak _ _ Hgr) in Hnz. contradiction. }
  unfold trim_before.
  destruct (Z.ltb_spec (Z.of_nat i - 1) 0); [lia |].
  destruct (trim_back_grown (Z.to_nat (Z.of_nat i - 1)) l ltac:(lia))
    as (l1 & -> & Hg1).
  cbn [obind]. pose proof (Forall2_length _ _ _ Hg1) as Hlen1.
  destruct (lookup_lt_is_Some_2 l1 i ltac:(lia)) as [cur1 Hcur1].
  rewrite Hcur1.
  destruct ((symbol cur1 =? space) || (symbol cur1 =? newline)) eqn:Hsym.
  - pose proof (trim_ahead_grown (<[i := mark cur1]> l1) (S i)) as [Hg2 _].
    destruct (trim_ahead (<[i := mark cur1]> l1) (S i)) as [l2 j] eqn:Eq.
    cbn [fst] in Hg2.
    exists (set_start l2 j), j. split; [reflexivity |]. split.
    + eapply Forall2_grown_trans; [exact Hg |].
      eapply Forall2_grown_trans; [exact Hg1 |].
      eapply Forall2_grown_trans; [| apply set_start_grown].
      eapply Forall2_grown_trans; [| exact Hg2].
      eapply Forall2_grown_insert; [exact Hcur1 |]. apply grown_mark.
      right. apply orb_true_iff in Hsym.
      destruct Hsym as [H1 | H1]; apply Z.eqb_eq in H1; auto.
    + intros _. unfold trim_ahead in Eq.
      destruct (mark_run _) as [marked n]. injection Eq as _ <-. lia.
  - exists (set_start l1 i), (S i). split; [reflexivity |]. split; [| lia].
    eapply Forall2_grown_trans; [exact Hg |].
    eapply Forall2_grown_trans; [exact Hg1 |]. apply set_start_grown.
Qed.

Lemma trim_fold_ok l0 : forall k i acc,
  (i + k <= length l0)%nat ->
  (exists g, l0 !! 0%nat = Some g /\ linebreak g = 0) ->
  step_ok l0 i acc ->
  step_ok l0 (i + k) (fold_left trim_step (seq i k) acc).
Proof.
  induction k as [|k IH]; intros i acc Hik Hfirst Hacc; simpl.
  - rewrite Nat.add_0_r. exact Hacc.
  - replace (i + S k)%nat with (S i + k)%nat by lia.
    apply IH; [lia | exact Hfirst |].
    apply trim_step_ok; [lia | intros _; exact Hfirst | exact Hacc].
Qed.

(** A break on the first glyph makes the first turn of the main loop read
    before the array, and nothing after that turn is done. *)
Lemma trim_fold_fault (turns : list nat) :
  fold_left trim_step turns Fault = Fault.
Proof. induction turns as [|i turns IH]; simpl; auto. Qed.

Lemma trim_leading_and_breaks_cases l g :
  l !! 0%nat = Some g ->
  if linebreak g =? 0 then
    exists final, trim_leading_and_breaks l = Ret final /\
                  Forall2 grown (trim_ahead l 0).1 final
  else trim_leading_and_breaks l = Fault.
Proof.
  intros H0. unfold trim_leading_and_breaks.
  pose proof (trim_ahead_grown l 0) as [Hg2 _].
  destruct (trim_ahead l 0) as [l2 i0]. cbn [fst] in *.
  pose proof (set_start_grown l2 i0) as Hg3.
  set (l3 := set_start l2 i0) in *.
  assert (Hg : Forall2 grown l l3) by (eapply Forall2_grown_trans; eassumption).
  destruct (Forall2_lookup_l _ _ _ 0%nat g Hg H0) as (g3 & Hg3' & Hgr).
  pose proof (gr_linebreak _ _ Hgr) as Hlb.
  destruct (Z.eqb_spec (linebreak g) 0) as [Hz | Hnz].
  - destruct (trim_fold_ok l3 (length l3) 0%nat (Ret (l3, 0%nat)))
      as (l4 & resume & Hrun & Hg4 & _).
    + lia.
    + exists g3. split; [exact Hg3' | congruence].
    + exists l3, 0%nat. split; [reflexivity |].
      split; [apply Forall2_grown_refl | lia].
    + cbn [Nat.add] in Hrun. rewrite Hrun. cbn [obind].
      exists l4. split; [reflexivity |].
      eapply Forall2_grown_trans; eassumption.
  - assert (Hpos : (0 < length l3)%nat).
    { apply lookup_lt_Some in Hg3'. exact Hg3'. }
    destruct (length l3) as [|n] eqn:En; [lia |].
    cbn [seq fold_left].
    replace (trim_step (Ret (l3, 0%nat)) 0) with
      (Fault : outcome (list GlyphInfo * nat));
      [rewrite trim_fold_fault; reflexivity |].
    unfold trim_step. cbn [obind Nat.ltb Nat.leb]. rewrite Hg3', Hlb.
    destruct (Z.eqb_spec (linebreak g) 0); [contradiction |]. reflexivity.
Qed.

Lemma trim_whitespace_cases g rest :
  exists l1,
    trim_before (g :: rest) (Z.of_nat (length (g :: rest)) - 1) = Ret l1 /\
    Forall2 grown (g :: rest) l1 /\
    exists g1, l1 !! 0%nat = Some g1 /\ linebreak g1 = linebreak g.
Proof.
  unfold trim_before. cbn [length].
  destruct (Z.ltb_spec (Z.of_nat (S (length rest)) - 1) 0); [lia |].
  destruct (trim_back_grown (Z.to_nat (Z.of_nat (S (length rest)) - 1))
              (g :: rest) ltac:(simpl; lia)) as (l1 & -> & Hg1).
  exists l1. split; [reflexivity |]. split; [exact Hg1 |].
  destruct (Forall2_lookup_l _ _ _ 0%nat g Hg1 eq_refl) as (g1 & Hg1' & Hgr).
  exists g1. split; [exact Hg1' | apply (gr_linebreak _ _ Hgr)].
Qed.

(** [trim_whitespace] reads before the start of the glyph array in two
    cases and in no other: when the array is empty, and when the first
    glyph carries a line break. *)
Theorem trim_whitespace_faults (glyphs : list GlyphInfo) :
  trim_whitespace glyphs = Fault <->
  glyphs = [] \/ exists g rest, glyphs = g :: rest /\ linebreak g <> 0.
Proof.
  destruct glyphs as [|g rest].
  { split; [auto | reflexivity]. }
  unfold trim_whitespace.
  destruct (trim_whitespace_cases g rest) as (l1 & -> & _ & g1 & Hg1 & Hlb).
  cbn [obind]. pose proof (trim_leading_and_breaks_cases l1 g1 Hg1) as H.
  rewrite Hlb in H. destruct (Z.eqb_spec (linebreak g) 0) as [Hz | Hnz].
  - destruct H as (final & -> & _). split; [discriminate |].
    intros [E | (g' & rest' & E & Hne)]; [discriminate |].
    injection E as <- <-. contradiction.
  - rewrite H. split; [| reflexivity]. intros _. right. eauto.
Qed.

(** [trim_whitespace] changes nothing but flags, and only raises them.
    When the array is not empty and its first glyph carries no line break,
    the function returns the same glyphs with their symbols and line
    breaks; no [skip], [is_trimmed_whitespace] or [starts_new_run] that was
    set is cleared; and a glyph is newly marked [skip] or
    [is_trimmed_whitespace] only if it is a space or a line feed. *)
Theorem trim_whitespace_raises_flags (g : GlyphInfo) (rest : list GlyphInfo) :
  linebreak g = 0 ->
  exists glyphs', trim_whitespace (g :: rest) = Ret glyphs' /\
                  Forall2 grown (g :: rest) glyphs'.
Proof.
  intros Hz. unfold trim_whitespace.
  destruct (trim_whitespace_cases g rest) as (l1 & -> & Hg1 & g1 & Hg1' & Hlb).
  cbn [obind]. pose proof (trim_leading_and_breaks_cases l1 g1 Hg1') as H.
  rewrite Hlb, Hz in H. cbn [Z.eqb] in H. destruct H as (final & -> & Hg2).
  exists final. split; [reflexivity |].
  eapply Forall2_grown_trans; [exact Hg1 |].
  eapply Forall2_grown_trans; [apply trim_ahead_grown | exact Hg2].
Qed.

Lemma trim_whitespace_raises_flags_witness :
  exists glyphs',
    trim_whitespace [mkGlyphInfo 97 0 false false false;
                     mkGlyphInfo 32 0 false false false] = Ret glyphs' /\
    Forall2 grown [mkGlyphInfo 97 0 false false false;
                   mkGlyphInfo 32 0 false false false] glyphs'.
Proof.
  apply (trim_whitespace_raises_flags (mkGlyphInfo 97 0 false false false)
           [mkGlyphInfo 32 0 false false false]).
  reflexivity.
Defined.

(** ** A text of nothing but whitespace *)

Lemma mark_run_all rest :
  Forall (fun g => IS_WHITESPACE g = true) rest ->
  mark_run rest = (mark <$> rest, length rest).
Proof.
  induction 1 as [| cur rest Hw _ IH]; simpl; [reflexivity |].
  rewrite Hw, IH. reflexivity.
Qed.

Lemma IS_WHITESPACE_mark cur : IS_WHITESPACE (mark cur) = IS_WHITESPACE cur.
Proof. reflexivity. Qed.

Lemma trim_back_all j : forall l,
  (j < length l)%nat ->
  Forall (fun g => IS_WHITESPACE g = true) l ->
  exists l', trim_back l j = Ret l' /\
             Forall (fun g => IS_WHITESPACE g = true) l' /\
             mark <$> l' = mark <$> l.
Proof.
  induction j as [|j IH]; intros l Hj Hall; simpl; [eauto |].
  destruct (lookup_lt_is_Some_2 l (S j) Hj) as [cur Hcur]. rewrite Hcur.
  assert (Hw : IS_WHITESPACE cur = true).
  { rewrite Forall_forall in Hall. eapply Hall, list_elem_of_lookup_2, Hcur. }
  rewrite Hw.
  destruct (IH (<[S j := mark cur]> l)) as (l' & Hl' & Hall' & Hm).
  - rewrite length_insert. lia.
  - apply Forall_insert; [exact Hall |]. rewrite IS_WHITESPACE_mark. exact Hw.
  - exists l'. split; [exact Hl' |]. split; [exact Hall' |].
    rewrite Hm, list_fmap_insert. apply list_insert_id.
    rewrite list_lookup_fmap, Hcur. reflexivity.
Qed.

Lemma trim_fold_idle turns : forall l resume,
  Forall (fun g => linebreak g = 0) l ->
  Forall (fun i => (i < length l)%nat) turns ->
  exists resume', fold_left trim_step turns (Ret (l, resume)) = Ret (l, resume').
Proof.
  induction turns as [|i turns IH]; intros l resume Hz Hin; [simpl; eauto |].
  apply Forall_cons in Hin as [Hi Hin]. cbn [fold_left].
  assert (Hstep : exists r, trim_step (Ret (l, resume)) i = Ret (l, r)).
  { unfold trim_step. cbn [obind].
    destruct (i <? resume)%nat; [eauto |].
    destruct (lookup_lt_is_Some_2 l i Hi) as [cur Hcur]. rewrite Hcur.
    assert (E : linebreak cur = 0).
    { rewrite Forall_forall in Hz. eapply Hz, list_elem_of_lookup_2, Hcur. }
    rewrite E. cbn [Z.eqb negb]. eauto. }
  destruct Hstep as [r ->]. apply IH; assumption.
Qed.

(** A text of one or more glyphs that are all spaces or line feeds, none
    with a line break, is trimmed away whole: every glyph comes out with
    [skip] and [is_trimmed_whitespace] set, and no glyph is made the start
    of a run. *)
Theorem trim_whitespace_blank (glyphs : list GlyphInfo) :
  glyphs <> [] ->
  Forall (fun g => IS_WHITESPACE g = true) glyphs ->
  trim_whitespace glyphs = Ret (mark <$> glyphs).
Proof.
  intros Hne Hall. unfold trim_whitespace, trim_before.
  destruct glyphs as [|g rest]; [congruence |]. cbn [length].
  destruct (Z.ltb_spec (Z.of_nat (S (length rest)) - 1) 0); [lia |].
  destruct (trim_back_all (Z.to_nat (Z.of_nat (S (length rest)) - 1))
              (g :: rest) ltac:(simpl; lia) Hall) as (l1 & -> & Hall1 & Hm).
  cbn [obind]. unfold trim_leading_and_breaks, trim_ahead.
  rewrite drop_0, take_0.
  rewrite (mark_run_all l1 Hall1). cbn [app Nat.add].
  unfold set_start. rewrite lookup_ge_None_2 by (rewrite length_fmap; lia).
  destruct (trim_fold_idle (seq 0 (length (mark <$> l1))) (mark <$> l1) 0%nat)
    as (resume' & ->).
  - apply Forall_fmap, Forall_forall. intros x Hx. cbn.
    rewrite Forall_forall in Hall1. specialize (Hall1 x Hx).
    unfold IS_WHITESPACE in Hall1. apply andb_true_iff in Hall1 as [_ H0].
    apply Z.eqb_eq in H0. exact H0.
  - apply Forall_forall. intros i Hi. apply elem_of_seq in Hi. lia.
  - cbn [obind]. rewrite Hm. reflexivity.
Qed.

Lemma trim_whitespace_blank_witness :
  trim_whitespace [mkGlyphInfo 32 0 false false false;
                   mkGlyphInfo 32 0 false false false]
  = Ret (mark <$> [mkGlyphInfo 32 0 false false false;
                   mkGlyphInfo 32 0 false false false]).
Proof.
  apply (trim_whitespace_blank [mkGlyphInfo 32 0 false false false;
                                mkGlyphInfo 32 0 false false false]).
  - discriminate.
  - repeat constructor.
Defined.

(** ** The two ends of the text *)

Lemma trim_back_above j : forall l l' q,
  trim_back l j = Ret l' -> (j < q)%nat -> l' !! q = l !! q.
Proof.
  induction j as [|j IH]; intros l l' q; simpl.
  - intros [= <-] _. reflexivity.
  - destruct (l !! S j) as [cur |]; [| discriminate].
    destruct (IS_WHITESPACE cur).
    + intros H Hq. rewrite (IH _ _ q H) by lia.
      apply list_lookup_insert_ne. lia.
    + intros [= <-] _. reflexivity.
Qed.

Lemma trim_back_marks j : forall l l' p,
  trim_back l j = Ret l' -> (1 <= p <= j)%nat ->
  (forall q, (p <= q <= j)%nat ->
             exists x, l !! q = Some x /\ IS_WHITESPACE x = true) ->
  exists x', l' !! p = Some x' /\ skip x' = true /\
             is_trimmed_whitespace x' = true.
Proof.
  induction j as [|j IH]; intros l l' p Hrun Hp Hw; [lia |].
  simpl in Hrun. destruct (Hw (S j) ltac:(lia)) as (cur & Hcur & Hcw).
  rewrite Hcur, Hcw in Hrun.
  destruct (Nat.eq_dec p (S j)) as [-> | Hne].
  - rewrite (trim_back_above _ _ _ (S j) Hrun) by lia.
    rewrite list_lookup_insert_eq by (eapply lookup_lt_Some, Hcur).
    eexists. split; [reflexivity |]. split; reflexivity.
  - apply (IH _ _ p Hrun); [lia |]. intros q Hq.
    rewrite list_lookup_insert_ne by lia. apply Hw. lia.
Qed.

Lemma mark_run_marks rest : forall p,
  (forall q, (q <= p)%nat ->
             exists x, rest !! q = Some x /\ IS_WHITESPACE x = true) ->
  exists x', (mark_run rest).1 !! p = Some x' /\ skip x' = true /\
             is_trimmed_whitespace x' = true.
Proof.
  induction rest as [|cur rest IH]; intros p Hw.
  - destruct (Hw 0%nat ltac:(lia)) as (x & Hx & _). discriminate.
  - simpl. destruct (Hw 0%nat ltac:(lia)) as (x & Hx & Hxw).
    injection Hx as <-. rewrite Hxw.
    destruct p as [|p].
    + destruct (mark_run rest) as [marked n]. simpl. eauto.
    + destruct (IH p) as (x' & Hx' & Hs).
      { intros q Hq. apply (Hw (S q)). lia. }
      destruct (mark_run rest) as [marked n]. simpl in *. eauto.
Qed.

(** [trim_whitespace] trims both ends of the text.  When the first glyph
    carries no line break, every glyph of the run of spaces and line
    feeds (without line break) the text starts with, and every glyph past
    the first of the run the text ends with, comes out with [skip] and
    [is_trimmed_whitespace] set. *)
Theorem trim_whitespace_ends (g : GlyphInfo) (rest : list GlyphInfo) :
  linebreak g = 0 ->
  exists glyphs',
    trim_whitespace (g :: rest) = Ret glyphs' /\
    forall p : nat,
      (forall q, (q <= p)%nat ->
                 exists x, (g :: rest) !! q = Some x /\
                           IS_WHITESPACE x = true) \/
      ((1 <= p <= length rest)%nat /\
       forall q, (p <= q <= length rest)%nat ->
                 exists x, (g :: rest) !! q = Some x /\
                           IS_WHITESPACE x = true) ->
      exists x', glyphs' !! p = Some x' /\ skip x' = true /\
                 is_trimmed_whitespace x' = true.
Proof.
  intros Hz. unfold trim_whitespace.
  destruct (trim_whitespace_cases g rest) as (l1 & Hrun & Hg1 & g1 & Hg1' & Hlb).
  rewrite Hrun. cbn [obind].
  pose proof (trim_leading_and_breaks_cases l1 g1 Hg1') as H.
  rewrite Hlb, Hz in H. cbn [Z.eqb] in H. destruct H as (final & -> & Hg2).
  exists final. split; [reflexivity |].
  assert (Hkeep : forall (l : list GlyphInfo) p x,
            Forall2 grown l final -> l !! p = Some x ->
            skip x = true /\ is_trimmed_whitespace x = true ->
            exists x', final !! p = Some x' /\ skip x' = true /\
                       is_trimmed_whitespace x' = true).
  { intros l p x Hl Hx [Hs Ht].
    destruct (Forall2_lookup_l _ _ _ _ _ Hl Hx) as (x' & Hx' & Hgr).
    exists x'. split; [exact Hx' |].
    split; [apply (gr_skip _ _ Hgr Hs) | apply (gr_trimmed _ _ Hgr Ht)]. }
  intros p [Hlead | [Hp Htrail]].
  - destruct (mark_run_marks l1 p) as (x & Hx & Hs).
    { intros q Hq. destruct (Hlead q Hq) as (y & Hy & Hyw).
      destruct (Forall2_lookup_l _ _ _ _ _ Hg1 Hy) as (y1 & Hy1 & Hgr).
      exists y1. split; [exact Hy1 |]. unfold IS_WHITESPACE in *.
      rewrite (gr_symbol _ _ Hgr), (gr_linebreak _ _ Hgr). exact Hyw. }
    apply (Hkeep (trim_ahead l1 0).1 p x Hg2); [| exact Hs].
    unfold trim_ahead. rewrite drop_0, take_0.
    destruct (mark_run l1) as [marked n]. exact Hx.
  - unfold trim_before in Hrun. cbn [length] in Hrun.
    destruct (Z.ltb_spec (Z.of_nat (S (length rest)) - 1) 0); [lia |].
    replace (Z.to_nat (Z.of_nat (S (length rest)) - 1)) with (length rest)
      in Hrun by lia.
    destruct (trim_back_marks _ _ _ p Hrun Hp Htrail) as (x & Hx & Hs).
    apply (Hkeep l1 p x); [| exact Hx | exact Hs].
    eapply Forall2_grown_trans; [apply trim_ahead_grown | exact Hg2].
Qed.

Lemma trim_whitespace_ends_witness :
  exists glyphs',
    trim_whitespace [mkGlyphInfo 97 0 false false false;
                     mkGlyphInfo 32 0 false false false] = Ret glyphs' /\
    exists x', glyphs' !! 1%nat = Some x' /\ skip x' = true /\
               is_trimmed_whitespace x' = true.
Proof.
  destruct (trim_whitespace_ends (mkGlyphInfo 97 0 false false false)
              [mkGlyphInfo 32 0 false false false] eq_refl)
    as (glyphs' & Hrun & Hends).
  exists glyphs'. split; [exact Hrun |]. apply Hends. right.
  split; [simpl; lia |]. intros q Hq. simpl in Hq.
  assert (q = 1%nat) as -> by lia. eexists. split; reflexivity.
Defined.

End Trim.

(** * Pen positions and the bounding box of the text *)

Module Layout.

(** [GlyphInfo]: the fields [preliminary_layout] and
    [compute_string_bbox] read and write. *)
Record GlyphInfo : Type := mkGlyphInfo {
  skip : bool;
  pos_x : Z;
  pos_y : Z;
  advance_x : Z;
  advance_y : Z;
  cluster_advance_x : Z;
  cluster_advance_y : Z
}.

(** An entry of [text_info->glyphs] with the glyphs chained to it through
    [next]. *)
Record Glyph : Type := mkGlyph {
  info : GlyphInfo;
  next : list GlyphInfo
}.

Record ASS_DRect : Type := mkDRect {
  x_min : float;
  x_max : float;
  y_min : float;
  y_max : float
}.

(** [info->pos.x = cluster_pen.x; info->pos.y = cluster_pen.y;] *)
Definition set_pos (g : GlyphInfo) (pen : Z * Z) : GlyphInfo :=
  mkGlyphInfo (skip g) pen.1 pen.2 (advance_x g) (advance_y g)
              (cluster_advance_x g) (cluster_advance_y g).

(** The turns of the [do ... while (info)] loop on the glyphs after the
    first of a chain. *)
Fixpoint place_chain (chain : list GlyphInfo) (cluster_pen : Z * Z)
  : list GlyphInfo :=
  match chain with
  | [] => []
  | g :: rest =>
      set_pos g cluster_pen
      :: place_chain rest (cluster_pen.1 + advance_x g,
                           cluster_pen.2 + advance_y g)
  end.

(** The [do ... while (info)] loop on one entry. *)
Definition place_cluster (g : Glyph) (pen : Z * Z) : Glyph :=
  mkGlyph (set_pos (info g) pen)
          (place_chain (next g) (pen.1 + advance_x (info g),
                                 pen.2 + advance_y (info g))).

(** [for (int i = 0; i < render_priv->text_info.length; i++)] from
    [pen]. *)
Fixpoint layout_from (glyphs : list Glyph) (pen : Z * Z) : list Glyph :=
  match glyphs with
  | [] => []
  | g :: rest =>
      place_cluster g pen
      :: layout_from rest (pen.1 + cluster_advance_x (info g),
                           pen.2 + cluster_advance_y (info g))
  end.

Definition preliminary_layout (glyphs : list Glyph) : list Glyph :=
  layout_from glyphs (0, 0).

Section Box.

(** [d6_to_double], [FFMIN] and [FFMAX] of [ass_utils.h], which is not
    among the sources. *)
Variable d6_to_double : Z -> float.
Variable FFMIN : float -> float -> float.
Variable FFMAX : float -> float -> float.

(** Body of the loop of [compute_string_bbox] on [bbox->x_min] and
    [bbox->x_max]. *)
Definition widen (box : float * float) (g : Glyph) : float * float :=
  if skip (info g) then box
  else
    let s := d6_to_double (pos_x (info g)) in
    let e := PrimFloat.add s (d6_to_double (cluster_advance_x (info g))) in
    (FFMIN box.1 s, FFMAX box.2 e).

(** [compute_string_bbox]; [asc] is [text->lines[0].asc] and [height] is
    [text->height]. *)
Definition compute_string_bbox (glyphs : list Glyph) (asc height : float)
  : ASS_DRect :=
  match glyphs with
  | [] => mkDRect 0 0 0 0
  | first :: _ =>
      let bottom := PrimFloat.sub (d6_to_double (pos_y (info first))) asc in
      let box := fold_left widen glyphs (32000%float, (-32000)%float) in
      mkDRect box.1 box.2 bottom (PrimFloat.add bottom height)
  end.

End Box.

(** ** The pen after a prefix of the text *)

(** The sum of a field over a list of glyphs. *)
Definition total {A} (f : A -> Z) (l : list A) : Z :=
  foldr (fun g acc => f g + acc) 0 l.

Lemma length_place_chain chain : forall pen,
  length (place_chain chain pen) = length chain.
Proof.
  induction chain as [|c l IH]; intros pen; simpl; [reflexivity |].
  f_equal. apply IH.
Qed.

Lemma length_layout_from glyphs : forall pen,
  length (layout_from glyphs pen) = length glyphs.
Proof.
  induction glyphs as [|x l IH]; intros pen; simpl; [reflexivity |].
  f_equal. apply IH.
Qed.

Lemma place_chain_lookup chain : forall pen (k : nat) g,
  chain !! k = Some g ->
  place_chain chain pen !! k
  = Some (set_pos g (pen.1 + total advance_x (take k chain),
                     pen.2 + total advance_y (take k chain))).
Proof.
  unfold total.
  induction chain as [|x chain IH]; intros pen k g Hk; [discriminate |].
  destruct k as [|k]; simpl in *.
  - injection Hk as <-. rewrite !Z.add_0_r. destruct pen; reflexivity.
  - rewrite (IH _ k g Hk). cbn [fst snd]. f_equal. f_equal. f_equal; lia.
Qed.

Lemma layout_from_lookup glyphs : forall pen (i : nat) g,
  glyphs !! i = Some g ->
  layout_from glyphs pen !! i
  = Some (place_cluster g
            (pen.1 + total (fun x => cluster_advance_x (info x)) (take i glyphs),
             pen.2 + total (fun x => cluster_advance_y (info x)) (take i glyphs))).
Proof.
  unfold total.
  induction glyphs as [|x glyphs IH]; intros pen i g Hi; [discriminate |].
  destruct i as [|i]; simpl in *.
  - injection Hi as <-. rewrite !Z.add_0_r. destruct pen; reflexivity.
  - rewrite (IH _ i g Hi). cbn [fst snd]. f_equal. f_equal. f_equal; lia.
Qed.

(** [preliminary_layout] puts every entry at the sum of the cluster
    advances of the entries before it, and the glyph at place [k] of the
    chain of an entry at the position of the entry plus the advances of
    the [k] glyphs before it in the chain (the entry itself first).  It
    keeps the number of entries and writes nothing but [pos]. *)
Theorem preliminary_layout_positions (glyphs : list Glyph) (i : nat) (g : Glyph) :
  glyphs !! i = Some g ->
  let px := total (fun x => cluster_advance_x (info x)) (take i glyphs) in
  let py := total (fun x => cluster_advance_y (info x)) (take i glyphs) in
  length (preliminary_layout glyphs) = length glyphs /\
  exists g', preliminary_layout glyphs !! i = Some g' /\
    info g' = set_pos (info g) (px, py) /\
    length (next g') = length (next g) /\
    forall (k : nat) c, next g !! k = Some c ->
      next g' !! k
      = Some (set_pos c
                (px + advance_x (info g) + total advance_x (take k (next g)),
                 py + advance_y (info g) + total advance_y (take k (next g)))).
Proof.
  intros Hi px py. split.
  - apply length_layout_from.
  - unfold preliminary_layout. rewrite (layout_from_lookup glyphs (0, 0) i g Hi).
    eexists. split; [reflexivity |]. cbn [fst snd Z.add place_cluster info next].
    fold px py. split; [reflexivity |]. split.
    + apply length_place_chain.
    + intros k c Hk. rewrite (place_chain_lookup _ _ k c Hk). reflexivity.
Qed.

Lemma preliminary_layout_positions_witness :
  exists g',
    preliminary_layout
      [mkGlyph (mkGlyphInfo false 7 7 600 0 640 0) [];
       mkGlyph (mkGlyphInfo false 7 7 500 0 512 0) []] !! 1%nat = Some g' /\
    info g' = set_pos (mkGlyphInfo false 7 7 500 0 512 0) (640, 0).
Proof.
  destruct (preliminary_layout_positions
              [mkGlyph (mkGlyphInfo false 7 7 600 0 640 0) [];
               mkGlyph (mkGlyphInfo false 7 7 500 0 512 0) []] 1%nat
              (mkGlyph (mkGlyphInfo false 7 7 500 0 512 0) []) eq_refl)
    as (_ & g' & Hg' & Hinfo & _).
  exists g'. split; [exact Hg' | exact Hinfo].
Defined.

(** ** The box of a text with nothing to show *)

(** When every glyph of a text is skipped, [compute_string_bbox] leaves
    the horizontal extent at the values it starts the search with:
    [x_min = 32000] and [x_max = -32000], a box whose left edge is right
    of its right edge.  The vertical extent is taken from the first
    glyph, skipped or not. *)
Theorem compute_string_bbox_all_skipped
    (d6_to_double : Z -> float) (FFMIN FFMAX : float -> float -> float)
    (first : Glyph) (rest : list Glyph) (asc height : float) :
  Forall (fun g => skip (info g) = true) (first :: rest) ->
  compute_string_bbox d6_to_double FFMIN FFMAX (first :: rest) asc height
  = mkDRect 32000 (-32000)
            (PrimFloat.sub (d6_to_double (pos_y (info first))) asc)
            (PrimFloat.add
               (PrimFloat.sub (d6_to_double (pos_y (info first))) asc) height).
Proof.
  intros Hall. unfold compute_string_bbox.
  assert (H : forall l box,
            Forall (fun g => skip (info g) = true) l ->
            fold_left (widen d6_to_double FFMIN FFMAX) l box = box).
  { induction l as [|g l IH]; intros box Hl; simpl; [reflexivity |].
    apply Forall_cons in Hl as [Hg Hl]. unfold widen at 2. rewrite Hg.
    apply IH, Hl. }
  rewrite (H _ _ Hall). reflexivity.
Qed.

Lemma compute_string_bbox_all_skipped_witness :
  compute_string_bbox (fun z => Double.of_int z)
    (fun a b => if PrimFloat.ltb b a then b else a)
    (fun a b => if PrimFloat.ltb a b then b else a)
    [mkGlyph (mkGlyphInfo true 0 0 0 0 640 0) []] 10%float 20%float
  = mkDRect 32000 (-32000) (-10)%float 10%float.
Proof.
  apply (compute_string_bbox_all_skipped (fun z => Double.of_int z)
           (fun a b => if PrimFloat.ltb b a then b else a)
           (fun a b => if PrimFloat.ltb a b then b else a)
           (mkGlyph (mkGlyphInfo true 0 0 0 0 640 0) []) [] 10%float 20%float).
  repeat constructor.
Defined.

End Layout.

(** * Style overrides and the scales of an event *)

Module Style.
Import Double.

(** [ASS_Style] of [ass_types.h], with the fields this file names.  A
    [char *] is a string or a null pointer. *)
Record ASS_Style : Type := mkStyle {
  Name : option string;
  FontName : option string;
  FontSize : float;
  PrimaryColour : Z;
  SecondaryColour : Z;
  OutlineColour : Z;
  BackColour : Z;
  Bold : Z;
  Italic : Z;
  Underline : Z;
  StrikeOut : Z;
  ScaleX : float;
  ScaleY : float;
  Spacing : float;
  Angle : float;
  BorderStyle : Z;
  Outline : float;
  Shadow : float;
  Alignment : Z;
  MarginL : Z;
  MarginR : Z;
  MarginV : Z;
  Encoding : Z;
  treat_fontname_as_pattern : Z;
  Blur : float;
  Justify : Z
}.

(** [user->Name = "OverrideStyle";] *)
Definition set_Name (s : ASS_Style) (v : option string) : ASS_Style :=
  mkStyle v (FontName s) (FontSize s) (PrimaryColour s) (SecondaryColour s)
          (OutlineColour s) (BackColour s) (Bold s) (Italic s) (Underline s)
          (StrikeOut s) (ScaleX s) (ScaleY s) (Spacing s) (Angle s)
          (BorderStyle s) (Outline s) (Shadow s) (Alignment s) (MarginL s)
          (MarginR s) (MarginV s) (Encoding s) (treat_fontname_as_pattern s)
          (Blur s) (Justify s).

(** The assignments under [ASS_OVERRIDE_BIT_FONT_SIZE_FIELDS]. *)
Definition set_font_size_fields (s user : ASS_Style) (scale : float)
  : ASS_Style :=
  mkStyle (Name s) (FontName s) (PrimFloat.mul (FontSize user) scale)
          (PrimaryColour s) (SecondaryColour s)
          (OutlineColour s) (BackColour s) (Bold s) (Italic s) (Underline s)
          (StrikeOut s) (ScaleX user) (ScaleY user)
          (PrimFloat.mul (Spacing user) scale) (Angle s)
          (BorderStyle s) (Outline s) (Shadow s) (Alignment s) (MarginL s)
          (MarginR s) (MarginV s) (Encoding s) (treat_fontname_as_pattern s)
          (Blur s) (Justify s).

(** [new->FontName = v;] *)
Definition set_FontName (s : ASS_Style) (v : option string) : ASS_Style :=
  mkStyle (Name s) v (FontSize s) (PrimaryColour s) (SecondaryColour s)
          (OutlineColour s) (BackColour s) (Bold s) (Italic s) (Underline s)
          (StrikeOut s) (ScaleX s) (ScaleY s) (Spacing s) (Angle s)
          (BorderStyle s) (Outline s) (Shadow s) (Alignment s) (MarginL s)
          (MarginR s) (MarginV s) (Encoding s) (treat_fontname_as_pattern s)
          (Blur s) (Justify s).

(** The assignments under [ASS_OVERRIDE_BIT_FONT_NAME]. *)
Definition set_font_name (s user : ASS_Style) : ASS_Style :=
  mkStyle (Name s) (FontName user) (FontSize s) (PrimaryColour s)
          (SecondaryColour s)
          (OutlineColour s) (BackColour s) (Bold s) (Italic s) (Underline s)
          (StrikeOut s) (ScaleX s) (ScaleY s) (Spacing s) (Angle s)
          (BorderStyle s) (Outline s) (Shadow s) (Alignment s) (MarginL s)
          (MarginR s) (MarginV s) (Encoding s)
          (treat_fontname_as_pattern user) (Blur s) (Justify s).

(** The assignments under [ASS_OVERRIDE_BIT_COLORS]. *)
Definition set_colors (s user : ASS_Style) : ASS_Style :=
  mkStyle (Name s) (FontName s) (FontSize s) (PrimaryColour user)
          (SecondaryColour user) (OutlineColour user) (BackColour user)
          (Bold s) (Italic s) (Underline s)
          (StrikeOut s) (ScaleX s) (ScaleY s) (Spacing s) (Angle s)
          (BorderStyle s) (Outline s) (Shadow s) (Alignment s) (MarginL s)
          (MarginR s) (MarginV s) (Encoding s) (treat_fontname_as_pattern s)
          (Blur s) (Justify s).

(** The assignments under [ASS_OVERRIDE_BIT_ATTRIBUTES]. *)
Definition set_attributes (s user : ASS_Style) : ASS_Style :=
  mkStyle (Name s) (FontName s) (FontSize s) (PrimaryColour s)
          (SecondaryColour s) (OutlineColour s) (BackColour s)
          (Bold user) (Italic user) (Underline user) (StrikeOut user)
          (ScaleX s) (ScaleY s) (Spacing s) (Angle s)
          (BorderStyle s) (Outline s) (Shadow s) (Alignment s) (MarginL s)
          (MarginR s) (MarginV s) (Encoding s) (treat_fontname_as_pattern s)
          (Blur s) (Justify s).

(** The assignments under [ASS_OVERRIDE_BIT_BORDER]. *)
Definition set_border (s user : ASS_Style) (scale : float) : ASS_Style :=
  mkStyle (Name s) (FontName s) (FontSize s) (PrimaryColour s)
          (SecondaryColour s) (OutlineColour s) (BackColour s)
          (Bold s) (Italic s) (Underline s) (StrikeOut s)
          (ScaleX s) (ScaleY s) (Spacing s) (Angle s)
          (BorderStyle user) (PrimFloat.mul (Outline user) scale)
          (PrimFloat.mul (Shadow user) scale) (Alignment s) (MarginL s)
          (MarginR s) (MarginV s) (Encoding s) (treat_fontname_as_pattern s)
          (Blur s) (Justify s).

(** [new->Alignment = user->Alignment;] *)
Definition set_alignment (s user : ASS_Style) : ASS_Style :=
  mkStyle (Name s) (FontName s) (FontSize s) (PrimaryColour s)
          (SecondaryColour s) (OutlineColour s) (BackColour s)
          (Bold s) (Italic s) (Underline s) (StrikeOut s)
          (ScaleX s) (ScaleY s) (Spacing s) (Angle s)
          (BorderStyle s) (Outline s) (Shadow s) (Alignment user) (MarginL s)
          (MarginR s) (MarginV s) (Encoding s) (treat_fontname_as_pattern s)
          (Blur s) (Justify s).

(** [new->Justify = user->Justify;] *)
Definition set_justify (s user : ASS_Style) : ASS_Style :=
  mkStyle (Name s) (FontName s) (FontSize s) (PrimaryColour s)
          (SecondaryColour s) (OutlineColour s) (BackColour s)
          (Bold s) (Italic s) (Underline s) (StrikeOut s)
          (ScaleX s) (ScaleY s) (Spacing s) (Angle s)
          (BorderStyle s) (Outline s) (Shadow s) (Alignment s) (MarginL s)
          (MarginR s) (MarginV s) (Encoding s) (treat_fontname_as_pattern s)
          (Blur s) (Justify user).

(** The assignments under [ASS_OVERRIDE_BIT_MARGINS]. *)
Definition set_margins (s user : ASS_Style) : ASS_Style :=
  mkStyle (Name s) (FontName s) (FontSize s) (PrimaryColour s)
          (SecondaryColour s) (OutlineColour s) (BackColour s)
          (Bold s) (Italic s) (Underline s) (StrikeOut s)
          (ScaleX s) (ScaleY s) (Spacing s) (Angle s)
          (BorderStyle s) (Outline s) (Shadow s) (Alignment s)
          (MarginL user) (MarginR user) (MarginV user) (Encoding s)
          (treat_fontname_as_pattern s) (Blur s) (Justify s).

(** What [handle_selective_style_overrides] leaves behind: the style it
    returns (stored in [state.override_style_temp_storage]),
    [user_override_style], [state.apply_font_scale] and
    [state.overrides]. *)
Record overridden : Type := mkOverridden {
  style : ASS_Style;
  user_override_style : ASS_Style;
  apply_font_scale : bool;
  overrides : Z
}.

Section Overrides.

(** The bits of [ASS_OverrideBits] in [ass.h], which is not among the
    sources. *)
Variable ASS_OVERRIDE_BIT_STYLE : Z.
Variable ASS_OVERRIDE_BIT_SELECTIVE_FONT_SCALE : Z.
Variable ASS_OVERRIDE_BIT_FONT_SIZE_FIELDS : Z.
Variable ASS_OVERRIDE_BIT_FONT_NAME : Z.
Variable ASS_OVERRIDE_BIT_COLORS : Z.
Variable ASS_OVERRIDE_BIT_ATTRIBUTES : Z.
Variable ASS_OVERRIDE_BIT_BORDER : Z.
Variable ASS_OVERRIDE_BIT_ALIGNMENT : Z.
Variable ASS_OVERRIDE_BIT_MARGINS : Z.
Variable ASS_OVERRIDE_FULL_STYLE : Z.
Variable ASS_OVERRIDE_BIT_JUSTIFY : Z.

(** [requested & bit] as a condition. *)
Definition has (requested bit : Z) : bool :=
  negb (Z.land requested bit =? 0).

(** [handle_selective_style_overrides].  [script] is the style the event
    was declared with, [user] is [render_priv->user_override_style],
    [rstyle] is the argument (null, or a style forced with a [\r] tag);
    [explicit] is [state.explicit], [requested] is
    [settings.selective_style_overrides] and [PlayResY] is the track's. *)
Definition handle_selective_style_overrides (script user : ASS_Style)
    (rstyle : option ASS_Style) (explicit requested PlayResY : Z)
  : overridden :=
  let user := set_Name user (Some "OverrideStyle"%string) in
  let rstyle := match rstyle with Some r => r | None => script end in
  let new := rstyle in
  let apply_font_scale :=
    (explicit =? 0) ||
    negb (has requested ASS_OVERRIDE_BIT_SELECTIVE_FONT_SCALE) in
  let requested := if negb (explicit =? 0) then 0 else requested in
  let requested :=
    if has requested ASS_OVERRIDE_BIT_STYLE then
      Z.lor requested
        (Z.lor ASS_OVERRIDE_BIT_FONT_NAME
           (Z.lor ASS_OVERRIDE_BIT_FONT_SIZE_FIELDS
              (Z.lor ASS_OVERRIDE_BIT_COLORS
                 (Z.lor ASS_OVERRIDE_BIT_BORDER
                        ASS_OVERRIDE_BIT_ATTRIBUTES))))
    else requested in
  let new := if has requested ASS_OVERRIDE_FULL_STYLE then user else new in
  let scale := PrimFloat.div (of_int PlayResY) 288 in
  let new :=
    if has requested ASS_OVERRIDE_BIT_FONT_SIZE_FIELDS
    then set_font_size_fields new user scale else new in
  let new :=
    if has requested ASS_OVERRIDE_BIT_FONT_NAME
    then set_font_name new user else new in
  let new :=
    if has requested ASS_OVERRIDE_BIT_COLORS
    then set_colors new user else new in
  let new :=
    if has requested ASS_OVERRIDE_BIT_ATTRIBUTES
    then set_attributes new user else new in
  let new :=
    if has requested ASS_OVERRIDE_BIT_BORDER
    then set_border new user scale else new in
  let new :=
    if has requested ASS_OVERRIDE_BIT_ALIGNMENT
    then set_alignment new user else new in
  let new :=
    if has requested ASS_OVERRIDE_BIT_JUSTIFY
    then set_justify new user else new in
  let new :=
    if has requested ASS_OVERRIDE_BIT_MARGINS
    then set_margins new user else new in
  let new :=
    match FontName new with
    | None => set_FontName new (FontName rstyle)
    | Some _ => new
    end in
  mkOverridden new user apply_font_scale requested.

(** ** Positioned events, and the font name *)

Lemma has_none bit : has 0 bit = false.
Proof. unfold has. rewrite Z.land_0_l. reflexivity. Qed.

Lemma set_FontName_same s : set_FontName s (FontName s) = s.
Proof. destruct s; reflexivity. Qed.

(** On an event with explicit positioning no override is applied: the
    style that comes out is the style forced with [\r], or the event's own
    style when there is none, whatever the user asked for, and
    [state.overrides] is 0.  The same holds when the user asked for
    nothing. *)
Theorem handle_selective_style_overrides_explicit
    (script user : ASS_Style) (rstyle : option ASS_Style)
    (explicit requested PlayResY : Z) :
  explicit <> 0 \/ requested = 0 ->
  let r := handle_selective_style_overrides script user rstyle explicit
             requested PlayResY in
  style r = match rstyle with Some s => s | None => script end /\
  overrides r = 0.
Proof.
  intros Hcase. unfold handle_selective_style_overrides. cbv zeta.
  assert (Hreq : (if negb (explicit =? 0) then 0 else requested) = 0).
  { destruct Hcase as [He | ->]; [| destruct (negb _); reflexivity].
    destruct (Z.eqb_spec explicit 0); [contradiction | reflexivity]. }
  rewrite Hreq. rewrite !has_none. cbn [style overrides].
  split; [| reflexivity].
  destruct (FontName _) eqn:E; [reflexivity |].
  rewrite <- E. apply set_FontName_same.
Qed.

(** The style that comes out has a font name whenever the style it
    starts from (the one forced with [\r], or the event's own) has one:
    [reset_render_context] is never handed a null [FontName] by an
    override that has none. *)
Theorem handle_selective_style_overrides_font_name
    (script user : ASS_Style) (rstyle : option ASS_Style)
    (explicit requested PlayResY : Z) :
  FontName (style (handle_selective_style_overrides script user rstyle
                     explicit requested PlayResY)) = None ->
  FontName (match rstyle with Some s => s | None => script end) = None.
Proof.
  unfold handle_selective_style_overrides. cbv zeta. cbn [style].
  match goal with
  | |- FontName (match FontName ?n with _ => _ end) = None -> _ =>
      destruct (FontName n) eqn:E
  end.
  - rewrite E. discriminate.
  - cbn [set_FontName FontName]. auto.
Qed.

End Overrides.

(** The bits as [ass.h] numbers them, and two styles. *)
Definition sample_overrides :=
  handle_selective_style_overrides 1 2 4 8 16 32 64 128 256 512 1024.

Definition plain : ASS_Style :=
  mkStyle None (Some "Arial"%string) 20 0 0 0 0 0 0 0 0 1 1 0 0
          1 2 2 2 10 10 10 1 0 0 0.

Definition bare : ASS_Style :=
  mkStyle None None 20 0 0 0 0 0 0 0 0 1 1 0 0 1 2 2 2 10 10 10 1 0 0 0.

Lemma handle_selective_style_overrides_explicit_witness :
  style (sample_overrides plain bare None 1 1023 288) = plain /\
  overrides (sample_overrides plain bare None 1 1023 288) = 0.
Proof.
  apply (handle_selective_style_overrides_explicit 1 2 4 8 16 32 64 128 256
           512 1024 plain bare None 1 1023 288).
  left. discriminate.
Defined.

Lemma handle_selective_style_overrides_font_name_witness :
  FontName bare = None.
Proof.
  apply (handle_selective_style_overrides_font_name 1 2 4 8 16 32 64 128 256
           512 1024 bare plain None 0 0 288).
  reflexivity.
Defined.

(** ** The style bit *)

Section StyleBit.

Variable ASS_OVERRIDE_BIT_STYLE : Z.
Variable ASS_OVERRIDE_BIT_SELECTIVE_FONT_SCALE : Z.
Variable ASS_OVERRIDE_BIT_FONT_SIZE_FIELDS : Z.
Variable ASS_OVERRIDE_BIT_FONT_NAME : Z.
Variable ASS_OVERRIDE_BIT_COLORS : Z.
Variable ASS_OVERRIDE_BIT_ATTRIBUTES : Z.
Variable ASS_OVERRIDE_BIT_BORDER : Z.
Variable ASS_OVERRIDE_BIT_ALIGNMENT : Z.
Variable ASS_OVERRIDE_BIT_MARGINS : Z.
Variable ASS_OVERRIDE_FULL_STYLE : Z.
Variable ASS_OVERRIDE_BIT_JUSTIFY : Z.

Abbreviation handle_selective_style_overrides :=
  (handle_selective_style_overrides
     ASS_OVERRIDE_BIT_STYLE ASS_OVERRIDE_BIT_SELECTIVE_FONT_SCALE
     ASS_OVERRIDE_BIT_FONT_SIZE_FIELDS ASS_OVERRIDE_BIT_FONT_NAME
     ASS_OVERRIDE_BIT_COLORS ASS_OVERRIDE_BIT_ATTRIBUTES
     ASS_OVERRIDE_BIT_BORDER ASS_OVERRIDE_BIT_ALIGNMENT
     ASS_OVERRIDE_BIT_MARGINS ASS_OVERRIDE_FULL_STYLE
     ASS_OVERRIDE_BIT_JUSTIFY).

Lemma has_self bit : bit <> 0 -> has bit bit = true.
Proof.
  intros Hne. unfold has. rewrite Z.land_diag.
  destruct (Z.eqb_spec bit 0); [contradiction | reflexivity].
Qed.

Lemma has_lor_l x y bit : has x bit = true -> has (Z.lor x y) bit = true.
Proof.
  unfold has. rewrite Z.land_lor_distr_l.
  destruct (Z.eqb_spec (Z.land x bit) 0); [discriminate |]. intros _.
  destruct (Z.eqb_spec (Z.lor (Z.land x bit) (Z.land y bit)) 0) as [E | _];
    [| reflexivity].
  apply Z.lor_eq_0_iff in E. tauto.
Qed.

Lemma has_lor_r x y bit : has y bit = true -> has (Z.lor x y) bit = true.
Proof. rewrite Z.lor_comm. apply has_lor_l. Qed.

(** The fields of a style that [ASS_OVERRIDE_BIT_STYLE] stands for, with
    the sizes as they are after the rescaling to the script's
    resolution. *)
Definition style_fields (s : ASS_Style)
  : float * float * float * float * (Z * Z * Z * Z) * (Z * Z * Z * Z) *
    (Z * float * float) :=
  (FontSize s, Spacing s, ScaleX s, ScaleY s,
   (PrimaryColour s, SecondaryColour s, OutlineColour s, BackColour s),
   (Bold s, Italic s, Underline s, StrikeOut s),
   (BorderStyle s, Outline s, Shadow s)).

(** On an event without explicit positioning, asking for
    [ASS_OVERRIDE_BIT_STYLE] is asking for the font name, the font size
    fields, the colors, the border and the attributes: whatever else is
    requested, the style that comes out has the user's sizes, spacing,
    outline and shadow rescaled by [PlayResY / 288], the user's scales,
    colors, attributes and border style, and the user's font name, or the
    base style's when the user's is null. *)
Theorem handle_selective_style_overrides_style_bit
    (script user : ASS_Style) (rstyle : option ASS_Style)
    (requested PlayResY : Z) :
  ASS_OVERRIDE_BIT_FONT_NAME <> 0 ->
  ASS_OVERRIDE_BIT_FONT_SIZE_FIELDS <> 0 ->
  ASS_OVERRIDE_BIT_COLORS <> 0 ->
  ASS_OVERRIDE_BIT_BORDER <> 0 ->
  ASS_OVERRIDE_BIT_ATTRIBUTES <> 0 ->
  has requested ASS_OVERRIDE_BIT_STYLE = true ->
  let r := handle_selective_style_overrides script user rstyle 0 requested
             PlayResY in
  let scale := PrimFloat.div (of_int PlayResY) 288 in
  style_fields (style r)
  = style_fields (set_border (set_font_size_fields user user scale) user scale)
  /\
  FontName (style r)
  = match FontName user with
    | Some name => Some name
    | None => FontName (match rstyle with Some s => s | None => script end)
    end.
Proof.
  intros Hname Hsize Hcolors Hborder Hattr Hstyle.
  unfold Style.handle_selective_style_overrides. cbv zeta.
  change (negb (0 =? 0)) with false. cbv iota. rewrite Hstyle.
  set (req := Z.lor requested _).
  assert (H1 : has req ASS_OVERRIDE_BIT_FONT_NAME = true).
  { apply has_lor_r, has_lor_l, has_self, Hname. }
  assert (H2 : has req ASS_OVERRIDE_BIT_FONT_SIZE_FIELDS = true).
  { apply has_lor_r, has_lor_r, has_lor_l, has_self, Hsize. }
  assert (H3 : has req ASS_OVERRIDE_BIT_COLORS = true).
  { apply has_lor_r, has_lor_r, has_lor_r, has_lor_l, has_self, Hcolors. }
  assert (H4 : has req ASS_OVERRIDE_BIT_BORDER = true).
  { apply has_lor_r, has_lor_r, has_lor_r, has_lor_r, has_lor_l, has_self,
      Hborder. }
  assert (H5 : has req ASS_OVERRIDE_BIT_ATTRIBUTES = true).
  { apply has_lor_r, has_lor_r, has_lor_r, has_lor_r, has_lor_r, has_self,
      Hattr. }
  rewrite H1, H2, H3, H4, H5. cbn [style].
  destruct user as [uname [ufont |] usize uc1 uc2 uc3 uc4 ub ui uu us ux uy
                    usp ua ubs uo ush ual uml umr umv ue ut ubl uj];
    destruct (has req ASS_OVERRIDE_FULL_STYLE),
      (has req ASS_OVERRIDE_BIT_ALIGNMENT), (has req ASS_OVERRIDE_BIT_JUSTIFY),
      (has req ASS_OVERRIDE_BIT_MARGINS);
    cbn; split; reflexivity.
Qed.

End StyleBit.

Lemma handle_selective_style_overrides_style_bit_witness :
  FontName (style (sample_overrides plain bare None 0 1 288))
  = FontName plain.
Proof.
  apply (proj2 (handle_selective_style_overrides_style_bit 1 2 4 8 16 32 64
                  128 256 512 1024 plain bare None 1 288
                  ltac:(discriminate) ltac:(discriminate) ltac:(discriminate)
                  ltac:(discriminate) ltac:(discriminate) eq_refl)).
Defined.

(** ** The three scales of an event *)

Record scales : Type := mkScales {
  font_scale : float;
  blur_scale : float;
  border_scale : float
}.

(** [init_font_scale].  [orig_height] and [fit_height] are the frame
    heights as doubles; [explicit], [use_margins], [storage_height],
    [PlayResY], [ScaledBorderAndShadow] and [apply_font_scale] are the
    integers and flags the function reads, [font_size_coeff] the
    setting. *)
Definition init_font_scale (orig_height fit_height : float)
    (explicit use_margins storage_height PlayResY ScaledBorderAndShadow : Z)
    (apply_font_scale : bool) (font_size_coeff : float) : scales :=
  let font_scr_h :=
    if (explicit =? 0) && negb (use_margins =? 0) then fit_height
    else orig_height in
  let font_scale := PrimFloat.div font_scr_h (of_int PlayResY) in
  let blur_scale :=
    if negb (storage_height =? 0)
    then PrimFloat.div font_scr_h (of_int storage_height)
    else PrimFloat.div font_scr_h (of_int PlayResY) in
  let border_scale :=
    if negb (ScaledBorderAndShadow =? 0)
    then PrimFloat.div font_scr_h (of_int PlayResY)
    else blur_scale in
  if apply_font_scale then
    mkScales (PrimFloat.mul font_scale font_size_coeff)
             (PrimFloat.mul blur_scale font_size_coeff)
             (PrimFloat.mul border_scale font_size_coeff)
  else mkScales font_scale blur_scale border_scale.

(** The scales [init_font_scale] sets are tied to one another, the font
    size coefficient included: with [ScaledBorderAndShadow] borders and
    shadows scale exactly as the font does, without it exactly as blur
    does; and when no storage size is set, blur scales as the font, so
    that the three scales are then one value. *)
Theorem init_font_scale_ties (orig_height fit_height : float)
    (explicit use_margins storage_height PlayResY ScaledBorderAndShadow : Z)
    (apply_font_scale : bool) (font_size_coeff : float) :
  let s := init_font_scale orig_height fit_height explicit use_margins
             storage_height PlayResY ScaledBorderAndShadow apply_font_scale
             font_size_coeff in
  (ScaledBorderAndShadow <> 0 -> border_scale s = font_scale s) /\
  (ScaledBorderAndShadow = 0 -> border_scale s = blur_scale s) /\
  (storage_height = 0 ->
   blur_scale s = font_scale s /\ border_scale s = font_scale s).
Proof.
  unfold init_font_scale. cbv zeta.
  destruct (Z.eqb_spec ScaledBorderAndShadow 0),
    (Z.eqb_spec storage_height 0), apply_font_scale;
    cbn [negb font_scale blur_scale border_scale];
    repeat split; intros; try reflexivity; try contradiction.
Qed.

End Style.

(** * Compositing the bitmaps of a run *)

Module Composite.

(** [Bitmap]: the placement fields; the stride and the buffer are left
    out. *)
Record Bitmap : Type := mkBitmap {
  left : Z;
  top : Z;
  w : Z;
  h : Z
}.

(** [BitmapRef]: a null [bm] or [bm_o] is [None]. *)
Record BitmapRef : Type := mkRef {
  bm : option Bitmap;
  bm_o : option Bitmap;
  pos : Z * Z;
  pos_o : Z * Z
}.

Record ASS_Rect : Type := mkRect {
  x_min : Z;
  y_min : Z;
  x_max : Z;
  y_max : Z
}.

(** What [ass_composite_construct] does for [v->bm], and likewise for
    [v->bm_o]: nothing, a copy of the only bitmap moved to its position, a
    new bitmap with the bitmaps added to it and the offsets [x], [y] they
    were added at, or a failed [assert]. *)
Inductive composed : Type :=
| Nothing
| Copied (b : Bitmap)
| Blended (dst : Bitmap) (added : list (Z * Z * Bitmap))
| AssertFailed.

Definition SUBPIXEL_MASK : Z := 63.

(** The placement of the shadow bitmap:
    [v->bm_s.left += k->filter.shadow.x >> 6] and the like, and the two
    arguments of [shift_bitmap]. *)
Definition place_shadow (bm_s : Bitmap) (shadow : Z * Z) : Bitmap * (Z * Z) :=
  (mkBitmap (left bm_s + Z.shiftr shadow.1 6) (top bm_s + Z.shiftr shadow.2 6)
            (w bm_s) (h bm_s),
   (Z.land shadow.1 SUBPIXEL_MASK, Z.land shadow.2 SUBPIXEL_MASK)).

Section Construct.

(** [rectangle_reset] and [rectangle_update] of [ass_utils.h] and
    [alloc_bitmap] of [ass_bitmap.c], which are not among the sources:
    the rectangle after a reset, the update, and the bitmap allocated for
    a width and a height ([None] when the allocation fails). *)
Variable rectangle_reset : ASS_Rect.
Variable rectangle_update : ASS_Rect -> Z -> Z -> Z -> Z -> ASS_Rect.
Variable alloc_bitmap : Z -> Z -> option Bitmap.

(** [rectangle_combine]. *)
Definition rectangle_combine (rect : ASS_Rect) (b : Bitmap) (p : Z * Z)
  : ASS_Rect :=
  let px := p.1 + left b in
  let py := p.2 + top b in
  rectangle_update rect px py (px + w b) (py + h b).

(** One of the two halves of the first loop: [select] reads [ref->bm]
    with [ref->pos], or [ref->bm_o] with [ref->pos_o].  The state is the
    rectangle, the count and the last reference with a bitmap. *)
Definition scan_step (select : BitmapRef -> option (Bitmap * (Z * Z)))
    (st : ASS_Rect * nat * option (Bitmap * (Z * Z))) (ref : BitmapRef)
  : ASS_Rect * nat * option (Bitmap * (Z * Z)) :=
  match select ref with
  | Some (b, p) =>
      let '(rect, n, _) := st in (rectangle_combine rect b p, S n, Some (b, p))
  | None => st
  end.

(** The loop that adds the bitmaps to [dst], with its two [assert]s:
    [None] when one fails. *)
Fixpoint add_all (select : BitmapRef -> option (Bitmap * (Z * Z)))
    (dst : Bitmap) (bitmaps : list BitmapRef)
  : option (list (Z * Z * Bitmap)) :=
  match bitmaps with
  | [] => Some []
  | ref :: rest =>
      match select ref with
      | None => add_all select dst rest
      | Some (src, p) =>
          let x := p.1 + left src - left dst in
          let y := p.2 + top src - top dst in
          if (x >=? 0) && (x + w src <=? w dst) &&
             (y >=? 0) && (y + h src <=? h dst)
          then option_map (cons (x, y, src)) (add_all select dst rest)
          else None
      end
  end.

(** The part of [ass_composite_construct] that builds [v->bm] (with
    [select] reading [bm] and [pos]) or [v->bm_o] (with [bm_o] and
    [pos_o]); [bord] is [be_padding(k->filter.be)]. *)
Definition compose (select : BitmapRef -> option (Bitmap * (Z * Z)))
    (bord : Z) (bitmaps : list BitmapRef) : composed :=
  let '(rect, n, last) :=
    fold_left (scan_step select) bitmaps (rectangle_reset, 0%nat, None) in
  if (bord =? 0) && (n =? 1)%nat then
    match last with
    | Some (b, p) => Copied (mkBitmap (left b + p.1) (top b + p.2) (w b) (h b))
    | None => Nothing
    end
  else if (n =? 0)%nat then Nothing
  else
    match alloc_bitmap (x_max rect - x_min rect + 2 * bord)
                       (y_max rect - y_min rect + 2 * bord) with
    | None => Nothing
    | Some allocated =>
        let dst := mkBitmap (x_min rect - bord) (y_min rect - bord)
                            (w allocated) (h allocated) in
        match add_all select dst bitmaps with
        | Some added => Blended dst added
        | None => AssertFailed
        end
    end.

Definition select_bm (ref : BitmapRef) : option (Bitmap * (Z * Z)) :=
  match bm ref with Some b => Some (b, pos ref) | None => None end.

Definition select_bm_o (ref : BitmapRef) : option (Bitmap * (Z * Z)) :=
  match bm_o ref with Some b => Some (b, pos_o ref) | None => None end.

(** ** The asserts hold *)

(** What the code relies on: an update only widens a rectangle, and far
    enough to hold the box it is given; a bitmap is allocated with the
    size asked for. *)
Hypothesis rectangle_update_widens : forall r a b c d,
  let r' := rectangle_update r a b c d in
  x_min r' <= x_min r /\ x_min r' <= a /\ y_min r' <= y_min r /\ y_min r' <= b /\
  x_max r <= x_max r' /\ c <= x_max r' /\ y_max r <= y_max r' /\ d <= y_max r'.
Hypothesis alloc_bitmap_size : forall width height b,
  alloc_bitmap width height = Some b -> w b = width /\ h b = height.

(** The box of a bitmap at its position lies in the rectangle. *)
Definition holds (rect : ASS_Rect) (b : Bitmap) (p : Z * Z) : Prop :=
  x_min rect <= p.1 + left b /\ p.1 + left b + w b <= x_max rect /\
  y_min rect <= p.2 + top b /\ p.2 + top b + h b <= y_max rect.

Lemma scan_holds select bitmaps : forall st,
  let r := fold_left (scan_step select) bitmaps st in
  (forall b p, holds st.1.1 b p -> holds r.1.1 b p) /\
  Forall (fun ref => forall b p, select ref = Some (b, p) -> holds r.1.1 b p)
         bitmaps.
Proof.
  induction bitmaps as [|ref rest IH]; intros st; cbn zeta; simpl.
  - split; [auto | constructor].
  - destruct (IH (scan_step select st ref)) as [Hmono Hall]. cbn zeta in *.
    assert (Hstep : forall b p, holds st.1.1 b p ->
                                holds (scan_step select st ref).1.1 b p).
    { intros b p Hb. unfold scan_step. destruct (select ref) as [[b' p'] |];
        [| exact Hb].
      destruct st as [[rect n] last]. cbn [fst] in *.
      unfold rectangle_combine, holds in *.
      pose proof (rectangle_update_widens rect (p'.1 + left b') (p'.2 + top b')
                    (p'.1 + left b' + w b') (p'.2 + top b' + h b')) as H.
      cbn zeta in H. lia. }
    split; [intros b p Hb; apply Hmono, Hstep, Hb |].
    constructor; [| exact Hall].
    intros b p Hsel. apply Hmono. unfold scan_step. rewrite Hsel.
    destruct st as [[rect n] last]. cbn [fst].
    unfold rectangle_combine, holds.
    pose proof (rectangle_update_widens rect (p.1 + left b) (p.2 + top b)
                  (p.1 + left b + w b) (p.2 + top b + h b)) as H.
    cbn zeta in H. lia.
Qed.

(** [src], added at [x], [y], is inside [dst] and [bord] away from its
    edges. *)
Definition padded (bord : Z) (dst : Bitmap) (a : Z * Z * Bitmap) : Prop :=
  let '(x, y, src) := a in
  bord <= x /\ x + w src <= w dst - bord /\
  bord <= y /\ y + h src <= h dst - bord.

Lemma add_all_defined select bord dst bitmaps :
  0 <= bord ->
  Forall (fun ref => forall b p, select ref = Some (b, p) ->
            padded bord dst (p.1 + left b - left dst,
                             p.2 + top b - top dst, b)) bitmaps ->
  exists added, add_all select dst bitmaps = Some added /\
                Forall (padded bord dst) added.
Proof.
  intros Hbord. induction 1 as [| ref rest Href _ (added & IH & Hadded)]; simpl.
  - exists []. split; [reflexivity | constructor].
  - destruct (select ref) as [[src p] |] eqn:Hsel; [| eauto].
    pose proof (Href src p eq_refl) as Hpad. unfold padded in Hpad.
    destruct Hpad as (H1 & H2 & H3 & H4).
    destruct (Z.geb_spec (p.1 + left src - left dst) 0); [| lia].
    destruct (Z.leb_spec (p.1 + left src - left dst + w src) (w dst)); [| lia].
    destruct (Z.geb_spec (p.2 + top src - top dst) 0); [| lia].
    destruct (Z.leb_spec (p.2 + top src - top dst + h src) (h dst)); [| lia].
    cbn [andb]. rewrite IH. cbn [option_map].
    eexists. split; [reflexivity |]. constructor; [| exact Hadded].
    unfold padded. auto.
Qed.

(** The two [assert]s of [ass_composite_construct] cannot fail.  With a
    padding that is not negative, whatever the bitmaps of the run and
    their positions, every bitmap is added to the new bitmap at offsets
    inside it, and at least [bord] away from each of its four edges. *)
Theorem compose_asserts_hold select (bord : Z) (bitmaps : list BitmapRef) :
  0 <= bord ->
  compose select bord bitmaps <> AssertFailed /\
  forall dst added, compose select bord bitmaps = Blended dst added ->
                    Forall (padded bord dst) added.
Proof.
  intros Hbord. unfold compose.
  pose proof (scan_holds select bitmaps (rectangle_reset, 0%nat, None))
    as [_ Hall]. cbn zeta in Hall.
  destruct (fold_left (scan_step select) bitmaps (rectangle_reset, 0%nat, None))
    as [[rect n] last]. cbn [fst] in Hall.
  destruct ((bord =? 0) && (n =? 1)%nat).
  { destruct last as [[b p] |]; split; discriminate. }
  destruct (n =? 0)%nat; [split; discriminate |].
  destruct (alloc_bitmap _ _) as [allocated |] eqn:Halloc;
    [| split; discriminate].
  apply alloc_bitmap_size in Halloc as [Hw Hh].
  set (dst := mkBitmap (x_min rect - bord) (y_min rect - bord)
                       (w allocated) (h allocated)).
  destruct (add_all_defined select bord dst bitmaps Hbord)
    as (added & -> & Hadded).
  { eapply Forall_impl; [exact Hall |]. intros ref Href b p Hsel.
    specialize (Href b p Hsel). unfold holds in Href. unfold padded, dst.
    cbn [left top w h]. lia. }
  split; [discriminate |]. intros dst' added' [= <- <-]. exact Hadded.
Qed.

End Construct.

(** ** The rectangle as [ass_utils.h] keeps it *)

Definition sample_update (r : ASS_Rect) (a b c d : Z) : ASS_Rect :=
  mkRect (Z.min (x_min r) a) (Z.min (y_min r) b)
         (Z.max (x_max r) c) (Z.max (y_max r) d).

Definition sample_reset : ASS_Rect :=
  mkRect 2147483647 2147483647 (-2147483648) (-2147483648).

Definition sample_alloc (width height : Z) : option Bitmap :=
  Some (mkBitmap 0 0 width height).

Lemma sample_update_widens r a b c d :
  let r' := sample_update r a b c d in
  x_min r' <= x_min r /\ x_min r' <= a /\ y_min r' <= y_min r /\ y_min r' <= b /\
  x_max r <= x_max r' /\ c <= x_max r' /\ y_max r <= y_max r' /\ d <= y_max r'.
Proof. unfold sample_update. simpl. lia. Qed.

Lemma sample_alloc_size width height b :
  sample_alloc width height = Some b -> w b = width /\ h b = height.
Proof. intros [= <-]. auto. Qed.

Definition sample_refs : list BitmapRef :=
  [mkRef (Some (mkBitmap (-2) 3 10 12)) None (100, 50) (0, 0);
   mkRef (Some (mkBitmap 1 (-4) 8 9)) None (130, 40) (0, 0)].

Lemma compose_asserts_hold_witness :
  compose sample_reset sample_update sample_alloc select_bm 2 sample_refs
  <> AssertFailed.
Proof.
  apply (compose_asserts_hold sample_reset sample_update sample_alloc
           sample_update_widens sample_alloc_size select_bm 2 sample_refs).
  lia.
Defined.

(** ** The shadow offset *)

(** The shadow offset, in 1/64 pixel, is split into whole pixels, by
    which the bitmap is moved, and a rest of 0 to 63 that is handed to
    [shift_bitmap]; the two parts add up to the offset for a negative
    offset as well as for a positive one. *)
Theorem place_shadow_splits (bm_s : Bitmap) (shadow : Z * Z) :
  let '(moved, (sub_x, sub_y)) := place_shadow bm_s shadow in
  64 * (left moved - left bm_s) + sub_x = shadow.1 /\ 0 <= sub_x < 64 /\
  64 * (top moved - top bm_s) + sub_y = shadow.2 /\ 0 <= sub_y < 64 /\
  w moved = w bm_s /\ h moved = h bm_s.
Proof.
  unfold place_shadow, SUBPIXEL_MASK. cbn [left top w h].
  change 63 with (Z.ones 6). rewrite !Z.land_ones, !Z.shiftr_div_pow2 by lia.
  change (2 ^ 6) with 64.
  pose proof (Z.div_mod shadow.1 64 ltac:(lia)).
  pose proof (Z.mod_pos_bound shadow.1 64 ltac:(lia)).
  pose proof (Z.div_mod shadow.2 64 ltac:(lia)).
  pose proof (Z.mod_pos_bound shadow.2 64 ltac:(lia)).
  repeat split; lia.
Qed.

End Composite.

(** * The transform quantizer *)

Module Transform.
Import Double.

Local Open Scope float_scope.

Definition POSITION_PRECISION : float := 8.
Definition MAX_PERSP_SCALE : float := 16.
Definition SUBPIXEL_ORDER : Z := 3.

Record ASS_Rect : Type := mkRect {
  x_min : Z;
  y_min : Z;
  x_max : Z;
  y_max : Z
}.

Record ASS_Vector : Type := mkVector { x : Z; y : Z }.

Record ASS_DVector : Type := mkDVector { dx : float; dy : float }.

(** [BitmapHashKey], with [cbox] for [key->outline->cbox]. *)
Record BitmapHashKey : Type := mkKey {
  cbox : ASS_Rect;
  offset : ASS_Vector;
  matrix_x : ASS_Vector;
  matrix_y : ASS_Vector;
  matrix_z : ASS_Vector
}.

(** [double m[3][3]], row by row. *)
Record matrix : Type := mkMatrix {
  m00 : float; m01 : float; m02 : float;
  m10 : float; m11 : float; m12 : float;
  m20 : float; m21 : float; m22 : float
}.

Definition max_val : float := 1000000.

(** [!(fabs(v) < max_val)]: true for a NaN as well. *)
Definition out_of_range (v : float) : bool := negb (fabs v <? max_val).

(** Half the sum and half the extent (plus 64) of a side of the box. *)
Definition box_center (lo hi : Z) : float := of_int (lo + hi)%Z / 2.
Definition box_half (lo hi : Z) : float := of_int (hi - lo)%Z / 2 + 64.

(** [for (i) m[i][2] += m[i][0] * x0 + m[i][1] * y0]. *)
Definition recenter (m : matrix) (x0 y0 : float) : matrix :=
  mkMatrix (m00 m) (m01 m) (m02 m + (m00 m * x0 + m01 m * y0))
           (m10 m) (m11 m) (m12 m + (m10 m * x0 + m11 m * y0))
           (m20 m) (m21 m) (m22 m + (m20 m * x0 + m21 m * y0)).

(** [for (i < 2) for (j < 2) m[i][j] -= m[2][j] * center[i]]. *)
Definition uncenter (m : matrix) (c0 c1 : float) : matrix :=
  mkMatrix (m00 m - m20 m * c0) (m01 m - m21 m * c0) (m02 m)
           (m10 m - m20 m * c1) (m11 m - m21 m * c1) (m12 m)
           (m20 m) (m21 m) (m22 m).

Section Quantizer.

(** [FFMAX] and [FFMIN] of [ass_utils.h], on doubles; the header is not
    among the sources.  On the two non-negative integers the code applies
    [FFMAX] to, it is [Z.max]. *)
Variable FFMAX : float -> float -> float.
Variable FFMIN : float -> float -> float.

(** [quantize_transform]: [None] for [false]; otherwise [m] as it is left,
    [pos], [offset] and [key].  [offset] is never null at the two calls. *)
Definition quantize_transform (m : matrix) (offset : ASS_DVector)
    (first : bool) (key : BitmapHashKey)
  : option (matrix * ASS_Vector * ASS_DVector * BitmapHashKey) :=
  let bbox := cbox key in
  let x0 := box_center (x_min bbox) (x_max bbox) in
  let y0 := box_center (y_min bbox) (y_max bbox) in
  let dx := box_half (x_min bbox) (x_max bbox) in
  let dy := box_half (y_min bbox) (y_max bbox) in
  let m := recenter m x0 y0 in
  if m22 m <=? 0 then None
  else
    let w := 1 / m22 m in
    let center0 := m02 m * w in
    let center1 := m12 m * w in
    let m := uncenter m center0 center1 in
    let delta0 := if first then 0 else Transform.dx offset in
    let delta1 := if first then 0 else Transform.dy offset in
    let center0 := center0 / of_int (Z.shiftr 64 SUBPIXEL_ORDER) - delta0 in
    if out_of_range center0 then None
    else
      let qr0 := lrint center0 in
      let center1 := center1 / of_int (Z.shiftr 64 SUBPIXEL_ORDER) - delta1 in
      if out_of_range center1 then None
      else
        let qr1 := lrint center1 in
        let z0 := m22 m - fabs (m20 m) * dx - fabs (m21 m) * dy in
        let w := 1 / POSITION_PRECISION
                 / FFMAX z0 (m22 m / MAX_PERSP_SCALE) in
        let mul0 := dx * w in
        let mul1 := dy * w in
        if out_of_range (m00 m * mul0) then None
        else
          let qm00 := lrint (m00 m * mul0) in
          if out_of_range (m01 m * mul1) then None
          else
            let qm01 := lrint (m01 m * mul1) in
            if out_of_range (m10 m * mul0) then None
            else
              let qm10 := lrint (m10 m * mul0) in
              if out_of_range (m11 m * mul1) then None
              else
                let qm11 := lrint (m11 m * mul1) in
                let qmx := (Z.abs qm00 + Z.abs qm01)%Z in
                let qmy := (Z.abs qm10 + Z.abs qm11)%Z in
                let w := POSITION_PRECISION * of_int (Z.max qmx qmy) in
                let mul0 := mul0 * w in
                let mul1 := mul1 * w in
                if out_of_range (m20 m * mul0) then None
                else
                  let qm20 := lrint (m20 m * mul0) in
                  if out_of_range (m21 m * mul1) then None
                  else
                    let qm21 := lrint (m21 m * mul1) in
                    let offset :=
                      if first
                      then mkDVector (center0 - of_int qr0)
                                     (center1 - of_int qr1)
                      else offset in
                    let mask := (Z.shiftl 1 SUBPIXEL_ORDER - 1)%Z in
                    Some (m,
                          mkVector (Z.shiftr qr0 SUBPIXEL_ORDER)
                                   (Z.shiftr qr1 SUBPIXEL_ORDER),
                          offset,
                          mkKey (cbox key)
                                (mkVector (Z.land qr0 mask) (Z.land qr1 mask))
                                (mkVector qm00 qm01) (mkVector qm10 qm11)
                                (mkVector qm20 qm21)).

(** [restore_transform]. *)
Definition restore_transform (key : BitmapHashKey) : matrix :=
  let bbox := cbox key in
  let x0 := box_center (x_min bbox) (x_max bbox) in
  let y0 := box_center (y_min bbox) (y_max bbox) in
  let dx := box_half (x_min bbox) (x_max bbox) in
  let dy := box_half (y_min bbox) (y_max bbox) in
  let q_x := POSITION_PRECISION / dx in
  let q_y := POSITION_PRECISION / dy in
  let a00 := of_int (x (matrix_x key)) * q_x in
  let a01 := of_int (y (matrix_x key)) * q_y in
  let a10 := of_int (x (matrix_y key)) * q_x in
  let a11 := of_int (y (matrix_y key)) * q_y in
  let qmx := (Z.abs (x (matrix_x key)) + Z.abs (y (matrix_x key)))%Z in
  let qmy := (Z.abs (x (matrix_y key)) + Z.abs (y (matrix_y key)))%Z in
  let scale_z := 1 / POSITION_PRECISION / of_int (Z.max qmx qmy) in
  let a20 := of_int (x (matrix_z key)) * q_x * scale_z in
  let a21 := of_int (y (matrix_z key)) * q_y * scale_z in
  let a22 := FFMIN (1 + fabs a20 * dx + fabs a21 * dy) MAX_PERSP_SCALE in
  let center0 :=
    of_int (x (offset key) * Z.shiftr 64 SUBPIXEL_ORDER)%Z in
  let center1 :=
    of_int (y (offset key) * Z.shiftr 64 SUBPIXEL_ORDER)%Z in
  let m := mkMatrix (a00 + a20 * center0) (a01 + a21 * center0)
                    (0 + a22 * center0)
                    (a10 + a20 * center1) (a11 + a21 * center1)
                    (0 + a22 * center1)
                    a20 a21 a22 in
  mkMatrix (m00 m) (m01 m) (m02 m - (m00 m * x0 + m01 m * y0))
           (m10 m) (m11 m) (m12 m - (m10 m * x0 + m11 m * y0))
           (m20 m) (m21 m) (m22 m - (m20 m * x0 + m21 m * y0)).

(** The quantities [quantize_transform] compares with [max_val], in the
    order it computes them: the two coordinates of the center, the four
    affine coefficients, the two coefficients of the perspective row. *)
Definition quantized (m : matrix) (offset : ASS_DVector) (first : bool)
    (key : BitmapHashKey) : list float :=
  let bbox := cbox key in
  let x0 := box_center (x_min bbox) (x_max bbox) in
  let y0 := box_center (y_min bbox) (y_max bbox) in
  let dx := box_half (x_min bbox) (x_max bbox) in
  let dy := box_half (y_min bbox) (y_max bbox) in
  let m := recenter m x0 y0 in
  let w := 1 / m22 m in
  let center0 := m02 m * w in
  let center1 := m12 m * w in
  let m := uncenter m center0 center1 in
  let delta0 := if first then 0 else Transform.dx offset in
  let delta1 := if first then 0 else Transform.dy offset in
  let center0 := center0 / of_int (Z.shiftr 64 SUBPIXEL_ORDER) - delta0 in
  let center1 := center1 / of_int (Z.shiftr 64 SUBPIXEL_ORDER) - delta1 in
  let z0 := m22 m - fabs (m20 m) * dx - fabs (m21 m) * dy in
  let w := 1 / POSITION_PRECISION / FFMAX z0 (m22 m / MAX_PERSP_SCALE) in
  let mul0 := dx * w in
  let mul1 := dy * w in
  let qmx := (Z.abs (lrint (m00 m * mul0)) + Z.abs (lrint (m01 m * mul1)))%Z in
  let qmy := (Z.abs (lrint (m10 m * mul0)) + Z.abs (lrint (m11 m * mul1)))%Z in
  let w := POSITION_PRECISION * of_int (Z.max qmx qmy) in
  [center0; center1;
   m00 m * mul0; m01 m * mul1; m10 m * mul0; m11 m * mul1;
   m20 m * (mul0 * w); m21 m * (mul1 * w)].

(** The z-scale at the center of the box, after recentering. *)
Definition center_z (m : matrix) (key : BitmapHashKey) : float :=
  let bbox := cbox key in
  m22 (recenter m (box_center (x_min bbox) (x_max bbox))
                  (box_center (y_min bbox) (y_max bbox))).

End Quantizer.

(** ** When a transform is rejected *)

Section Rejection.

Variable FFMAX : float -> float -> float.

Lemma quantize_transform_None m offset first key :
  quantize_transform FFMAX m offset first key = None <->
  (center_z m key <=? 0) = true \/
  Exists (fun v => out_of_range v = true)
         (quantized FFMAX m offset first key).
Proof.
  unfold quantize_transform, quantized, center_z. cbv zeta.
  rewrite !Exists_cons, Exists_nil.
  repeat match goal with
         | |- context [if ?c then None else _] => destruct c eqn:?
         end;
    split; intros; try reflexivity; try discriminate; try tauto;
    intuition discriminate.
Qed.

(** [qr >> SUBPIXEL_ORDER] and [qr & ((1 << SUBPIXEL_ORDER) - 1)] split
    [qr] into whole pixels and eighths. *)
Lemma subpixel_split (qr : Z) :
  (Z.shiftr qr SUBPIXEL_ORDER * 8
   + Z.land qr (Z.shiftl 1 SUBPIXEL_ORDER - 1) = qr)%Z /\
  (0 <= Z.land qr (Z.shiftl 1 SUBPIXEL_ORDER - 1) < 8)%Z.
Proof.
  unfold SUBPIXEL_ORDER. change (Z.shiftl 1 3 - 1)%Z with (Z.ones 3).
  rewrite Z.land_ones by lia. rewrite Z.shiftr_div_pow2 by lia.
  change (2 ^ 3)%Z with 8%Z.
  pose proof (Z.div_mod qr 8 ltac:(lia)).
  pose proof (Z.mod_pos_bound qr 8 ltac:(lia)). lia.
Qed.

Lemma quantize_transform_Some m offset first key m' pos offset' key' :
  quantize_transform FFMAX m offset first key
    = Some (m', pos, offset', key') ->
  let q := fun i => nth i (quantized FFMAX m offset first key) 0 in
  (center_z m key <=? 0) = false /\
  Forall (fun v => (fabs v <? max_val) = true)
         (quantized FFMAX m offset first key) /\
  (x pos * 8 + x (Transform.offset key') = lrint (q 0%nat))%Z /\
  (y pos * 8 + y (Transform.offset key') = lrint (q 1%nat))%Z /\
  (0 <= x (Transform.offset key') < 8)%Z /\
  (0 <= y (Transform.offset key') < 8)%Z /\
  matrix_x key' = mkVector (lrint (q 2%nat)) (lrint (q 3%nat)) /\
  matrix_y key' = mkVector (lrint (q 4%nat)) (lrint (q 5%nat)) /\
  matrix_z key' = mkVector (lrint (q 6%nat)) (lrint (q 7%nat)) /\
  cbox key' = cbox key.
Proof.
  unfold quantize_transform, quantized, center_z, out_of_range. cbv zeta.
  repeat match goal with
         | |- context [if negb ?c then None else _] =>
             destruct c eqn:?; cbn [negb]
         | |- context [if ?c then None else _] => destruct c eqn:?
         end; try discriminate.
  intros [= <- <- <- <-]. cbn [nth x y Transform.offset matrix_x matrix_y
                                 matrix_z cbox].
  split; [reflexivity |]. split; [repeat constructor; assumption |].
  split; [apply subpixel_split |]. split; [apply subpixel_split |].
  split; [apply subpixel_split |]. split; [apply subpixel_split |].
  repeat split.
Qed.

(** C1: [quantize_transform] returns false exactly when, after the
    recentering about the center of the bounding box, [m[2][2] <= 0], or one
    of the quantities it quantizes (the two coordinates of the center, the
    four affine coefficients, the two coefficients of the perspective row)
    fails [fabs(v) < 1000000]; when it returns true, every one of them
    passed the test and [pos] and [key] hold their roundings: the center
    split into whole pixels ([pos]) and eighths ([key->offset]), and the
    three rows of the matrix. *)
Theorem quantize_transform_rejects m offset first key :
  (quantize_transform FFMAX m offset first key = None <->
   (center_z m key <=? 0) = true \/
   Exists (fun v => (fabs v <? max_val) = false)
          (quantized FFMAX m offset first key)) /\
  (forall m' pos offset' key',
     quantize_transform FFMAX m offset first key
       = Some (m', pos, offset', key') ->
     let q := fun i => nth i (quantized FFMAX m offset first key) 0 in
     Forall (fun v => (fabs v <? max_val) = true)
            (quantized FFMAX m offset first key) /\
     (x pos * 8 + x (Transform.offset key') = lrint (q 0%nat))%Z /\
     (y pos * 8 + y (Transform.offset key') = lrint (q 1%nat))%Z /\
     (0 <= x (Transform.offset key') < 8)%Z /\
     (0 <= y (Transform.offset key') < 8)%Z /\
     matrix_x key' = mkVector (lrint (q 2%nat)) (lrint (q 3%nat)) /\
     matrix_y key' = mkVector (lrint (q 4%nat)) (lrint (q 5%nat)) /\
     matrix_z key' = mkVector (lrint (q 6%nat)) (lrint (q 7%nat)) /\
     cbox key' = cbox key).
Proof.
  split.
  - rewrite quantize_transform_None. apply or_iff_compat_l.
    rewrite !Exists_exists. unfold out_of_range.
    split; intros (v & Hv & H); exists v; (split; [exact Hv |]);
      destruct (fabs v <? max_val); simpl in *; congruence.
  - intros m' pos offset' key' H.
    apply (quantize_transform_Some m offset first key m' pos offset' key' H).
Qed.

End Rejection.

(** ** A transform that is accepted and not restored *)

(** The customary definitions of the two macros. *)
Definition FFMAX_macro (a b : float) : float := if b <? a then a else b.
Definition FFMIN_macro (a b : float) : float := if b <? a then b else a.

(** A glyph scaled to nothing ([\fscx0\fscy0]) and placed at (100, 50)
    pixels, with a bounding box of 10 by 10 pixels. *)
Definition flat : matrix := mkMatrix 0 0 6400 0 0 3200 0 0 1.

Definition flat_key : BitmapHashKey :=
  mkKey (mkRect 0 0 640 640) (mkVector 0 0) (mkVector 0 0) (mkVector 0 0)
        (mkVector 0 0).

Definition all_nan (m : matrix) : bool :=
  PrimFloat.is_nan (m00 m) && PrimFloat.is_nan (m01 m) &&
  PrimFloat.is_nan (m02 m) && PrimFloat.is_nan (m10 m) &&
  PrimFloat.is_nan (m11 m) && PrimFloat.is_nan (m12 m) &&
  PrimFloat.is_nan (m20 m) && PrimFloat.is_nan (m21 m) &&
  PrimFloat.is_nan (m22 m).

(** [quantize_transform] accepts the transform, with a key whose matrix is
    zero, and [restore_transform] of that key is a matrix of NaN: with
    [FFMAX(qmx, qmy) = 0], [scale_z] is infinite and [0 * q_x * scale_z] is
    NaN. *)
Theorem restore_transform_of_flat_is_nan :
  exists m' key,
    quantize_transform FFMAX_macro flat (mkDVector 0 0) true flat_key
      = Some (m', mkVector 100 50, mkDVector 0 0, key) /\
    all_nan (restore_transform FFMIN_macro key) = true.
Proof. do 2 eexists. split; vm_compute; reflexivity. Qed.

(** The unit transform at the same place comes back as it was, up to the
    whole pixels carried by [pos]. *)
Example restore_transform_of_unit :
  exists m' pos key,
    quantize_transform FFMAX_macro (mkMatrix 1 0 6400 0 1 3200 0 0 1)
      (mkDVector 0 0) true flat_key
      = Some (m', pos, mkDVector 0 0, key) /\
    pos = mkVector 105 55 /\
    restore_transform FFMIN_macro key = mkMatrix 1 0 (-320) 0 1 (-320) 0 0 1.
Proof. do 3 eexists. split; [| split]; vm_compute; reflexivity. Qed.

Lemma quantize_transform_rejects_witness :
  quantize_transform FFMAX_macro (mkMatrix 1 0 0 0 1 0 0 0 (-1))
    (mkDVector 0 0) true flat_key = None.
Proof.
  apply (proj1 (quantize_transform_rejects FFMAX_macro
                  (mkMatrix 1 0 0 0 1 0 0 0 (-1)) (mkDVector 0 0) true
                  flat_key)).
  left. vm_compute. reflexivity.
Defined.

End Transform.

(** * Blur quantization *)

(** [quantize_blur] and [restore_blur] in binary64, as the code computes
    them.  [log1p] and [expm1] of the C library, which the binary64
    primitives do not provide, are parameters of the two functions; what
    the theorems ask of them is asked of the values they return for the
    arguments the code hands them.  The value [lrint] returns is kept as an
    integer: it fits an [int] for every radius a double can hold. *)

Module Blur.
Import Double Binary64.

Definition POSITION_PRECISION : float := 8.
Definition BLUR_PRECISION : float := 1 / 256.

(** [const double scale = 64 * BLUR_PRECISION / POSITION_PRECISION]. *)
Definition scale : float := 64 * BLUR_PRECISION / POSITION_PRECISION.

(** The exponent [frexp] stores: 0 for a zero; C leaves it unspecified for
    an infinity or a NaN. *)
Definition frexp_exp (x : float) : option Z :=
  match Prim2SF x with
  | S754_zero _ => Some 0
  | S754_finite _ _ _ => Some (Z.frexp x).2
  | _ => None
  end.

(** Conversion of a [uint32_t] to [int32_t]. *)
Definition to_int32 (u : Z) : Z :=
  if u <? 2 ^ 31 then u else u - 2 ^ 32.

(** [((uint32_t) 1 << ord) - 1], stored in an [int32_t]; C leaves the
    shift undefined when [ord] is negative or at least 32. *)
Definition mask_of (ord : Z) : option Z :=
  if (0 <=? ord) && (ord <? 32)
  then Some (to_int32 ((Z.shiftl 1 ord mod 2 ^ 32 - 1) mod 2 ^ 32))
  else None.

Section Libm.

(** [log1p] and [expm1] of the C library. *)
Variable log1p : float -> float.
Variable expm1 : float -> float.

(** [quantize_blur]: the value returned and the one written to
    [*shadow_mask] ([None] where C does not define it). *)
Definition quantize_blur (radius : float) : Z * option Z :=
  let radius := (radius * scale)%float in
  let ord := frexp_exp ((1 + radius) * (POSITION_PRECISION / 2))%float in
  (lrint (log1p radius / BLUR_PRECISION)%float,
   match ord with Some ord => mask_of ord | None => None end).

Definition restore_blur (qblur : Z) : float :=
  let sigma := (expm1 (BLUR_PRECISION * of_int qblur) / scale)%float in
  (sigma * sigma)%float.

End Libm.

(** ** What is asked of the C library *)

(** [2^-30]. *)
Definition libm_error : R := (/ 1073741824)%R.

(** [y] is finite and stands for [v] with a relative error of at most
    [2^-30]. *)
Definition accurate (y : float) (v : R) : Prop :=
  finite y = true /\ (Rabs (F2R y - v) <= Rabs v * libm_error)%R.

(** ** Real numbers *)

Local Open Scope R_scope.

Lemma exp_le x y : x <= y -> exp x <= exp y.
Proof.
  intros [H | ->]; [left; apply exp_increasing; exact H | right; reflexivity].
Qed.

Lemma exp_le_inv x y : exp x <= exp y -> x <= y.
Proof.
  intros H. destruct (Rle_lt_dec x y) as [Hle | Hlt]; [exact Hle |].
  apply exp_increasing in Hlt. lra.
Qed.

Lemma exp_upper y : 0 <= y < 1 -> exp y <= / (1 - y).
Proof.
  intros Hy. pose proof (exp_ineq1_le (- y)) as H.
  pose proof (exp_pos y) as Hp. pose proof (exp_pos (- y)) as Hn.
  assert (He : exp y * exp (- y) = 1).
  { rewrite <- exp_plus. replace (y + - y) with 0 by ring. apply exp_0. }
  apply Rmult_le_reg_r with (1 - y); [lra |].
  rewrite Rinv_l by lra. nra.
Qed.

Lemma ln_1p_bounds X : 0 < X -> X / (1 + X) <= ln (1 + X) <= X.
Proof.
  intros HX. split; apply exp_le_inv; rewrite exp_ln by lra.
  - assert (Hy : 0 <= X / (1 + X) < 1).
    { split.
      - apply Rmult_le_pos; [lra |]. left. apply Rinv_0_lt_compat. lra.
      - apply Rmult_lt_reg_r with (1 + X); [lra |].
        unfold Rdiv. rewrite Rmult_assoc, Rinv_l by lra. lra. }
    eapply Rle_trans; [apply exp_upper; exact Hy |].
    replace (1 - X / (1 + X)) with (/ (1 + X)) by (field; lra).
    rewrite Rinv_inv. lra.
  - apply exp_ineq1_le.
Qed.

Lemma Rabs_bounds a b : Rabs a <= b -> - b <= a <= b.
Proof.
  intros H. pose proof (Rle_abs a) as H1. pose proof (Rle_abs (- a)) as H2.
  rewrite Rabs_Ropp in H2. lra.
Qed.

(** What [log1p] returns for an argument between 0 and [2^15]. *)
Lemma log_side X L :
  0 < X <= 32768 ->
  Rabs (L - ln (1 + X)) <= Rabs (ln (1 + X)) * libm_error ->
  X / 131072 <= L <= 65536.
Proof.
  intros HX HL. pose proof (ln_1p_bounds X ltac:(lra)) as [Hlo Hhi].
  assert (Hq : X / 32769 <= X / (1 + X)).
  { unfold Rdiv. apply Rmult_le_compat_l; [lra |].
    apply Rinv_le_contravar; lra. }
  rewrite (Rabs_pos_eq (ln (1 + X))) in HL by lra.
  apply Rabs_bounds in HL. unfold libm_error in HL. lra.
Qed.

(** The index [lrint] makes of it. *)
Lemma index_range L (n : Z) :
  0 < L <= 65536 -> Rabs (IZR n - 256 * L) <= 1 / 2 ->
  (0 <= n <= 16777217)%Z.
Proof.
  intros HL Hn. apply Rabs_bounds in Hn. split.
  - assert (H : (-1 < n)%Z); [apply lt_IZR; lra | lia].
  - assert (H : (n < 16777218)%Z); [apply lt_IZR; lra | lia].
Qed.

(** The round trip in real numbers: [X] is the scaled radius, [L] what
    [log1p] returns, [n] the index, [E] what [expm1] returns for
    [n / 256]. *)
Lemma round_trip_real X L E (n : Z) :
  0 < X <= 32768 ->
  Rabs (L - ln (1 + X)) <= Rabs (ln (1 + X)) * libm_error ->
  Rabs (IZR n - 256 * L) <= 1 / 2 ->
  Rabs (E - (exp (IZR n / 256) - 1))
    <= Rabs (exp (IZR n / 256) - 1) * libm_error ->
  0 <= E <= 4 * X /\ Rabs (E - X) <= (1 + X) / 400 /\
  ((1 <= n)%Z -> / 512 <= E <= 131072).
Proof.
  intros HX HL Hn HE.
  pose proof (ln_1p_bounds X ltac:(lra)) as [Hlo Hhi].
  set (lam := ln (1 + X)) in *.
  assert (Hlam : 0 < lam).
  { eapply Rlt_le_trans; [| exact Hlo].
    apply Rmult_lt_0_compat; [lra |]. apply Rinv_0_lt_compat. lra. }
  rewrite (Rabs_pos_eq lam) in HL by lra.
  apply Rabs_bounds in HL. apply Rabs_bounds in Hn.
  unfold libm_error in *.
  set (A := IZR n / 256) in *.
  assert (HA : lam - / 501 <= A <= lam + / 501) by (unfold A; lra).
  assert (Hn0 : (0 <= n)%Z).
  { assert (H : (-1 < n)%Z); [apply lt_IZR; lra | lia]. }
  assert (HA0 : 0 <= A).
  { unfold A. apply IZR_le in Hn0. lra. }
  assert (Hexp : exp lam = 1 + X) by (unfold lam; apply exp_ln; lra).
  assert (Hup : exp A <= (1 + X) * (501 / 500)).
  { apply Rle_trans with (exp (lam + / 501)); [apply exp_le; lra |].
    rewrite exp_plus, Hexp.
    pose proof (exp_upper (/ 501) ltac:(lra)) as H.
    replace (/ (1 - / 501)) with (501 / 500) in H by lra. nra. }
  assert (Hdn : (1 + X) * (500 / 501) <= exp A).
  { apply Rle_trans with (exp (lam + - / 501)); [| apply exp_le; lra].
    rewrite exp_plus, Hexp.
    pose proof (exp_ineq1_le (- / 501)) as H. nra. }
  assert (Ht : 0 <= exp A - 1).
  { pose proof (exp_le 0 A HA0) as H. rewrite exp_0 in H. lra. }
  rewrite (Rabs_pos_eq (exp A - 1)) in HE by exact Ht.
  apply Rabs_bounds in HE.
  assert (Hnear : Rabs (E - X) <= (1 + X) / 400).
  { apply Rabs_le. lra. }
  split; [| split; [exact Hnear |]].
  - split; [lra |].
    destruct (Z.eq_dec n 0%Z) as [-> | Hne].
    + unfold A in HE. replace (0 / 256) with 0 in HE by lra.
      rewrite exp_0 in HE. lra.
    + assert (H1 : 1 <= IZR n) by (apply (IZR_le 1); lia).
      apply Rabs_bounds in Hnear. lra.
  - intros H1. apply (IZR_le 1) in H1.
    pose proof (exp_ineq1_le A) as HeA.
    apply Rabs_bounds in Hnear. unfold A in *. lra.
Qed.

(** ** The constants *)

Lemma scale_SF : Prim2SF scale = S754_finite false two_52 (-5 - 52).
Proof. reflexivity. Qed.

Lemma BLUR_PRECISION_SF :
  Prim2SF BLUR_PRECISION = S754_finite false two_52 (-8 - 52).
Proof. reflexivity. Qed.

Lemma zero_SF : Prim2SF 0%float = S754_zero false.
Proof. reflexivity. Qed.

(** A value that is accurate for 0 is a zero. *)
Lemma accurate_zero (y : float) (v : R) :
  v = 0 -> accurate y v -> exists s, Prim2SF y = S754_zero s.
Proof.
  intros -> [Hf Hy]. apply finite_zero; [exact Hf |].
  rewrite Rabs_R0, Rmult_0_l, Rminus_0_r in Hy.
  pose proof (Rabs_pos (F2R y)) as Hp.
  destruct (Req_dec (F2R y) 0) as [E | Hne]; [exact E |].
  apply Rabs_pos_lt in Hne. lra.
Qed.

Section RoundTrip.

Variable log1p : float -> float.
Variable expm1 : float -> float.

Abbreviation quantize_blur := (quantize_blur log1p).
Abbreviation restore_blur := (restore_blur expm1).

(** *** The radius zero *)

Lemma quantize_blur_zero (r : float) (s : bool) :
  Prim2SF r = S754_zero s ->
  accurate (log1p (r * scale)) (ln (1 + F2R (r * scale))) ->
  quantize_blur r = (0%Z, Some 7%Z).
Proof.
  intros Hr Hacc.
  assert (Hx : Prim2SF (r * scale) = S754_zero s).
  { rewrite mul_spec, Hr, scale_SF. simpl. rewrite xorb_false_r. reflexivity. }
  destruct (accurate_zero _ _ (eq_trans (f_equal (fun t => ln (1 + t))
              (F2R_zero _ _ Hx)) (eq_trans (f_equal ln (Rplus_0_r 1)) ln_1))
              Hacc) as [s' Hl].
  unfold Blur.quantize_blur. f_equal.
  - unfold lrint. rewrite div_spec, Hl, BLUR_PRECISION_SF. reflexivity.
  - assert (Hr' : r = SF2Prim (S754_zero s)).
    { rewrite <- Hr. symmetry. apply SF2Prim_Prim2SF. }
    rewrite Hr'. destruct s; vm_compute; reflexivity.
Qed.

Lemma restore_blur_zero :
  accurate (expm1 (BLUR_PRECISION * of_int 0))
           (exp (F2R (BLUR_PRECISION * of_int 0)) - 1) ->
  restore_blur 0 = 0%float /\
  exists s, Prim2SF (expm1 (BLUR_PRECISION * of_int 0) / scale)
            = S754_zero s.
Proof.
  intros Hacc.
  assert (Ha : F2R (BLUR_PRECISION * of_int 0) = 0).
  { change (BLUR_PRECISION * of_int 0)%float with 0%float.
    unfold F2R. rewrite zero_SF. reflexivity. }
  destruct (accurate_zero _ _ (eq_trans (f_equal (fun t => exp t - 1) Ha)
              (eq_trans (f_equal (fun t => t - 1) exp_0) (Rminus_diag 1)))
              Hacc) as [s He].
  assert (Hs : Prim2SF (expm1 (BLUR_PRECISION * of_int 0) / scale)
               = S754_zero s).
  { rewrite div_spec, He, scale_SF. simpl. rewrite xorb_false_r.
    reflexivity. }
  split; [| eauto].
  unfold Blur.restore_blur. apply Prim2SF_inj.
  rewrite mul_spec, Hs, zero_SF. simpl. destruct s; reflexivity.
Qed.

(** *** A positive radius *)

Lemma pow2_values :
  powerRZ 2 20 = 1048576 /\ powerRZ 2 (-5) = / 32 /\ powerRZ 2 5 = 32 /\
  powerRZ 2 8 = 256 /\ powerRZ 2 (-8) = / 256 /\
  powerRZ 2 (-17) = / 131072 /\ powerRZ 2 16 = 65536 /\
  powerRZ 2 (-9) = / 512 /\ powerRZ 2 17 = 131072.
Proof. repeat split; simpl; lra. Qed.

(** The exponent of a normal double whose value is between two powers of
    two. *)
Lemma normal_exponent (m : positive) (e lo hi : Z) :
  Zdigits2 (Zpos m) = 53%Z ->
  powerRZ 2 lo <= IZR (Zpos m) * powerRZ 2 e <= powerRZ 2 hi ->
  (lo - 53 < e <= hi - 52)%Z.
Proof.
  intros Hd [Hlo Hhi]. pose proof (normal_value m e Hd) as [H1 H2].
  assert (Ha : (lo < e + 53)%Z) by (apply powerRZ_2_lt_inv; lra).
  assert (Hb : (e + 52 < hi + 1)%Z).
  { apply powerRZ_2_lt_inv. rewrite (powerRZ_2_add hi 1).
    pose proof (powerRZ_2_pos hi). simpl (powerRZ 2 1). lra. }
  lia.
Qed.

(** The scaled radius and the index. *)
Lemma quantize_blur_positive (r : float) :
  finite r = true ->
  powerRZ 2 (-900) <= F2R r <= powerRZ 2 20 ->
  accurate (log1p (r * scale)) (ln (1 + F2R (r * scale))) ->
  F2R (r * scale) = F2R r / 32 /\
  Rabs (IZR (quantize_blur r).1 - 256 * F2R (log1p (r * scale))) <= 1 / 2.
Proof.
  intros Hfin [Hlo Hhi] [Hlf Hacc].
  destruct pow2_values as (P20 & Pm5 & P5 & P8 & Pm8 & Pm17 & P16 & Pm9 & P17).
  pose proof (powerRZ_2_pos (-900)) as Hp900.
  destruct (finite_positive r Hfin ltac:(lra)) as (m & e & Hr & HR).
  assert (Hd : Zdigits2 (Zpos m) = 53%Z).
  { apply (large_normal r false m e Hr). rewrite <- HR.
    pose proof (powerRZ_2_le (-1022) (-900) ltac:(lia)). lra. }
  destruct (normal_exponent m e (-900) 20 Hd ltac:(lra)) as [He1 He2].
  assert (Hx : Prim2SF (r * scale) = S754_finite false m (e + -5)).
  { apply (mul_pow2_r r scale false m e (-5) Hr Hd scale_SF). lia. }
  assert (HX : F2R (r * scale) = F2R r / 32).
  { unfold F2R at 1. rewrite Hx. cbn [SF2R]. rewrite powerRZ_2_add, Pm5, HR.
    field. }
  split; [exact HX |].
  set (X := F2R (r * scale)) in *.
  assert (HXr : powerRZ 2 (-905) <= X <= 32768).
  { replace (-905)%Z with (-900 + -5)%Z by lia.
    rewrite powerRZ_2_add, Pm5, HX. lra. }
  pose proof (powerRZ_2_pos (-905)) as Hp905.
  pose proof (log_side X _ ltac:(lra) Hacc) as [HL1 HL2].
  set (l := log1p (r * scale)) in *.
  assert (HLlo : powerRZ 2 (-922) <= F2R l).
  { replace (-922)%Z with (-905 + -17)%Z by lia.
    rewrite powerRZ_2_add, Pm17. lra. }
  pose proof (powerRZ_2_pos (-922)) as Hp922.
  destruct (finite_positive l Hlf ltac:(lra)) as (ml & el & Hl & HL).
  assert (Hdl : Zdigits2 (Zpos ml) = 53%Z).
  { apply (large_normal l false ml el Hl). rewrite <- HL.
    pose proof (powerRZ_2_le (-1022) (-922) ltac:(lia)). lra. }
  destruct (normal_exponent ml el (-922) 16 Hdl ltac:(lra)) as [Hel1 Hel2].
  assert (Hq : Prim2SF (l / BLUR_PRECISION) = S754_finite false ml (el + 8)).
  { apply (div_pow2 l BLUR_PRECISION false ml el 8 Hl Hdl BLUR_PRECISION_SF).
    lia. }
  assert (HQ : F2R (l / BLUR_PRECISION) = 256 * F2R l).
  { unfold F2R at 1. rewrite Hq. cbn [SF2R]. rewrite powerRZ_2_add, P8, HL.
    ring. }
  unfold Blur.quantize_blur. cbn [fst]. fold l. rewrite <- HQ.
  apply lrint_near. unfold finite. rewrite Hq. reflexivity.
Qed.

(** The argument of [expm1] is the index over 256, exactly. *)
Lemma expm1_argument (n : Z) :
  (1 <= n <= 16777217)%Z ->
  F2R (BLUR_PRECISION * of_int n) = IZR n / 256.
Proof.
  intros Hn.
  destruct pow2_values as (P20 & Pm5 & P5 & P8 & Pm8 & Pm17 & P16 & Pm9 & P17).
  destruct (of_int_exact n ltac:(change (2 ^ 53)%Z with 9007199254740992%Z; lia))
    as (m & e & Hq & Hd & He & Hm).
  assert (Ha : Prim2SF (BLUR_PRECISION * of_int n)
               = S754_finite false m (e + -8)).
  { apply (mul_pow2_l (of_int n) BLUR_PRECISION false m e (-8) Hq Hd
             BLUR_PRECISION_SF). lia. }
  unfold F2R. rewrite Ha. cbn [SF2R]. rewrite Hm, mult_IZR.
  rewrite <- powerRZ_pow2 by lia. rewrite powerRZ_2_add, Pm8.
  assert (H : powerRZ 2 (- e) * powerRZ 2 e = 1).
  { rewrite <- powerRZ_2_add. replace (- e + e)%Z with 0%Z by lia.
    reflexivity. }
  replace (IZR n * powerRZ 2 (- e) * (powerRZ 2 e * / 256))
    with (IZR n * (powerRZ 2 (- e) * powerRZ 2 e) / 256) by (unfold Rdiv; ring).
  rewrite H. lra.
Qed.

(** The radius that is squared, and its square. *)
Lemma sigma_positive (y : float) :
  finite y = true -> / 512 <= F2R y <= 131072 ->
  finite (y / scale) = true /\
  F2R (y / scale) = 32 * F2R y /\
  finite (y / scale * (y / scale)) = true /\
  Rabs (F2R (y / scale * (y / scale)) - F2R (y / scale) * F2R (y / scale))
  <= F2R (y / scale) * F2R (y / scale) * powerRZ 2 (-52).
Proof.
  intros Hf [Hlo Hhi].
  destruct pow2_values as (P20 & Pm5 & P5 & P8 & Pm8 & Pm17 & P16 & Pm9 & P17).
  destruct (finite_positive y Hf ltac:(lra)) as (m & e & Hy & HY).
  assert (Hd : Zdigits2 (Zpos m) = 53%Z).
  { apply (large_normal y false m e Hy). rewrite <- HY.
    pose proof (powerRZ_2_le (-1022) (-9) ltac:(lia)). lra. }
  destruct (normal_exponent m e (-9) 17 Hd ltac:(lra)) as [He1 He2].
  assert (Hs : Prim2SF (y / scale) = S754_finite false m (e + 5)).
  { apply (div_pow2 y scale false m e 5 Hy Hd scale_SF). lia. }
  split; [unfold finite; rewrite Hs; reflexivity |].
  split.
  - unfold F2R at 1. rewrite Hs. cbn [SF2R]. rewrite powerRZ_2_add, P5, HY.
    ring.
  - apply (mul_near (y / scale) (y / scale) m (e + 5) m (e + 5) Hs Hd Hs Hd).
    lia.
Qed.

Lemma pow2_m52 : 0 < powerRZ 2 (-52) <= / 1024.
Proof.
  split; [apply powerRZ_2_pos |].
  pose proof (powerRZ_2_le (-52) (-10) ltac:(lia)) as H.
  simpl (powerRZ 2 (-10)) in H. lra.
Qed.

(** From the radius that is squared to its square. *)
Lemma variance_bounds (R S V : R) :
  0 <= R -> 0 <= S <= 4 * R -> Rabs (S - R) <= (32 + R) / 400 ->
  Rabs (V - S * S) <= S * S * powerRZ 2 (-52) ->
  Rabs (V - R * R) <= 16 * (R * R) /\
  Rabs (V - R * R) <= (32 + R) * (32 + R) / 150.
Proof.
  intros HR HS Hnear HV. pose proof pow2_m52 as [He1 He2].
  apply Rabs_bounds in Hnear. apply Rabs_bounds in HV.
  set (eps := powerRZ 2 (-52)) in *.
  assert (HSS : 0 <= S * S) by nra.
  assert (Hse : 0 <= S * S * eps <= S * S / 1024) by nra.
  assert (Hsq : - ((32 + R) * (32 + R) / 199) <= S * S - R * R
                <= (32 + R) * (32 + R) / 199) by nra.
  assert (Hs2 : S * S <= 2 * ((32 + R) * (32 + R))) by nra.
  split; apply Rabs_le; split; nra.
Qed.


End RoundTrip.


(** A radius of [2^-35], with [log1p] and [expm1] cut to their first-order
    term, which is accurate enough this close to 0. *)
Definition tiny_radius : float := 0x1p-35%float.
Definition first_order (x : float) : float := x.
Definition tiny_variance : float :=
  restore_blur first_order (quantize_blur first_order tiny_radius).1.


(** ** The step of the shadow offset *)

Lemma mask_of_ones (ord : Z) :
  (0 <= ord <= 31)%Z -> mask_of ord = Some (2 ^ ord - 1)%Z.
Proof.
  intros Hord. unfold mask_of, to_int32.
  destruct (Z.leb_spec 0 ord); [| lia].
  destruct (Z.ltb_spec ord 32); [| lia]. cbn [andb].
  rewrite Z.shiftl_1_l.
  assert (H1 : (0 < 2 ^ ord)%Z) by (apply Z.pow_pos_nonneg; lia).
  assert (H2 : (2 ^ ord <= 2 ^ 31)%Z) by (apply Z.pow_le_mono_r; lia).
  assert (H3 : (2 ^ 31 < 2 ^ 32)%Z) by reflexivity.
  rewrite (Z.mod_small (2 ^ ord)) by lia.
  rewrite Z.mod_small by lia.
  destruct (Z.ltb_spec (2 ^ ord - 1) (2 ^ 31)); [reflexivity | lia].
Qed.

Lemma half_precision_SF :
  Prim2SF (POSITION_PRECISION / 2) = S754_finite false two_52 (2 - 52).
Proof. reflexivity. Qed.

Section ShadowStep.

Variable log1p : float -> float.

(** The mask [quantize_blur] writes for a radius [r] that is 0 or between
    [2^-900] and [2^20] is [2^ord - 1] with [3 <= ord <= 19]: the shadow
    offset is never kept finer than in eighths of a pixel.  [2^ord] is the
    power of two just above the double [t] the code hands to [frexp],
    [2^(ord-1) <= t < 2^ord], and [t] is
    [(1 + r * scale) * POSITION_PRECISION / 2] with a relative error of at
    most [2^-52]: [ord - 1] is the [floor(log2(...))] of the comment in the
    code, taken of the rounded value. *)
Theorem quantize_blur_shadow_step (r : float) :
  finite r = true ->
  F2R r = 0 \/ powerRZ 2 (-900) <= F2R r <= powerRZ 2 20 ->
  let t := ((1 + r * scale) * (POSITION_PRECISION / 2))%float in
  exists ord : Z,
    (3 <= ord <= 19)%Z /\
    (quantize_blur log1p r).2 = Some (2 ^ ord - 1)%Z /\
    powerRZ 2 (ord - 1) <= F2R t < powerRZ 2 ord /\
    Rabs (F2R t - 4 * (1 + F2R r / 32))
      <= 4 * (1 + F2R r / 32) * powerRZ 2 (-52).
Proof.
  intros Hfin Hrange. cbn zeta.
  pose proof pow2_m52 as [He1 He2].
  destruct Hrange as [H0 | Hpos].
  - destruct (finite_zero r Hfin H0) as [s Hr].
    assert (Hr' : r = SF2Prim (S754_zero s)).
    { rewrite <- Hr. symmetry. apply SF2Prim_Prim2SF. }
    exists 3%Z. split; [lia |].
    assert (Ht : ((1 + r * scale) * (POSITION_PRECISION / 2))%float = 4%float).
    { rewrite Hr'. destruct s; reflexivity. }
    split; [| split].
    + unfold quantize_blur. cbn [snd]. rewrite Ht. reflexivity.
    + rewrite Ht. unfold F2R.
      change (Prim2SF 4) with (S754_finite false two_52 (-50)). cbn [SF2R].
      change (Zpos two_52) with (2 ^ 52)%Z.
      rewrite <- powerRZ_pow2, <- powerRZ_2_add by lia.
      split; [apply powerRZ_2_le; lia |].
      change (3 - 1)%Z with 2%Z. simpl. lra.
    + rewrite Ht, H0. unfold F2R at 1.
      change (Prim2SF 4) with (S754_finite false two_52 (-50)). cbn [SF2R].
      change (Zpos two_52) with (2 ^ 52)%Z.
      rewrite <- powerRZ_pow2, <- powerRZ_2_add by lia.
      change (52 + -50)%Z with 2%Z. simpl (powerRZ 2 2).
      replace (2 * (2 * 1) - 4 * (1 + 0 / 32)) with 0 by lra.
      rewrite Rabs_R0. lra.
  - destruct pow2_values as (P20 & Pm5 & P5 & P8 & Pm8 & Pm17 & P16 & Pm9 & P17).
    pose proof (powerRZ_2_pos (-900)) as Hp900.
    destruct (finite_positive r Hfin ltac:(lra)) as (m & e & Hr & HR).
    assert (Hd : Zdigits2 (Zpos m) = 53%Z).
    { apply (large_normal r false m e Hr). rewrite <- HR.
      pose proof (powerRZ_2_le (-1022) (-900) ltac:(lia)). lra. }
    destruct (normal_exponent m e (-900) 20 Hd ltac:(lra)) as [Hx1 Hx2].
    assert (Hx : Prim2SF (r * scale) = S754_finite false m (e + -5)).
    { apply (mul_pow2_r r scale false m e (-5) Hr Hd scale_SF). lia. }
    assert (HX : F2R (r * scale) = F2R r / 32).
    { unfold F2R at 1. rewrite Hx. cbn [SF2R].
      rewrite powerRZ_2_add, Pm5, HR. field. }
    destruct (add_one_near (r * scale) m (e + -5) Hx Hd ltac:(lia))
      as (M & E & Hs & HdM & Herr & Hone).
    rewrite HX in Herr.
    set (y := (1 + r * scale)%float) in *.
    assert (HY : F2R y = IZR (Zpos M) * powerRZ 2 E).
    { unfold F2R. rewrite Hs. reflexivity. }
    assert (Hyr : powerRZ 2 0 <= IZR (Zpos M) * powerRZ 2 E <= powerRZ 2 16).
    { rewrite <- HY, P16. simpl (powerRZ 2 0).
      apply Rabs_bounds in Herr. split; [exact Hone | nra]. }
    destruct (normal_exponent M E 0 16 HdM Hyr) as [HE1 HE2].
    assert (Ht : Prim2SF (y * (POSITION_PRECISION / 2))
                 = S754_finite false M (E + 2)).
    { apply (mul_pow2_r y _ false M E 2 Hs HdM half_precision_SF). lia. }
    assert (HT : F2R (y * (POSITION_PRECISION / 2)) = 4 * F2R y).
    { unfold F2R at 1. rewrite Ht. cbn [SF2R]. rewrite powerRZ_2_add, HY.
      simpl (powerRZ 2 2). ring. }
    exists (E + 55)%Z. split; [lia |]. split; [| split].
    + unfold quantize_blur. cbn [snd]. fold y. unfold frexp_exp.
      rewrite Ht, (frexp_normal _ false M (E + 2) Ht HdM).
      replace (E + 2 + 53)%Z with (E + 55)%Z by lia.
      apply mask_of_ones. lia.
    + pose proof (normal_value M (E + 2) HdM) as Hv.
      unfold F2R. rewrite Ht. cbn [SF2R].
      replace (E + 55 - 1)%Z with (E + 2 + 52)%Z by lia.
      replace (E + 55)%Z with (E + 2 + 53)%Z by lia. exact Hv.
    + rewrite HT. apply Rabs_bounds in Herr. apply Rabs_le. lra.
Qed.

End ShadowStep.

Lemma quantize_blur_shadow_step_witness :
  exists ord : Z,
    (3 <= ord <= 19)%Z /\
    (quantize_blur first_order 2).2 = Some (2 ^ ord - 1)%Z /\
    powerRZ 2 (ord - 1)
      <= F2R ((1 + 2 * scale) * (POSITION_PRECISION / 2)) < powerRZ 2 ord /\
    Rabs (F2R ((1 + 2 * scale) * (POSITION_PRECISION / 2))
          - 4 * (1 + F2R 2 / 32))
      <= 4 * (1 + F2R 2 / 32) * powerRZ 2 (-52).
Proof.
  assert (HR : F2R 2 = powerRZ 2 1).
  { unfold F2R. change (Prim2SF 2) with (S754_finite false two_52 (-51)).
    cbn [SF2R]. change (Zpos two_52) with (2 ^ 52)%Z.
    rewrite <- powerRZ_pow2, <- powerRZ_2_add by lia. reflexivity. }
  apply (quantize_blur_shadow_step first_order 2%float).
  - reflexivity.
  - right. rewrite HR. split; apply powerRZ_2_le; lia.
Defined.

End Blur.
